(** * librbd/internal.cc: image lifecycle and coordination engine

    A shallow embedding of the control plane of [src/librbd/internal.cc]:
    clone creation and its compensation ladder, the snapshot protection
    queries, snapshot removal, the lock break entry points, bulk copy,
    I/O clipping and the mirroring state machine.

    Calls that leave this translation unit (the object store, the class
    methods of [cls_client], the asynchronous request objects, the image
    state machine) are operations of an interaction signature [Op]; a
    function of the source is a program [Prog] over that signature, and a
    run of a program against a handler yields the value returned, the
    final world and the trace of the calls made, in order. *)

From stdpp Require Import base gmap list strings.
From Stdlib Require Import ZArith Lia.

Local Open Scope Z_scope.

(** ** Machine integers and constants *)

(** [uint64_t] arithmetic wraps modulo 2^64. *)
Definition wrap64 (z : Z) : Z := z mod 2 ^ 64.

Definition UINT64_MAX : Z := 2 ^ 64 - 1.

(** errno values (Linux, asm-generic). *)
Definition ENOENT : Z := 2.
Definition EIO : Z := 5.
Definition EBUSY : Z := 16.
Definition EEXIST : Z := 17.
Definition EINVAL : Z := 22.
Definition ENOSYS : Z := 38.
Definition EOPNOTSUPP : Z := 95.

(** [CEPH_NOSNAP] is [(uint64_t)(-2)]. *)
Definition CEPH_NOSNAP : Z := 2 ^ 64 - 2.

(** Feature bits of include/rbd/features.h. *)
Definition RBD_FEATURE_LAYERING : Z := 1.
Definition RBD_FEATURE_STRIPINGV2 : Z := 2.
Definition RBD_FEATURE_EXCLUSIVE_LOCK : Z := 4.
Definition RBD_FEATURE_OBJECT_MAP : Z := 8.
Definition RBD_FEATURE_FAST_DIFF : Z := 16.
Definition RBD_FEATURE_DEEP_FLATTEN : Z := 32.
Definition RBD_FEATURE_JOURNALING : Z := 64.
Definition RBD_FEATURE_DATA_POOL : Z := 128.

Definition RBD_FEATURES_ALL : Z :=
  Z.lor RBD_FEATURE_LAYERING
  (Z.lor RBD_FEATURE_STRIPINGV2
  (Z.lor RBD_FEATURE_EXCLUSIVE_LOCK
  (Z.lor RBD_FEATURE_OBJECT_MAP
  (Z.lor RBD_FEATURE_FAST_DIFF
  (Z.lor RBD_FEATURE_DEEP_FLATTEN
  (Z.lor RBD_FEATURE_JOURNALING RBD_FEATURE_DATA_POOL)))))).

(** [~x] on a [uint64_t]. *)
Definition lnot64 (x : Z) : Z := Z.lxor x UINT64_MAX.

(** Image option keys of include/rbd/librbd.h. *)
Definition RBD_IMAGE_OPTION_FORMAT : Z := 0.
Definition RBD_IMAGE_OPTION_FEATURES : Z := 1.
Definition RBD_IMAGE_OPTION_ORDER : Z := 2.
Definition RBD_IMAGE_OPTION_STRIPE_UNIT : Z := 3.
Definition RBD_IMAGE_OPTION_STRIPE_COUNT : Z := 4.
Definition RBD_IMAGE_OPTION_JOURNAL_ORDER : Z := 5.
Definition RBD_IMAGE_OPTION_JOURNAL_SPLAY_WIDTH : Z := 6.
Definition RBD_IMAGE_OPTION_JOURNAL_POOL : Z := 7.
Definition RBD_IMAGE_OPTION_FEATURES_SET : Z := 8.
Definition RBD_IMAGE_OPTION_FEATURES_CLEAR : Z := 9.
Definition RBD_IMAGE_OPTION_DATA_POOL : Z := 10.

(** Flags of [snap_remove]. *)
Definition RBD_SNAP_REMOVE_UNPROTECT : Z := 1.
Definition RBD_SNAP_REMOVE_FLATTEN : Z := 2.

(** [rbd_lock_mode_t]. *)
Definition RBD_LOCK_MODE_EXCLUSIVE : Z := 0.

(** [rbd_mirror_mode_t], as the integer the C API passes. *)
Definition RBD_MIRROR_MODE_DISABLED : Z := 0.
Definition RBD_MIRROR_MODE_IMAGE : Z := 1.
Definition RBD_MIRROR_MODE_POOL : Z := 2.

(** ** Data model *)

Definition bufferlist := list Z.

(** [bufferlist::is_zero]: every byte is zero. *)
Definition is_zero (bl : bufferlist) : bool := forallb (Z.eqb 0) bl.

Record IoCtx := mkIoCtx { io_pool_id : Z }.

Record parent_spec := mkParentSpec {
  ps_pool_id : Z;
  ps_image_id : string;
  ps_snap_id : Z
}.

(** Protection states of a snapshot, as the data model of the
    specification lists them. *)
Inductive ProtectionStatus :=
| Unprotected
| Protecting
| Protected
| Unprotecting.

(** [cls::rbd::SnapshotNamespace]: a variant whose user alternative is
    [UserSnapshotNamespace]. *)
Inductive SnapshotNamespace :=
| UserSnapshotNamespace
| OtherSnapshotNamespace (tag : Z).

Record SnapInfo := mkSnapInfo {
  si_name : string;
  si_size : Z;
  si_protection_status : ProtectionStatus;
  si_namespace : SnapshotNamespace
}.

(** The part of a parent [ImageCtx] that [mirror_image_enable] reads
    through [ictx->parent]. *)
Record ParentCtx := mkParentCtx {
  pc_md_ctx : IoCtx;
  pc_id : string;
  pc_features : Z
}.

(** [ImageCtx]: the cached metadata of an open image. [ic_snap_ids] is
    the name-to-id table and [ic_snap_info] the [std::map<snap_t,
    SnapInfo>], both in key order. *)
Record ImageCtx := mkImageCtx {
  ic_name : string;
  ic_id : string;
  ic_md_ctx : IoCtx;
  ic_header_oid : string;
  ic_snap_id : Z;
  ic_snap_exists : bool;
  ic_old_format : bool;
  ic_features : Z;
  ic_order : Z;
  ic_size : Z;
  ic_snaps : list Z;
  ic_snap_ids : list (string * Z);
  ic_snap_info : list (Z * SnapInfo);
  ic_parent : option ParentCtx;
  ic_parent_md : parent_spec;
  ic_stripe_period : Z;
  ic_concurrent_management_ops : Z;
  ic_blacklist_on_break_lock : bool;
  ic_blacklist_expire_seconds : Z
}.

(** [empty()] of a standard container. *)
Definition is_empty {A} (l : list A) : bool :=
  match l with
  | [] => true
  | _ :: _ => false
  end.

(** [std::map::find] on a map kept as a key-ordered association list. *)
Fixpoint map_find {K V} (eqb : K -> K -> bool) (k : K) (m : list (K * V))
  : option V :=
  match m with
  | [] => None
  | (k', v) :: m' => if eqb k k' then Some v else map_find eqb k m'
  end.

Definition get_snap_info (ictx : ImageCtx) (in_snap_id : Z) : option SnapInfo :=
  map_find Z.eqb in_snap_id (ic_snap_info ictx).

(** Modelled from the spec: [ImageCtx::get_snap_id] is declared in
    ImageCtx.h, which is not part of the sources; it looks the name up
    in the set of known snapshots and answers [CEPH_NOSNAP] when the
    name is unknown. *)
Definition get_snap_id (ictx : ImageCtx) (in_snap_name : string) : Z :=
  match map_find String.eqb in_snap_name (ic_snap_ids ictx) with
  | Some i => i
  | None => CEPH_NOSNAP
  end.

(** Modelled from the spec: [ImageCtx::get_image_size] is not part of
    the sources; the size of the head, or the size the snapshot had at
    the time of capture (0 for an unknown snapshot). *)
Definition get_image_size (ictx : ImageCtx) (in_snap_id : Z) : Z :=
  if in_snap_id =? CEPH_NOSNAP then ic_size ictx
  else match get_snap_info ictx in_snap_id with
       | Some info => si_size info
       | None => 0
       end.

(** Modelled from the spec: [ImageCtx::is_snap_protected] is not part
    of the sources; it answers whether the snapshot is in the protected
    state, and [-ENOENT] for an unknown snapshot id. The second component
    is the out-parameter, unchanged on failure. *)
Definition is_snap_protected (ictx : ImageCtx) (in_snap_id : Z) (cur : bool)
  : Z * bool :=
  match get_snap_info ictx in_snap_id with
  | Some info =>
      (0, match si_protection_status info with Protected => true | _ => false end)
  | None => (- ENOENT, cur)
  end.

(** Modelled from the spec: [ImageCtx::is_snap_unprotected] is not part
    of the sources; it answers whether the snapshot is in the unprotected
    state, and [-ENOENT] for an unknown snapshot id. *)
Definition is_snap_unprotected (ictx : ImageCtx) (in_snap_id : Z) (cur : bool)
  : Z * bool :=
  match get_snap_info ictx in_snap_id with
  | Some info =>
      (0, match si_protection_status info with Unprotected => true | _ => false end)
  | None => (- ENOENT, cur)
  end.

(** Modelled from the spec: [ImageCtx::get_snap_namespace] is not part
    of the sources. *)
Definition ictx_get_snap_namespace (ictx : ImageCtx) (in_snap_id : Z)
  (cur : SnapshotNamespace) : Z * SnapshotNamespace :=
  match get_snap_info ictx in_snap_id with
  | Some info => (0, si_namespace info)
  | None => (- ENOENT, cur)
  end.

(** [ImageCtx::test_features]: all the bits of [test] are set. *)
Definition test_features (ictx : ImageCtx) (test : Z) : bool :=
  Z.land (ic_features ictx) test =? test.

(** ** I/O clipping (internal.cc, [clip_io])

    [off] and [*len] are [uint64_t]; the sum [off + *len] is computed in
    64 bits. [size_t] is taken to be 64 bits wide. The result is the
    return value and the final [*len]. *)
Definition clip_io (ictx : ImageCtx) (off : Z) (len : Z) : Z * Z :=
  let image_size := get_image_size ictx (ic_snap_id ictx) in
  let snap_exists := ic_snap_exists ictx in
  if negb snap_exists then (- ENOENT, len)
  else if len =? 0 then (0, len)
  else if off >=? image_size then (- EINVAL, len)
  else if wrap64 (off + len) >? image_size
       then (0, wrap64 (image_size - off))
       else (0, len).

(** ** Image options (internal.cc, [image_options_*])

    [image_options_t] is a [std::map<int, boost::variant<std::string,
    uint64_t>>]. *)
Inductive image_option_value_t :=
| OptStr (s : string)
| OptU64 (n : Z).

Inductive image_option_type_t := STR | UINT64.

Abbreviation image_options_t := (gmap Z image_option_value_t).

Definition IMAGE_OPTIONS_TYPE_MAPPING : gmap Z image_option_type_t :=
  list_to_map
    [ (RBD_IMAGE_OPTION_FORMAT, UINT64);
      (RBD_IMAGE_OPTION_FEATURES, UINT64);
      (RBD_IMAGE_OPTION_ORDER, UINT64);
      (RBD_IMAGE_OPTION_STRIPE_UNIT, UINT64);
      (RBD_IMAGE_OPTION_STRIPE_COUNT, UINT64);
      (RBD_IMAGE_OPTION_JOURNAL_ORDER, UINT64);
      (RBD_IMAGE_OPTION_JOURNAL_SPLAY_WIDTH, UINT64);
      (RBD_IMAGE_OPTION_JOURNAL_POOL, STR);
      (RBD_IMAGE_OPTION_FEATURES_SET, UINT64);
      (RBD_IMAGE_OPTION_FEATURES_CLEAR, UINT64);
      (RBD_IMAGE_OPTION_DATA_POOL, STR) ].

(** [image_options_set(opts, optname, uint64_t optval)]: the return
    value and the map afterwards. *)
Definition image_options_set (opts : image_options_t) (optname : Z) (optval : Z)
  : Z * image_options_t :=
  match IMAGE_OPTIONS_TYPE_MAPPING !! optname with
  | Some UINT64 => (0, <[optname := OptU64 optval]> opts)
  | _ => (- EINVAL, opts)
  end.

(** [image_options_get(opts, optname, uint64_t* optval)]: the return
    value and the final [*optval], which keeps its value [cur] on failure.
    [None] stands for the [boost::bad_get] thrown when the stored
    alternative is not a [uint64_t]. *)
Definition image_options_get (opts : image_options_t) (optname : Z) (cur : Z)
  : option (Z * Z) :=
  match IMAGE_OPTIONS_TYPE_MAPPING !! optname with
  | Some UINT64 =>
      match opts !! optname with
      | None => Some (- ENOENT, cur)
      | Some (OptU64 v) => Some (0, v)
      | Some (OptStr _) => None
      end
  | _ => Some (- EINVAL, cur)
  end.

(** [image_options_is_set]: the return value and the final [*is_set]. *)
Definition image_options_is_set (opts : image_options_t) (optname : Z) (cur : bool)
  : Z * bool :=
  match IMAGE_OPTIONS_TYPE_MAPPING !! optname with
  | None => (- EINVAL, cur)
  | Some _ => (0, match opts !! optname with Some _ => true | None => false end)
  end.

(** ** Records exchanged with the store *)

Inductive MirrorImageState :=
| MIRROR_IMAGE_STATE_DISABLING
| MIRROR_IMAGE_STATE_ENABLED
| MIRROR_IMAGE_STATE_DISABLED.

Record MirrorImage := mkMirrorImage {
  global_image_id : string;
  mi_state : MirrorImageState
}.

Definition set_state (mi : MirrorImage) (s : MirrorImageState) : MirrorImage :=
  {| global_image_id := global_image_id mi; mi_state := s |}.

(** [cls::rbd::MirrorMode], as the integer read from the store. *)
Definition MIRROR_MODE_DISABLED : Z := 0.
Definition MIRROR_MODE_IMAGE : Z := 1.
Definition MIRROR_MODE_POOL : Z := 2.

Record MirrorPeer := mkMirrorPeer {
  mp_uuid : string;
  mp_cluster_name : string;
  mp_client_name : string
}.

(** [exclusive_lock::Locker]. *)
Record Locker := mkLocker {
  lk_entity : string;
  lk_cookie : string;
  lk_address : string;
  lk_handle : Z
}.

(** An entry of the [Lockers] map of cls_lock: the locker id and the
    address recorded for it, already rendered by [stringify]. *)
Record locker_entry := mkLockerEntry {
  le_locker : string;
  le_cookie : string;
  le_addr : string
}.

(** A chunk operation in flight during a bulk copy. *)
Inductive Pending :=
| PRead (offset len : Z)
| PWrite (offset : Z) (bl : bufferlist).

(** ** Interaction signature

    One constructor per call that leaves internal.cc; the index is the
    type of what the call hands back: the [int] it returns, paired with
    the final value of its out-parameters where it has some. *)
Inductive Op : Type -> Type :=
(* ImageCtx construction and ImageState *)
| StateOpen (io : IoCtx) (name id : string) : Op (Z * ImageCtx)
| StateClose (ictx : ImageCtx) : Op Z
| StateRefresh (ictx : ImageCtx) : Op (Z * ImageCtx)
| StateRefreshIfRequired (ictx : ImageCtx) : Op (Z * ImageCtx)
(* librados *)
| IoStat (io : IoCtx) (oid : string) : Op Z
| PoolList2 : Op (Z * list (Z * string))
| PoolGetBaseTier (pool : Z) : Op (Z * Z)
| IoctxCreate2 (pool : Z) : Op (Z * IoCtx)
| BlacklistAdd (addr : string) (expire : Z) : Op Z
(* cls_client and cls_lock *)
| ClsSetParent (io : IoCtx) (oid : string) (pspec : parent_spec) (size : Z) : Op Z
| ClsAddChild (io : IoCtx) (pspec : parent_spec) (c_id : string) : Op Z
| ClsRemoveChild (io : IoCtx) (pspec : parent_spec) (c_id : string) : Op Z
| ClsGetChildren (io : IoCtx) (pspec : parent_spec) : Op (Z * list string)
| ClsMetadataList (io : IoCtx) (oid : string) (start : string) (max : Z)
    : Op (Z * list (string * bufferlist))
| ClsMetadataSet (io : IoCtx) (oid : string) (pairs : list (string * bufferlist)) : Op Z
| ClsMirrorModeGet (io : IoCtx) : Op (Z * Z)
| ClsMirrorModeSet (io : IoCtx) (mode : Z) : Op Z
| ClsMirrorUuidSet (io : IoCtx) (uuid : string) : Op Z
| ClsMirrorImageGet (io : IoCtx) (id : string) : Op (Z * MirrorImage)
| ClsMirrorImageSet (io : IoCtx) (id : string) (mi : MirrorImage) : Op Z
| ClsMirrorImageList (io : IoCtx) (start : string) (max : Z) : Op (Z * list (string * string))
| ClsMirrorPeerList (io : IoCtx) : Op (Z * list MirrorPeer)
| ClsDirList (io : IoCtx) (start : string) (max : Z) : Op (Z * list (string * string))
| ClsGetFeatures (io : IoCtx) (oid : string) (snap : Z) : Op (Z * Z)
| ClsLockGetInfo (io : IoCtx) (oid : string) : Op (Z * list locker_entry)
| ClsLockBreak (io : IoCtx) (oid : string) (cookie : string) (client : string) : Op Z
(* librbd entry points and request objects *)
| JournalIsTagOwner (ictx : ImageCtx) : Op (Z * bool)
| Create (io : IoCtx) (imgname : string) (size : Z) (opts : image_options_t)
    (non_primary_global_image_id primary_mirror_uuid : string)
    (skip_mirror_enable : bool) : Op (Z * image_options_t)
| Remove (io : IoCtx) (image_name image_id : string) : Op Z
| MirrorEnableRequestId (io : IoCtx) (id non_primary_global_image_id : string) : Op Z
| MirrorEnableRequest (ictx : ImageCtx) : Op Z
| MirrorDisableRequest (ictx : ImageCtx) (force remove : bool) : Op Z
| GetLockerRequest (ictx : ImageCtx) : Op (Z * Locker)
| BreakRequest (ictx : ImageCtx) (locker : Locker)
    (blacklist_locker force_break_lock : bool) : Op Z
| OpSnapUnprotect (ictx : ImageCtx) (snap_name : string) : Op Z
| OpSnapRemove (ictx : ImageCtx) (snap_name : string) : Op Z
| OpFlatten (ictx : ImageCtx) : Op (Z * ImageCtx)
| NotifyUpdate (ictx : ImageCtx) : Op unit
| NotifyModeUpdated (io : IoCtx) (mode : Z) : Op Z
| UuidGenerateRandom : Op string
| UpdateProgress (offset total : Z) : Op unit
(* asynchronous image I/O *)
| AioRead (src : ImageCtx) (offset len : Z) : Op unit
| AioWrite (dest : ImageCtx) (offset len : Z) (bl : bufferlist) : Op unit
| AioPoll (inflight : list Pending) : Op (option (nat * Z * bufferlist))
| AioWait (inflight : list Pending) : Op (nat * Z * bufferlist).

(** ** Programs *)

(** Ways a function stops without returning: [ceph_abort()], a failed
    [assert], a C++ exception, a thread that waits for a completion that
    cannot come, and the fuel of a loop of the model running out. *)
Inductive Halt :=
| HAbort
| HAssert
| HThrow
| HBlocked
| HFuel.

Inductive Prog (R : Type) : Type :=
| Ret (r : R)
| Call {X : Type} (op : Op X) (k : X -> Prog R)
| Stop (h : Halt).

Arguments Ret {R} r.
Arguments Call {R X} op k.
Arguments Stop {R} h.

Fixpoint bind {A B} (m : Prog A) (f : A -> Prog B) : Prog B :=
  match m with
  | Ret a => f a
  | Call op k => Call op (fun x => bind (k x) f)
  | Stop h => Stop h
  end.

Definition call {X} (op : Op X) : Prog X := Call op Ret.

Notation "x <- m ; k" := (bind m (fun x => k))
  (at level 20, m at level 100, k at level 200, only parsing).
Notation "' pat <- m ; k" := (bind m (fun x => match x with pat => k end))
  (at level 20, pat pattern, m at level 100, k at level 200, only parsing).

(** A pure step that can throw. *)
Definition or_throw {A} (o : option A) : Prog A :=
  match o with
  | Some a => Ret a
  | None => Stop HThrow
  end.

(** ** Runs *)

Inductive Event :=
| Ev {X : Type} (op : Op X) (ans : X).

Inductive Outcome (R : Type) :=
| Returned (r : R)
| Halted (h : Halt).

Arguments Returned {R} r.
Arguments Halted {R} h.

(** The environment: how each call is answered, and how it changes the
    world. *)
Definition Handler (W : Type) := forall X, Op X -> W -> X * W.

Fixpoint run {W R} (H : Handler W) (p : Prog R) (w : W)
  : Outcome R * W * list Event :=
  match p with
  | Ret r => (Returned r, w, [])
  | Stop h => (Halted h, w, [])
  | Call op k =>
      let '(x, w1) := H _ op w in
      let '(o, w2, tr) := run H (k x) w1 in
      (o, w2, Ev op x :: tr)
  end.

Definition outcome {W R} (H : Handler W) (p : Prog R) (w : W) : Outcome R :=
  (run H p w).1.1.

Definition trace {W R} (H : Handler W) (p : Prog R) (w : W) : list Event :=
  (run H p w).2.

(** A property of every run of a program, whatever the environment
    answers: at each call, every answer is considered. *)
Fixpoint all_runs {R} (p : Prog R) (Q : list Event -> Outcome R -> Prop) : Prop :=
  match p with
  | Ret r => Q [] (Returned r)
  | Stop h => Q [] (Halted h)
  | Call op k => forall x, all_runs (k x) (fun tr o => Q (Ev op x :: tr) o)
  end.

(** The [int] a function returned, when it returned; the other
    components are what it leaves in its reference parameters. *)
Definition return_value {A} (o : Outcome (Z * A)) : option Z :=
  match o with
  | Returned (r, _) => Some r
  | Halted _ => None
  end.

(** ** Snapshot queries (internal.cc, [get_snap_namespace] and
    [snap_is_protected])

    Each returns the [int], the final value of the out-parameter and the
    image context as the refresh left it. *)
Definition get_snap_namespace (ictx : ImageCtx) (snap_name : string)
  (snap_namespace : SnapshotNamespace)
  : Prog (Z * SnapshotNamespace * ImageCtx) :=
  '(r, ictx) <- call (StateRefreshIfRequired ictx) ;
  if r <? 0 then Ret (r, snap_namespace, ictx)
  else
    let snap_id := get_snap_id ictx snap_name in
    if snap_id =? CEPH_NOSNAP then Ret (- ENOENT, snap_namespace, ictx)
    else
      let '(r, snap_namespace) :=
        ictx_get_snap_namespace ictx snap_id snap_namespace in
      Ret (r, snap_namespace, ictx).

Definition snap_is_protected (ictx : ImageCtx) (snap_name : string)
  (is_protected : bool) : Prog (Z * bool * ImageCtx) :=
  '(r, ictx) <- call (StateRefreshIfRequired ictx) ;
  if r <? 0 then Ret (r, is_protected, ictx)
  else
    let snap_id := get_snap_id ictx snap_name in
    if snap_id =? CEPH_NOSNAP then Ret (- ENOENT, is_protected, ictx)
    else
      (* bool is_unprotected; -- not initialised *)
      let '(r, is_unprotected) := is_snap_unprotected ictx snap_id false in
      Ret (r, negb is_unprotected, ictx).

(** ** Format detection (internal.cc, [detect_format])

    As [clone] calls it: [old_format] and [size] are null pointers.
    [util::old_header_name] appends [RBD_SUFFIX] and [util::id_obj_name]
    prepends [RBD_ID_PREFIX]. *)
Definition old_header_name (name : string) : string := name +:+ ".rbd".
Definition id_obj_name (name : string) : string := "rbd_id." +:+ name.

Definition detect_format (io_ctx : IoCtx) (name : string) : Prog Z :=
  r <- call (IoStat io_ctx (old_header_name name)) ;
  if r =? - ENOENT then
    r <- call (IoStat io_ctx (id_obj_name name)) ;
    if r <? 0 then Ret r else Ret 0
  else if r <? 0 then Ret r
  else Ret 0.

(** ** Clone creation (internal.cc, [clone] on an open parent)

    The three labels of the compensation ladder; each falls through to
    the next, and the value returned is the [r] the jump was taken with. *)
Definition err_remove (c_ioctx : IoCtx) (c_name : string) (r : Z)
  (c_opts : image_options_t) : Prog (Z * image_options_t) :=
  partial_r <- call (Remove c_ioctx c_name "") ;
  Ret (r, c_opts).

Definition err_close_child (c_imctx : ImageCtx) (c_ioctx : IoCtx)
  (c_name : string) (r : Z) (c_opts : image_options_t)
  : Prog (Z * image_options_t) :=
  _ <- call (StateClose c_imctx) ;
  err_remove c_ioctx c_name r c_opts.

Definition err_remove_child (pspec : parent_spec) (c_imctx : ImageCtx)
  (c_ioctx : IoCtx) (c_name : string) (r : Z) (c_opts : image_options_t)
  : Prog (Z * image_options_t) :=
  partial_r <- call (ClsRemoveChild c_ioctx pspec (ic_id c_imctx)) ;
  err_close_child c_imctx c_ioctx c_name r c_opts.

(** The tail of [clone]: mirroring of the new child, then [done]. *)
Definition clone_done (c_imctx : ImageCtx) (c_opts : image_options_t)
  : Prog (Z * image_options_t) :=
  r <- call (StateClose c_imctx) ;
  Ret (r, c_opts).

Definition clone_mirror (pspec : parent_spec) (c_imctx : ImageCtx)
  (c_ioctx : IoCtx) (c_name : string) (c_opts : image_options_t)
  (non_primary_global_image_id : string) : Prog (Z * image_options_t) :=
  if test_features c_imctx RBD_FEATURE_JOURNALING then
    '(r, mirror_mode_internal) <- call (ClsMirrorModeGet (ic_md_ctx c_imctx)) ;
    if (r <? 0) && negb (r =? - ENOENT)
    then err_remove_child pspec c_imctx c_ioctx c_name r c_opts
    else if (mirror_mode_internal =? MIRROR_MODE_POOL)
            || negb (String.eqb non_primary_global_image_id "")
    then
      r <- call (MirrorEnableRequestId (ic_md_ctx c_imctx) (ic_id c_imctx)
                   non_primary_global_image_id) ;
      if r <? 0 then err_remove_child pspec c_imctx c_ioctx c_name r c_opts
      else clone_done c_imctx c_opts
    else clone_done c_imctx c_opts
  else clone_done c_imctx c_opts.

(** The part of [clone] from the creation of the child on. *)
Definition clone_create (p_imctx : ImageCtx) (c_ioctx : IoCtx) (c_name : string)
  (c_opts : image_options_t)
  (non_primary_global_image_id primary_mirror_uuid : string)
  (pspec : parent_spec) (size : Z) (snap_protected : bool)
  : Prog (Z * image_options_t) :=
  '(r, c_opts) <- call (Create c_ioctx c_name size c_opts
                          non_primary_global_image_id primary_mirror_uuid true) ;
  if r <? 0 then Ret (r, c_opts)
  else
  '(r, c_imctx) <- call (StateOpen c_ioctx c_name "") ;
  if r <? 0 then err_remove c_ioctx c_name r c_opts
  else
  r <- call (ClsSetParent c_ioctx (ic_header_oid c_imctx) pspec size) ;
  if r <? 0 then err_close_child c_imctx c_ioctx c_name r c_opts
  else
  r <- call (ClsAddChild c_ioctx pspec (ic_id c_imctx)) ;
  if r <? 0 then err_close_child c_imctx c_ioctx c_name r c_opts
  else
  '(r, p_imctx) <- call (StateRefresh p_imctx) ;
  let '(r, snap_protected) :=
    if r =? 0 then is_snap_protected p_imctx (ic_snap_id p_imctx) snap_protected
    else (r, snap_protected) in
  if (r <? 0) || negb snap_protected
  then err_remove_child pspec c_imctx c_ioctx c_name (- EINVAL) c_opts
  else
  '(r, pairs) <- call (ClsMetadataList (ic_md_ctx p_imctx)
                         (ic_header_oid p_imctx) "" 0) ;
  if (r <? 0) && negb (r =? - EOPNOTSUPP) && negb (r =? - EIO)
  then err_remove_child pspec c_imctx c_ioctx c_name r c_opts
  else if (r =? 0) && negb (is_empty pairs)
  then
    r <- call (ClsMetadataSet c_ioctx (ic_header_oid c_imctx) pairs) ;
    if r <? 0 then err_remove_child pspec c_imctx c_ioctx c_name r c_opts
    else clone_mirror pspec c_imctx c_ioctx c_name c_opts
           non_primary_global_image_id
  else clone_mirror pspec c_imctx c_ioctx c_name c_opts
         non_primary_global_image_id.

(** The resolution of the child's feature set and order, then the
    creation. *)
Definition clone_resolve (p_imctx : ImageCtx) (c_ioctx : IoCtx) (c_name : string)
  (c_opts : image_options_t)
  (non_primary_global_image_id primary_mirror_uuid : string)
  (use_p_features : bool) (features : Z)
  (pspec : parent_spec) (size : Z) (snap_protected : bool)
  : Prog (Z * image_options_t) :=
  let p_features := ic_features p_imctx in
  let features := if use_p_features then p_features else features in
  let order := ic_order p_imctx in
  '(r_get, order) <- or_throw (image_options_get c_opts RBD_IMAGE_OPTION_ORDER order) ;
  let c_opts :=
    if negb (r_get =? 0)
    then (image_options_set c_opts RBD_IMAGE_OPTION_ORDER order).2
    else c_opts in
  if negb (Z.land features RBD_FEATURE_LAYERING =? RBD_FEATURE_LAYERING)
  then Ret (- ENOSYS, c_opts)
  else
  let c_opts := (image_options_set c_opts RBD_IMAGE_OPTION_FEATURES features).2 in
  clone_create p_imctx c_ioctx c_name c_opts
    non_primary_global_image_id primary_mirror_uuid pspec size snap_protected.

(** The validation of the parent, from the moment the child is known
    not to exist. [features] holds the caller's feature set when
    [use_p_features] is false. *)
Definition clone_validate (p_imctx : ImageCtx) (c_ioctx : IoCtx) (c_name : string)
  (c_opts : image_options_t)
  (non_primary_global_image_id primary_mirror_uuid : string)
  (use_p_features : bool) (features : Z) : Prog (Z * image_options_t) :=
  let pspec := mkParentSpec (io_pool_id (ic_md_ctx p_imctx)) (ic_id p_imctx)
                 (ic_snap_id p_imctx) in
  if ic_old_format p_imctx then Ret (- EINVAL, c_opts)
  else
  let p_features := ic_features p_imctx in
  let size := get_image_size p_imctx (ic_snap_id p_imctx) in
  (* bool snap_protected; -- not initialised *)
  let '(r, snap_protected) :=
    is_snap_protected p_imctx (ic_snap_id p_imctx) false in
  if negb (Z.land p_features RBD_FEATURE_LAYERING =? RBD_FEATURE_LAYERING)
  then Ret (- ENOSYS, c_opts)
  else if r <? 0 then Ret (r, c_opts)
  else if negb snap_protected then Ret (- EINVAL, c_opts)
  else
  if negb (Z.land p_features RBD_FEATURE_JOURNALING =? 0) then
    let force_non_primary := negb (String.eqb non_primary_global_image_id "") in
    (* bool is_primary; -- not initialised *)
    '(r, is_primary) <- call (JournalIsTagOwner p_imctx) ;
    if r <? 0 then Ret (r, c_opts)
    else if negb is_primary && negb force_non_primary then Ret (- EINVAL, c_opts)
    else clone_resolve p_imctx c_ioctx c_name c_opts
           non_primary_global_image_id primary_mirror_uuid
           use_p_features features pspec size snap_protected
  else clone_resolve p_imctx c_ioctx c_name c_opts
         non_primary_global_image_id primary_mirror_uuid
         use_p_features features pspec size snap_protected.

(** The check of the caller's feature set and of the absence of the
    child, then the validation of the parent. *)
Definition clone_features (p_imctx : ImageCtx) (c_ioctx : IoCtx) (c_name : string)
  (c_opts : image_options_t)
  (non_primary_global_image_id primary_mirror_uuid : string)
  : Prog (Z * image_options_t) :=
  (* uint64_t features; -- not initialised, read only after a successful get *)
  '(r_get, features) <- or_throw (image_options_get c_opts RBD_IMAGE_OPTION_FEATURES 0) ;
  if (r_get =? 0) && negb (Z.land features (lnot64 RBD_FEATURES_ALL) =? 0)
  then Ret (- ENOSYS, c_opts)
  else
  let use_p_features := negb (r_get =? 0) in
  r <- detect_format c_ioctx c_name ;
  if negb (r =? - ENOENT) then Ret (- EEXIST, c_opts)
  else
  clone_validate p_imctx c_ioctx c_name c_opts
    non_primary_global_image_id primary_mirror_uuid use_p_features features.

(** [clone(ImageCtx *p_imctx, IoCtx& c_ioctx, const char *c_name,
    ImageOptions& c_opts, non_primary_global_image_id,
    primary_mirror_uuid)]: the value returned and [c_opts] as the call
    leaves it. *)
Definition clone (p_imctx : ImageCtx) (c_ioctx : IoCtx) (c_name : string)
  (c_opts : image_options_t)
  (non_primary_global_image_id primary_mirror_uuid : string)
  : Prog (Z * image_options_t) :=
  if ic_snap_id p_imctx =? CEPH_NOSNAP then Ret (- EINVAL, c_opts)
  else
  (* bool default_format_set; -- not initialised *)
  let '(_, default_format_set) :=
    image_options_is_set c_opts RBD_IMAGE_OPTION_FORMAT false in
  let c_opts :=
    if negb default_format_set
    then (image_options_set c_opts RBD_IMAGE_OPTION_FORMAT 2).2
    else c_opts in
  '(_, format) <- or_throw (image_options_get c_opts RBD_IMAGE_OPTION_FORMAT 0) ;
  if format <? 2 then Ret (- EINVAL, c_opts)
  else
  clone_features p_imctx c_ioctx c_name c_opts
    non_primary_global_image_id primary_mirror_uuid.

(** ** Children of a snapshot (internal.cc, [list_children_info])

    [image_info] is a [std::map<pair<int64_t, string>, set<string>>]:
    [insert] keeps an entry that is already there, and iteration is in
    key order. *)
Definition pool_key_ltb (a b : Z * string) : bool :=
  (a.1 <? b.1) || ((a.1 =? b.1) && String.ltb a.2 b.2).

Definition pool_key_eqb (a b : Z * string) : bool :=
  (a.1 =? b.1) && String.eqb a.2 b.2.

Fixpoint map_insert {K V} (ltb eqb : K -> K -> bool) (k : K) (v : V)
  (m : list (K * V)) : list (K * V) :=
  match m with
  | [] => [(k, v)]
  | (k', v') :: m' =>
      if eqb k k' then m
      else if ltb k k' then (k, v) :: m
      else (k', v') :: map_insert ltb eqb k v m'
  end.

Abbreviation children_info := (list ((Z * string) * list string)).

Fixpoint list_children_pools (parent_spec : parent_spec)
  (pools : list (Z * string)) (image_info : children_info)
  : Prog (Z * children_info) :=
  match pools with
  | [] => Ret (0, image_info)
  | it :: pools' =>
      '(r, base_tier) <- call (PoolGetBaseTier it.1) ;
      if r =? - ENOENT then list_children_pools parent_spec pools' image_info
      else if r <? 0 then Ret (r, image_info)
      else if negb (it.1 =? base_tier)
      then list_children_pools parent_spec pools' image_info
      else
      '(r, ioctx) <- call (IoctxCreate2 it.1) ;
      if r =? - ENOENT then list_children_pools parent_spec pools' image_info
      else if r <? 0 then Ret (r, image_info)
      else
      '(r, image_ids) <- call (ClsGetChildren ioctx parent_spec) ;
      if (r <? 0) && negb (r =? - ENOENT) then Ret (r, image_info)
      else list_children_pools parent_spec pools'
             (map_insert pool_key_ltb pool_key_eqb it image_ids image_info)
  end.

Definition list_children_info (ictx : ImageCtx) (parent_spec : parent_spec)
  (image_info : children_info) : Prog (Z * children_info * ImageCtx) :=
  '(r, ictx) <- call (StateRefreshIfRequired ictx) ;
  if r <? 0 then Ret (r, image_info, ictx)
  else if negb (test_features ictx RBD_FEATURE_LAYERING)
  then Ret (0, image_info, ictx)
  else
  let image_info := [] in
  '(r, pools) <- call PoolList2 ;
  if r <? 0 then Ret (r, image_info, ictx)
  else
  '(r, image_info) <- list_children_pools parent_spec pools image_info ;
  Ret (r, image_info, ictx).

(** ** Flattening the children of a snapshot (internal.cc,
    [flatten_children]) *)
Fixpoint flatten_children_ids (ioctx : IoCtx) (ids : list string) : Prog Z :=
  match ids with
  | [] => Ret 0
  | id_it :: ids' =>
      '(r, imctx) <- call (StateOpen ioctx "" id_it) ;
      if r <? 0 then Ret r
      else
      '(r, imctx) <- call (OpFlatten imctx) ;
      if r <? 0 then (_ <- call (StateClose imctx) ; Ret r)
      else
      if (Z.land (ic_features imctx) RBD_FEATURE_DEEP_FLATTEN =? 0)
         && negb (is_empty (ic_snaps imctx))
      then
        r <- call (ClsRemoveChild (ic_md_ctx imctx) (ic_parent_md imctx) (ic_id imctx)) ;
        if (r <? 0) && negb (r =? - ENOENT)
        then (_ <- call (StateClose imctx) ; Ret r)
        else (_ <- call (StateClose imctx) ; flatten_children_ids ioctx ids')
      else (_ <- call (StateClose imctx) ; flatten_children_ids ioctx ids')
  end.

Fixpoint flatten_children_pools (image_info : children_info) (i size : Z)
  : Prog Z :=
  match image_info with
  | [] => Ret 0
  | info :: image_info' =>
      '(r, ioctx) <- call (IoctxCreate2 info.1.1) ;
      if r <? 0 then Ret r
      else
      r <- flatten_children_ids ioctx info.2 ;
      if r <? 0 then Ret r
      else
      let i := i + 1 in
      _ <- call (UpdateProgress i size) ;
      if negb (i <=? size) then Stop HAssert
      else flatten_children_pools image_info' i size
  end.

Definition flatten_children (ictx : ImageCtx) (snap_name : string)
  : Prog (Z * ImageCtx) :=
  let snap_id := get_snap_id ictx snap_name in
  let parent_spec := mkParentSpec (io_pool_id (ic_md_ctx ictx)) (ic_id ictx) snap_id in
  '(r, image_info, ictx) <- list_children_info ictx parent_spec [] ;
  if r <? 0 then Ret (r, ictx)
  else
  let size := Z.of_nat (length image_info) in
  if size =? 0 then Ret (0, ictx)
  else
  r <- flatten_children_pools image_info 0 size ;
  Ret (r, ictx).

(** ** Snapshot removal (internal.cc, [snap_remove]) *)
Definition snap_remove_op (ictx : ImageCtx) (snap_name : string)
  : Prog (Z * ImageCtx) :=
  r <- call (OpSnapRemove ictx snap_name) ;
  Ret (r, ictx).

Definition snap_remove_unprotect (ictx : ImageCtx) (snap_name : string)
  (flags : Z) : Prog (Z * ImageCtx) :=
  (* bool is_protected; -- not initialised *)
  '(r, is_protected, ictx) <- snap_is_protected ictx snap_name false ;
  if r <? 0 then Ret (r, ictx)
  else
  if is_protected && negb (Z.land flags RBD_SNAP_REMOVE_UNPROTECT =? 0) then
    r <- call (OpSnapUnprotect ictx snap_name) ;
    if r <? 0 then Ret (r, ictx)
    else
    '(r, is_protected, ictx) <- snap_is_protected ictx snap_name is_protected ;
    if r <? 0 then Ret (r, ictx)
    else if is_protected then Stop HAbort
    else snap_remove_op ictx snap_name
  else snap_remove_op ictx snap_name.

(** The steps of [snap_remove] that come before the protection is
    looked at: the namespace of the snapshot, the refresh, and the
    flattening of the children when it is asked for. *)
Definition snap_remove_prepare (ictx : ImageCtx) (snap_name : string) (flags : Z)
  : Prog (Z * ImageCtx) :=
  '(r, snap_namespace, ictx) <-
    get_snap_namespace ictx snap_name UserSnapshotNamespace ;
  if r <? 0 then Ret (r, ictx)
  else
  match snap_namespace with
  | OtherSnapshotNamespace _ => Ret (- EINVAL, ictx)
  | UserSnapshotNamespace =>
      '(r, ictx) <- call (StateRefreshIfRequired ictx) ;
      if r <? 0 then Ret (r, ictx)
      else
      if negb (Z.land flags RBD_SNAP_REMOVE_FLATTEN =? 0) then
        '(r, ictx) <- flatten_children ictx snap_name ;
        if r <? 0 then Ret (r, ictx)
        else Ret (0, ictx)
      else Ret (0, ictx)
  end.

(** [snap_remove(ImageCtx *ictx, const char *snap_name, uint32_t flags,
    ProgressContext& pctx)]: a negative [r] of the preliminary steps is
    returned as it is. *)
Definition snap_remove (ictx : ImageCtx) (snap_name : string) (flags : Z)
  : Prog (Z * ImageCtx) :=
  '(r, ictx) <- snap_remove_prepare ictx snap_name flags ;
  if r <? 0 then Ret (r, ictx)
  else snap_remove_unprotect ictx snap_name flags.

(** ** Breaking a lock (internal.cc, [lock_break] and [break_lock]) *)
Definition lock_break (ictx : ImageCtx) (lock_mode : Z) (lock_owner : string)
  : Prog Z :=
  if negb (lock_mode =? RBD_LOCK_MODE_EXCLUSIVE) then Ret (- EOPNOTSUPP)
  else
  '(r, locker) <- call (GetLockerRequest ictx) ;
  if r =? - ENOENT then Ret r
  else if r <? 0 then Ret r
  else
  if negb (String.eqb (lk_address locker) lock_owner) then Ret (- EBUSY)
  else
  r <- call (BreakRequest ictx locker (ic_blacklist_on_break_lock ictx) true) ;
  if r =? - ENOENT then Ret r
  else if r <? 0 then Ret r
  else Ret 0.


Section BreakLock.

(** [entity_name_t::parse] is not part of the sources: it is a parameter,
    answering the parsed name, or nothing for a string that does not
    parse. *)
Variable entity_name_parse : string -> option string.



End BreakLock.

(** ** Mirroring of one image (internal.cc, [mirror_image_enable_internal],
    [mirror_image_disable_internal], [mirror_image_enable],
    [mirror_image_disable]) *)
Definition mirror_image_enable_internal (ictx : ImageCtx) : Prog Z :=
  if Z.land (ic_features ictx) RBD_FEATURE_JOURNALING =? 0 then Ret (- EINVAL)
  else
  r <- call (MirrorEnableRequest ictx) ;
  if r <? 0 then Ret r
  else Ret 0.

Definition mirror_image_disable_internal (ictx : ImageCtx) (force remove : bool)
  : Prog Z :=
  r <- call (MirrorDisableRequest ictx force remove) ;
  if r <? 0 then Ret r
  else Ret 0.

Definition mirror_image_enable (ictx : ImageCtx)
  (relax_same_pool_parent_check : bool) : Prog Z :=
  '(r, ictx) <- call (StateRefreshIfRequired ictx) ;
  if r <? 0 then Ret r
  else
  '(r, mirror_mode) <- call (ClsMirrorModeGet (ic_md_ctx ictx)) ;
  if r <? 0 then Ret r
  else if negb (mirror_mode =? MIRROR_MODE_IMAGE) then Ret (- EINVAL)
  else
  let enable :=
    r <- mirror_image_enable_internal ictx ;
    if r <? 0 then Ret r else Ret 0 in
  match ic_parent ictx with
  | Some parent =>
      if relax_same_pool_parent_check
         && (io_pool_id (pc_md_ctx parent) =? io_pool_id (ic_md_ctx ictx))
      then
        if negb (Z.land (pc_features parent) RBD_FEATURE_JOURNALING
                 =? RBD_FEATURE_JOURNALING)
        then Ret (- EINVAL)
        else enable
      else
        '(r, mirror_image_internal) <-
          call (ClsMirrorImageGet (pc_md_ctx parent) (pc_id parent)) ;
        if r =? - ENOENT then Ret (- EINVAL)
        else enable
  | None => enable
  end.

(** The check of one child, of the children found in one pool, and of
    the pools of one snapshot. The boolean is the [rollback] flag. *)
Fixpoint disable_check_ids (ioctx : IoCtx) (ids : list string)
  : Prog (Z * bool) :=
  match ids with
  | [] => Ret (0, false)
  | id_it :: ids' =>
      '(r, mirror_image_internal) <- call (ClsMirrorImageGet ioctx id_it) ;
      if negb (r =? - ENOENT) then Ret (- EBUSY, true)
      else disable_check_ids ioctx ids'
  end.

Fixpoint disable_check_pools (image_info : children_info) : Prog (Z * bool) :=
  match image_info with
  | [] => Ret (0, false)
  | info :: image_info' =>
      '(r, ioctx) <- call (IoctxCreate2 info.1.1) ;
      if r <? 0 then Ret (r, true)
      else
      '(r, rollback) <- disable_check_ids ioctx info.2 ;
      if rollback then Ret (r, rollback)
      else disable_check_pools image_info'
  end.

Fixpoint disable_check_snaps (ictx : ImageCtx) (snap_info : list (Z * SnapInfo))
  : Prog (Z * bool * ImageCtx) :=
  match snap_info with
  | [] => Ret (0, false, ictx)
  | info :: snap_info' =>
      let parent_spec :=
        mkParentSpec (io_pool_id (ic_md_ctx ictx)) (ic_id ictx) info.1 in
      '(r, image_info, ictx) <- list_children_info ictx parent_spec [] ;
      if r <? 0 then Ret (r, true, ictx)
      else if is_empty image_info then disable_check_snaps ictx snap_info'
      else
      '(r, rollback) <- disable_check_pools image_info ;
      if rollback then Ret (r, rollback, ictx)
      else disable_check_snaps ictx snap_info'
  end.

(** The block guarded by [BOOST_SCOPE_EXIT_ALL]: the value returned, the
    [rollback] flag at scope exit and the image context. *)
Definition mirror_image_disable_guarded (ictx : ImageCtx) (force : bool)
  : Prog (Z * bool * ImageCtx) :=
  let snap_info := ic_snap_info ictx in
  '(r, rollback, ictx) <- disable_check_snaps ictx snap_info ;
  if rollback then Ret (r, rollback, ictx)
  else
  r <- mirror_image_disable_internal ictx force true ;
  if r <? 0 then Ret (r, true, ictx)
  else Ret (0, false, ictx).

Definition mirror_image_disable (ictx : ImageCtx) (force : bool) : Prog Z :=
  '(r, ictx) <- call (StateRefreshIfRequired ictx) ;
  if r <? 0 then Ret r
  else
  '(r, mirror_mode) <- call (ClsMirrorModeGet (ic_md_ctx ictx)) ;
  if r <? 0 then Ret r
  else if negb (mirror_mode =? MIRROR_MODE_IMAGE) then Ret (- EINVAL)
  else
  '(r, mirror_image_internal) <-
    call (ClsMirrorImageGet (ic_md_ctx ictx) (ic_id ictx)) ;
  if r =? - ENOENT then Ret 0
  else if r =? - EOPNOTSUPP then Ret r
  else if r <? 0 then Ret r
  else
  let mirror_image_internal :=
    set_state mirror_image_internal MIRROR_IMAGE_STATE_DISABLING in
  r <- call (ClsMirrorImageSet (ic_md_ctx ictx) (ic_id ictx) mirror_image_internal) ;
  if r <? 0 then Ret r
  else
  '(r, rollback, ictx) <- mirror_image_disable_guarded ictx force ;
  if rollback then
    let mirror_image_internal :=
      set_state mirror_image_internal MIRROR_IMAGE_STATE_ENABLED in
    _ <- call (ClsMirrorImageSet (ic_md_ctx ictx) (ic_id ictx) mirror_image_internal) ;
    Ret r
  else Ret r.

(** ** Pool mirror mode (internal.cc, [list_images_v2],
    [list_mirror_images], [mirror_mode_set])

    The two listings page through a directory until a page comes back
    short; [fuel] bounds the number of pages. *)
Fixpoint insert_all (page : list (string * string)) (images : list (string * string))
  : list (string * string) :=
  match page with
  | [] => images
  | (k, v) :: page' => insert_all page' (map_insert String.ltb String.eqb k v images)
  end.

Definition last_key (page : list (string * string)) (last_read : string) : string :=
  match last page with
  | Some kv => kv.1
  | None => last_read
  end.

Definition max_read : Z := 1024.

Fixpoint list_images_v2 (fuel : nat) (io_ctx : IoCtx) (last_read : string)
  (images : list (string * string)) : Prog (Z * list (string * string)) :=
  match fuel with
  | O => Stop HFuel
  | S fuel' =>
      '(r, images_page) <- call (ClsDirList io_ctx last_read max_read) ;
      if (r <? 0) && negb (r =? - ENOENT) then Ret (r, images)
      else if r =? - ENOENT then Ret (0, images)
      else
      let images := insert_all images_page images in
      let last_read := last_key images_page last_read in
      let r := Z.of_nat (length images_page) in
      if r =? max_read then list_images_v2 fuel' io_ctx last_read images
      else Ret (0, images)
  end.

(** [std::set<std::string>::insert], the set kept in iteration order. *)
Fixpoint set_insert (k : string) (s : list string) : list string :=
  match s with
  | [] => [k]
  | k' :: s' =>
      if String.eqb k k' then s
      else if String.ltb k k' then k :: s
      else k' :: set_insert k s'
  end.

Fixpoint insert_ids (page : list (string * string)) (ids : list string)
  : list string :=
  match page with
  | [] => ids
  | it :: page' => insert_ids page' (set_insert it.1 ids)
  end.

Fixpoint list_mirror_images (fuel : nat) (io_ctx : IoCtx) (last_read : string)
  (mirror_image_ids : list string) : Prog (Z * list string) :=
  match fuel with
  | O => Stop HFuel
  | S fuel' =>
      '(r, mirror_images) <- call (ClsMirrorImageList io_ctx last_read max_read) ;
      if r <? 0 then Ret (r, mirror_image_ids)
      else
      let mirror_image_ids := insert_ids mirror_images mirror_image_ids in
      let last_read := last_key mirror_images last_read in
      let r := Z.of_nat (length mirror_images) in
      if r =? max_read then list_mirror_images fuel' io_ctx last_read mirror_image_ids
      else Ret (0, mirror_image_ids)
  end.

(** [util::header_name] prepends [RBD_HEADER_PREFIX]. *)
Definition header_name (image_id : string) : string := "rbd_header." +:+ image_id.

(** The loop of the transition to pool mode. *)
Fixpoint mirror_mode_enable_images (io_ctx : IoCtx) (images : list (string * string))
  : Prog Z :=
  match images with
  | [] => Ret 0
  | img_pair :: images' =>
      '(r, features) <-
        call (ClsGetFeatures io_ctx (header_name img_pair.2) CEPH_NOSNAP) ;
      if r <? 0 then Ret r
      else if negb (Z.land features RBD_FEATURE_JOURNALING =? 0) then
        '(r, img_ctx) <- call (StateOpen io_ctx "" img_pair.2) ;
        if r <? 0 then Ret r
        else
        r <- mirror_image_enable img_ctx true ;
        if r <? 0 then Ret r
        else
        r <- call (StateClose img_ctx) ;
        if r <? 0 then Ret r
        else mirror_mode_enable_images io_ctx images'
      else mirror_mode_enable_images io_ctx images'
  end.

(** The loop of the transition to the disabled mode. *)
Fixpoint mirror_mode_disable_images (io_ctx : IoCtx) (current_mirror_mode : Z)
  (image_ids : list string) : Prog Z :=
  match image_ids with
  | [] => Ret 0
  | img_id :: image_ids' =>
      if current_mirror_mode =? MIRROR_MODE_IMAGE then
        '(r, mirror_image) <- call (ClsMirrorImageGet io_ctx img_id) ;
        if (r <? 0) && negb (r =? - ENOENT) then Ret r
        else
        match mi_state mirror_image with
        | MIRROR_IMAGE_STATE_ENABLED => Ret (- EINVAL)
        | _ => mirror_mode_disable_images io_ctx current_mirror_mode image_ids'
        end
      else
        '(r, img_ctx) <- call (StateOpen io_ctx "" img_id) ;
        if r <? 0 then Ret r
        else
        r <- mirror_image_disable img_ctx false ;
        if r <? 0 then Ret r
        else
        r <- call (StateClose img_ctx) ;
        if r <? 0 then Ret r
        else mirror_mode_disable_images io_ctx current_mirror_mode image_ids'
  end.

(** The end of [mirror_mode_set]: the mode is stored and announced. *)
Definition mirror_mode_store (io_ctx : IoCtx) (next_mirror_mode : Z) : Prog Z :=
  r <- call (ClsMirrorModeSet io_ctx next_mirror_mode) ;
  if r <? 0 then Ret r
  else
  r <- call (NotifyModeUpdated io_ctx next_mirror_mode) ;
  Ret 0.

(** From the test [next_mirror_mode == MIRROR_MODE_IMAGE] on. *)
Definition mirror_mode_images (fuel : nat) (io_ctx : IoCtx)
  (current_mirror_mode next_mirror_mode : Z) : Prog Z :=
  if next_mirror_mode =? MIRROR_MODE_IMAGE then Ret 0
  else
  if next_mirror_mode =? MIRROR_MODE_POOL then
    '(r, images) <- list_images_v2 fuel io_ctx "" [] ;
    if r <? 0 then Ret r
    else
    r <- mirror_mode_enable_images io_ctx images ;
    if r <? 0 then Ret r
    else mirror_mode_store io_ctx next_mirror_mode
  else if next_mirror_mode =? MIRROR_MODE_DISABLED then
    '(r, image_ids) <- list_mirror_images fuel io_ctx "" [] ;
    if r <? 0 then Ret r
    else
    r <- mirror_mode_disable_images io_ctx current_mirror_mode image_ids ;
    if r <? 0 then Ret r
    else mirror_mode_store io_ctx next_mirror_mode
  else mirror_mode_store io_ctx next_mirror_mode.

(** From the passage through image mode on. *)
Definition mirror_mode_walk (fuel : nat) (io_ctx : IoCtx)
  (current_mirror_mode next_mirror_mode : Z) : Prog Z :=
  if negb (current_mirror_mode =? MIRROR_MODE_IMAGE) then
    r <- call (ClsMirrorModeSet io_ctx MIRROR_MODE_IMAGE) ;
    if r <? 0 then Ret r
    else
    r <- call (NotifyModeUpdated io_ctx MIRROR_MODE_IMAGE) ;
    mirror_mode_images fuel io_ctx current_mirror_mode next_mirror_mode
  else mirror_mode_images fuel io_ctx current_mirror_mode next_mirror_mode.

(** From the reading of the current mode on. *)
Definition mirror_mode_transition (fuel : nat) (io_ctx : IoCtx)
  (next_mirror_mode : Z) : Prog Z :=
  '(r, current_mirror_mode) <- call (ClsMirrorModeGet io_ctx) ;
  if r <? 0 then Ret r
  else
  if current_mirror_mode =? next_mirror_mode then Ret 0
  else if current_mirror_mode =? MIRROR_MODE_DISABLED then
    uuid_gen <- call UuidGenerateRandom ;
    r <- call (ClsMirrorUuidSet io_ctx uuid_gen) ;
    if r <? 0 then Ret r
    else mirror_mode_walk fuel io_ctx current_mirror_mode next_mirror_mode
  else mirror_mode_walk fuel io_ctx current_mirror_mode next_mirror_mode.

Definition mirror_mode_set (fuel : nat) (io_ctx : IoCtx) (mirror_mode : Z)
  : Prog Z :=
  if (mirror_mode =? RBD_MIRROR_MODE_DISABLED)
     || (mirror_mode =? RBD_MIRROR_MODE_IMAGE)
     || (mirror_mode =? RBD_MIRROR_MODE_POOL)
  then
    let next_mirror_mode := mirror_mode in
    if next_mirror_mode =? MIRROR_MODE_DISABLED then
      '(r, mirror_peers) <- call (ClsMirrorPeerList io_ctx) ;
      if (r <? 0) && negb (r =? - ENOENT) then Ret r
      else if negb (is_empty mirror_peers) then Ret (- EBUSY)
      else mirror_mode_transition fuel io_ctx next_mirror_mode
    else mirror_mode_transition fuel io_ctx next_mirror_mode
  else Ret (- EINVAL).

(** ** Bulk copy (internal.cc, [C_CopyWrite], [C_CopyRead], [copy]) *)

(** Modelled from the spec: [SimpleThrottle] (common/Throttle.h) is not
    part of the sources. It bounds the number of outstanding chunk
    operations by [m_max], and it keeps the first error reported to it:
    [end_op] records a negative result only while no error is recorded.
    [start_op] blocks while [m_max] operations are outstanding and
    [wait_for_ret] blocks until none is. *)
Record SimpleThrottle := mkSimpleThrottle {
  m_max : Z;
  m_current : Z;
  m_ret : Z;
  m_ignore_enoent : bool
}.

Definition throttle_new (max : Z) (ignore_enoent : bool) : SimpleThrottle :=
  mkSimpleThrottle max 0 0 ignore_enoent.

Definition start_op_ready (t : SimpleThrottle) : bool :=
  negb (m_max t =? m_current t).

Definition start_op (t : SimpleThrottle) : SimpleThrottle :=
  mkSimpleThrottle (m_max t) (wrap64 (m_current t + 1)) (m_ret t) (m_ignore_enoent t).

Definition end_op (t : SimpleThrottle) (r : Z) : SimpleThrottle :=
  mkSimpleThrottle (m_max t) (wrap64 (m_current t - 1))
    (if (r <? 0) && (m_ret t =? 0)
        && negb ((r =? - ENOENT) && m_ignore_enoent t)
     then r else m_ret t)
    (m_ignore_enoent t).

Definition pending_error (t : SimpleThrottle) : bool := m_ret t <? 0.

Definition drained (t : SimpleThrottle) : bool := m_current t =? 0.

(** The throttle and the chunk operations whose completion is still to
    come, oldest first. *)
Record CopyState := mkCopyState {
  cs_throttle : SimpleThrottle;
  cs_inflight : list Pending
}.

(** The number of completions the operations in flight can still
    produce: a read completes and may leave a write behind. *)
Fixpoint completions_left (l : list Pending) : nat :=
  match l with
  | [] => O
  | PRead _ _ :: l' => S (S (completions_left l'))
  | PWrite _ _ :: l' => S (completions_left l')
  end.

(** [C_CopyWrite::finish(r)]. *)
Definition C_CopyWrite_finish (st : CopyState) (r : Z) : CopyState :=
  mkCopyState (end_op (cs_throttle st) r) (cs_inflight st).

(** [C_CopyRead::finish(r)], for the read of [m_offset] that filled
    [m_bl]. *)
Definition C_CopyRead_finish (m_dest : ImageCtx) (m_offset : Z)
  (m_bl : bufferlist) (st : CopyState) (r : Z) : Prog CopyState :=
  if r <? 0 then Ret (mkCopyState (end_op (cs_throttle st) r) (cs_inflight st))
  else if negb (Z.of_nat (length m_bl) =? r) then Stop HAssert
  else if is_zero m_bl
  then Ret (mkCopyState (end_op (cs_throttle st) r) (cs_inflight st))
  else
  _ <- call (AioWrite m_dest m_offset (Z.of_nat (length m_bl)) m_bl) ;
  Ret (mkCopyState (cs_throttle st) (cs_inflight st ++ [PWrite m_offset m_bl])).

(** The completion the environment delivers: the operation in flight at
    index [c.1.1] finishes with result [c.1.2]; for a read, [c.2] is the
    data read. Nothing completes when the index names no operation. *)
Definition complete (dest : ImageCtx) (st : CopyState)
  (c : nat * Z * bufferlist) : Prog (option CopyState) :=
  let '(i, r, bl) := c in
  let rest := mkCopyState (cs_throttle st) (delete i (cs_inflight st)) in
  match cs_inflight st !! i with
  | None => Ret None
  | Some (PRead offset len) =>
      st' <- C_CopyRead_finish dest offset bl rest r ;
      Ret (Some st')
  | Some (PWrite offset wbl) => Ret (Some (C_CopyWrite_finish rest r))
  end.

(** A thread blocked on the throttle's condition: completions are
    awaited until [ready] holds. [n] bounds the completions that can
    still come. *)
Fixpoint wait_until (ready : SimpleThrottle -> bool) (dest : ImageCtx)
  (n : nat) (st : CopyState) : Prog CopyState :=
  if ready (cs_throttle st) then Ret st
  else
    match n with
    | O => Stop HBlocked
    | S n' =>
        c <- call (AioWait (cs_inflight st)) ;
        o <- complete dest st c ;
        match o with
        | None => Stop HBlocked
        | Some st' => wait_until ready dest n' st'
        end
    end.

(** Completions that arrive while the copying thread runs. *)
Fixpoint poll (dest : ImageCtx) (n : nat) (st : CopyState) : Prog CopyState :=
  match n with
  | O => Ret st
  | S n' =>
      o <- call (AioPoll (cs_inflight st)) ;
      match o with
      | None => Ret st
      | Some c =>
          o' <- complete dest st c ;
          match o' with
          | None => Ret st
          | Some st' => poll dest n' st'
          end
      end
  end.

(** [SimpleThrottle::wait_for_ret]. *)
Definition wait_for_ret (dest : ImageCtx) (st : CopyState) : Prog Z :=
  st <- wait_until drained dest (completions_left (cs_inflight st)) st ;
  Ret (m_ret (cs_throttle st)).

(** The sweep of [copy]; [fuel] bounds the number of chunks. *)
Fixpoint copy_loop (fuel : nat) (src dest : ImageCtx) (src_size period : Z)
  (st : CopyState) (offset : Z) : Prog Z :=
  match fuel with
  | O => Stop HFuel
  | S fuel' =>
      if offset <? src_size then
        st <- poll dest (completions_left (cs_inflight st)) st ;
        if pending_error (cs_throttle st) then wait_for_ret dest st
        else
        let len := Z.min period (wrap64 (src_size - offset)) in
        (* new C_CopyRead: the constructor calls start_op *)
        st <- wait_until start_op_ready dest (completions_left (cs_inflight st)) st ;
        let st := mkCopyState (start_op (cs_throttle st))
                    (cs_inflight st ++ [PRead offset len]) in
        _ <- call (AioRead src offset len) ;
        _ <- call (UpdateProgress offset src_size) ;
        copy_loop fuel' src dest src_size period st (wrap64 (offset + period))
      else
        r <- wait_for_ret dest st ;
        if r >=? 0 then
          _ <- call (UpdateProgress src_size src_size) ;
          Ret r
        else Ret r
  end.

(** [copy(ImageCtx *src, ImageCtx *dest, ProgressContext &prog_ctx)]. *)
Definition copy_sweep (fuel : nat) (src dest : ImageCtx) (src_size : Z) : Prog Z :=
  let throttle := throttle_new (ic_concurrent_management_ops src) false in
  let period := ic_stripe_period src in
  copy_loop fuel src dest src_size period (mkCopyState throttle []) 0.

Definition copy (fuel : nat) (src dest : ImageCtx) : Prog Z :=
  let src_size := get_image_size src (ic_snap_id src) in
  let dest_size := get_image_size dest (ic_snap_id dest) in
  if dest_size <? src_size then Ret (- EINVAL)
  else
  '(r, pairs) <- call (ClsMetadataList (ic_md_ctx src) (ic_header_oid src) "" 0) ;
  if (r <? 0) && negb (r =? - EOPNOTSUPP) && negb (r =? - EIO) then Ret r
  else if (r =? 0) && negb (is_empty pairs) then
    r <- call (ClsMetadataSet (ic_md_ctx dest) (ic_header_oid dest) pairs) ;
    if r <? 0 then Ret r
    else copy_sweep fuel src dest src_size
  else copy_sweep fuel src dest src_size.

(** ** Environments for concrete runs *)

(** An image with no snapshot, in pool 1. *)
Definition plain_image (name id : string) (size : Z) : ImageCtx :=
  {| ic_name := name; ic_id := id; ic_md_ctx := mkIoCtx 1;
     ic_header_oid := header_name id;
     ic_snap_id := CEPH_NOSNAP; ic_snap_exists := true;
     ic_old_format := false; ic_features := RBD_FEATURE_LAYERING;
     ic_order := 22; ic_size := size;
     ic_snaps := []; ic_snap_ids := []; ic_snap_info := [];
     ic_parent := None; ic_parent_md := mkParentSpec (-1) "" CEPH_NOSNAP;
     ic_stripe_period := 4194304; ic_concurrent_management_ops := 10;
     ic_blacklist_on_break_lock := true; ic_blacklist_expire_seconds := 0 |}.

(** The same image with one snapshot [s1] (id 4) in protection state
    [st], opened at [sel]: the snapshot id or [CEPH_NOSNAP]. *)
Definition snap_image (name id : string) (size : Z) (st : ProtectionStatus)
  (sel : Z) : ImageCtx :=
  {| ic_name := name; ic_id := id; ic_md_ctx := mkIoCtx 1;
     ic_header_oid := header_name id;
     ic_snap_id := sel; ic_snap_exists := true;
     ic_old_format := false; ic_features := RBD_FEATURE_LAYERING;
     ic_order := 22; ic_size := size;
     ic_snaps := [4]; ic_snap_ids := [("s1"%string, 4)];
     ic_snap_info := [(4, mkSnapInfo "s1" size st UserSnapshotNamespace)];
     ic_parent := None; ic_parent_md := mkParentSpec (-1) "" CEPH_NOSNAP;
     ic_stripe_period := 4194304; ic_concurrent_management_ops := 10;
     ic_blacklist_on_break_lock := true; ic_blacklist_expire_seconds := 0 |}.

(** The answers of a store in which nothing fails and nothing exists
    yet: every call succeeds, lookups of records come back [-ENOENT],
    listings are empty, a refresh changes nothing. *)
Definition quiet_answer {X} (op : Op X) : X :=
  match op in Op X return X with
  | StateOpen io name id => (0, plain_image name id 0)
  | StateClose _ => 0
  | StateRefresh ictx => (0, ictx)
  | StateRefreshIfRequired ictx => (0, ictx)
  | IoStat _ _ => - ENOENT
  | PoolList2 => (0, [])
  | PoolGetBaseTier pool => (0, pool)
  | IoctxCreate2 pool => (0, mkIoCtx pool)
  | BlacklistAdd _ _ => 0
  | ClsSetParent _ _ _ _ => 0
  | ClsAddChild _ _ _ => 0
  | ClsRemoveChild _ _ _ => 0
  | ClsGetChildren _ _ => (0, [])
  | ClsMetadataList _ _ _ _ => (0, [])
  | ClsMetadataSet _ _ _ => 0
  | ClsMirrorModeGet _ => (0, MIRROR_MODE_DISABLED)
  | ClsMirrorModeSet _ _ => 0
  | ClsMirrorUuidSet _ _ => 0
  | ClsMirrorImageGet _ _ => (- ENOENT, mkMirrorImage "" MIRROR_IMAGE_STATE_DISABLING)
  | ClsMirrorImageSet _ _ _ => 0
  | ClsMirrorImageList _ _ _ => (0, [])
  | ClsMirrorPeerList _ => (0, [])
  | ClsDirList _ _ _ => (0, [])
  | ClsGetFeatures _ _ _ => (0, 0)
  | ClsLockGetInfo _ _ => (0, [])
  | ClsLockBreak _ _ _ _ => 0
  | JournalIsTagOwner _ => (0, true)
  | Create _ _ _ opts _ _ _ => (0, opts)
  | Remove _ _ _ => 0
  | MirrorEnableRequestId _ _ _ => 0
  | MirrorEnableRequest _ => 0
  | MirrorDisableRequest _ _ _ => 0
  | GetLockerRequest _ => (- ENOENT, mkLocker "" "" "" 0)
  | BreakRequest _ _ _ _ => 0
  | OpSnapUnprotect _ _ => 0
  | OpSnapRemove _ _ => 0
  | OpFlatten ictx => (0, ictx)
  | NotifyUpdate _ => tt
  | NotifyModeUpdated _ _ => 0
  | UuidGenerateRandom => "00000000-0000-0000-0000-000000000000"%string
  | UpdateProgress _ _ => tt
  | AioRead _ _ _ => tt
  | AioWrite _ _ _ _ => tt
  | AioPoll _ => None
  | AioWait _ => (O, 0, [])
  end.

Definition quiet : Handler unit := fun X op w => (quiet_answer op, w).

(** A store in which opening an image fails with [-EIO]. *)
Definition open_fails : Handler unit := fun X op w =>
  match op in Op X return X * unit with
  | StateOpen io name id => ((- EIO, plain_image name id 0), w)
  | op' => (quiet_answer op', w)
  end.

(** ** Observations on traces *)

(** The observations [f] makes of the events of a trace, in order. *)
Fixpoint keep {A} (f : Event -> option A) (tr : list Event) : list A :=
  match tr with
  | [] => []
  | e :: tr' =>
      match f e with
      | Some a => a :: keep f tr'
      | None => keep f tr'
      end
  end.

(** ** Observations on the trace of a clone *)

(** The three compensating actions of [clone], each with what it is
    called on: the entry removed from the child index, the handle closed
    and the image deleted. *)
Inductive Compensation :=
| RemoveFromChildIndex (io : IoCtx) (pspec : parent_spec) (c_id : string)
| CloseChild (c_imctx : ImageCtx)
| DeleteChildImage (io : IoCtx) (image_name image_id : string).

Definition compensation_of (e : Event) : option Compensation :=
  match e with
  | Ev op _ =>
      match op with
      | ClsRemoveChild io pspec c_id => Some (RemoveFromChildIndex io pspec c_id)
      | StateClose c_imctx => Some (CloseChild c_imctx)
      | Remove io image_name image_id => Some (DeleteChildImage io image_name image_id)
      | _ => None
      end
  end.

Definition compensations (tr : list Event) : list Compensation :=
  keep compensation_of tr.

(** The calls of [clone] that create, open, link, register, unregister,
    close and delete an image, and the refresh of the parent, each with
    its arguments and what it answered. *)
Inductive ChildCall :=
| Created (io : IoCtx) (imgname : string) (size : Z) (r : Z)
| Opened (io : IoCtx) (name id : string) (r : Z) (c_imctx : ImageCtx)
| ParentSet (io : IoCtx) (oid : string) (pspec : parent_spec) (overlap : Z) (r : Z)
| Registered (io : IoCtx) (pspec : parent_spec) (c_id : string) (r : Z)
| ParentRefreshed (p_imctx : ImageCtx) (r : Z) (p_imctx' : ImageCtx)
| Unregistered (io : IoCtx) (pspec : parent_spec) (c_id : string) (r : Z)
| Closed (c_imctx : ImageCtx) (r : Z)
| Deleted (io : IoCtx) (image_name image_id : string) (r : Z).

Definition child_call_of (e : Event) : option ChildCall :=
  match e with
  | Ev op ans =>
      match op in Op X return X -> option ChildCall with
      | Create io imgname size _ _ _ _ => fun a => Some (Created io imgname size a.1)
      | StateOpen io name id => fun a => Some (Opened io name id a.1 a.2)
      | ClsSetParent io oid pspec size => fun r => Some (ParentSet io oid pspec size r)
      | ClsAddChild io pspec c_id => fun r => Some (Registered io pspec c_id r)
      | StateRefresh p_imctx => fun a => Some (ParentRefreshed p_imctx a.1 a.2)
      | ClsRemoveChild io pspec c_id => fun r => Some (Unregistered io pspec c_id r)
      | StateClose c_imctx => fun r => Some (Closed c_imctx r)
      | Remove io image_name image_id => fun r => Some (Deleted io image_name image_id r)
      | _ => fun _ => None
      end ans
  end.

Definition child_calls (tr : list Event) : list ChildCall := keep child_call_of tr.

(** [parent_spec pspec(p_imctx->md_ctx.get_id(), p_imctx->id,
    p_imctx->snap_id)]. *)
Definition parent_spec_of (p_imctx : ImageCtx) : parent_spec :=
  mkParentSpec (io_pool_id (ic_md_ctx p_imctx)) (ic_id p_imctx) (ic_snap_id p_imctx).

(** The steps of [clone] that follow the creation of the child. *)
Inductive CloneStep :=
| StepOpen
| StepSetParent
| StepAddChild
| StepRecheck
| StepMetadata
| StepMirror.

(** What the re-check of the protection makes of the answer of the
    refresh: the error it stops on, if it stops. The snapshot was seen
    protected by the validation, which is what it still believes when the
    refresh answers a positive value. *)
Definition recheck_failure (ans : Z * ImageCtx) : option Z :=
  let '(r, p_imctx) := ans in
  let '(r, snap_protected) :=
    if r =? 0 then is_snap_protected p_imctx (ic_snap_id p_imctx) true
    else (r, true) in
  if (r <? 0) || negb snap_protected
  then Some (if r <? 0 then r else - EINVAL)
  else None.

(** The step an event fails, with the error the step stopped on. *)
Definition failure_of (e : Event) : option (CloneStep * Z) :=
  match e with
  | Ev op ans =>
      match op in Op X return X -> option (CloneStep * Z) with
      | StateOpen _ _ _ => fun a => if a.1 <? 0 then Some (StepOpen, a.1) else None
      | ClsSetParent _ _ _ _ => fun r => if r <? 0 then Some (StepSetParent, r) else None
      | ClsAddChild _ _ _ => fun r => if r <? 0 then Some (StepAddChild, r) else None
      | StateRefresh _ => fun a =>
          match recheck_failure a with
          | Some r => Some (StepRecheck, r)
          | None => None
          end
      | ClsMetadataList _ _ _ _ => fun a =>
          if (a.1 <? 0) && negb (a.1 =? - EOPNOTSUPP) && negb (a.1 =? - EIO)
          then Some (StepMetadata, a.1) else None
      | ClsMetadataSet _ _ _ => fun r => if r <? 0 then Some (StepMetadata, r) else None
      | ClsMirrorModeGet _ => fun a =>
          if (a.1 <? 0) && negb (a.1 =? - ENOENT) then Some (StepMirror, a.1) else None
      | MirrorEnableRequestId _ _ _ => fun r =>
          if r <? 0 then Some (StepMirror, r) else None
      | _ => fun _ => None
      end ans
  end.

Definition failed_step (tr : list Event) : option (CloneStep * Z) :=
  head (keep failure_of tr).

(** The compensating actions the ladder runs from the label a failing
    step jumps to, for the child [c_name] of pool [c_ioctx] opened as
    [c_imctx] and registered under [pspec]. *)
Definition ladder (pspec : parent_spec) (c_ioctx : IoCtx) (c_name : string)
  (c_imctx : ImageCtx) (s : CloneStep) : list Compensation :=
  match s with
  | StepOpen => [DeleteChildImage c_ioctx c_name ""]
  | StepSetParent | StepAddChild =>
      [CloseChild c_imctx; DeleteChildImage c_ioctx c_name ""]
  | StepRecheck | StepMetadata | StepMirror =>
      [RemoveFromChildIndex c_ioctx pspec (ic_id c_imctx); CloseChild c_imctx;
       DeleteChildImage c_ioctx c_name ""]
  end.

(** The steps that fail after the child has been registered. *)
Definition after_registration (s : CloneStep) : bool :=
  match s with
  | StepRecheck | StepMetadata | StepMirror => true
  | _ => false
  end.

(** The value [clone] returns for a failing step that stopped on
    [code]. *)
Definition reported (s : CloneStep) (code : Z) : Z :=
  match s with
  | StepRecheck => - EINVAL
  | _ => code
  end.

(** The feature sets with which the creation of a child was requested. *)
Definition created_features_of (e : Event) : option (option image_option_value_t) :=
  match e with
  | Ev op _ =>
      match op with
      | Create _ _ _ opts _ _ _ => Some (opts !! RBD_IMAGE_OPTION_FEATURES)
      | _ => None
      end
  end.

Definition created_features (tr : list Event) : list (option image_option_value_t) :=
  keep created_features_of tr.

(** A store in which the refresh of an image fails with [-EIO]. *)
Definition refresh_fails : Handler unit := fun X op w =>
  match op in Op X return X * unit with
  | StateRefresh ictx => ((- EIO, ictx), w)
  | op' => (quiet_answer op', w)
  end.

(** The snapshot an image context is opened at is in the protected
    state. *)
Definition snapshot_protected (ictx : ImageCtx) : Prop :=
  exists info, get_snap_info ictx (ic_snap_id ictx) = Some info /\
               si_protection_status info = Protected.

(** The answers of the refreshes, of the [stat] calls and of the tag
    ownership queries of a trace. *)
Definition refresh_of (e : Event) : option (Z * ImageCtx) :=
  match e with
  | Ev op ans =>
      match op in Op X return X -> option (Z * ImageCtx) with
      | StateRefresh _ => fun a => Some a
      | _ => fun _ => None
      end ans
  end.

Definition refreshed (tr : list Event) : list (Z * ImageCtx) := keep refresh_of tr.

Definition stat_of (e : Event) : option Z :=
  match e with
  | Ev op ans =>
      match op in Op X return X -> option Z with
      | IoStat _ _ => fun r => Some r
      | _ => fun _ => None
      end ans
  end.

(** Neither header object of the child was found. *)
Definition child_absent (tr : list Event) : Prop :=
  Forall (fun r => r = - ENOENT) (keep stat_of tr).

Definition tag_owner_of (e : Event) : option (Z * bool) :=
  match e with
  | Ev op ans =>
      match op in Op X return X -> option (Z * bool) with
      | JournalIsTagOwner _ => fun a => Some a
      | _ => fun _ => None
      end ans
  end.

(** The parent, if it is journaled, is the primary, or the clone is
    forced to be non-primary. *)
Definition primary_or_forced (non_primary_global_image_id : string)
  (tr : list Event) : Prop :=
  Forall (fun a : Z * bool =>
            0 <= a.1 /\ (a.2 = true \/ non_primary_global_image_id <> ""%string))
         (keep tag_owner_of tr).

(** The format option is unset or at least 2. *)
Definition format_ok (c_opts : image_options_t) : Prop :=
  match c_opts !! RBD_IMAGE_OPTION_FORMAT with
  | None => True
  | Some (OptU64 n) => 2 <= n
  | Some (OptStr _) => False
  end.

(** The features option is unset or within [RBD_FEATURES_ALL]. *)
Definition requested_supported (c_opts : image_options_t) : Prop :=
  match c_opts !! RBD_IMAGE_OPTION_FEATURES with
  | None => True
  | Some (OptU64 f) => Z.land f (lnot64 RBD_FEATURES_ALL) = 0
  | Some (OptStr _) => False
  end.

Definition has_layering (features : Z) : Prop :=
  Z.land features RBD_FEATURE_LAYERING = RBD_FEATURE_LAYERING.

(** The option [optname], if set, holds an integer. *)
Definition uint64_typed (c_opts : image_options_t) (optname : Z) : Prop :=
  match c_opts !! optname with
  | Some (OptStr _) => False
  | _ => True
  end.

(** A store in which the parent's snapshot has lost its protection by
    the time [clone] refreshes the parent. *)
Definition unprotect_races : Handler unit := fun X op w =>
  match op in Op X return X * unit with
  | StateRefresh ictx =>
      ((0, snap_image (ic_name ictx) (ic_id ictx) (ic_size ictx) Unprotected
             (ic_snap_id ictx)), w)
  | op' => (quiet_answer op', w)
  end.

(** What a feature set chosen for the child must satisfy: it has
    layering, and it is the parent's when the caller gave none, the
    caller's own, within [RBD_FEATURES_ALL], otherwise. *)
Definition resolved_from (p_imctx : ImageCtx) (c_opts : image_options_t)
  (v : option image_option_value_t) : Prop :=
  exists g, v = Some (OptU64 g) /\ has_layering g /\
    match c_opts !! RBD_IMAGE_OPTION_FEATURES with
    | None => g = ic_features p_imctx
    | Some (OptU64 f) => g = f /\ Z.land f (lnot64 RBD_FEATURES_ALL) = 0
    | Some (OptStr _) => False
    end.

(** The parent passes the validation of [clone]: new format, layering,
    protected snapshot. *)
Definition parent_valid (p_imctx : ImageCtx) : Prop :=
  ic_old_format p_imctx = false /\
  has_layering (ic_features p_imctx) /\
  snapshot_protected p_imctx.

(** ** Observations on the trace of a snapshot removal *)

(** What [snap_is_protected] makes of the answer of its refresh: the
    protection it reports, or nothing when it fails. *)
Definition protection_report (snap_name : string) (ans : Z * ImageCtx)
  : option bool :=
  let '(r, ictx) := ans in
  if r <? 0 then None
  else
    let snap_id := get_snap_id ictx snap_name in
    if snap_id =? CEPH_NOSNAP then None
    else
      let '(r, is_unprotected) := is_snap_unprotected ictx snap_id false in
      if r <? 0 then None else Some (negb is_unprotected).

Definition unprotect_of (e : Event) : option Z :=
  match e with
  | Ev op ans =>
      match op in Op X return X -> option Z with
      | OpSnapUnprotect _ _ => fun r => Some r
      | _ => fun _ => None
      end ans
  end.

Definition unprotect_results (tr : list Event) : list Z := keep unprotect_of tr.

Definition snap_remove_of (e : Event) : option Z :=
  match e with
  | Ev op ans =>
      match op in Op X return X -> option Z with
      | OpSnapRemove _ _ => fun r => Some r
      | _ => fun _ => None
      end ans
  end.

Definition remove_results (tr : list Event) : list Z := keep snap_remove_of tr.

Definition refresh_if_required_of (e : Event) : option (Z * ImageCtx) :=
  match e with
  | Ev op ans =>
      match op in Op X return X -> option (Z * ImageCtx) with
      | StateRefreshIfRequired _ => fun a => Some a
      | _ => fun _ => None
      end ans
  end.

(** The protection the last event of a trace reports, when that event
    is the refresh of a protection query. *)
Definition last_report (snap_name : string) (tr : list Event) : option bool :=
  match last tr with
  | Some e =>
      match refresh_if_required_of e with
      | Some a => protection_report snap_name a
      | None => None
      end
  | None => None
  end.

(** A store in which unprotecting a snapshot succeeds and changes
    nothing: the snapshot stays as the image context has it. *)
Definition unprotect_ineffective : Handler unit := quiet.

(** A store in which unprotecting a snapshot takes effect: the refresh
    that follows finds it unprotected. The world records whether the
    unprotect has happened. *)
Definition unprotect_effective : Handler bool := fun X op w =>
  match op in Op X return X * bool with
  | OpSnapUnprotect _ _ => (0, true)
  | StateRefreshIfRequired ictx =>
      ((0, if w then snap_image (ic_name ictx) (ic_id ictx) (ic_size ictx)
                          Unprotected (ic_snap_id ictx)
              else ictx), w)
  | op' => (quiet_answer op', w)
  end.

(** The events that change a snapshot, a mirror record or the mirroring
    UUID of a pool, or that read a mirror record. *)
Definition touches_snapshot (e : Event) : bool :=
  match e with
  | Ev op _ =>
      match op with
      | OpSnapUnprotect _ _ => true
      | OpSnapRemove _ _ => true
      | ClsMirrorImageGet _ _ => true
      | ClsMirrorImageSet _ _ _ => true
      | MirrorDisableRequest _ _ _ => true
      | ClsMirrorUuidSet _ _ => true
      | UuidGenerateRandom => true
      | _ => false
      end
  end.

(** A program is [untouched] when none of its runs issues such an event
    or aborts: so are the preliminary steps of [snap_remove] and the
    listing of the children of a snapshot. *)
Definition untouched {R} (p : Prog R) : Prop :=
  all_runs p (fun tr o => existsb touches_snapshot tr = false /\ o <> Halted HAbort).

(** ** Observations on the trace of a lock break *)




(** A store in which the lock of every image is held by the client at
    address [addr]. *)
Definition locked_by (addr : string) : Handler unit := fun X op w =>
  match op in Op X return X * unit with
  | GetLockerRequest _ => ((0, mkLocker "client.4125" "auto 1" addr 1), w)
  | ClsLockGetInfo _ _ => ((0, [mkLockerEntry "client.4125" "auto 1" addr]), w)
  | op' => (quiet_answer op', w)
  end.


(** ** Observations on the trace of a mirroring operation *)

(** The [int] each lookup of a mirror record returned. *)
Definition record_read_of (e : Event) : option Z :=
  match e with
  | Ev op ans =>
      match op in Op X return X -> option Z with
      | ClsMirrorImageGet _ _ => fun a => Some a.1
      | _ => fun _ => None
      end ans
  end.

Definition record_reads (tr : list Event) : list Z := keep record_read_of tr.

(** The answers of the reads of the mirror mode of a pool. *)
Definition mode_read_of (e : Event) : option (Z * Z) :=
  match e with
  | Ev op ans =>
      match op in Op X return X -> option (Z * Z) with
      | ClsMirrorModeGet _ => fun a => Some a
      | _ => fun _ => None
      end ans
  end.

Definition mode_reads (tr : list Event) : list (Z * Z) := keep mode_read_of tr.

(** The state each write of a mirror record stored, and what the write
    returned. *)
Definition mirror_set_of (e : Event) : option (MirrorImageState * Z) :=
  match e with
  | Ev op ans =>
      match op in Op X return X -> option (MirrorImageState * Z) with
      | ClsMirrorImageSet _ _ mi => fun r => Some (mi_state mi, r)
      | _ => fun _ => None
      end ans
  end.

Definition mirror_sets (tr : list Event) : list (MirrorImageState * Z) :=
  keep mirror_set_of tr.

(** The terminal teardowns requested: the [force] flag and the result. *)
Definition teardown_of (e : Event) : option (bool * Z) :=
  match e with
  | Ev op ans =>
      match op in Op X return X -> option (bool * Z) with
      | MirrorDisableRequest _ force _ => fun r => Some (force, r)
      | _ => fun _ => None
      end ans
  end.

Definition teardowns (tr : list Event) : list (bool * Z) := keep teardown_of tr.




(** An image in pool 1 with layering, journaling and one snapshot, in a
    store where the pool is in image mode, every image looked up has an
    enabled mirror record, and the snapshot has one child [c1] in
    pool 1. *)
Definition journaled_image (name id : string) : ImageCtx :=
  {| ic_name := name; ic_id := id; ic_md_ctx := mkIoCtx 1;
     ic_header_oid := header_name id;
     ic_snap_id := CEPH_NOSNAP; ic_snap_exists := true;
     ic_old_format := false;
     ic_features := Z.lor RBD_FEATURE_LAYERING RBD_FEATURE_JOURNALING;
     ic_order := 22; ic_size := 8;
     ic_snaps := [4]; ic_snap_ids := [("s1"%string, 4)];
     ic_snap_info := [(4, mkSnapInfo "s1" 8 Protected UserSnapshotNamespace)];
     ic_parent := None; ic_parent_md := mkParentSpec (-1) "" CEPH_NOSNAP;
     ic_stripe_period := 4194304; ic_concurrent_management_ops := 10;
     ic_blacklist_on_break_lock := true; ic_blacklist_expire_seconds := 0 |}.


(** The same store, in which no image has a child. *)
Definition mirrored_alone : Handler unit := fun X op w =>
  match op in Op X return X * unit with
  | ClsMirrorModeGet _ => ((0, MIRROR_MODE_IMAGE), w)
  | ClsMirrorImageGet _ _ => ((0, mkMirrorImage "g" MIRROR_IMAGE_STATE_ENABLED), w)
  | op' => (quiet_answer op', w)
  end.








(** ** Observations on the trace of a change of mirror mode *)

(** The steps that mint the mirroring UUID of a pool: the generation of
    a random UUID, and the request to store one, with its result. *)
Inductive UuidStep :=
| Generated (uuid : string)
| Stored (io : IoCtx) (uuid : string) (r : Z).

Definition uuid_step_of (e : Event) : option UuidStep :=
  match e with
  | Ev op ans =>
      match op in Op X return X -> option UuidStep with
      | UuidGenerateRandom => fun uuid => Some (Generated uuid)
      | ClsMirrorUuidSet io uuid => fun r => Some (Stored io uuid r)
      | _ => fun _ => None
      end ans
  end.

Definition uuid_steps (tr : list Event) : list UuidStep := keep uuid_step_of tr.

(** No run of the program generates or stores a UUID. *)
Definition uuid_free {R} (p : Prog R) : Prop :=
  all_runs p (fun tr _ => uuid_steps tr = []).

(** A store whose pool is in pool mode. *)
Definition pool_mode : Handler unit := fun X op w =>
  match op in Op X return X * unit with
  | ClsMirrorModeGet _ => ((0, MIRROR_MODE_POOL), w)
  | op' => (quiet_answer op', w)
  end.

(** ** Observations on the trace of a bulk copy *)

(** The writes issued on the destination: offset and data. *)
Definition write_of (e : Event) : option (Z * bufferlist) :=
  match e with
  | Ev op ans =>
      match op in Op X return X -> option (Z * bufferlist) with
      | AioWrite _ offset _ bl => fun _ => Some (offset, bl)
      | _ => fun _ => None
      end ans
  end.

Definition writes (tr : list Event) : list (Z * bufferlist) := keep write_of tr.

(** The chunk operation a completion finishes, with its result and, for
    a read, the data read; none when the completion names no operation
    in flight. *)
Definition completed (inflight : list Pending) (c : nat * Z * bufferlist)
  : option (Pending * Z * bufferlist) :=
  match inflight !! c.1.1 with
  | Some p => Some (p, c.1.2, c.2)
  | None => None
  end.

Definition completion_of (e : Event) : option (Pending * Z * bufferlist) :=
  match e with
  | Ev op ans =>
      match op in Op X return X -> option (Pending * Z * bufferlist) with
      | AioPoll inflight => fun a =>
          match a with
          | Some c => completed inflight c
          | None => None
          end
      | AioWait inflight => fun c => completed inflight c
      | _ => fun _ => None
      end ans
  end.

Definition completions (tr : list Event) : list (Pending * Z * bufferlist) :=
  keep completion_of tr.

(** The results of the chunk operations, in the order they completed. *)
Definition chunk_results (tr : list Event) : list Z :=
  map (fun c => c.1.2) (completions tr).

(** The first error in a list of results, 0 when there is none. *)
Fixpoint first_error (l : list Z) : Z :=
  match l with
  | [] => 0
  | r :: l' => if r <? 0 then r else first_error l'
  end.

(** An error already recorded is kept. *)
Definition carry (m r : Z) : Z := if m =? 0 then r else m.

(** Every write carries data that is not all zero and that a read of the
    same offset delivered. *)
Definition writes_ok (tr : list Event) : Prop :=
  forall offset bl, In (offset, bl) (writes tr) ->
    is_zero bl = false /\
    exists len r, In (PRead offset len, r, bl) (completions tr).

(** What a stretch of the sweep does to the throttle: the error it
    holds afterwards is the one it held, or else the first error among
    the chunk operations that completed meanwhile. *)
Definition sweep_post (st : CopyState) (tr : list Event) (st' : CopyState) : Prop :=
  m_ret (cs_throttle st')
    = carry (m_ret (cs_throttle st)) (first_error (chunk_results tr)) /\
  m_ignore_enoent (cs_throttle st') = m_ignore_enoent (cs_throttle st) /\
  writes_ok tr.

(** A store that completes the oldest chunk operation whenever the
    copying thread waits: a read delivers [len] bytes of value 7. *)
Definition streaming : Handler unit := fun X op w =>
  match op in Op X return X * unit with
  | AioWait inflight =>
      (match inflight with
       | PRead offset len :: _ => (O, len, repeat 7 (Z.to_nat len))
       | _ => (O, 0, [])
       end, w)
  | op' => (quiet_answer op', w)
  end.

(** The same store, whose reads deliver zeros. *)
Definition streaming_zeros : Handler unit := fun X op w =>
  match op in Op X return X * unit with
  | AioWait inflight =>
      (match inflight with
       | PRead offset len :: _ => (O, len, repeat 0 (Z.to_nat len))
       | _ => (O, 0, [])
       end, w)
  | op' => (quiet_answer op', w)
  end.

(** What a run of [copy] over a source of [src_size] bytes leaves
    behind: the writes carry data read and not all zero; the value
    returned after chunk operations completed is the first error among
    them; a value that is not an error is returned right after the report
    of the full progress; and the fuel of the model suffices when it
    covers the chunks. *)
Definition copy_post (fuel : nat) (src_size period : Z) (tr : list Event)
  (o : Outcome Z) : Prop :=
  writes_ok tr /\
  (forall r, o = Returned r -> chunk_results tr <> [] ->
     r = first_error (chunk_results tr)) /\
  (forall r, o = Returned r -> 0 <= r ->
     last tr = Some (Ev (UpdateProgress src_size src_size) tt)) /\
  (0 < period -> 0 <= src_size -> src_size + period <= 2 ^ 64 ->
   src_size <= (Z.of_nat fuel - 1) * period -> o <> Halted HFuel).

(** A completion is delivered well when an awaited completion names an
    operation in flight and a read that succeeded returns the length of
    the data it read. *)
Definition reads_well (p : Pending) (r : Z) (bl : bufferlist) : bool :=
  match p with
  | PRead _ _ => (r <? 0) || (Z.of_nat (length bl) =? r)
  | PWrite _ _ => true
  end.

Definition delivers_well (e : Event) : bool :=
  match e with
  | Ev op ans =>
      match op in Op X return X -> bool with
      | AioWait inflight => fun c =>
          match inflight !! c.1.1 with
          | Some p => reads_well p c.1.2 c.2
          | None => false
          end
      | AioPoll inflight => fun a =>
          match a with
          | Some c =>
              match inflight !! c.1.1 with
              | Some p => reads_well p c.1.2 c.2
              | None => true
              end
          | None => true
          end
      | _ => fun _ => true
      end ans
  end.

(** The throttle counts the operations in flight, within its bound. *)
Definition throttle_inv (st : CopyState) : Prop :=
  m_current (cs_throttle st) = Z.of_nat (length (cs_inflight st)) /\
  0 < m_max (cs_throttle st) /\
  m_current (cs_throttle st) <= m_max (cs_throttle st) /\
  m_max (cs_throttle st) < 2 ^ 64.

(** * Further functions of internal.cc *)

(** ** Image options: the string overloads, [image_options_unset],
    [image_options_clear] *)

(** [image_options_set(opts, optname, const std::string& optval)]. *)
Definition image_options_set_str (opts : image_options_t) (optname : Z)
  (optval : string) : Z * image_options_t :=
  match IMAGE_OPTIONS_TYPE_MAPPING !! optname with
  | Some STR => (0, <[optname := OptStr optval]> opts)
  | _ => (- EINVAL, opts)
  end.

(** [image_options_get(opts, optname, std::string* optval)]; [None]
    stands for the [boost::bad_get] thrown when the stored alternative is
    not a string. *)
Definition image_options_get_str (opts : image_options_t) (optname : Z)
  (cur : string) : option (Z * string) :=
  match IMAGE_OPTIONS_TYPE_MAPPING !! optname with
  | Some STR =>
      match opts !! optname with
      | None => Some (- ENOENT, cur)
      | Some (OptStr v) => Some (0, v)
      | Some (OptU64 _) => None
      end
  | _ => Some (- EINVAL, cur)
  end.

(** [image_options_unset]; [None] stands for the failure of the
    [assert] that an unknown option is not in the map. *)
Definition image_options_unset (opts : image_options_t) (optname : Z)
  : option (Z * image_options_t) :=
  match IMAGE_OPTIONS_TYPE_MAPPING !! optname with
  | None =>
      match opts !! optname with
      | None => Some (- EINVAL, opts)
      | Some _ => None
      end
  | Some _ =>
      match opts !! optname with
      | None => Some (- ENOENT, opts)
      | Some _ => Some (0, delete optname opts)
      end
  end.

Definition image_options_clear (opts : image_options_t) : image_options_t := ∅.

(** The alternative a stored value holds, and the maps in which every
    value holds the alternative [IMAGE_OPTIONS_TYPE_MAPPING] gives its
    option. *)
Definition option_value_type (v : image_option_value_t) : image_option_type_t :=
  match v with
  | OptStr _ => STR
  | OptU64 _ => UINT64
  end.

Definition options_typed (opts : image_options_t) : Prop :=
  forall k v, opts !! k = Some v ->
    IMAGE_OPTIONS_TYPE_MAPPING !! k = Some (option_value_type v).

(** ** Further observations on the trace of a clone *)

(** The result of each creation of an image requested, and the images
    whose deletion was requested. *)
Definition create_of (e : Event) : option Z :=
  match e with
  | Ev op ans =>
      match op in Op X return X -> option Z with
      | Create _ _ _ _ _ _ _ => fun a => Some a.1
      | _ => fun _ => None
      end ans
  end.

Definition creations (tr : list Event) : list Z := keep create_of tr.

Definition removal_of (e : Event) : option (IoCtx * string) :=
  match e with
  | Ev op _ =>
      match op with
      | Remove io image_name _ => Some (io, image_name)
      | _ => None
      end
  end.

Definition removals (tr : list Event) : list (IoCtx * string) := keep removal_of tr.

(** The calls that create or delete an image. *)
Definition creates_or_deletes (c : ChildCall) : bool :=
  match c with
  | Created _ _ _ _ | Deleted _ _ _ _ => true
  | _ => false
  end.

(** A store in which the header of a v1 image of any name cannot be
    examined: the [stat] fails with [-EIO]. *)
Definition stat_fails : Handler unit := fun X op w =>
  match op in Op X return X * unit with
  | IoStat _ _ => (- EIO, w)
  | op' => (quiet_answer op', w)
  end.

(** ** Lock owners (internal.cc, [lock_get_owners])

    The value returned and the final [*lock_mode] and [*lock_owners]. *)
Definition lock_get_owners (ictx : ImageCtx) (lock_mode : Z)
  (lock_owners : list string) : Prog (Z * Z * list string) :=
  '(r, locker) <- call (GetLockerRequest ictx) ;
  if r =? - ENOENT then Ret (r, lock_mode, lock_owners)
  else if r <? 0 then Ret (r, lock_mode, lock_owners)
  else Ret (0, RBD_LOCK_MODE_EXCLUSIVE, [lk_address locker]).






(** ** Mirroring queries (internal.cc, [mirror_image_get_info],
    [mirror_mode_get]) *)

(** [mirror_image_info_t]; the state is that of the record, converted by
    a [static_cast], or [RBD_MIRROR_IMAGE_DISABLED]. *)
Record mirror_image_info_t := mkMirrorImageInfo {
  mii_global_id : string;
  mii_state : MirrorImageState;
  mii_primary : bool
}.

Definition ERANGE : Z := 34.

Section MirrorImageGetInfo.

(** [sizeof(mirror_image_info_t)] depends on the platform: it is a
    parameter. *)
Variable sizeof_mirror_image_info_t : Z.

(** The value returned and the final [*mirror_image_info]. The fields
    are assigned one by one, so that an error of the ownership query
    leaves the identifier and the state already written. *)
Definition mirror_image_get_info (ictx : ImageCtx)
  (mirror_image_info : mirror_image_info_t) (info_size : Z)
  : Prog (Z * mirror_image_info_t) :=
  if info_size <? sizeof_mirror_image_info_t then Ret (- ERANGE, mirror_image_info)
  else
  '(r, ictx) <- call (StateRefreshIfRequired ictx) ;
  if r <? 0 then Ret (r, mirror_image_info)
  else
  '(r, mirror_image_internal) <-
    call (ClsMirrorImageGet (ic_md_ctx ictx) (ic_id ictx)) ;
  if (r <? 0) && negb (r =? - ENOENT) then Ret (r, mirror_image_info)
  else
  let global_id := global_image_id mirror_image_internal in
  let state :=
    if r =? - ENOENT then MIRROR_IMAGE_STATE_DISABLED
    else mi_state mirror_image_internal in
  match state with
  | MIRROR_IMAGE_STATE_ENABLED =>
      '(r, primary) <- call (JournalIsTagOwner ictx) ;
      if r <? 0
      then Ret (r, mkMirrorImageInfo global_id state primary)
      else Ret (0, mkMirrorImageInfo global_id state primary)
  | _ => Ret (0, mkMirrorImageInfo global_id state false)
  end.

End MirrorImageGetInfo.

(** [mirror_mode_get]: the value returned and the final [*mirror_mode]. *)
Definition mirror_mode_get (io_ctx : IoCtx) (mirror_mode : Z) : Prog (Z * Z) :=
  '(r, mirror_mode_internal) <- call (ClsMirrorModeGet io_ctx) ;
  if r <? 0 then Ret (r, mirror_mode)
  else
  if (mirror_mode_internal =? MIRROR_MODE_DISABLED)
     || (mirror_mode_internal =? MIRROR_MODE_IMAGE)
     || (mirror_mode_internal =? MIRROR_MODE_POOL)
  then Ret (0, mirror_mode_internal)
  else Ret (- EINVAL, mirror_mode).

(** ** Further observations on the trace of a mirroring operation *)

(** The requests to enable the mirroring of an image, with their
    results. *)
Definition enable_of (e : Event) : option (ImageCtx * Z) :=
  match e with
  | Ev op ans =>
      match op in Op X return X -> option (ImageCtx * Z) with
      | MirrorEnableRequest ictx => fun r => Some (ictx, r)
      | _ => fun _ => None
      end ans
  end.

Definition enable_requests (tr : list Event) : list (ImageCtx * Z) :=
  keep enable_of tr.

(** The modes stored for a pool, with the result of each write. *)
Definition mode_write_of (e : Event) : option (Z * Z) :=
  match e with
  | Ev op ans =>
      match op in Op X return X -> option (Z * Z) with
      | ClsMirrorModeSet _ mode => fun r => Some (mode, r)
      | _ => fun _ => None
      end ans
  end.

Definition mode_writes (tr : list Event) : list (Z * Z) := keep mode_write_of tr.

(** The answers of the listings of the peers of a pool. *)
Definition peer_list_of (e : Event) : option (Z * list MirrorPeer) :=
  match e with
  | Ev op ans =>
      match op in Op X return X -> option (Z * list MirrorPeer) with
      | ClsMirrorPeerList _ => fun a => Some a
      | _ => fun _ => None
      end ans
  end.

Definition peer_lists (tr : list Event) : list (Z * list MirrorPeer) :=
  keep peer_list_of tr.

(** The images opened, by identifier. *)
Definition open_of (e : Event) : option string :=
  match e with
  | Ev op _ =>
      match op with
      | StateOpen _ _ id => Some id
      | _ => None
      end
  end.

Definition opens (tr : list Event) : list string := keep open_of tr.

(** A journaled image of pool 1 whose parent is a journaled image of
    pool 2. *)
Definition journaled_child (name id : string) : ImageCtx :=
  {| ic_name := name; ic_id := id; ic_md_ctx := mkIoCtx 1;
     ic_header_oid := header_name id;
     ic_snap_id := CEPH_NOSNAP; ic_snap_exists := true;
     ic_old_format := false;
     ic_features := Z.lor RBD_FEATURE_LAYERING RBD_FEATURE_JOURNALING;
     ic_order := 22; ic_size := 8;
     ic_snaps := []; ic_snap_ids := []; ic_snap_info := [];
     ic_parent :=
       Some (mkParentCtx (mkIoCtx 2) "p1"
               (Z.lor RBD_FEATURE_LAYERING RBD_FEATURE_JOURNALING));
     ic_parent_md := mkParentSpec 2 "p1" 4;
     ic_stripe_period := 4194304; ic_concurrent_management_ops := 10;
     ic_blacklist_on_break_lock := true; ic_blacklist_expire_seconds := 0 |}.

(** A store whose pool is in image mode and holds no mirror record. *)
Definition image_mode : Handler unit := fun X op w =>
  match op in Op X return X * unit with
  | ClsMirrorModeGet _ => ((0, MIRROR_MODE_IMAGE), w)
  | op' => (quiet_answer op', w)
  end.

(** The same store, in which the lookup of a mirror record fails with
    [-EIO]. *)
Definition image_mode_unreadable : Handler unit := fun X op w =>
  match op in Op X return X * unit with
  | ClsMirrorModeGet _ => ((0, MIRROR_MODE_IMAGE), w)
  | ClsMirrorImageGet _ _ => ((- EIO, mkMirrorImage "" MIRROR_IMAGE_STATE_DISABLING), w)
  | op' => (quiet_answer op', w)
  end.

(** The answers of the lookups of mirror records: result and record. *)
Definition record_of (e : Event) : option (Z * MirrorImage) :=
  match e with
  | Ev op ans =>
      match op in Op X return X -> option (Z * MirrorImage) with
      | ClsMirrorImageGet _ _ => fun a => Some a
      | _ => fun _ => None
      end ans
  end.

Definition records (tr : list Event) : list (Z * MirrorImage) := keep record_of tr.

(** No run of the program stores a mirror mode. *)
Definition mode_write_free {R} (p : Prog R) : Prop :=
  all_runs p (fun tr _ => mode_writes tr = []).

(** The modes a change from [current] to [next] stores, in order: the
    image mode unless the pool is in it, then [next] unless it is the
    image mode. *)
Definition modes_stored (current next : Z) : list Z :=
  (if current =? MIRROR_MODE_IMAGE then [] else [MIRROR_MODE_IMAGE])
  ++ (if next =? MIRROR_MODE_IMAGE then [] else [next]).

(** A store whose pool is in image mode and has one peer registered. *)
Definition peers_registered : Handler unit := fun X op w =>
  match op in Op X return X * unit with
  | ClsMirrorModeGet _ => ((0, MIRROR_MODE_IMAGE), w)
  | ClsMirrorPeerList _ =>
      ((0, [mkMirrorPeer "u1"%string "remote"%string "client.admin"%string]), w)
  | op' => (quiet_answer op', w)
  end.

(** A store that remembers the mirror mode of its pool, in which
    enabling the mirroring of an image fails with [-EIO], and whose
    directory lists one journaled image. *)
Definition enable_fails : Handler Z := fun X op w =>
  match op in Op X return X * Z with
  | ClsMirrorModeGet _ => ((0, w), w)
  | ClsMirrorModeSet _ m => (0, m)
  | ClsDirList _ _ _ => ((0, [("img"%string, "1"%string)]), w)
  | ClsGetFeatures _ _ _ => ((0, RBD_FEATURE_JOURNALING), w)
  | StateOpen io name id => ((0, journaled_image name id), w)
  | MirrorEnableRequest _ => (- EIO, w)
  | op' => (quiet_answer op', w)
  end.

(** What a change of mode from [current] to [next] leaves behind: the
    modes stored are the first of [modes_stored]; a call that returns 0
    has stored them all, each with success; and a write that fails is the
    last, its error being the value returned. *)
Definition mode_change_post (current next : Z) (tr : list Event) (o : Outcome Z)
  : Prop :=
  (map fst (mode_writes tr)) `prefix_of` (modes_stored current next) /\
  (o = Returned 0 ->
     map fst (mode_writes tr) = modes_stored current next /\
     Forall (fun w : Z * Z => 0 <= w.2) (mode_writes tr)) /\
  (forall m rw, In (m, rw) (mode_writes tr) -> rw < 0 ->
     o = Returned rw /\ last (mode_writes tr) = Some (m, rw)).

(** The events of the walk over the children of a snapshot: the listing
    of the pools and of the children of a pool, and the opening,
    flattening, unlinking and closing of a child. *)
Definition touches_children (e : Event) : bool :=
  match e with
  | Ev op _ =>
      match op with
      | PoolList2 => true
      | PoolGetBaseTier _ => true
      | IoctxCreate2 _ => true
      | ClsGetChildren _ _ => true
      | StateOpen _ _ _ => true
      | OpFlatten _ => true
      | ClsRemoveChild _ _ _ => true
      | StateClose _ => true
      | _ => false
      end
  end.

(** The images opened and closed, in order: [true] for an opening that
    succeeded, [false] for a close. A failed opening leaves nothing to
    close. *)
Definition open_close_of (e : Event) : option bool :=
  match e with
  | Ev op ans =>
      match op in Op X return X -> option bool with
      | StateOpen _ _ _ => fun a => if a.1 <? 0 then None else Some true
      | StateClose _ => fun _ => Some false
      | _ => fun _ => None
      end ans
  end.

Definition open_closes (tr : list Event) : list bool := keep open_close_of tr.

(** Every image opened is closed before the next is opened, and none
    is left open. *)
Definition one_at_a_time (l : list bool) : Prop :=
  exists n : nat, l = mjoin (replicate n [true; false]).

(** The progress reported: offset and total. *)
Definition progress_of (e : Event) : option (Z * Z) :=
  match e with
  | Ev op _ =>
      match op with
      | UpdateProgress offset total => Some (offset, total)
      | _ => None
      end
  end.

Definition progress (tr : list Event) : list (Z * Z) := keep progress_of tr.



(** A store with two pools; the snapshot [4] of image [1] has the child
    [c1] in the first and the children [c2] and [c3] in the second. *)
Definition two_pools : Handler unit := fun X op w =>
  match op in Op X return X * unit with
  | PoolList2 => ((0, [(1, "rbd"%string); (2, "vms"%string)]), w)
  | PoolGetBaseTier pool => ((0, pool), w)
  | IoctxCreate2 pool => ((0, mkIoCtx pool), w)
  | ClsGetChildren io _ =>
      ((0, if io_pool_id io =? 1 then ["c1"%string] else ["c2"%string; "c3"%string]), w)
  | op' => (quiet_answer op', w)
  end.

(** The base tiers looked up: the pool, the result and the tier. *)
Definition tier_check_of (e : Event) : option (Z * (Z * Z)) :=
  match e with
  | Ev op ans =>
      match op in Op X return X -> option (Z * (Z * Z)) with
      | PoolGetBaseTier pool => fun a => Some (pool, a)
      | _ => fun _ => None
      end ans
  end.

Definition tier_checks (tr : list Event) : list (Z * (Z * Z)) := keep tier_check_of tr.

(** A pool that exists and is its own base tier, that is, no cache. *)
Definition own_tier (c : Z * (Z * Z)) : bool :=
  (0 <=? c.2.1) && (c.1 =? c.2.2).

(** The pools for which an I/O context was asked. *)
Definition accessed_of (e : Event) : option Z :=
  match e with
  | Ev op _ =>
      match op with
      | IoctxCreate2 pool => Some pool
      | _ => None
      end
  end.

Definition accessed (tr : list Event) : list Z := keep accessed_of tr.

(** What the search of the pools for children leaves behind, started
    with [image_info] on the pools [pools]. *)
Definition children_search_post (pools : list (Z * string)) (image_info : children_info)
  (tr : list Event) (o : Outcome (Z * children_info)) : Prop :=
  accessed tr = map fst (filter (fun c => own_tier c = true) (tier_checks tr)) /\
  (map fst (tier_checks tr)) `prefix_of` (map fst pools) /\
  (forall r info, o = Returned (r, info) ->
     Forall (fun e : (Z * string) * list string =>
               In e.1.1 (accessed tr) \/ In e.1 (map fst image_info)) info).

(** An image without the layering feature. *)
Definition unlayered_image (name id : string) (size : Z) : ImageCtx :=
  {| ic_name := name; ic_id := id; ic_md_ctx := mkIoCtx 1;
     ic_header_oid := header_name id;
     ic_snap_id := CEPH_NOSNAP; ic_snap_exists := true;
     ic_old_format := false; ic_features := 0;
     ic_order := 22; ic_size := size;
     ic_snaps := []; ic_snap_ids := []; ic_snap_info := [];
     ic_parent := None; ic_parent_md := mkParentSpec (-1) "" CEPH_NOSNAP;
     ic_stripe_period := 4194304; ic_concurrent_management_ops := 10;
     ic_blacklist_on_break_lock := true; ic_blacklist_expire_seconds := 0 |}.

(** A store with a cache pool [3] in front of the pool [2], and a pool
    [5] that vanishes while the pools are searched. *)
Definition cache_tier : Handler unit := fun X op w =>
  match op in Op X return X * unit with
  | PoolList2 =>
      ((0, [(1, "rbd"%string); (3, "cache"%string); (5, "gone"%string)]), w)
  | PoolGetBaseTier pool =>
      (if pool =? 5 then (- ENOENT, 0) else if pool =? 3 then (0, 2) else (0, pool), w)
  | IoctxCreate2 pool => ((0, mkIoCtx pool), w)
  | ClsGetChildren io _ => ((0, ["c1"%string]), w)
  | op' => (quiet_answer op', w)
  end.

(** The pages read from the directory of a pool: the key the page was
    asked from, the result and the entries. *)
Definition dir_page_of (e : Event) : option (string * (Z * list (string * string))) :=
  match e with
  | Ev op ans =>
      match op in Op X return X -> option (string * (Z * list (string * string))) with
      | ClsDirList _ start _ => fun a => Some (start, a)
      | _ => fun _ => None
      end ans
  end.

Definition dir_pages (tr : list Event) : list (string * (Z * list (string * string))) :=
  keep dir_page_of tr.

(** The pages read from the mirroring directory of a pool. *)
Definition mirror_page_of (e : Event) : option (string * (Z * list (string * string))) :=
  match e with
  | Ev op ans =>
      match op in Op X return X -> option (string * (Z * list (string * string))) with
      | ClsMirrorImageList _ start _ => fun a => Some (start, a)
      | _ => fun _ => None
      end ans
  end.

Definition mirror_pages (tr : list Event) : list (string * (Z * list (string * string))) :=
  keep mirror_page_of tr.

(** Pages read in sequence from [start]: each is asked from the last key
    of the one before, or from where that one was asked when it was
    empty, and every page but the last was read with success and is
    full. *)
Fixpoint paged (start : string) (ps : list (string * (Z * list (string * string))))
  : Prop :=
  match ps with
  | [] => True
  | p :: ps' =>
      p.1 = start /\
      (ps' <> [] -> 0 <= p.2.1 /\ Z.of_nat (length p.2.2) = max_read) /\
      paged (last_key p.2.2 start) ps'
  end.

(** What a listing that started with the keys [keys0] leaves behind:
    the keys it returns hold [keys0] and the key of every entry of every
    page read with success. *)
Definition pages_kept (keys0 : list string)
  (ps : list (string * (Z * list (string * string)))) (keys : list string) : Prop :=
  (forall k, In k keys0 -> In k keys) /\
  (forall p kv, In p ps -> 0 <= p.2.1 -> In kv p.2.2 -> In kv.1 keys).

(** A directory of 1025 images, read in two pages. *)
Definition big_directory : Handler unit := fun X op w =>
  match op in Op X return X * unit with
  | ClsDirList _ start _ =>
      ((0, if String.eqb start "" then replicate 1024 ("a"%string, "1"%string)
           else [("b"%string, "2"%string)]), w)
  | op' => (quiet_answer op', w)
  end.

(** A pool whose mirroring directory does not exist. *)
Definition no_mirror_directory : Handler unit := fun X op w =>
  match op in Op X return X * unit with
  | ClsMirrorImageList _ _ _ => ((- ENOENT, []), w)
  | op' => (quiet_answer op', w)
  end.

(** A program is [handle_free] when none of its runs opens or closes an
    image. *)
Definition handle_free {R} (p : Prog R) : Prop :=
  all_runs p (fun tr _ => open_closes tr = []).

(** Images were open one at a time, and the last one opened was not
    closed. *)
Definition left_open (l : list bool) : Prop :=
  exists n : nat, l = mjoin (replicate n [true; false]) ++ [true].

(** The images a loop over images leaves behind: all closed, or the
    last one left open by a run that does not return 0 or more. *)
Definition handles_post (tr : list Event) (o : Outcome Z) : Prop :=
  one_at_a_time (open_closes tr) \/
  (left_open (open_closes tr) /\ forall r, o = Returned r -> r < 0).

(** The reads issued on the source of a copy: offset and length. *)
Definition read_of (e : Event) : option (Z * Z) :=
  match e with
  | Ev op _ =>
      match op with
      | AioRead _ offset len => Some (offset, len)
      | _ => None
      end
  end.

Definition reads (tr : list Event) : list (Z * Z) := keep read_of tr.

(** Chunks that follow one another from [from]: none is empty or longer
    than [period], and none passes [size]. *)
Fixpoint chunked (period size from : Z) (l : list (Z * Z)) : Prop :=
  match l with
  | [] => True
  | c :: l' =>
      c.1 = from /\ 0 < c.2 <= period /\ c.1 + c.2 <= size /\
      chunked period size (c.1 + c.2) l'
  end.

(** The number of bytes the chunks hold. *)
Definition chunk_bytes (l : list (Z * Z)) : Z := foldr Z.add 0 (map snd l).

(** What the sweep of a copy from [offset] on leaves behind: the source
    is read in chunks that follow one another from [offset], the
    progress is reported at the offset of each read, and a sweep that
    does not fail has read up to [size] and reports the full progress
    last. *)
Definition copy_reads_post (period size offset : Z) (tr : list Event) (o : Outcome Z)
  : Prop :=
  chunked period size offset (reads tr) /\
  (size <= offset -> reads tr = []) /\
  progress tr
    = map (fun c : Z * Z => (c.1, size)) (reads tr)
      ++ match o with
         | Returned r => if 0 <=? r then [(size, size)] else []
         | Halted _ => []
         end /\
  (forall r, o = Returned r -> 0 <= r -> chunk_bytes (reads tr) = Z.max 0 (size - offset)).

(** A program of the sweep that issues no read and reports no
    progress. *)
Definition sweep_quiet {R} (p : Prog R) : Prop :=
  all_runs p (fun tr _ => reads tr = [] /\ progress tr = []).

(** An image of 10 bytes striped in periods of 4 bytes. *)
Definition striped_image (name id : string) : ImageCtx :=
  {| ic_name := name; ic_id := id; ic_md_ctx := mkIoCtx 1;
     ic_header_oid := header_name id;
     ic_snap_id := CEPH_NOSNAP; ic_snap_exists := true;
     ic_old_format := false; ic_features := RBD_FEATURE_LAYERING;
     ic_order := 22; ic_size := 10;
     ic_snaps := []; ic_snap_ids := []; ic_snap_info := [];
     ic_parent := None; ic_parent_md := mkParentSpec (-1) "" CEPH_NOSNAP;
     ic_stripe_period := 4; ic_concurrent_management_ops := 10;
     ic_blacklist_on_break_lock := true; ic_blacklist_expire_seconds := 0 |}.

(** ** A store that keeps the mirror mode of its pool *)

(** The mode a pool is in after an event: a store of the mode that
    succeeds changes it, nothing else does. *)
Definition mode_step (m : Z) (e : Event) : Z :=
  match mode_write_of e with
  | Some (m', r) => if r <? 0 then m else m'
  | None => m
  end.

Definition replay (m : Z) (tr : list Event) : Z := fold_left mode_step tr m.

(** [H] keeps the mirror mode of its pool, [mode w] in the state [w]:
    the state follows the stores of the mode, and a read of the mode
    succeeds and returns it. *)
Definition keeps_mode {W} (H : Handler W) (mode : W -> Z) : Prop :=
  forall X (op : Op X) (w : W),
    mode (H X op w).2 = mode_step (mode w) (Ev op (H X op w).1) /\
    forall a, mode_read_of (Ev op (H X op w).1) = Some a -> a = (0, mode w).

(** The state in which a run ends. *)
Definition final_state {W R} (H : Handler W) (p : Prog R) (w : W) : W := (run H p w).1.2.

(** A store that keeps the mirror mode of its pool, in which nothing
    fails and nothing else exists. *)
Definition mode_store : Handler Z := fun X op w =>
  match op in Op X return X * Z with
  | ClsMirrorModeGet _ => ((0, w), w)
  | ClsMirrorModeSet _ m => (0, m)
  | op' => (quiet_answer op', w)
  end.

(** The features read from image headers: the header object, the result
    and the features. *)
Definition feature_check_of (e : Event) : option (string * (Z * Z)) :=
  match e with
  | Ev op ans =>
      match op in Op X return X -> option (string * (Z * Z)) with
      | ClsGetFeatures _ oid _ => fun a => Some (oid, a)
      | _ => fun _ => None
      end ans
  end.

Definition feature_checks (tr : list Event) : list (string * (Z * Z)) :=
  keep feature_check_of tr.

(** The features were read with success and have journaling. *)
Definition journaled (c : string * (Z * Z)) : bool :=
  (0 <=? c.2.1) && negb (Z.land c.2.2 RBD_FEATURE_JOURNALING =? 0).

(** The images opened are those whose header was found journaled. *)
Definition opens_journaled (tr : list Event) : Prop :=
  map header_name (opens tr)
  = map fst (filter (fun c => journaled c = true) (feature_checks tr)).

(** A program that opens no image and reads no features. *)
Definition features_free {R} (p : Prog R) : Prop :=
  all_runs p (fun tr _ => opens tr = [] /\ feature_checks tr = []).

(** A pool with a plain image [1] and a journaled image [2]. *)
Definition mixed_pool : Handler Z := fun X op w =>
  match op in Op X return X * Z with
  | ClsMirrorModeGet _ => ((0, w), w)
  | ClsMirrorModeSet _ m => (0, m)
  | ClsDirList _ _ _ =>
      ((0, [("a"%string, "1"%string); ("b"%string, "2"%string)]), w)
  | ClsGetFeatures _ oid _ =>
      ((0, if String.eqb oid (header_name "2") then
             Z.lor RBD_FEATURE_LAYERING RBD_FEATURE_JOURNALING
           else RBD_FEATURE_LAYERING), w)
  | StateOpen io name id => ((0, journaled_image name id), w)
  | op' => (quiet_answer op', w)
  end.

(** A mirror record read as enabled. *)
Definition enabled_record (rec : Z * MirrorImage) : Prop :=
  mi_state rec.2 = MIRROR_IMAGE_STATE_ENABLED.

(** What disabling the mirroring of a pool in image mode leaves behind:
    no image is opened; a call that returns no error has read no enabled
    record;
    and once an enabled record is read the call returns an error and
    stores no mode. *)
Definition disable_checked_post (tr : list Event) (o : Outcome Z) : Prop :=
  opens tr = [] /\
  (forall r, o = Returned r -> 0 <= r ->
     Forall (fun rec => ~ enabled_record rec) (records tr)) /\
  (Exists enabled_record (records tr) ->
     mode_writes tr = [] /\ exists r, o = Returned r /\ r < 0).

(** A pool in image mode whose mirroring directory lists the image [1],
    still enabled. *)
Definition image_still_enabled : Handler unit := fun X op w =>
  match op in Op X return X * unit with
  | ClsMirrorModeGet _ => ((0, MIRROR_MODE_IMAGE), w)
  | ClsMirrorImageList _ _ _ => ((0, [("1"%string, "g1"%string)]), w)
  | ClsMirrorImageGet _ _ => ((0, mkMirrorImage "g1" MIRROR_IMAGE_STATE_ENABLED), w)
  | op' => (quiet_answer op', w)
  end.

(** * Properties *)

(** ** Runs of programs *)

Lemma run_bind {W A B} (H : Handler W) (m : Prog A) (f : A -> Prog B) (w : W) :
  run H (bind m f) w =
  match run H m w with
  | (Returned a, w1, t1) =>
      let '(o, w2, t2) := run H (f a) w1 in (o, w2, t1 ++ t2)
  | (Halted h, w1, t1) => (Halted h, w1, t1)
  end.
Proof.
  revert w. induction m as [a | X op k IH | h]; intros w; simpl.
  - destruct (run H (f a) w) as [[o w2] t2]. reflexivity.
  - destruct (H X op w) as [x w1]. rewrite IH.
    destruct (run H (k x) w1) as [[[a | h] w2] t1].
    + destruct (run H (f a) w2) as [[o w3] t2]. reflexivity.
    + reflexivity.
  - reflexivity.
Qed.

Lemma all_runs_sound {R} (p : Prog R) (Q : list Event -> Outcome R -> Prop) :
  all_runs p Q ->
  forall W (H : Handler W) (w : W), Q (trace H p w) (outcome H p w).
Proof.
  unfold trace, outcome.
  revert Q. induction p as [r | X op k IH | h]; intros Q HQ W H w; simpl in *.
  - exact HQ.
  - destruct (H X op w) as [x w1].
    specialize (IH x _ (HQ x) W H w1).
    destruct (run H (k x) w1) as [[o w2] tr]. exact IH.
  - exact HQ.
Qed.

Lemma all_runs_mono {R} (p : Prog R) (Q Q' : list Event -> Outcome R -> Prop) :
  (forall tr o, Q tr o -> Q' tr o) -> all_runs p Q -> all_runs p Q'.
Proof.
  revert Q Q'. induction p as [r | X op k IH | h]; intros Q Q' HQQ HQ; simpl in *.
  - auto.
  - intros x. eapply IH; [| apply HQ]. intros tr o. apply HQQ.
  - auto.
Qed.

Lemma all_runs_bind {A B} (m : Prog A) (f : A -> Prog B)
  (Q : list Event -> Outcome B -> Prop) :
  all_runs m (fun t1 o1 =>
    match o1 with
    | Returned a => all_runs (f a) (fun t2 o2 => Q (t1 ++ t2) o2)
    | Halted h => Q t1 (Halted h)
    end) ->
  all_runs (bind m f) Q.
Proof.
  revert Q. induction m as [a | X op k IH | h]; intros Q HQ; simpl in *.
  - exact HQ.
  - intros x. apply IH. exact (HQ x).
  - exact HQ.
Qed.

Lemma all_runs_conj {R} (p : Prog R) (Q Q' : list Event -> Outcome R -> Prop) :
  all_runs p Q -> all_runs p Q' -> all_runs p (fun tr o => Q tr o /\ Q' tr o).
Proof.
  revert Q Q'. induction p as [r | X op k IH | h]; intros Q Q' HQ HQ'; simpl in *.
  - auto.
  - intros x. apply (IH x _ _ (HQ x) (HQ' x)).
  - auto.
Qed.

(** ** I/O clipping *)

(** What [clip_io] does when the sum [off + *len] fits in 64 bits. *)
Lemma clip_io_no_wrap (ictx : ImageCtx) (off len : Z) :
  let image_size := get_image_size ictx (ic_snap_id ictx) in
  0 <= off -> 0 <= len -> off + len < 2 ^ 64 -> 0 <= image_size ->
  (ic_snap_exists ictx = false -> clip_io ictx off len = (- ENOENT, len)) /\
  (ic_snap_exists ictx = true -> len = 0 -> clip_io ictx off len = (0, 0)) /\
  (ic_snap_exists ictx = true -> len <> 0 -> image_size <= off ->
     clip_io ictx off len = (- EINVAL, len)) /\
  (ic_snap_exists ictx = true -> len <> 0 -> off < image_size ->
     image_size < off + len ->
     clip_io ictx off len = (0, image_size - off)) /\
  (ic_snap_exists ictx = true -> len <> 0 -> off < image_size ->
     off + len <= image_size ->
     clip_io ictx off len = (0, len)).
Proof.
  intros image_size Hoff Hlen Hsum Hsize. unfold clip_io. fold image_size.
  repeat split; intros Hex.
  - rewrite Hex. reflexivity.
  - intros ->. rewrite Hex. reflexivity.
  - intros Hl Hpast. rewrite Hex. simpl.
    destruct (Z.eqb_spec len 0); [contradiction |].
    destruct (Z.geb_spec off image_size); [reflexivity | lia].
  - intros Hl Hin Hover. rewrite Hex. simpl.
    destruct (Z.eqb_spec len 0); [contradiction |].
    destruct (Z.geb_spec off image_size); [lia |].
    unfold wrap64. rewrite (Z.mod_small (off + len)) by lia.
    destruct (Z.gtb_spec (off + len) image_size); [| lia].
    rewrite Z.mod_small by lia. reflexivity.
  - intros Hl Hin Hfit. rewrite Hex. simpl.
    destruct (Z.eqb_spec len 0); [contradiction |].
    destruct (Z.geb_spec off image_size); [lia |].
    unfold wrap64. rewrite (Z.mod_small (off + len)) by lia.
    destruct (Z.gtb_spec (off + len) image_size); [lia | reflexivity].
Qed.

(** C10. A request of [2^64 - 1] bytes at offset 1 of a 10-byte image
    extends past the end of the image, yet [clip_io] accepts it and leaves
    its length as it is: the sum [off + *len] wraps to 0 in 64 bits, so
    the test [(off + *len) > image_size] fails and the length is not
    reduced to [image_size - off = 9]. *)
Theorem clip_io_wrapped_request_not_clipped :
  let ictx := plain_image "img" "1" 10 in
  ic_snap_exists ictx = true /\
  get_image_size ictx (ic_snap_id ictx) = 10 /\
  1 < 10 /\ 10 < 1 + UINT64_MAX /\
  clip_io ictx 1 UINT64_MAX = (0, UINT64_MAX) /\
  UINT64_MAX <> 10 - 1.
Proof.
  cbv zeta. repeat split; try reflexivity. discriminate.
Qed.

(** ** Snapshot protection query *)

(** C9. Once the refresh has succeeded, [snap_is_protected] on an
    existing snapshot name returns 0 and reports the snapshot protected
    exactly when its protection state is not [Unprotected]: the states
    [Protecting], [Protected] and [Unprotecting] are all reported as
    protected. On a name that no snapshot bears it returns [-ENOENT]. *)
Theorem snap_is_protected_reports {W} (H : Handler W) (w w1 : W)
  (ictx ictx' : ImageCtx) (snap_name : string) (b0 : bool) (r : Z) :
  H _ (StateRefreshIfRequired ictx) w = ((r, ictx'), w1) ->
  0 <= r ->
  (forall info,
     get_snap_id ictx' snap_name <> CEPH_NOSNAP ->
     get_snap_info ictx' (get_snap_id ictx' snap_name) = Some info ->
     outcome H (snap_is_protected ictx snap_name b0) w =
       Returned (0,
                 match si_protection_status info with
                 | Unprotected => false
                 | Protecting | Protected | Unprotecting => true
                 end,
                 ictx')) /\
  (get_snap_id ictx' snap_name = CEPH_NOSNAP ->
     outcome H (snap_is_protected ictx snap_name b0) w =
       Returned (- ENOENT, b0, ictx')).
Proof.
  intros Hrefresh Hr.
  assert (Hneg : (r <? 0) = false) by (apply Z.ltb_ge; exact Hr).
  unfold outcome, snap_is_protected. simpl. rewrite Hrefresh. simpl.
  rewrite Hneg. split.
  - intros info Hid Hinfo.
    destruct (Z.eqb_spec (get_snap_id ictx' snap_name) CEPH_NOSNAP) as [E | _];
      [contradiction |].
    unfold is_snap_unprotected. rewrite Hinfo. simpl.
    destruct (si_protection_status info); reflexivity.
  - intros Hid. rewrite Hid. reflexivity.
Qed.

Lemma snap_is_protected_reports_witness :
  outcome quiet (snap_is_protected (snap_image "a" "1" 8 Unprotecting CEPH_NOSNAP)
                   "s1" false) tt
  = Returned (0, true, snap_image "a" "1" 8 Unprotecting CEPH_NOSNAP) /\
  outcome quiet (snap_is_protected (snap_image "a" "1" 8 Unprotecting CEPH_NOSNAP)
                   "s2" false) tt
  = Returned (- ENOENT, false, snap_image "a" "1" 8 Unprotecting CEPH_NOSNAP).
Proof.
  pose proof (snap_is_protected_reports quiet tt tt
                (snap_image "a" "1" 8 Unprotecting CEPH_NOSNAP)
                (snap_image "a" "1" 8 Unprotecting CEPH_NOSNAP)) as T.
  split.
  - destruct (T "s1"%string false 0 eq_refl ltac:(lia)) as [T1 _].
    apply (T1 (mkSnapInfo "s1" 8 Unprotecting UserSnapshotNamespace)).
    + vm_compute. discriminate.
    + reflexivity.
  - destruct (T "s2"%string false 0 eq_refl ltac:(lia)) as [_ T2].
    apply T2. reflexivity.
Defined.

(** ** Image options *)

Lemma image_options_set_uint64 (opts : image_options_t) (optname optval : Z) :
  IMAGE_OPTIONS_TYPE_MAPPING !! optname = Some UINT64 ->
  image_options_set opts optname optval = (0, <[optname := OptU64 optval]> opts).
Proof. intros Ht. unfold image_options_set. rewrite Ht. reflexivity. Qed.

Lemma image_options_get_uint64 (opts : image_options_t) (optname cur : Z) :
  IMAGE_OPTIONS_TYPE_MAPPING !! optname = Some UINT64 ->
  image_options_get opts optname cur =
  match opts !! optname with
  | None => Some (- ENOENT, cur)
  | Some (OptU64 v) => Some (0, v)
  | Some (OptStr _) => None
  end.
Proof. intros Ht. unfold image_options_get. rewrite Ht. reflexivity. Qed.

Lemma image_options_is_set_uint64 (opts : image_options_t) (optname : Z) (cur : bool) :
  IMAGE_OPTIONS_TYPE_MAPPING !! optname = Some UINT64 ->
  image_options_is_set opts optname cur =
  (0, match opts !! optname with Some _ => true | None => false end).
Proof. intros Ht. unfold image_options_is_set. rewrite Ht. reflexivity. Qed.

Lemma type_of_format : IMAGE_OPTIONS_TYPE_MAPPING !! RBD_IMAGE_OPTION_FORMAT = Some UINT64.
Proof. reflexivity. Qed.

Lemma type_of_features : IMAGE_OPTIONS_TYPE_MAPPING !! RBD_IMAGE_OPTION_FEATURES = Some UINT64.
Proof. reflexivity. Qed.

Lemma type_of_order : IMAGE_OPTIONS_TYPE_MAPPING !! RBD_IMAGE_OPTION_ORDER = Some UINT64.
Proof. reflexivity. Qed.

(** ** Clone creation *)

Local Opaque image_options_get image_options_set image_options_is_set.

Ltac split_ifs :=
  repeat match goal with
  | |- context [if ?b then _ else _] => destruct b eqn:?
  | |- context [match ?x with (_, _) => _ end] => destruct x eqn:?
  end.


Ltac crunch_step :=
  match goal with
  | x : _ * _ |- _ => destruct x
  | H : _ /\ _ |- _ => destruct H
  | H : _ \/ _ |- _ => destruct H
  | H : False |- _ => contradiction
  | H : Some _ = Some _ |- _ => injection H as H
  | H : (_, _) = (_, _) |- _ => injection H as H
  | H : Some _ = None |- _ => discriminate H
  | H : None = Some _ |- _ => discriminate H
  | H : negb ?b = true |- _ => apply negb_true_iff in H
  | H : negb ?b = false |- _ => apply negb_false_iff in H
  | H : ?x = _ |- _ => is_var x; subst x
  | H : _ = ?x |- _ => is_var x; subst x
  | |- context [if ?b then _ else _] => destruct b eqn:?
  | H : context [if ?b then _ else _] |- _ => destruct b eqn:?
  | |- context [match ?x with (_, _) => _ end] => destruct x eqn:?
  | H : context [match ?x with (_, _) => _ end] |- _ => destruct x eqn:?
  | |- context [or_throw ?x] => destruct x eqn:?
  end.

(** Every run of a straight-line program: each answer is introduced and
    each test is split. *)
Ltac crunch :=
  repeat first [ progress simpl in * | progress intros | crunch_step ].

Ltac zbool :=
  repeat match goal with
  | H : _ && _ = true |- _ => apply andb_true_iff in H; destruct H
  | H : _ || _ = false |- _ => apply orb_false_iff in H; destruct H
  | H : negb _ = true |- _ => apply negb_true_iff in H
  | H : negb _ = false |- _ => apply negb_false_iff in H
  | H : (_ <? _) = true |- _ => apply Z.ltb_lt in H
  | H : (_ <? _) = false |- _ => apply Z.ltb_ge in H
  | H : (_ =? _) = true |- _ => apply Z.eqb_eq in H
  | H : (_ =? _) = false |- _ => apply Z.eqb_neq in H
  end.

Ltac unfold_create :=
  unfold clone_create, clone_mirror, clone_done, err_remove_child,
    err_close_child, err_remove.

(** The validation of [clone], up to the point where [clone_create]
    takes over. *)
Ltac unfold_validation :=
  unfold clone, clone_features, detect_format, clone_validate, clone_resolve.

Lemma is_snap_protected_sound (ictx : ImageCtx) (cur : bool) (r : Z) :
  is_snap_protected ictx (ic_snap_id ictx) cur = (r, true) ->
  0 <= r ->
  snapshot_protected ictx.
Proof.
  unfold is_snap_protected, snapshot_protected.
  destruct (get_snap_info ictx (ic_snap_id ictx)) as [info |].
  - intros E _. exists info. split; [reflexivity |].
    destruct (si_protection_status info); try discriminate E. reflexivity.
  - intros E Hr. injection E as <- _. unfold ENOENT in Hr. lia.
Qed.

Lemma is_snap_protected_complete (ictx : ImageCtx) (cur : bool) (r : Z) (b : bool) :
  is_snap_protected ictx (ic_snap_id ictx) cur = (r, b) ->
  snapshot_protected ictx -> r = 0 /\ b = true.
Proof.
  unfold is_snap_protected, snapshot_protected.
  intros E (info & Hinfo & Hst). rewrite Hinfo, Hst in E.
  injection E as <- <-. split; reflexivity.
Qed.

(** A re-check that passed contradicts a snapshot that is not
    protected. *)
Ltac by_protection :=
  exfalso; zbool; subst;
  first
    [ lia
    | match goal with
      | Hn : ~ snapshot_protected ?p,
        E : is_snap_protected ?p _ _ = (_, true) |- _ =>
          apply Hn; apply (is_snap_protected_sound _ _ _ E); lia
      end ].

Ltac find_call :=
  simpl; repeat first [left; reflexivity | right].

Lemma clone_create_ladder p_imctx c_ioctx c_name c_opts npg pmu pspec size :
  all_runs (clone_create p_imctx c_ioctx c_name c_opts npg pmu pspec size true)
    (fun tr o => forall s code, failed_step tr = Some (s, code) ->
       exists c_imctx,
         (s <> StepOpen ->
            exists ro, In (Opened c_ioctx c_name "" ro c_imctx) (child_calls tr) /\
                       0 <= ro) /\
         (after_registration s = true ->
            exists r2, In (Registered c_ioctx pspec (ic_id c_imctx) r2) (child_calls tr) /\
                       0 <= r2) /\
         compensations tr = ladder pspec c_ioctx c_name c_imctx s /\
         return_value o = Some (reported s code)).
Proof.
  unfold_create. unfold failed_step, compensations, child_calls, recheck_failure.
  crunch; try discriminate.
  all: zbool.
  all: eexists.
  all: (split; [intros Hs;
                first [contradiction Hs; reflexivity
                      | eexists; split; [find_call | assumption]] |]).
  all: (split; [intros Hs;
                first [discriminate Hs
                      | eexists; split; [find_call | assumption]] |]).
  all: split; reflexivity.
  Unshelve. all: exact p_imctx.
Qed.

Lemma clone_create_recheck p_imctx c_ioctx c_name c_opts npg pmu pspec size :
  all_runs (clone_create p_imctx c_ioctx c_name c_opts npg pmu pspec size true)
    (fun tr o => forall r p', In (r, p') (refreshed tr) ->
       exists rc ro c r1 r2 post,
         child_calls tr
         = [Created c_ioctx c_name size rc; Opened c_ioctx c_name "" ro c;
            ParentSet c_ioctx (ic_header_oid c) pspec size r1;
            Registered c_ioctx pspec (ic_id c) r2;
            ParentRefreshed p_imctx r p'] ++ post /\
         0 <= rc /\ 0 <= ro /\ 0 <= r1 /\ 0 <= r2 /\
         (r <= 0 -> ~ snapshot_protected p' ->
            return_value o = Some (- EINVAL) /\
            compensations tr
            = [RemoveFromChildIndex c_ioctx pspec (ic_id c); CloseChild c;
               DeleteChildImage c_ioctx c_name ""])).
Proof.
  unfold_create. unfold refreshed, compensations, child_calls.
  crunch; try discriminate.
  all: eexists _, _, _, _, _, _.
  all: (split; [reflexivity |]).
  all: zbool.
  all: repeat (split; [assumption |]).
  all: intros Hr Hn; first [split; reflexivity | by_protection].
Qed.

Ltac pick_call :=
  repeat match goal with
  | H : _ \/ _ |- _ => destruct H
  | H : False |- _ => destruct H
  | H : @eq ChildCall _ _ |- _ => first [discriminate H | injection H as H]
  | H : ?x = _ |- _ => is_var x; subst x
  | H : _ = ?x |- _ => is_var x; subst x
  end.

Lemma clone_create_registered p_imctx c_ioctx c_name c_opts npg pmu pspec size b :
  all_runs (clone_create p_imctx c_ioctx c_name c_opts npg pmu pspec size b)
    (fun tr o => forall io ps id r2, In (Registered io ps id r2) (child_calls tr) ->
       0 <= r2 -> exists r p', refreshed tr = [(r, p')]).
Proof.
  unfold_create. unfold refreshed, child_calls.
  crunch; try discriminate; pick_call; zbool; try lia.
  all: eexists _, _; reflexivity.
Qed.

Lemma clone_create_success p_imctx c_ioctx c_name c_opts npg pmu pspec size :
  all_runs (clone_create p_imctx c_ioctx c_name c_opts npg pmu pspec size true)
    (fun tr o => forall ret, return_value o = Some ret -> 0 <= ret ->
       exists rc ro c r1 r2 r p' tr',
         child_calls tr
         = [Created c_ioctx c_name size rc; Opened c_ioctx c_name "" ro c;
            ParentSet c_ioctx (ic_header_oid c) pspec size r1;
            Registered c_ioctx pspec (ic_id c) r2;
            ParentRefreshed p_imctx r p'; Closed c ret] /\
         refreshed tr = [(r, p')] /\
         0 <= rc /\ 0 <= ro /\ 0 <= r1 /\ 0 <= r2 /\
         (r <= 0 -> snapshot_protected p') /\
         tr = tr' ++ [Ev (StateClose c) ret]).
Proof.
  unfold_create. unfold child_calls, refreshed.
  crunch; try discriminate.
  all: zbool; subst.
  all: try (unfold EINVAL in *; lia).
  all: eexists _, _, _, _, _, _, _, _.
  all: (split; [reflexivity |]).
  all: (split; [reflexivity |]).
  all: repeat (split; [assumption |]).
  all: split;
    [ intros Hr;
      match goal with
      | E : is_snap_protected ?p _ _ = (_, true) |- snapshot_protected ?p =>
          apply (is_snap_protected_sound _ _ _ E); lia
      | _ => lia
      end
    | match goal with
      | |- ?l = _ ++ [_] =>
          first
            [ exact (eq_refl : l = [_; _; _; _; _; _] ++ [_])
            | exact (eq_refl : l = [_; _; _; _; _; _; _] ++ [_])
            | exact (eq_refl : l = [_; _; _; _; _; _; _; _] ++ [_])
            | exact (eq_refl : l = [_; _; _; _; _; _; _; _; _] ++ [_]) ]
      end ].
Qed.

Lemma clone_create_features p_imctx c_ioctx c_name c_opts npg pmu pspec size b :
  all_runs (clone_create p_imctx c_ioctx c_name c_opts npg pmu pspec size b)
    (fun tr o => created_features tr = [c_opts !! RBD_IMAGE_OPTION_FEATURES]).
Proof.
  unfold_create. unfold created_features.
  (crunch; reflexivity).
Qed.

Local Opaque clone_create.

Lemma clone_ladder p_imctx c_ioctx c_name c_opts npg pmu :
  all_runs (clone p_imctx c_ioctx c_name c_opts npg pmu)
    (fun tr o => forall s code, failed_step tr = Some (s, code) ->
       exists c_imctx,
         (s <> StepOpen ->
            exists ro, In (Opened c_ioctx c_name "" ro c_imctx) (child_calls tr) /\
                       0 <= ro) /\
         (after_registration s = true ->
            exists r2,
              In (Registered c_ioctx (parent_spec_of p_imctx) (ic_id c_imctx) r2)
                (child_calls tr) /\ 0 <= r2) /\
         compensations tr = ladder (parent_spec_of p_imctx) c_ioctx c_name c_imctx s /\
         return_value o = Some (reported s code)).
Proof.
  unfold_validation. unfold failed_step, compensations, child_calls, parent_spec_of.
  crunch; try discriminate;
    (eapply all_runs_mono; [| apply clone_create_ladder]);
    intros tr o Hc s code Hf; apply Hc; exact Hf.
Qed.

Ltac use_absent :=
  repeat match goal with
  | H : Forall _ (_ :: _) |- _ => apply Forall_cons in H; destruct H
  end.

Lemma clone_head_rejected p_imctx c_ioctx c_name c_opts npg pmu :
  ic_snap_id p_imctx = CEPH_NOSNAP ->
  clone p_imctx c_ioctx c_name c_opts npg pmu = Ret (- EINVAL, c_opts).
Proof. intros E. unfold clone. rewrite E. reflexivity. Qed.

(** [clone], case by case on the format option. *)
Lemma clone_by_format p_imctx c_ioctx c_name (c_opts : image_options_t) npg pmu :
  clone p_imctx c_ioctx c_name c_opts npg pmu =
  if ic_snap_id p_imctx =? CEPH_NOSNAP then Ret (- EINVAL, c_opts)
  else match c_opts !! RBD_IMAGE_OPTION_FORMAT with
       | None =>
           clone_features p_imctx c_ioctx c_name
             (<[RBD_IMAGE_OPTION_FORMAT := OptU64 2]> c_opts) npg pmu
       | Some (OptU64 n) =>
           if n <? 2 then Ret (- EINVAL, c_opts)
           else clone_features p_imctx c_ioctx c_name c_opts npg pmu
       | Some (OptStr _) => Stop HThrow
       end.
Proof.
  unfold clone.
  destruct (ic_snap_id p_imctx =? CEPH_NOSNAP); [reflexivity |].
  rewrite image_options_is_set_uint64 by reflexivity.
  destruct (c_opts !! RBD_IMAGE_OPTION_FORMAT) as [[s | n] |] eqn:E; simpl.
  - rewrite image_options_get_uint64 by reflexivity. rewrite E. reflexivity.
  - rewrite image_options_get_uint64 by reflexivity. rewrite E. reflexivity.
  - rewrite image_options_set_uint64 by reflexivity. simpl.
    rewrite image_options_get_uint64 by reflexivity.
    rewrite lookup_insert_eq. reflexivity.
Qed.

Lemma features_after_format (c_opts : image_options_t) :
  <[RBD_IMAGE_OPTION_FORMAT := OptU64 2]> c_opts !! RBD_IMAGE_OPTION_FEATURES
  = c_opts !! RBD_IMAGE_OPTION_FEATURES.
Proof. apply lookup_insert_ne. discriminate. Qed.

Lemma order_after_format (c_opts : image_options_t) :
  <[RBD_IMAGE_OPTION_FORMAT := OptU64 2]> c_opts !! RBD_IMAGE_OPTION_ORDER
  = c_opts !! RBD_IMAGE_OPTION_ORDER.
Proof. apply lookup_insert_ne. discriminate. Qed.

Lemma clone_features_unprotected_rejected
  p_imctx c_ioctx c_name (c_opts : image_options_t) npg pmu info :
  get_snap_info p_imctx (ic_snap_id p_imctx) = Some info ->
  si_protection_status info <> Protected ->
  requested_supported c_opts ->
  has_layering (ic_features p_imctx) ->
  all_runs (clone_features p_imctx c_ioctx c_name c_opts npg pmu)
    (fun tr o => child_absent tr -> return_value o = Some (- EINVAL)).
Proof.
  intros Hinfo Hst Hreq Hlay.
  unfold clone_features, detect_format, clone_validate, child_absent, is_snap_protected.
  rewrite Hinfo. unfold has_layering in Hlay. rewrite Hlay, Z.eqb_refl.
  rewrite image_options_get_uint64 by reflexivity.
  unfold requested_supported in Hreq.
  destruct (c_opts !! RBD_IMAGE_OPTION_FEATURES) as [[s | f] |]; [contradiction | |];
    destruct (si_protection_status info); try contradiction.
  all: crunch; try reflexivity.
  all: use_absent; zbool; subst; try discriminate; try (unfold ENOENT in *; lia).
Qed.

Lemma clone_unprotected_rejected
  p_imctx c_ioctx c_name (c_opts : image_options_t) npg pmu info :
  get_snap_info p_imctx (ic_snap_id p_imctx) = Some info ->
  si_protection_status info <> Protected ->
  uint64_typed c_opts RBD_IMAGE_OPTION_FORMAT ->
  requested_supported c_opts ->
  has_layering (ic_features p_imctx) ->
  all_runs (clone p_imctx c_ioctx c_name c_opts npg pmu)
    (fun tr o => child_absent tr -> return_value o = Some (- EINVAL)).
Proof.
  intros Hinfo Hst Hfmt Hreq Hlay. rewrite clone_by_format.
  destruct (ic_snap_id p_imctx =? CEPH_NOSNAP); [simpl; reflexivity |].
  unfold uint64_typed in Hfmt.
  destruct (c_opts !! RBD_IMAGE_OPTION_FORMAT) as [[s | n] |]; [contradiction | |].
  - destruct (n <? 2); [simpl; reflexivity |].
    eapply clone_features_unprotected_rejected; eauto.
  - eapply clone_features_unprotected_rejected; eauto.
    unfold requested_supported. rewrite features_after_format. exact Hreq.
Qed.

Lemma clone_protection p_imctx c_ioctx c_name c_opts npg pmu :
  all_runs (clone p_imctx c_ioctx c_name c_opts npg pmu)
    (fun tr o =>
       (forall r p', In (r, p') (refreshed tr) ->
          exists rc ro c r1 r2 post,
            child_calls tr
            = [Created c_ioctx c_name (get_image_size p_imctx (ic_snap_id p_imctx)) rc;
               Opened c_ioctx c_name "" ro c;
               ParentSet c_ioctx (ic_header_oid c) (parent_spec_of p_imctx)
                 (get_image_size p_imctx (ic_snap_id p_imctx)) r1;
               Registered c_ioctx (parent_spec_of p_imctx) (ic_id c) r2;
               ParentRefreshed p_imctx r p'] ++ post /\
            0 <= rc /\ 0 <= ro /\ 0 <= r1 /\ 0 <= r2 /\
            (r <= 0 -> ~ snapshot_protected p' ->
               return_value o = Some (- EINVAL) /\
               compensations tr
               = [RemoveFromChildIndex c_ioctx (parent_spec_of p_imctx) (ic_id c);
                  CloseChild c; DeleteChildImage c_ioctx c_name ""])) /\
       (forall io ps id r2, In (Registered io ps id r2) (child_calls tr) -> 0 <= r2 ->
          exists r p', refreshed tr = [(r, p')]) /\
       (forall ret, return_value o = Some ret -> 0 <= ret ->
          snapshot_protected p_imctx /\
          exists rc ro c r1 r2 r p' tr',
            child_calls tr
            = [Created c_ioctx c_name (get_image_size p_imctx (ic_snap_id p_imctx)) rc;
               Opened c_ioctx c_name "" ro c;
               ParentSet c_ioctx (ic_header_oid c) (parent_spec_of p_imctx)
                 (get_image_size p_imctx (ic_snap_id p_imctx)) r1;
               Registered c_ioctx (parent_spec_of p_imctx) (ic_id c) r2;
               ParentRefreshed p_imctx r p'; Closed c ret] /\
            refreshed tr = [(r, p')] /\
            0 <= rc /\ 0 <= ro /\ 0 <= r1 /\ 0 <= r2 /\
            (r <= 0 -> snapshot_protected p') /\
            tr = tr' ++ [Ev (StateClose c) ret])).
Proof.
  unfold_validation. unfold refreshed, compensations, child_calls, parent_spec_of.
  crunch.
  all: try (split; [| split]; crunch; zbool; unfold EINVAL, ENOSYS, EEXIST in *; lia).
  all: (eapply all_runs_mono;
        [| apply all_runs_conj;
           [apply clone_create_recheck
           | apply all_runs_conj;
             [apply clone_create_registered | apply clone_create_success]]]).
  all: intros tr o (Hre & Hrg & Hs); split; [exact Hre |]; split; [exact Hrg |].
  all: intros ret Hret Hpos; split;
    [zbool; eapply is_snap_protected_sound; eauto |].
  all: destruct (Hs ret Hret Hpos)
         as (rc & ro & c & r1 & r2 & r & p' & tr' & Hc & Hrf & H1 & H2 & H3 & H4 & H5 & ->).
  all: exists rc, ro, c, r1, r2, r, p'; eexists.
  all: (split; [exact Hc |]).
  all: (split; [exact Hrf |]).
  all: repeat (split; [assumption |]).
  all: rewrite ?app_comm_cons; reflexivity.
Qed.

(** C1 (as amended). When a step of [clone] that follows the creation of
    the child fails, the compensating actions that run are those of the
    ladder from the label the step jumps to, in the order remove from the
    child index, close the child, delete the child image: the deletion
    alone when opening the child fails; close and deletion when setting
    the parent or registering the child fails; all three when the
    re-check of the protection, the copy of the metadata or the enabling
    of mirroring fails. Each acts on the child: the image deleted is the
    image [c_name] of the pool [c_ioctx], the handle closed is the one
    the opening of that image returned, and the entry removed from the
    child index is the one registered, the identifier of that handle
    under the parent [p_imctx]. The value returned is the error the step
    stopped on ([-EINVAL] for the re-check), whatever the compensating
    calls answer. *)
Theorem clone_compensates_from_failing_step {W} (H : Handler W) (w : W)
  (p_imctx : ImageCtx) (c_ioctx : IoCtx) (c_name : string)
  (c_opts : image_options_t) (npg pmu : string) (s : CloneStep) (code : Z) :
  let tr := trace H (clone p_imctx c_ioctx c_name c_opts npg pmu) w in
  let o := outcome H (clone p_imctx c_ioctx c_name c_opts npg pmu) w in
  failed_step tr = Some (s, code) ->
  exists c_imctx,
    (s <> StepOpen ->
       exists ro, In (Opened c_ioctx c_name "" ro c_imctx) (child_calls tr) /\ 0 <= ro) /\
    (after_registration s = true ->
       exists r2,
         In (Registered c_ioctx (parent_spec_of p_imctx) (ic_id c_imctx) r2)
           (child_calls tr) /\ 0 <= r2) /\
    compensations tr = ladder (parent_spec_of p_imctx) c_ioctx c_name c_imctx s /\
    return_value o = Some (reported s code).
Proof.
  intros tr o Hf.
  exact (all_runs_sound _ _ (clone_ladder p_imctx c_ioctx c_name c_opts npg pmu)
           W H w s code Hf).
Qed.

Lemma clone_compensates_from_failing_step_witness :
  compensations (trace refresh_fails
                   (clone (snap_image "a" "1" 8 Protected 4) (mkIoCtx 1) "b" ∅ "" "") tt)
    = [RemoveFromChildIndex (mkIoCtx 1) (mkParentSpec 1 "1" 4) "";
       CloseChild (plain_image "b" "" 0);
       DeleteChildImage (mkIoCtx 1) "b" ""] /\
  return_value (outcome refresh_fails
      (clone (snap_image "a" "1" 8 Protected 4) (mkIoCtx 1) "b" ∅ "" "") tt)
    = Some (- EINVAL).
Proof.
  destruct (clone_compensates_from_failing_step refresh_fails tt
              (snap_image "a" "1" 8 Protected 4) (mkIoCtx 1) "b" ∅ "" ""
              StepRecheck (- EIO)) as (c & Hopen & _ & Hcomp & Hret).
  - vm_compute. reflexivity.
  - destruct (Hopen ltac:(discriminate)) as (ro & Hin & _).
    vm_compute in Hin.
    destruct Hin as [E | [E | [E | [E | [E | [E | [E | [E | []]]]]]]]];
      try discriminate E.
    injection E as _ <-. split; [exact Hcomp | exact Hret].
Defined.

(** C1, as stated, fails on two runs. When opening the child fails,
    the deletion of the child image is the only compensating action: the
    child is neither removed from the child index nor closed. When the
    refresh of the parent fails with [-EIO] at the re-check, the value
    returned is [-EINVAL], not the error of the refresh. *)
Lemma clone_compensation_counterexample :
  (failed_step (trace open_fails
                  (clone (snap_image "a" "1" 8 Protected 4) (mkIoCtx 1) "b" ∅ "" "") tt)
     = Some (StepOpen, - EIO) /\
   compensations (trace open_fails
                    (clone (snap_image "a" "1" 8 Protected 4) (mkIoCtx 1) "b" ∅ "" "") tt)
     = [DeleteChildImage (mkIoCtx 1) "b" ""] /\
   length [DeleteChildImage (mkIoCtx 1) "b" ""] <> 3%nat) /\
  (failed_step (trace refresh_fails
                  (clone (snap_image "a" "1" 8 Protected 4) (mkIoCtx 1) "b" ∅ "" "") tt)
     = Some (StepRecheck, - EIO) /\
   return_value (outcome refresh_fails
      (clone (snap_image "a" "1" 8 Protected 4) (mkIoCtx 1) "b" ∅ "" "") tt)
     = Some (- EINVAL) /\
   - EINVAL <> - EIO).
Proof.
  repeat split; try (vm_compute; reflexivity); discriminate.
Qed.

(** C2. [clone] returns [-EINVAL] when the head of the parent is
    selected, and when the validation finds the parent's snapshot in a
    state other than protected (the caller's options being well formed,
    the child not existing yet and the parent having layering, whose
    checks come first). The parent is refreshed only right after the
    calls that created the child [c_name] in [c_ioctx], opened it, wrote
    the parent into its header and registered its identifier in the
    child index under the parent, each with success; and a registration
    that succeeds is followed by that one refresh. If the snapshot the
    refresh hands back is then not protected, [clone] returns [-EINVAL]
    and runs the three compensating actions on that child. Hence a
    clone that returns success had a protected snapshot at validation
    and at its one re-check, which by the above came after the
    registration of the child. The refresh is taken to answer 0 or a
    negative errno. *)
Theorem clone_requires_protected_parent {W} (H : Handler W) (w : W)
  (p_imctx : ImageCtx) (c_ioctx : IoCtx) (c_name : string)
  (c_opts : image_options_t) (npg pmu : string) :
  let tr := trace H (clone p_imctx c_ioctx c_name c_opts npg pmu) w in
  let o := outcome H (clone p_imctx c_ioctx c_name c_opts npg pmu) w in
  let pspec := parent_spec_of p_imctx in
  let size := get_image_size p_imctx (ic_snap_id p_imctx) in
  (ic_snap_id p_imctx = CEPH_NOSNAP -> return_value o = Some (- EINVAL)) /\
  (forall info,
     get_snap_info p_imctx (ic_snap_id p_imctx) = Some info ->
     si_protection_status info <> Protected ->
     uint64_typed c_opts RBD_IMAGE_OPTION_FORMAT ->
     requested_supported c_opts ->
     has_layering (ic_features p_imctx) ->
     child_absent tr ->
     return_value o = Some (- EINVAL)) /\
  (forall r p', In (r, p') (refreshed tr) ->
     exists rc ro c r1 r2 post,
       child_calls tr
       = [Created c_ioctx c_name size rc; Opened c_ioctx c_name "" ro c;
          ParentSet c_ioctx (ic_header_oid c) pspec size r1;
          Registered c_ioctx pspec (ic_id c) r2;
          ParentRefreshed p_imctx r p'] ++ post /\
       0 <= rc /\ 0 <= ro /\ 0 <= r1 /\ 0 <= r2 /\
       (r <= 0 -> ~ snapshot_protected p' ->
          return_value o = Some (- EINVAL) /\
          compensations tr
          = [RemoveFromChildIndex c_ioctx pspec (ic_id c); CloseChild c;
             DeleteChildImage c_ioctx c_name ""])) /\
  (forall io ps id r2, In (Registered io ps id r2) (child_calls tr) -> 0 <= r2 ->
     exists r p', refreshed tr = [(r, p')]) /\
  (forall ret, return_value o = Some ret -> 0 <= ret ->
     snapshot_protected p_imctx /\
     exists r p', refreshed tr = [(r, p')] /\ (r <= 0 -> snapshot_protected p')).
Proof.
  intros tr o pspec size. subst tr o pspec size. split; [| split].
  - intros Hhead. unfold outcome.
    rewrite (clone_head_rejected _ _ _ _ _ _ Hhead). reflexivity.
  - intros info Hinfo Hst Hfmt Hreq Hlay.
    exact (all_runs_sound _ _
             (clone_unprotected_rejected p_imctx c_ioctx c_name c_opts npg pmu
                info Hinfo Hst Hfmt Hreq Hlay) W H w).
  - destruct (all_runs_sound _ _
                (clone_protection p_imctx c_ioctx c_name c_opts npg pmu) W H w)
      as (Hre & Hrg & Hs).
    split; [exact Hre |]. split; [exact Hrg |].
    intros ret Hret Hpos. destruct (Hs ret Hret Hpos)
      as (Hp & rc & ro & c & r1 & r2 & r & p' & tr' & _ & Hrf & _ & _ & _ & _ & Hp' & _).
    split; [exact Hp |]. exists r, p'. split; [exact Hrf | exact Hp'].
Qed.

Lemma clone_requires_protected_parent_witness :
  return_value (outcome quiet
    (clone (plain_image "a" "1" 8) (mkIoCtx 1) "b" ∅ "" "") tt) = Some (- EINVAL) /\
  return_value (outcome quiet
    (clone (snap_image "a" "1" 8 Unprotecting 4) (mkIoCtx 1) "b" ∅ "" "") tt)
    = Some (- EINVAL) /\
  (return_value (outcome unprotect_races
     (clone (snap_image "a" "1" 8 Protected 4) (mkIoCtx 1) "b" ∅ "" "") tt)
     = Some (- EINVAL) /\
   exists c,
     compensations (trace unprotect_races
       (clone (snap_image "a" "1" 8 Protected 4) (mkIoCtx 1) "b" ∅ "" "") tt)
     = [RemoveFromChildIndex (mkIoCtx 1) (mkParentSpec 1 "1" 4) (ic_id c); CloseChild c;
        DeleteChildImage (mkIoCtx 1) "b" ""]) /\
  (exists r p',
     refreshed (trace quiet
       (clone (snap_image "a" "1" 8 Protected 4) (mkIoCtx 1) "b" ∅ "" "") tt)
     = [(r, p')]) /\
  snapshot_protected (snap_image "a" "1" 8 Protected 4).
Proof.
  split; [| split; [| split; [| split]]].
  - apply (clone_requires_protected_parent quiet tt
             (plain_image "a" "1" 8) (mkIoCtx 1) "b" ∅ "" "").
    reflexivity.
  - apply (proj1 (proj2 (clone_requires_protected_parent quiet tt
             (snap_image "a" "1" 8 Unprotecting 4) (mkIoCtx 1) "b" ∅ "" ""))
             (mkSnapInfo "s1" 8 Unprotecting UserSnapshotNamespace)).
    + reflexivity.
    + discriminate.
    + exact I.
    + exact I.
    + reflexivity.
    + vm_compute. repeat constructor.
  - destruct (proj1 (proj2 (proj2 (clone_requires_protected_parent unprotect_races tt
             (snap_image "a" "1" 8 Protected 4) (mkIoCtx 1) "b" ∅ "" "")))
             0 (snap_image "a" "1" 8 Unprotected 4))
      as (rc & ro & c & r1 & r2 & post & _ & _ & _ & _ & _ & Hfail).
    + vm_compute. left. reflexivity.
    + destruct Hfail as [Hret Hcomp].
      * lia.
      * intros (info & Hinfo & Hst). vm_compute in Hinfo.
        injection Hinfo as <-. discriminate Hst.
      * split; [exact Hret |]. exists c. exact Hcomp.
  - apply (proj1 (proj2 (proj2 (proj2 (clone_requires_protected_parent quiet tt
             (snap_image "a" "1" 8 Protected 4) (mkIoCtx 1) "b" ∅ "" ""))))
             (mkIoCtx 1) (mkParentSpec 1 "1" 4) "" 0).
    + vm_compute. right. right. right. left. reflexivity.
    + lia.
  - eapply proj1.
    apply (proj2 (proj2 (proj2 (proj2 (clone_requires_protected_parent quiet tt
             (snap_image "a" "1" 8 Protected 4) (mkIoCtx 1) "b" ∅ "" "")))) 0).
    + vm_compute. reflexivity.
    + lia.
Defined.

Lemma clone_features_created p_imctx c_ioctx c_name (c_opts : image_options_t) npg pmu :
  all_runs (clone_features p_imctx c_ioctx c_name c_opts npg pmu)
    (fun tr o =>
       (forall v, In v (created_features tr) -> resolved_from p_imctx c_opts v) /\
       (forall ret, return_value o = Some ret -> 0 <= ret ->
          exists v, created_features tr = [v])).
Proof.
  unfold clone_features, detect_format, clone_validate, clone_resolve, resolved_from.
  rewrite image_options_get_uint64 by reflexivity.
  destruct (c_opts !! RBD_IMAGE_OPTION_FEATURES) as [[s | f] |] eqn:Ef.
  - simpl. split; [intros v [] | intros ret Hret; discriminate Hret].
  - crunch.
    all: try (split; crunch; zbool; unfold EINVAL, ENOSYS, EEXIST in *; lia).
    all: (eapply all_runs_mono; [| apply clone_create_features]);
      intros tr o Hc; unfold created_features in *; simpl; rewrite Hc;
      rewrite image_options_set_uint64 by reflexivity; simpl;
      rewrite lookup_insert_eq;
      (split; [intros v [<- | []]; zbool; eexists; repeat split; assumption
              | intros; eexists; reflexivity]).
  - crunch.
    all: try (split; crunch; zbool; unfold EINVAL, ENOSYS, EEXIST in *; lia).
    all: (eapply all_runs_mono; [| apply clone_create_features]);
      intros tr o Hc; unfold created_features in *; simpl; rewrite Hc;
      rewrite image_options_set_uint64 by reflexivity; simpl;
      rewrite lookup_insert_eq;
      (split; [intros v [<- | []]; zbool; eexists; repeat split; assumption
              | intros; eexists; reflexivity]).
Qed.

Lemma clone_created p_imctx c_ioctx c_name (c_opts : image_options_t) npg pmu :
  all_runs (clone p_imctx c_ioctx c_name c_opts npg pmu)
    (fun tr o =>
       (forall v, In v (created_features tr) -> resolved_from p_imctx c_opts v) /\
       (forall ret, return_value o = Some ret -> 0 <= ret ->
          exists v, created_features tr = [v])).
Proof.
  rewrite clone_by_format.
  assert (Hneg : forall (c : image_options_t),
            all_runs (Ret (- EINVAL, c) : Prog (Z * image_options_t))
              (fun tr o =>
                 (forall v, In v (created_features tr) -> resolved_from p_imctx c_opts v) /\
                 (forall ret, return_value o = Some ret -> 0 <= ret ->
                    exists v, created_features tr = [v]))).
  { intros c. simpl. split; [intros v [] |].
    intros ret Hret Hpos. injection Hret as <-. unfold EINVAL in Hpos. lia. }
  destruct (ic_snap_id p_imctx =? CEPH_NOSNAP); [apply Hneg |].
  destruct (c_opts !! RBD_IMAGE_OPTION_FORMAT) as [[s | n] |].
  - simpl. split; [intros v [] | intros ret Hret; discriminate Hret].
  - destruct (n <? 2); [apply Hneg |]. apply clone_features_created.
  - eapply all_runs_mono; [| apply clone_features_created].
    unfold resolved_from. rewrite features_after_format. auto.
Qed.


Lemma clone_unsupported_rejected p_imctx c_ioctx c_name (c_opts : image_options_t)
  npg pmu f :
  c_opts !! RBD_IMAGE_OPTION_FEATURES = Some (OptU64 f) ->
  Z.land f (lnot64 RBD_FEATURES_ALL) <> 0 ->
  ic_snap_id p_imctx <> CEPH_NOSNAP ->
  format_ok c_opts ->
  exists c_opts', clone p_imctx c_ioctx c_name c_opts npg pmu = Ret (- ENOSYS, c_opts').
Proof.
  intros Ef Hbad Hsnap Hfmt. rewrite clone_by_format.
  apply Z.eqb_neq in Hsnap. rewrite Hsnap.
  apply Z.eqb_neq in Hbad.
  unfold format_ok in Hfmt.
  destruct (c_opts !! RBD_IMAGE_OPTION_FORMAT) as [[s | n] |]; [contradiction | |].
  - apply Z.ltb_ge in Hfmt. rewrite Hfmt. unfold clone_features.
    rewrite image_options_get_uint64 by reflexivity. rewrite Ef. simpl.
    rewrite Hbad. simpl. eexists. reflexivity.
  - unfold clone_features.
    rewrite image_options_get_uint64 by reflexivity.
    rewrite features_after_format, Ef. simpl.
    rewrite Hbad. simpl. eexists. reflexivity.
Qed.

Ltac use_forall :=
  repeat match goal with
  | H : Forall _ (_ :: _) |- _ => apply Forall_cons in H; destruct H
  | H : _ /\ _ |- _ => destruct H
  end.

Lemma clone_features_needs_layering p_imctx c_ioctx c_name
  (c_opts : image_options_t) npg pmu f :
  c_opts !! RBD_IMAGE_OPTION_FEATURES = Some (OptU64 f) ->
  Z.land f (lnot64 RBD_FEATURES_ALL) = 0 ->
  ~ has_layering f ->
  uint64_typed c_opts RBD_IMAGE_OPTION_ORDER ->
  parent_valid p_imctx ->
  all_runs (clone_features p_imctx c_ioctx c_name c_opts npg pmu)
    (fun tr o => child_absent tr -> primary_or_forced npg tr ->
       return_value o = Some (- ENOSYS)).
Proof.
  intros Ef Hsup Hlack Hord (Hold & Hlay & info & Hinfo & Hst).
  unfold clone_features, detect_format, clone_validate, clone_resolve,
    child_absent, primary_or_forced, is_snap_protected.
  rewrite Hinfo, Hst, Hold. unfold has_layering in Hlay. rewrite Hlay, Z.eqb_refl.
  rewrite !image_options_get_uint64 by reflexivity. rewrite Ef.
  unfold uint64_typed in Hord.
  assert (Hf : (Z.land f RBD_FEATURE_LAYERING =? RBD_FEATURE_LAYERING) = false)
    by (apply Z.eqb_neq; exact Hlack).
  apply Z.eqb_eq in Hsup.
  destruct (c_opts !! RBD_IMAGE_OPTION_ORDER) as [[s | n] |]; [contradiction | |].
  all: crunch; try reflexivity.
  all: use_forall; zbool; subst; simpl in *; try discriminate;
    try (unfold ENOENT in *; lia).
  all: match goal with
       | He : (?s =? "")%string = true, Hor : _ \/ ?s <> ""%string |- _ =>
           apply String.eqb_eq in He; destruct Hor; [discriminate | contradiction]
       end.
Qed.

Lemma clone_features_parent_needs_layering p_imctx c_ioctx c_name
  (c_opts : image_options_t) npg pmu :
  c_opts !! RBD_IMAGE_OPTION_FEATURES = None ->
  ~ has_layering (ic_features p_imctx) ->
  ic_old_format p_imctx = false ->
  all_runs (clone_features p_imctx c_ioctx c_name c_opts npg pmu)
    (fun tr o => child_absent tr -> return_value o = Some (- ENOSYS)).
Proof.
  intros Ef Hlack Hold.
  unfold clone_features, detect_format, clone_validate, child_absent.
  rewrite Hold.
  rewrite !image_options_get_uint64 by reflexivity. rewrite Ef.
  assert (Hf : (Z.land (ic_features p_imctx) RBD_FEATURE_LAYERING
                =? RBD_FEATURE_LAYERING) = false)
    by (apply Z.eqb_neq; exact Hlack).
  rewrite Hf.
  crunch; try reflexivity.
  all: use_forall; zbool; subst; simpl in *; try discriminate;
    try (unfold ENOENT in *; lia).
Qed.

Lemma clone_needs_layering p_imctx c_ioctx c_name (c_opts : image_options_t)
  npg pmu f :
  ic_snap_id p_imctx <> CEPH_NOSNAP ->
  format_ok c_opts ->
  c_opts !! RBD_IMAGE_OPTION_FEATURES = Some (OptU64 f) ->
  Z.land f (lnot64 RBD_FEATURES_ALL) = 0 ->
  ~ has_layering f ->
  uint64_typed c_opts RBD_IMAGE_OPTION_ORDER ->
  parent_valid p_imctx ->
  all_runs (clone p_imctx c_ioctx c_name c_opts npg pmu)
    (fun tr o => child_absent tr -> primary_or_forced npg tr ->
       return_value o = Some (- ENOSYS)).
Proof.
  intros Hsnap Hfmt Ef Hsup Hlack Hord Hpar. rewrite clone_by_format.
  apply Z.eqb_neq in Hsnap. rewrite Hsnap.
  unfold format_ok in Hfmt.
  destruct (c_opts !! RBD_IMAGE_OPTION_FORMAT) as [[s | n] |]; [contradiction | |].
  - apply Z.ltb_ge in Hfmt. rewrite Hfmt.
    eapply clone_features_needs_layering; eauto.
  - eapply clone_features_needs_layering; eauto.
    + rewrite features_after_format. exact Ef.
    + unfold uint64_typed. rewrite order_after_format. exact Hord.
Qed.

Lemma clone_parent_needs_layering p_imctx c_ioctx c_name (c_opts : image_options_t)
  npg pmu :
  ic_snap_id p_imctx <> CEPH_NOSNAP ->
  format_ok c_opts ->
  c_opts !! RBD_IMAGE_OPTION_FEATURES = None ->
  ~ has_layering (ic_features p_imctx) ->
  ic_old_format p_imctx = false ->
  all_runs (clone p_imctx c_ioctx c_name c_opts npg pmu)
    (fun tr o => child_absent tr -> return_value o = Some (- ENOSYS)).
Proof.
  intros Hsnap Hfmt Ef Hlack Hold. rewrite clone_by_format.
  apply Z.eqb_neq in Hsnap. rewrite Hsnap.
  unfold format_ok in Hfmt.
  destruct (c_opts !! RBD_IMAGE_OPTION_FORMAT) as [[s | n] |]; [contradiction | |].
  - apply Z.ltb_ge in Hfmt. rewrite Hfmt.
    eapply clone_features_parent_needs_layering; eauto.
  - eapply clone_features_parent_needs_layering; eauto.
    rewrite features_after_format. exact Ef.
Qed.

(** C8. When the caller's feature set has a bit outside
    [RBD_FEATURES_ALL], [clone] on a selected snapshot with a valid format
    option returns [-ENOSYS]. Whenever [clone] requests the creation of
    the child, it does so with a feature set that has layering: the
    parent's when the caller gave none, the caller's own otherwise. When
    the resulting set lacks layering, [clone] returns [-ENOSYS], once the
    checks that come first have passed. A clone that returns success has
    requested exactly one creation, with layering. *)
Theorem clone_resolves_features {W} (H : Handler W) (w : W)
  (p_imctx : ImageCtx) (c_ioctx : IoCtx) (c_name : string)
  (c_opts : image_options_t) (npg pmu : string) :
  let tr := trace H (clone p_imctx c_ioctx c_name c_opts npg pmu) w in
  let o := outcome H (clone p_imctx c_ioctx c_name c_opts npg pmu) w in
  (forall f,
     c_opts !! RBD_IMAGE_OPTION_FEATURES = Some (OptU64 f) ->
     Z.land f (lnot64 RBD_FEATURES_ALL) <> 0 ->
     ic_snap_id p_imctx <> CEPH_NOSNAP ->
     format_ok c_opts ->
     return_value o = Some (- ENOSYS) /\ tr = []) /\
  (forall v, In v (created_features tr) -> resolved_from p_imctx c_opts v) /\
  (forall f,
     c_opts !! RBD_IMAGE_OPTION_FEATURES = Some (OptU64 f) ->
     Z.land f (lnot64 RBD_FEATURES_ALL) = 0 ->
     ~ has_layering f ->
     ic_snap_id p_imctx <> CEPH_NOSNAP ->
     format_ok c_opts ->
     uint64_typed c_opts RBD_IMAGE_OPTION_ORDER ->
     parent_valid p_imctx ->
     child_absent tr -> primary_or_forced npg tr ->
     return_value o = Some (- ENOSYS)) /\
  (c_opts !! RBD_IMAGE_OPTION_FEATURES = None ->
   ~ has_layering (ic_features p_imctx) ->
   ic_snap_id p_imctx <> CEPH_NOSNAP ->
   format_ok c_opts ->
   ic_old_format p_imctx = false ->
   child_absent tr ->
   return_value o = Some (- ENOSYS)) /\
  (forall ret, return_value o = Some ret -> 0 <= ret ->
     exists v, created_features tr = [v] /\ resolved_from p_imctx c_opts v).
Proof.
  intros tr o. subst tr o.
  pose proof (all_runs_sound _ _
    (clone_created p_imctx c_ioctx c_name c_opts npg pmu) W H w) as [Hres Hone].
  split; [| split; [| split; [| split]]].
  - intros f Ef Hbad Hsnap Hfmt.
    destruct (clone_unsupported_rejected p_imctx c_ioctx c_name c_opts npg pmu f
                Ef Hbad Hsnap Hfmt) as [c' E].
    unfold outcome, trace. rewrite E. split; reflexivity.
  - exact Hres.
  - intros f Ef Hsup Hlack Hsnap Hfmt Hord Hpar.
    exact (all_runs_sound _ _
             (clone_needs_layering p_imctx c_ioctx c_name c_opts npg pmu f
                Hsnap Hfmt Ef Hsup Hlack Hord Hpar) W H w).
  - intros Ef Hlack Hsnap Hfmt Hold.
    exact (all_runs_sound _ _
             (clone_parent_needs_layering p_imctx c_ioctx c_name c_opts npg pmu
                Hsnap Hfmt Ef Hlack Hold) W H w).
  - intros ret Hret Hpos. destruct (Hone ret Hret Hpos) as [v Hv].
    exists v. split; [exact Hv |]. apply Hres. rewrite Hv. left. reflexivity.
Qed.

Lemma clone_resolves_features_witness :
  return_value (outcome quiet
    (clone (snap_image "a" "1" 8 Protected 4) (mkIoCtx 1) "b"
       {[RBD_IMAGE_OPTION_FEATURES := OptU64 256]} "" "") tt) = Some (- ENOSYS) /\
  return_value (outcome quiet
    (clone (snap_image "a" "1" 8 Protected 4) (mkIoCtx 1) "b"
       {[RBD_IMAGE_OPTION_FEATURES := OptU64 2]} "" "") tt) = Some (- ENOSYS) /\
  exists v,
    created_features (trace quiet
      (clone (snap_image "a" "1" 8 Protected 4) (mkIoCtx 1) "b" ∅ "" "") tt) = [v] /\
    resolved_from (snap_image "a" "1" 8 Protected 4) ∅ v.
Proof.
  split; [| split].
  - apply (proj1 (clone_resolves_features quiet tt
             (snap_image "a" "1" 8 Protected 4) (mkIoCtx 1) "b"
             {[RBD_IMAGE_OPTION_FEATURES := OptU64 256]} "" "") 256).
    + reflexivity.
    + vm_compute. discriminate.
    + vm_compute. discriminate.
    + exact I.
  - apply (proj1 (proj2 (proj2 (clone_resolves_features quiet tt
             (snap_image "a" "1" 8 Protected 4) (mkIoCtx 1) "b"
             {[RBD_IMAGE_OPTION_FEATURES := OptU64 2]} "" ""))) 2).
    + reflexivity.
    + reflexivity.
    + vm_compute. discriminate.
    + vm_compute. discriminate.
    + exact I.
    + exact I.
    + split; [reflexivity | split; [reflexivity |]].
      exists (mkSnapInfo "s1" 8 Protected UserSnapshotNamespace).
      split; reflexivity.
    + vm_compute. repeat constructor.
    + vm_compute. constructor.
  - apply (proj2 (proj2 (proj2 (proj2 (clone_resolves_features quiet tt
             (snap_image "a" "1" 8 Protected 4) (mkIoCtx 1) "b" ∅ "" "")))) 0).
    + vm_compute. reflexivity.
    + lia.
Defined.

(** ** Snapshot removal *)

Lemma untouched_results (tr : list Event) :
  existsb touches_snapshot tr = false ->
  unprotect_results tr = [] /\ remove_results tr = [].
Proof.
  unfold unprotect_results, remove_results.
  induction tr as [| [X op x] tr IH]; [split; reflexivity |].
  simpl. intros Hb. apply orb_false_iff in Hb as [He Ht].
  destruct (IH Ht) as [IH1 IH2].
  destruct op; try discriminate He; simpl; rewrite ?IH1, ?IH2; split; reflexivity.
Qed.

(** A trace that touches nothing shows nothing to an observation that
    looks at the touching events only. *)
Lemma untouched_keep {A} (f : Event -> option A) (tr : list Event) :
  (forall e, touches_snapshot e = false -> f e = None) ->
  existsb touches_snapshot tr = false ->
  keep f tr = [].
Proof.
  intros Hf. induction tr as [| e tr IH]; [reflexivity |].
  simpl. intros Hb. apply orb_false_iff in Hb as [He Ht].
  rewrite (Hf e He). apply IH. exact Ht.
Qed.

Lemma list_children_pools_untouched parent_spec pools image_info :
  untouched (list_children_pools parent_spec pools image_info).
Proof.
  unfold untouched. revert image_info.
  induction pools as [| it pools IH]; intros image_info; simpl.
  - split; [reflexivity | discriminate].
  - crunch; try (split; [reflexivity | discriminate]); apply IH.
Qed.

Lemma untouched_bind {A B} (m : Prog A) (f : A -> Prog B) :
  untouched m -> (forall a, untouched (f a)) -> untouched (bind m f).
Proof.
  unfold untouched. intros Hm Hf. apply all_runs_bind.
  eapply all_runs_mono; [| exact Hm].
  intros t1 [a | h] [Ht Ho].
  - eapply all_runs_mono; [| exact (Hf a)].
    intros t2 o2 [Ht2 Ho2]. rewrite existsb_app, Ht, Ht2. split; [reflexivity | exact Ho2].
  - split; [exact Ht |]. intros E. apply Ho.
    injection E as ->. reflexivity.
Qed.

Ltac untouched_leaf := split; [reflexivity | discriminate].

Lemma list_children_info_untouched ictx parent_spec image_info :
  untouched (list_children_info ictx parent_spec image_info).
Proof.
  unfold list_children_info, untouched. simpl. intros [r ictx']. simpl.
  destruct (r <? 0); [simpl; untouched_leaf |].
  destruct (negb (test_features ictx' RBD_FEATURE_LAYERING)); [simpl; untouched_leaf |].
  simpl. intros [r' pools]. simpl.
  destruct (r' <? 0); [simpl; untouched_leaf |].
  apply (untouched_bind (list_children_pools parent_spec pools [])).
  - apply list_children_pools_untouched.
  - intros [r2 info]. unfold untouched. simpl. untouched_leaf.
Qed.

Lemma flatten_children_ids_untouched ioctx ids :
  untouched (flatten_children_ids ioctx ids).
Proof.
  unfold untouched.
  induction ids as [| id_it ids IH]; simpl.
  - untouched_leaf.
  - crunch; try untouched_leaf; apply IH.
Qed.

Lemma flatten_children_pools_untouched image_info i size :
  untouched (flatten_children_pools image_info i size).
Proof.
  revert i.
  induction image_info as [| info image_info IH]; intros i; simpl.
  - unfold untouched. simpl. untouched_leaf.
  - unfold untouched. simpl. intros [r ioctx]. simpl.
    destruct (r <? 0); [simpl; untouched_leaf |].
    apply (untouched_bind (flatten_children_ids ioctx info.2)).
    + apply flatten_children_ids_untouched.
    + intros r'. unfold untouched.
      destruct (r' <? 0); [simpl; untouched_leaf |].
      simpl. intros _.
      destruct (negb (i + 1 <=? size)); [simpl; untouched_leaf |].
      apply IH.
Qed.

Lemma flatten_children_untouched ictx snap_name :
  untouched (flatten_children ictx snap_name).
Proof.
  unfold flatten_children. apply untouched_bind.
  - apply list_children_info_untouched.
  - intros [[r image_info] ictx']. 
    destruct (r <? 0); [unfold untouched; simpl; untouched_leaf |].
    destruct (Z.of_nat (length image_info) =? 0);
      [unfold untouched; simpl; untouched_leaf |].
    apply untouched_bind.
    + apply flatten_children_pools_untouched.
    + intros r'. unfold untouched. simpl. untouched_leaf.
Qed.

Lemma get_snap_namespace_untouched ictx snap_name ns :
  untouched (get_snap_namespace ictx snap_name ns).
Proof.
  unfold get_snap_namespace, untouched. crunch; untouched_leaf.
Qed.

Lemma untouched_ret {R} (r : R) : untouched (Ret r).
Proof. unfold untouched. simpl. untouched_leaf. Qed.

Lemma snap_remove_prepare_untouched ictx snap_name flags :
  untouched (snap_remove_prepare ictx snap_name flags).
Proof.
  unfold snap_remove_prepare. apply untouched_bind.
  - apply get_snap_namespace_untouched.
  - intros [[r ns] ictx'].
    destruct (r <? 0); [apply untouched_ret |].
    destruct ns; [| apply untouched_ret].
    unfold untouched. simpl. intros [r' ictx'']. simpl.
    destruct (r' <? 0); [simpl; untouched_leaf |].
    destruct (negb (Z.land flags RBD_SNAP_REMOVE_FLATTEN =? 0));
      [| simpl; untouched_leaf].
    apply (untouched_bind (flatten_children ictx'' snap_name)).
    + apply flatten_children_untouched.
    + intros [r2 i2]. destruct (r2 <? 0); apply untouched_ret.
Qed.

Lemma keep_app {A} (f : Event -> option A) (l1 l2 : list Event) :
  keep f (l1 ++ l2) = keep f l1 ++ keep f l2.
Proof.
  induction l1 as [| e l1 IH]; simpl; [reflexivity |].
  destruct (f e); rewrite IH; reflexivity.
Qed.

Lemma snap_is_protected_run {W} (H : Handler W) (w w1 : W) (ictx : ImageCtx)
  (snap_name : string) (b0 : bool) (a : Z * ImageCtx) :
  H _ (StateRefreshIfRequired ictx) w = (a, w1) ->
  exists r b,
    run H (snap_is_protected ictx snap_name b0) w
      = (Returned (r, b, a.2), w1, [Ev (StateRefreshIfRequired ictx) a]) /\
    match protection_report snap_name a with
    | Some b' => (r <? 0) = false /\ b = b'
    | None => (r <? 0) = true
    end.
Proof.
  intros Ha. unfold snap_is_protected, protection_report. simpl. rewrite Ha.
  destruct a as [r ictx']. simpl.
  destruct (r <? 0) eqn:Er; [eexists _, _; split; [reflexivity | exact Er] |].
  destruct (get_snap_id ictx' snap_name =? CEPH_NOSNAP);
    [eexists _, _; split; [reflexivity | reflexivity] |].
  destruct (is_snap_unprotected ictx' (get_snap_id ictx' snap_name) false) as [r' u].
  simpl. destruct (r' <? 0) eqn:Er'; eexists _, _; split; try reflexivity; auto.
Qed.

Local Opaque snap_is_protected.

(** The unprotect phase, when the snapshot is reported not protected. *)
Lemma unprotect_phase_skips {W} (H : Handler W) (w0 w1 : W) (ictx0 : ImageCtx)
  (snap_name : string) (flags : Z) (a1 : Z * ImageCtx) :
  H _ (StateRefreshIfRequired ictx0) w0 = (a1, w1) ->
  protection_report snap_name a1 = Some false ->
  run H (snap_remove_unprotect ictx0 snap_name flags) w0 =
  (Returned ((H _ (OpSnapRemove a1.2 snap_name) w1).1, a1.2),
   (H _ (OpSnapRemove a1.2 snap_name) w1).2,
   [Ev (StateRefreshIfRequired ictx0) a1;
    Ev (OpSnapRemove a1.2 snap_name) (H _ (OpSnapRemove a1.2 snap_name) w1).1]).
Proof.
  intros Ha Hrep.
  destruct (snap_is_protected_run H w0 w1 ictx0 snap_name false a1 Ha)
    as (r & b & Hrun & Hm).
  rewrite Hrep in Hm. destruct Hm as [Hr ->].
  unfold snap_remove_unprotect. rewrite run_bind, Hrun. simpl. rewrite Hr. simpl.
  destruct (H Z (OpSnapRemove a1.2 snap_name) w1) as [r' w2]. reflexivity.
Qed.

(** The unprotect phase, when the snapshot is reported protected and
    the unprotect fails. *)
Lemma unprotect_phase_fails {W} (H : Handler W) (w0 w1 w2 : W) (ictx0 : ImageCtx)
  (snap_name : string) (flags r2 : Z) (a1 : Z * ImageCtx) :
  Z.land flags RBD_SNAP_REMOVE_UNPROTECT <> 0 ->
  H _ (StateRefreshIfRequired ictx0) w0 = (a1, w1) ->
  protection_report snap_name a1 = Some true ->
  H _ (OpSnapUnprotect a1.2 snap_name) w1 = (r2, w2) ->
  r2 < 0 ->
  run H (snap_remove_unprotect ictx0 snap_name flags) w0 =
  (Returned (r2, a1.2), w2,
   [Ev (StateRefreshIfRequired ictx0) a1; Ev (OpSnapUnprotect a1.2 snap_name) r2]).
Proof.
  intros Hflag Ha Hrep Hu Hneg.
  destruct (snap_is_protected_run H w0 w1 ictx0 snap_name false a1 Ha)
    as (r & b & Hrun & Hm).
  rewrite Hrep in Hm. destruct Hm as [Hr ->].
  apply Z.eqb_neq in Hflag. apply Z.ltb_lt in Hneg.
  unfold snap_remove_unprotect. rewrite run_bind, Hrun. simpl. rewrite Hr, Hflag. simpl.
  rewrite Hu. simpl. rewrite Hneg. reflexivity.
Qed.

(** The unprotect phase, when the snapshot is reported protected and
    the unprotect succeeds: what follows depends on the re-read. *)
Lemma unprotect_phase_rereads {W} (H : Handler W) (w0 w1 w2 w3 : W)
  (ictx0 : ImageCtx) (snap_name : string) (flags r2 : Z) (a1 a3 : Z * ImageCtx) :
  Z.land flags RBD_SNAP_REMOVE_UNPROTECT <> 0 ->
  H _ (StateRefreshIfRequired ictx0) w0 = (a1, w1) ->
  protection_report snap_name a1 = Some true ->
  H _ (OpSnapUnprotect a1.2 snap_name) w1 = (r2, w2) ->
  0 <= r2 ->
  H _ (StateRefreshIfRequired a1.2) w2 = (a3, w3) ->
  let pre := [Ev (StateRefreshIfRequired ictx0) a1;
              Ev (OpSnapUnprotect a1.2 snap_name) r2;
              Ev (StateRefreshIfRequired a1.2) a3] in
  match protection_report snap_name a3 with
  | Some true =>
      run H (snap_remove_unprotect ictx0 snap_name flags) w0 = (Halted HAbort, w3, pre)
  | Some false =>
      run H (snap_remove_unprotect ictx0 snap_name flags) w0 =
      (Returned ((H _ (OpSnapRemove a3.2 snap_name) w3).1, a3.2),
       (H _ (OpSnapRemove a3.2 snap_name) w3).2,
       pre ++ [Ev (OpSnapRemove a3.2 snap_name) (H _ (OpSnapRemove a3.2 snap_name) w3).1])
  | None =>
      exists r, r < 0 /\
        run H (snap_remove_unprotect ictx0 snap_name flags) w0
          = (Returned (r, a3.2), w3, pre)
  end.
Proof.
  intros Hflag Ha Hrep Hu Hpos Ha3 pre. subst pre.
  destruct (snap_is_protected_run H w0 w1 ictx0 snap_name false a1 Ha)
    as (r & b & Hrun & Hm).
  rewrite Hrep in Hm. destruct Hm as [Hr ->].
  destruct (snap_is_protected_run H w2 w3 a1.2 snap_name true a3 Ha3)
    as (r' & b' & Hrun' & Hm').
  apply Z.eqb_neq in Hflag. apply Z.ltb_ge in Hpos.
  assert (Hstart :
    run H (snap_remove_unprotect ictx0 snap_name flags) w0 =
    let '(o, w', t) :=
      run H (if r' <? 0 then Ret (r', a3.2)
             else if b' then Stop HAbort
             else snap_remove_op a3.2 snap_name) w3 in
    (o, w', [Ev (StateRefreshIfRequired ictx0) a1;
             Ev (OpSnapUnprotect a1.2 snap_name) r2;
             Ev (StateRefreshIfRequired a1.2) a3] ++ t)).
  { unfold snap_remove_unprotect. rewrite run_bind, Hrun. simpl. rewrite Hr, Hflag. simpl.
    rewrite Hu. simpl. rewrite Hpos. rewrite run_bind, Hrun'. simpl.
    destruct (run H (if r' <? 0 then Ret (r', a3.2)
                     else if b' then Stop HAbort
                     else snap_remove_op a3.2 snap_name) w3) as [[o w'] t].
    reflexivity. }
  rewrite Hstart. clear Hstart.
  destruct (protection_report snap_name a3) as [[|] |].
  - destruct Hm' as [-> ->]. reflexivity.
  - destruct Hm' as [-> ->]. simpl.
    destruct (H Z (OpSnapRemove a3.2 snap_name) w3) as [rm w4]. reflexivity.
  - rewrite Hm'. exists r'. split; [apply Z.ltb_lt; exact Hm' | reflexivity].
Qed.

Local Transparent snap_is_protected.

Lemma last_report_app (snap_name : string) (t1 t2 : list Event) :
  t2 <> [] -> last_report snap_name (t1 ++ t2) = last_report snap_name t2.
Proof.
  intros Hne. unfold last_report.
  destruct t2 as [| e t2]; [contradiction |].
  rewrite last_app. 
  destruct (last (e :: t2)) eqn:E; [reflexivity |].
  apply last_None in E. discriminate E.
Qed.

Lemma unprotect_phase_abort ictx snap_name flags :
  all_runs (snap_remove_unprotect ictx snap_name flags)
    (fun tr o => o = Halted HAbort ->
       tr <> [] /\
       exists r2, unprotect_results tr = [r2] /\ 0 <= r2 /\
                  last_report snap_name tr = Some true).
Proof.
  unfold snap_remove_unprotect, snap_remove_op, snap_is_protected,
    unprotect_results, last_report, protection_report.
  crunch; try discriminate.
  all: split; [discriminate |]; eexists; split; [reflexivity |]; zbool; split; [lia |].
  all: repeat match goal with H : _ = _ |- _ => rewrite H end; reflexivity.
Qed.

Lemma snap_remove_abort ictx snap_name flags :
  all_runs (snap_remove ictx snap_name flags)
    (fun tr o => o = Halted HAbort ->
       exists r2, unprotect_results tr = [r2] /\ 0 <= r2 /\
                  last_report snap_name tr = Some true).
Proof.
  unfold snap_remove. apply all_runs_bind.
  eapply all_runs_mono; [| apply snap_remove_prepare_untouched].
  intros t1 [[r ictx'] | h] [Ht Ho].
  - destruct (r <? 0); [simpl; intros E; discriminate E |].
    eapply all_runs_mono; [| apply unprotect_phase_abort].
    intros t2 o2 Hab E. destruct (Hab E) as (Hne & r2 & Hu & Hpos & Hlast).
    exists r2. unfold unprotect_results in *. rewrite keep_app, Hu.
    destruct (untouched_results t1 Ht) as [Hu1 _]. unfold unprotect_results in Hu1.
    rewrite Hu1. split; [reflexivity | split; [exact Hpos |]].
    rewrite last_report_app by exact Hne. exact Hlast.
  - intros E. contradiction.
Qed.


Local Opaque snap_is_protected snap_remove_unprotect snap_remove_prepare.

Lemma snap_remove_phases {W} (H : Handler W) (w w0 : W) (ictx ictx0 : ImageCtx)
  (snap_name : string) (flags r0 : Z) (tr0 : list Event) :
  run H (snap_remove_prepare ictx snap_name flags) w = (Returned (r0, ictx0), w0, tr0) ->
  0 <= r0 ->
  run H (snap_remove ictx snap_name flags) w =
    (let '(o, w', t) := run H (snap_remove_unprotect ictx0 snap_name flags) w0 in
     (o, w', tr0 ++ t)) /\
  unprotect_results tr0 = [] /\ remove_results tr0 = [].
Proof.
  intros Hprep Hpos. split.
  - unfold snap_remove. rewrite run_bind, Hprep. simpl.
    apply Z.ltb_ge in Hpos. rewrite Hpos. reflexivity.
  - pose proof (all_runs_sound _ _
      (snap_remove_prepare_untouched ictx snap_name flags) W H w) as [Ht _].
    unfold trace in Ht. rewrite Hprep in Ht. apply untouched_results. exact Ht.
Qed.

(** C5. In a call of [snap_remove] with the unprotect flag, the process
    aborts only after an unprotect that succeeded, on a re-read that still
    reports the snapshot protected. Once the preliminary steps have
    succeeded: a snapshot reported not protected is removed without any
    unprotect; for a snapshot reported protected the unprotect is invoked,
    its failure is returned, and after its success the protection is read
    again: the process aborts exactly when that re-read reports the
    snapshot protected, in which case nothing is returned and nothing is
    removed. *)
Theorem snap_remove_unprotect_first {W} (H : Handler W) (w : W)
  (ictx : ImageCtx) (snap_name : string) (flags : Z) :
  Z.land flags RBD_SNAP_REMOVE_UNPROTECT <> 0 ->
  let o := outcome H (snap_remove ictx snap_name flags) w in
  let tr := trace H (snap_remove ictx snap_name flags) w in
  (o = Halted HAbort ->
     exists r2, unprotect_results tr = [r2] /\ 0 <= r2 /\
                last_report snap_name tr = Some true) /\
  (forall r0 ictx0 w0 tr0 a1 w1,
     run H (snap_remove_prepare ictx snap_name flags) w
       = (Returned (r0, ictx0), w0, tr0) ->
     0 <= r0 ->
     H _ (StateRefreshIfRequired ictx0) w0 = (a1, w1) ->
     (protection_report snap_name a1 = Some false ->
        unprotect_results tr = [] /\
        exists r, remove_results tr = [r] /\ return_value o = Some r) /\
     (protection_report snap_name a1 = Some true ->
        forall r2 w2,
          H _ (OpSnapUnprotect a1.2 snap_name) w1 = (r2, w2) ->
          unprotect_results tr = [r2] /\
          (r2 < 0 -> return_value o = Some r2 /\ remove_results tr = []) /\
          (0 <= r2 ->
             forall a3 w3,
               H _ (StateRefreshIfRequired a1.2) w2 = (a3, w3) ->
               (o = Halted HAbort <-> protection_report snap_name a3 = Some true) /\
               (protection_report snap_name a3 = Some true ->
                  return_value o = None /\ remove_results tr = []) /\
               (protection_report snap_name a3 = Some false ->
                  exists r, remove_results tr = [r] /\ return_value o = Some r)))).
Proof.
  intros Hflag o tr. subst o tr. split.
  - exact (all_runs_sound _ _ (snap_remove_abort ictx snap_name flags) W H w).
  - intros r0 ictx0 w0 tr0 a1 w1 Hprep Hpos Ha1.
    destruct (snap_remove_phases H w w0 ictx ictx0 snap_name flags r0 tr0 Hprep Hpos)
      as (Hrun & Hu0 & Hr0).
    unfold outcome, trace, unprotect_results, remove_results in *.
    split.
    + intros Hrep.
      rewrite Hrun, (unprotect_phase_skips H w0 w1 ictx0 snap_name flags a1 Ha1 Hrep).
      simpl. rewrite !keep_app, Hu0, Hr0. simpl.
      split; [reflexivity |]. eexists. split; reflexivity.
    + intros Hrep r2 w2 Hu. 
      destruct (Z_lt_le_dec r2 0) as [Hneg | Hok].
      * rewrite Hrun,
          (unprotect_phase_fails H w0 w1 w2 ictx0 snap_name flags r2 a1
             Hflag Ha1 Hrep Hu Hneg).
        simpl. rewrite !keep_app, Hu0, Hr0. simpl.
        split; [reflexivity |]. split; [intros _; split; reflexivity | intros; lia].
      * assert (Hur : keep unprotect_of
                  (run H (snap_remove ictx snap_name flags) w).2 = [r2]).
        { destruct (H _ (StateRefreshIfRequired a1.2) w2) as [a3 w3] eqn:Ha3.
          pose proof (unprotect_phase_rereads H w0 w1 w2 w3 ictx0 snap_name flags
                        r2 a1 a3 Hflag Ha1 Hrep Hu Hok Ha3) as Hre.
          simpl in Hre. rewrite Hrun.
          destruct (protection_report snap_name a3) as [[|] |].
          - rewrite Hre. simpl. rewrite keep_app, Hu0. reflexivity.
          - rewrite Hre. simpl. rewrite keep_app, Hu0. reflexivity.
          - destruct Hre as (r & _ & Hre). rewrite Hre. simpl.
            rewrite keep_app, Hu0. reflexivity. }
        split; [exact Hur |]. split; [intros; lia |].
        intros _ a3 w3 Ha3.
        pose proof (unprotect_phase_rereads H w0 w1 w2 w3 ictx0 snap_name flags
                      r2 a1 a3 Hflag Ha1 Hrep Hu Hok Ha3) as Hre.
        simpl in Hre. rewrite Hrun.
        destruct (protection_report snap_name a3) as [[|] |].
        -- rewrite Hre. simpl. rewrite keep_app, Hr0. simpl.
           split; [split; reflexivity |].
           split; [intros _; split; reflexivity | intros E; discriminate E].
        -- rewrite Hre. simpl. rewrite keep_app, Hr0. simpl.
           split; [split; intros E; discriminate E |].
           split; [intros E; discriminate E |].
           intros _. eexists. split; reflexivity.
        -- destruct Hre as (r & _ & Hre). rewrite Hre. simpl.
           split; [split; intros E; discriminate E |].
           split; intros E; discriminate E.
Qed.

Lemma snap_remove_unprotect_first_witness :
  outcome quiet
    (snap_remove (snap_image "a" "1" 8 Protected CEPH_NOSNAP) "s1"
       RBD_SNAP_REMOVE_UNPROTECT) tt
  = Halted HAbort /\
  (exists r,
     remove_results (trace unprotect_effective
       (snap_remove (snap_image "a" "1" 8 Protected CEPH_NOSNAP) "s1"
          RBD_SNAP_REMOVE_UNPROTECT) false) = [r] /\
     return_value (outcome unprotect_effective
       (snap_remove (snap_image "a" "1" 8 Protected CEPH_NOSNAP) "s1"
          RBD_SNAP_REMOVE_UNPROTECT) false) = Some r) /\
  unprotect_results (trace quiet
    (snap_remove (snap_image "a" "1" 8 Unprotected CEPH_NOSNAP) "s1"
       RBD_SNAP_REMOVE_UNPROTECT) tt) = [].
Proof.
  assert (Hflag : Z.land RBD_SNAP_REMOVE_UNPROTECT RBD_SNAP_REMOVE_UNPROTECT <> 0)
    by (vm_compute; discriminate).
  split; [| split].
  - pose proof (proj2 (snap_remove_unprotect_first quiet tt
        (snap_image "a" "1" 8 Protected CEPH_NOSNAP) "s1"
        RBD_SNAP_REMOVE_UNPROTECT Hflag)
      0 (snap_image "a" "1" 8 Protected CEPH_NOSNAP) tt
      (trace quiet (snap_remove_prepare (snap_image "a" "1" 8 Protected CEPH_NOSNAP)
                      "s1" RBD_SNAP_REMOVE_UNPROTECT) tt)
      (0, snap_image "a" "1" 8 Protected CEPH_NOSNAP) tt
      eq_refl ltac:(lia) eq_refl) as [_ T].
    destruct (T eq_refl 0 tt eq_refl) as (_ & _ & T3).
    destruct (T3 ltac:(lia) (0, snap_image "a" "1" 8 Protected CEPH_NOSNAP) tt eq_refl)
      as [[_ Tab] _].
    apply Tab. reflexivity.
  - pose proof (proj2 (snap_remove_unprotect_first unprotect_effective false
        (snap_image "a" "1" 8 Protected CEPH_NOSNAP) "s1"
        RBD_SNAP_REMOVE_UNPROTECT Hflag)
      0 (snap_image "a" "1" 8 Protected CEPH_NOSNAP) false
      (trace unprotect_effective
         (snap_remove_prepare (snap_image "a" "1" 8 Protected CEPH_NOSNAP)
            "s1" RBD_SNAP_REMOVE_UNPROTECT) false)
      (0, snap_image "a" "1" 8 Protected CEPH_NOSNAP) false
      eq_refl ltac:(lia) eq_refl) as [_ T].
    destruct (T eq_refl 0 true eq_refl) as (_ & _ & T3).
    destruct (T3 ltac:(lia)
                (0, snap_image "a" "1" 8 Unprotected CEPH_NOSNAP) true eq_refl)
      as (_ & _ & Trm).
    apply Trm. reflexivity.
  - pose proof (proj2 (snap_remove_unprotect_first quiet tt
        (snap_image "a" "1" 8 Unprotected CEPH_NOSNAP) "s1"
        RBD_SNAP_REMOVE_UNPROTECT Hflag)
      0 (snap_image "a" "1" 8 Unprotected CEPH_NOSNAP) tt
      (trace quiet (snap_remove_prepare (snap_image "a" "1" 8 Unprotected CEPH_NOSNAP)
                      "s1" RBD_SNAP_REMOVE_UNPROTECT) tt)
      (0, snap_image "a" "1" 8 Unprotected CEPH_NOSNAP) tt
      eq_refl ltac:(lia) eq_refl) as [T _].
    apply T. reflexivity.
Defined.

(** ** Breaking a lock *)




(** ** Disabling the mirroring of an image *)















Lemma list_children_pools_returns parent_spec pools image_info :
  all_runs (list_children_pools parent_spec pools image_info)
    (fun tr o => existsb touches_snapshot tr = false /\ exists v, o = Returned v).
Proof.
  revert image_info.
  induction pools as [| it pools IH]; intros image_info; simpl.
  - split; [reflexivity | eexists; reflexivity].
  - crunch; try (split; [reflexivity | eexists; reflexivity]); apply IH.
Qed.

Lemma list_children_info_returns ictx parent_spec image_info :
  all_runs (list_children_info ictx parent_spec image_info)
    (fun tr o => existsb touches_snapshot tr = false /\ exists v, o = Returned v).
Proof.
  unfold list_children_info. simpl. intros [r ictx']. simpl.
  destruct (r <? 0); [simpl; split; [reflexivity | eexists; reflexivity] |].
  destruct (negb (test_features ictx' RBD_FEATURE_LAYERING));
    [simpl; split; [reflexivity | eexists; reflexivity] |].
  simpl. intros [r' pools]. simpl.
  destruct (r' <? 0); [simpl; split; [reflexivity | eexists; reflexivity] |].
  apply all_runs_bind.
  eapply all_runs_mono; [| apply list_children_pools_returns].
  intros t1 o1 [Ht [[r2 info] ->]]. simpl. rewrite app_nil_r.
  split; [exact Ht | eexists; reflexivity].
Qed.

Local Opaque list_children_info.



Local Opaque disable_check_snaps.



Local Opaque mirror_image_disable_guarded.










(** ** The mirroring UUID of a pool *)

Lemma uuid_free_bind {A B} (m : Prog A) (f : A -> Prog B) :
  uuid_free m -> (forall a, uuid_free (f a)) -> uuid_free (bind m f).
Proof.
  unfold uuid_free. intros Hm Hf. apply all_runs_bind.
  eapply all_runs_mono; [| exact Hm].
  intros t1 [a | h] Ht; [| exact Ht].
  eapply all_runs_mono; [| exact (Hf a)].
  intros t2 o2 Ht2. unfold uuid_steps in *. rewrite keep_app, Ht, Ht2. reflexivity.
Qed.

Lemma untouched_uuid_steps (tr : list Event) :
  existsb touches_snapshot tr = false -> uuid_steps tr = [].
Proof.
  apply untouched_keep.
  intros [Y op y]; destruct op; simpl; intros E; try discriminate E; reflexivity.
Qed.

Lemma list_children_info_uuid_free ictx parent_spec image_info :
  uuid_free (list_children_info ictx parent_spec image_info).
Proof.
  unfold uuid_free. eapply all_runs_mono; [| apply list_children_info_returns].
  intros tr o [Ht _]. apply untouched_uuid_steps. exact Ht.
Qed.

Ltac uuid_leaf := unfold uuid_free; crunch; try reflexivity.

Lemma disable_check_ids_uuid_free ioctx ids :
  uuid_free (disable_check_ids ioctx ids).
Proof.
  unfold uuid_free. induction ids as [| id_it ids IH]; simpl; [reflexivity |].
  crunch; try reflexivity. apply IH.
Qed.

Lemma disable_check_pools_uuid_free image_info :
  uuid_free (disable_check_pools image_info).
Proof.
  induction image_info as [| info image_info IH]; simpl; [reflexivity |].
  intros [r ioctx]. simpl. destruct (r <? 0); [reflexivity |].
  apply (uuid_free_bind (disable_check_ids ioctx info.2)).
  - apply disable_check_ids_uuid_free.
  - intros [r1 rb]. destruct rb; [reflexivity | exact IH].
Qed.

Local Transparent disable_check_snaps.

Lemma disable_check_snaps_uuid_free ictx snap_info :
  uuid_free (disable_check_snaps ictx snap_info).
Proof.
  revert ictx.
  induction snap_info as [| info snap_info IH]; intros ictx; simpl; [reflexivity |].
  apply uuid_free_bind; [apply list_children_info_uuid_free |].
  intros [[r image_info] ictx']. destruct (r <? 0); [reflexivity |].
  destruct (is_empty image_info); [apply IH |].
  apply uuid_free_bind; [apply disable_check_pools_uuid_free |].
  intros [r1 rb]. destruct rb; [reflexivity | apply IH].
Qed.

Local Opaque disable_check_snaps.
Local Transparent mirror_image_disable_guarded.

Lemma mirror_image_disable_guarded_uuid_free ictx force :
  uuid_free (mirror_image_disable_guarded ictx force).
Proof.
  unfold mirror_image_disable_guarded.
  apply uuid_free_bind; [apply disable_check_snaps_uuid_free |].
  intros [[r rb] i]. destruct rb; [reflexivity |]. uuid_leaf.
Qed.

Local Opaque mirror_image_disable_guarded.

Lemma mirror_image_disable_uuid_free ictx force :
  uuid_free (mirror_image_disable ictx force).
Proof.
  unfold mirror_image_disable, uuid_free. simpl. intros [r1 i1]. simpl.
  destruct (r1 <? 0); [reflexivity |]. simpl. intros [r2 mode]. simpl.
  destruct (r2 <? 0); [reflexivity |].
  destruct (negb (mode =? MIRROR_MODE_IMAGE)); [reflexivity |]. simpl.
  intros [r3 mi]. simpl.
  destruct (r3 =? - ENOENT); [reflexivity |].
  destruct (r3 =? - EOPNOTSUPP); [reflexivity |].
  destruct (r3 <? 0); [reflexivity |]. simpl.
  intros r4. destruct (r4 <? 0); [reflexivity |].
  apply (uuid_free_bind (mirror_image_disable_guarded i1 force));
    [apply mirror_image_disable_guarded_uuid_free |].
  intros [[r rb] i]. destruct rb; uuid_leaf.
Qed.

Lemma mirror_image_enable_uuid_free ictx relax :
  uuid_free (mirror_image_enable ictx relax).
Proof.
  unfold mirror_image_enable, mirror_image_enable_internal, uuid_free.
  simpl. intros [r1 i1]. simpl. destruct (r1 <? 0); [reflexivity |].
  simpl. intros [r2 mode]. simpl. destruct (r2 <? 0); [reflexivity |].
  destruct (negb (mode =? MIRROR_MODE_IMAGE)); [reflexivity |].
  destruct (ic_parent i1) as [parent |]; crunch; reflexivity.
Qed.

Local Opaque mirror_image_enable mirror_image_disable.

Lemma list_images_v2_uuid_free fuel io_ctx last_read images :
  uuid_free (list_images_v2 fuel io_ctx last_read images).
Proof.
  unfold uuid_free. revert last_read images.
  induction fuel as [| fuel IH]; intros last_read images; simpl; [reflexivity |].
  intros [r page]. simpl.
  destruct ((r <? 0) && negb (r =? - ENOENT)); [reflexivity |].
  destruct (r =? - ENOENT); [reflexivity |].
  destruct (Z.of_nat (length page) =? max_read); [apply IH | reflexivity].
Qed.

Lemma list_mirror_images_uuid_free fuel io_ctx last_read ids :
  uuid_free (list_mirror_images fuel io_ctx last_read ids).
Proof.
  unfold uuid_free. revert last_read ids.
  induction fuel as [| fuel IH]; intros last_read ids; simpl; [reflexivity |].
  intros [r page]. simpl.
  destruct (r <? 0); [reflexivity |].
  destruct (Z.of_nat (length page) =? max_read); [apply IH | reflexivity].
Qed.

Lemma mirror_mode_enable_images_uuid_free io_ctx images :
  uuid_free (mirror_mode_enable_images io_ctx images).
Proof.
  induction images as [| img_pair images IH]; simpl; [reflexivity |].
  intros [r features]. simpl. destruct (r <? 0); [reflexivity |].
  destruct (negb (Z.land features RBD_FEATURE_JOURNALING =? 0)); [| exact IH].
  simpl. intros [r1 img_ctx]. simpl. destruct (r1 <? 0); [reflexivity |].
  apply (uuid_free_bind (mirror_image_enable img_ctx true));
    [apply mirror_image_enable_uuid_free |].
  intros r2. destruct (r2 <? 0); [reflexivity |]. simpl.
  intros r3. destruct (r3 <? 0); [reflexivity | exact IH].
Qed.

Lemma mirror_mode_disable_images_uuid_free io_ctx current image_ids :
  uuid_free (mirror_mode_disable_images io_ctx current image_ids).
Proof.
  induction image_ids as [| img_id image_ids IH]; simpl; [reflexivity |].
  destruct (current =? MIRROR_MODE_IMAGE); simpl.
  - intros [r mi]. simpl.
    destruct ((r <? 0) && negb (r =? - ENOENT)); [reflexivity |].
    destruct (mi_state mi); try exact IH. reflexivity.
  - intros [r1 img_ctx]. simpl. destruct (r1 <? 0); [reflexivity |].
    apply (uuid_free_bind (mirror_image_disable img_ctx false));
      [apply mirror_image_disable_uuid_free |].
    intros r2. destruct (r2 <? 0); [reflexivity |]. simpl.
    intros r3. destruct (r3 <? 0); [reflexivity | exact IH].
Qed.

Lemma mirror_mode_store_uuid_free io_ctx next :
  uuid_free (mirror_mode_store io_ctx next).
Proof. unfold mirror_mode_store. uuid_leaf. Qed.

Local Opaque mirror_mode_store.

Lemma mirror_mode_images_uuid_free fuel io_ctx current next :
  uuid_free (mirror_mode_images fuel io_ctx current next).
Proof.
  unfold mirror_mode_images.
  destruct (next =? MIRROR_MODE_IMAGE); [reflexivity |].
  destruct (next =? MIRROR_MODE_POOL).
  - apply uuid_free_bind; [apply list_images_v2_uuid_free |].
    intros [r images]. destruct (r <? 0); [reflexivity |].
    apply uuid_free_bind; [apply mirror_mode_enable_images_uuid_free |].
    intros r1. destruct (r1 <? 0); [reflexivity | apply mirror_mode_store_uuid_free].
  - destruct (next =? MIRROR_MODE_DISABLED); [| apply mirror_mode_store_uuid_free].
    apply uuid_free_bind; [apply list_mirror_images_uuid_free |].
    intros [r ids]. destruct (r <? 0); [reflexivity |].
    apply uuid_free_bind; [apply mirror_mode_disable_images_uuid_free |].
    intros r1. destruct (r1 <? 0); [reflexivity | apply mirror_mode_store_uuid_free].
Qed.

Local Opaque mirror_mode_images.

Lemma mirror_mode_walk_uuid_free fuel io_ctx current next :
  uuid_free (mirror_mode_walk fuel io_ctx current next).
Proof.
  unfold mirror_mode_walk.
  destruct (negb (current =? MIRROR_MODE_IMAGE)); [| apply mirror_mode_images_uuid_free].
  unfold uuid_free. simpl. intros r. destruct (r <? 0); [reflexivity |].
  simpl. intros r1. apply mirror_mode_images_uuid_free.
Qed.

Local Opaque mirror_mode_walk.

Lemma mirror_mode_transition_mints fuel io_ctx next :
  all_runs (mirror_mode_transition fuel io_ctx next)
    (fun tr _ =>
       (forall r current, head (mode_reads tr) = Some (r, current) -> 0 <= r ->
          current = MIRROR_MODE_DISABLED -> next <> MIRROR_MODE_DISABLED ->
          exists uuid r', uuid_steps tr = [Generated uuid; Stored io_ctx uuid r']) /\
       (uuid_steps tr <> [] ->
          exists r, head (mode_reads tr) = Some (r, MIRROR_MODE_DISABLED) /\ 0 <= r /\
                    next <> MIRROR_MODE_DISABLED) /\
       (forall r current, head (mode_reads tr) = Some (r, current) ->
          current <> MIRROR_MODE_DISABLED -> uuid_steps tr = [])).
Proof.
  unfold mirror_mode_transition. simpl. intros [r current]. simpl.
  destruct (r <? 0) eqn:Er; simpl.
  { apply Z.ltb_lt in Er. split; [| split].
    - intros r0 c0 E Hr0. injection E as <- <-. lia.
    - intros Hne. contradiction Hne. reflexivity.
    - reflexivity. }
  apply Z.ltb_ge in Er.
  destruct (Z.eqb_spec current next) as [Hsame | Hdiff]; simpl.
  { split; [| split].
    - intros r0 c0 E _ Hc Hn. injection E as <- <-. congruence.
    - intros Hne. contradiction Hne. reflexivity.
    - reflexivity. }
  destruct (Z.eqb_spec current MIRROR_MODE_DISABLED) as [Hdis | Hnot]; simpl.
  - intros uuid r'. destruct (r' <? 0); simpl.
    + split; [| split].
      * intros r0 c0 E _ _ _. exists uuid, r'. reflexivity.
      * intros _. exists r. subst current. split; [reflexivity |]. split; [exact Er |].
        intros E. apply Hdiff. symmetry. exact E.
      * intros r0 c0 E Hc. injection E as <- <-. contradiction.
    + eapply all_runs_mono; [| apply mirror_mode_walk_uuid_free].
      intros t o Ht. unfold uuid_steps in *. simpl. rewrite Ht.
      split; [| split].
      * intros r0 c0 E _ _ _. exists uuid, r'. reflexivity.
      * intros _. exists r. subst current. split; [reflexivity |]. split; [exact Er |].
        intros E. apply Hdiff. symmetry. exact E.
      * intros r0 c0 E Hc. injection E as <- <-. contradiction.
  - eapply all_runs_mono; [| apply mirror_mode_walk_uuid_free].
    intros t o Ht. unfold uuid_steps in *. simpl. rewrite Ht.
    split; [| split].
    + intros r0 c0 E _ Hc _. injection E as <- <-. contradiction.
    + intros Hne. contradiction Hne. reflexivity.
    + reflexivity.
Qed.

Local Opaque mirror_mode_transition.

Lemma mirror_mode_set_mints fuel io_ctx mirror_mode :
  all_runs (mirror_mode_set fuel io_ctx mirror_mode)
    (fun tr _ =>
       (forall r current, head (mode_reads tr) = Some (r, current) -> 0 <= r ->
          current = MIRROR_MODE_DISABLED -> mirror_mode <> RBD_MIRROR_MODE_DISABLED ->
          exists uuid r', uuid_steps tr = [Generated uuid; Stored io_ctx uuid r']) /\
       (uuid_steps tr <> [] ->
          exists r, head (mode_reads tr) = Some (r, MIRROR_MODE_DISABLED) /\ 0 <= r /\
                    (mirror_mode = RBD_MIRROR_MODE_IMAGE \/
                     mirror_mode = RBD_MIRROR_MODE_POOL)) /\
       (forall r current, head (mode_reads tr) = Some (r, current) ->
          current <> MIRROR_MODE_DISABLED -> uuid_steps tr = [])).
Proof.
  unfold mirror_mode_set.
  destruct (Z.eqb_spec mirror_mode RBD_MIRROR_MODE_DISABLED) as [-> | Hd]; simpl.
  - intros [r peers]. simpl.
    assert (Hstop : forall (v : Z) (e : Event),
      mode_read_of e = None -> uuid_step_of e = None ->
      all_runs (Ret v)
        (fun tr _ =>
           (forall r current, head (mode_reads (e :: tr)) = Some (r, current) -> 0 <= r ->
              current = MIRROR_MODE_DISABLED ->
              RBD_MIRROR_MODE_DISABLED <> RBD_MIRROR_MODE_DISABLED ->
              exists uuid r',
                uuid_steps (e :: tr) = [Generated uuid; Stored io_ctx uuid r']) /\
           (uuid_steps (e :: tr) <> [] ->
              exists r, head (mode_reads (e :: tr)) = Some (r, MIRROR_MODE_DISABLED) /\
                        0 <= r /\
                        (RBD_MIRROR_MODE_DISABLED = RBD_MIRROR_MODE_IMAGE \/
                         RBD_MIRROR_MODE_DISABLED = RBD_MIRROR_MODE_POOL)) /\
           (forall r current, head (mode_reads (e :: tr)) = Some (r, current) ->
              current <> MIRROR_MODE_DISABLED -> uuid_steps (e :: tr) = []))).
    { intros v e Hm Hu. unfold mode_reads, uuid_steps. simpl. rewrite Hm, Hu. simpl.
      split; [| split].
      - intros r0 c0 E. discriminate E.
      - intros Hne. contradiction Hne. reflexivity.
      - reflexivity. }
    destruct ((r <? 0) && negb (r =? - ENOENT)); [apply Hstop; reflexivity |].
    destruct (negb (is_empty peers)); [apply Hstop; reflexivity |].
    eapply all_runs_mono; [| apply mirror_mode_transition_mints].
    intros t o (Hmint & Honly & Hnever). unfold mode_reads, uuid_steps in *. simpl.
    split; [| split].
    + intros r0 c0 E Hr0 Hc Hn. contradiction Hn. reflexivity.
    + intros Hne. destruct (Honly Hne) as (r0 & _ & _ & Hn). contradiction Hn. reflexivity.
    + exact Hnever.
  - destruct ((mirror_mode =? RBD_MIRROR_MODE_IMAGE) || (mirror_mode =? RBD_MIRROR_MODE_POOL))
      eqn:Hvalid; simpl.
    + assert (Hnext : (mirror_mode =? MIRROR_MODE_DISABLED) = false).
      { apply Z.eqb_neq. exact Hd. }
      rewrite Hnext.
      eapply all_runs_mono; [| apply mirror_mode_transition_mints].
      intros t o (Hmint & Honly & Hnever).
      split; [| split].
      * intros r0 c0 E Hr0 Hc _. apply (Hmint r0 c0 E Hr0 Hc). exact Hd.
      * intros Hne. destruct (Honly Hne) as (r0 & Hh & Hr0 & _).
        exists r0. split; [exact Hh |]. split; [exact Hr0 |].
        apply orb_true_iff in Hvalid as [E | E]; apply Z.eqb_eq in E; auto.
      * exact Hnever.
    + split; [| split].
      * intros r0 c0 E. discriminate E.
      * intros Hne. contradiction Hne. reflexivity.
      * reflexivity.
Qed.

(** C7. In every run of [mirror_mode_set], whatever the store answers:
    when the read of the current mode succeeds and finds the pool
    disabled, and the mode asked for is not the disabled one, one UUID is
    generated and one request to store it in the pool is issued, and no
    other; conversely a UUID is generated or stored only in such a run,
    where the mode asked for is the image or the pool mode; and when the
    current mode read is the image mode, the pool mode or anything but
    the disabled mode, no UUID is generated and none is stored, whatever
    the transition does afterwards. *)
Theorem mirror_mode_set_mints_uuid_leaving_disabled {W} (H : Handler W) (w : W)
  (fuel : nat) (io_ctx : IoCtx) (mirror_mode : Z) :
  let tr := trace H (mirror_mode_set fuel io_ctx mirror_mode) w in
  (forall r current, head (mode_reads tr) = Some (r, current) -> 0 <= r ->
     current = MIRROR_MODE_DISABLED -> mirror_mode <> RBD_MIRROR_MODE_DISABLED ->
     exists uuid r', uuid_steps tr = [Generated uuid; Stored io_ctx uuid r']) /\
  (uuid_steps tr <> [] ->
     exists r, head (mode_reads tr) = Some (r, MIRROR_MODE_DISABLED) /\ 0 <= r /\
               (mirror_mode = RBD_MIRROR_MODE_IMAGE \/
                mirror_mode = RBD_MIRROR_MODE_POOL)) /\
  (forall r current, head (mode_reads tr) = Some (r, current) ->
     current <> MIRROR_MODE_DISABLED -> uuid_steps tr = []).
Proof.
  exact (all_runs_sound _ _ (mirror_mode_set_mints fuel io_ctx mirror_mode) W H w).
Qed.

Lemma mirror_mode_set_mints_uuid_leaving_disabled_witness :
  (exists uuid r',
     uuid_steps (trace quiet (mirror_mode_set 4 (mkIoCtx 1) RBD_MIRROR_MODE_POOL) tt)
     = [Generated uuid; Stored (mkIoCtx 1) uuid r']) /\
  uuid_steps (trace pool_mode (mirror_mode_set 4 (mkIoCtx 1) RBD_MIRROR_MODE_IMAGE) tt) = [].
Proof.
  split.
  - destruct (mirror_mode_set_mints_uuid_leaving_disabled quiet tt 4 (mkIoCtx 1)
                RBD_MIRROR_MODE_POOL) as (Hmint & _).
    apply (Hmint 0 MIRROR_MODE_DISABLED eq_refl ltac:(lia) eq_refl ltac:(discriminate)).
  - destruct (mirror_mode_set_mints_uuid_leaving_disabled pool_mode tt 4 (mkIoCtx 1)
                RBD_MIRROR_MODE_IMAGE) as (_ & _ & Hnever).
    apply (Hnever 0 MIRROR_MODE_POOL eq_refl ltac:(discriminate)).
Defined.

(** ** Bulk copy *)

Lemma carry_assoc (m a b : Z) : carry (carry m a) b = carry m (carry a b).
Proof. unfold carry. destruct (m =? 0) eqn:Em; [| rewrite Em]; reflexivity. Qed.

Lemma carry_0_r (m : Z) : carry m 0 = m.
Proof. unfold carry. destruct (Z.eqb_spec m 0); congruence. Qed.

Lemma first_error_app (l1 l2 : list Z) :
  first_error (l1 ++ l2) = carry (first_error l1) (first_error l2).
Proof.
  induction l1 as [| r l1 IH]; simpl; [reflexivity |].
  destruct (r <? 0) eqn:Er; [| exact IH].
  unfold carry. apply Z.ltb_lt in Er.
  destruct (Z.eqb_spec r 0); [lia | reflexivity].
Qed.

Lemma chunk_results_app (t1 t2 : list Event) :
  chunk_results (t1 ++ t2) = chunk_results t1 ++ chunk_results t2.
Proof. unfold chunk_results, completions. rewrite keep_app, map_app. reflexivity. Qed.

Lemma writes_ok_app (t1 t2 : list Event) :
  writes_ok t1 -> writes_ok t2 -> writes_ok (t1 ++ t2).
Proof.
  unfold writes_ok, writes, completions. intros H1 H2 offset bl Hin.
  rewrite keep_app in Hin. apply in_app_or in Hin as [Hin | Hin].
  - destruct (H1 offset bl Hin) as (Hz & len & r & Hc).
    split; [exact Hz |]. exists len, r. rewrite keep_app. apply in_or_app. left. exact Hc.
  - destruct (H2 offset bl Hin) as (Hz & len & r & Hc).
    split; [exact Hz |]. exists len, r. rewrite keep_app. apply in_or_app. right. exact Hc.
Qed.

Lemma writes_ok_nil : writes_ok [].
Proof. intros offset bl []. Qed.

Lemma sweep_post_refl (st : CopyState) : sweep_post st [] st.
Proof.
  unfold sweep_post. simpl. rewrite carry_0_r.
  split; [reflexivity |]. split; [reflexivity | apply writes_ok_nil].
Qed.

Lemma sweep_post_trans (st1 st2 st3 : CopyState) (t1 t2 : list Event) :
  sweep_post st1 t1 st2 -> sweep_post st2 t2 st3 -> sweep_post st1 (t1 ++ t2) st3.
Proof.
  intros (Hr1 & Hi1 & Hw1) (Hr2 & Hi2 & Hw2). unfold sweep_post.
  rewrite chunk_results_app, first_error_app, <- carry_assoc, <- Hr1, <- Hr2.
  split; [reflexivity |]. split; [congruence |]. apply writes_ok_app; assumption.
Qed.

(** A read that delivered only zeros ends its chunk without a write. *)
Lemma C_CopyRead_finish_zero m_dest m_offset m_bl st r :
  is_zero m_bl = true ->
  C_CopyRead_finish m_dest m_offset m_bl st r
  = if (0 <=? r) && negb (Z.of_nat (length m_bl) =? r) then Stop HAssert
    else Ret (mkCopyState (end_op (cs_throttle st) r) (cs_inflight st)).
Proof.
  intros Hz. unfold C_CopyRead_finish. rewrite Hz.
  destruct (r <? 0) eqn:Er.
  - apply Z.ltb_lt in Er. destruct (Z.leb_spec 0 r); [lia | reflexivity].
  - apply Z.ltb_ge in Er. destruct (Z.leb_spec 0 r); [| lia]. simpl.
    destruct (negb (Z.of_nat (length m_bl) =? r)); reflexivity.
Qed.

Lemma end_op_ret (t : SimpleThrottle) (r : Z) :
  m_ignore_enoent t = false ->
  m_ret (end_op t r) = carry (m_ret t) (first_error [r]).
Proof.
  intros Hi. unfold end_op, carry. simpl. rewrite Hi, andb_false_r. simpl.
  rewrite andb_true_r.
  destruct (r <? 0) eqn:Er; destruct (m_ret t =? 0) eqn:Em; simpl; try reflexivity.
  apply Z.eqb_eq in Em. exact Em.
Qed.

Lemma sweep_post_ended st (e : Event) p r bl inflight :
  m_ignore_enoent (cs_throttle st) = false ->
  completion_of e = Some (p, r, bl) ->
  write_of e = None ->
  sweep_post st [e] (mkCopyState (end_op (cs_throttle st) r) inflight).
Proof.
  intros Hi He Hw.
  unfold sweep_post, chunk_results, completions, writes_ok, writes.
  cbn [keep map cs_throttle]. rewrite He, Hw. cbn [map fst snd].
  split; [apply (end_op_ret (cs_throttle st) r Hi) |].
  split; [reflexivity | intros o b []].
Qed.

Lemma sweep_post_written st (e : Event) dest offset len r bl inflight :
  completion_of e = Some (PRead offset len, r, bl) ->
  write_of e = None ->
  (r <? 0) = false ->
  is_zero bl = false ->
  sweep_post st [e; Ev (AioWrite dest offset (Z.of_nat (length bl)) bl) tt]
    (mkCopyState (cs_throttle st) inflight).
Proof.
  intros He Hw Er Hz.
  unfold sweep_post, chunk_results, completions, writes_ok, writes.
  simpl. rewrite He, Hw. simpl. rewrite Er, carry_0_r.
  split; [reflexivity |]. split; [reflexivity |].
  intros o b [E | []]. injection E as E1 E2. subst o b.
  split; [exact Hz |]. exists len, r.
  unfold completions. simpl. rewrite He. left. reflexivity.
Qed.

Lemma writes_ok_skip (e : Event) : write_of e = None -> writes_ok [e].
Proof.
  intros Hw. unfold writes_ok, writes. simpl. rewrite Hw. intros o b [].
Qed.

(** One completion: the event that delivers it, then what [complete]
    does with it. *)
Lemma complete_post dest st c (e : Event) :
  m_ignore_enoent (cs_throttle st) = false ->
  completion_of e = completed (cs_inflight st) c ->
  write_of e = None ->
  all_runs (complete dest st c)
    (fun tr o =>
       match o with
       | Returned (Some st') => sweep_post st (e :: tr) st'
       | Returned None => completion_of e = None /\ tr = []
       | Halted h => h = HAssert /\ tr = []
       end).
Proof.
  intros Hi He Hw. destruct c as [[i r] bl]. unfold complete, completed in *.
  cbn [fst snd] in *.
  destruct (cs_inflight st !! i) as [[offset len | offset wbl] |] eqn:Hp.
  - unfold C_CopyRead_finish. cbn [cs_throttle cs_inflight].
    destruct (r <? 0) eqn:Er.
    + cbn [bind all_runs]. apply (sweep_post_ended st e _ r bl _ Hi He Hw).
    + destruct (negb (Z.of_nat (length bl) =? r)); [split; reflexivity |].
      destruct (is_zero bl) eqn:Hz.
      * cbn [bind all_runs]. apply (sweep_post_ended st e _ r bl _ Hi He Hw).
      * cbn [bind all_runs call]. intros [].
        apply (sweep_post_written st e dest offset len r bl _ He Hw Er Hz).
  - cbn [all_runs]. unfold C_CopyWrite_finish. cbn [cs_throttle cs_inflight].
    apply (sweep_post_ended st e _ r bl _ Hi He Hw).
  - cbn [all_runs]. split; [exact He | reflexivity].
Qed.

Local Opaque complete.

Lemma sweep_post_skip st (e : Event) :
  completion_of e = None -> write_of e = None -> sweep_post st [e] st.
Proof.
  intros He Hw. unfold sweep_post, chunk_results, completions, writes_ok, writes.
  simpl. rewrite He, Hw. simpl. rewrite carry_0_r.
  split; [reflexivity |]. split; [reflexivity | intros o b []].
Qed.

Lemma sweep_post_ignore st tr st' :
  sweep_post st tr st' ->
  m_ignore_enoent (cs_throttle st) = false ->
  m_ignore_enoent (cs_throttle st') = false.
Proof. intros (_ & Hi & _) E. rewrite Hi. exact E. Qed.

Lemma sweep_post_writes st tr st' : sweep_post st tr st' -> writes_ok tr.
Proof. intros (_ & _ & Hw). exact Hw. Qed.

Lemma poll_post dest n st :
  m_ignore_enoent (cs_throttle st) = false ->
  all_runs (poll dest n st)
    (fun tr o =>
       match o with
       | Returned st' => sweep_post st tr st'
       | Halted h => h <> HFuel /\ writes_ok tr
       end).
Proof.
  revert st. induction n as [| n IH]; intros st Hi; simpl.
  - apply sweep_post_refl.
  - intros [c |]; simpl.
    + apply all_runs_bind.
      eapply all_runs_mono;
        [| apply (complete_post dest st c (Ev (AioPoll (cs_inflight st)) (Some c)) Hi);
           reflexivity].
      intros t1 [[st1 |] | h] H1; simpl.
      * eapply all_runs_mono; [| apply (IH st1 (sweep_post_ignore _ _ _ H1 Hi))].
        intros t2 [st2 | h2] H2.
        -- apply (sweep_post_trans st st1 st2 (_ :: t1) t2 H1 H2).
        -- destruct H2 as [Hh Hw2]. split; [exact Hh |].
           apply (writes_ok_app (_ :: t1) t2 (sweep_post_writes _ _ _ H1) Hw2).
      * destruct H1 as [He ->]. apply sweep_post_skip; [exact He | reflexivity].
      * destruct H1 as [-> ->]. split; [discriminate | apply writes_ok_skip; reflexivity].
    + apply sweep_post_skip; reflexivity.
Qed.

Lemma wait_until_post ready dest n st :
  m_ignore_enoent (cs_throttle st) = false ->
  all_runs (wait_until ready dest n st)
    (fun tr o =>
       match o with
       | Returned st' => sweep_post st tr st' /\ ready (cs_throttle st') = true
       | Halted h => h <> HFuel /\ writes_ok tr
       end).
Proof.
  revert st. induction n as [| n IH]; intros st Hi; simpl.
  - destruct (ready (cs_throttle st)) eqn:Hr; simpl.
    + split; [apply sweep_post_refl | exact Hr].
    + split; [discriminate | apply writes_ok_nil].
  - destruct (ready (cs_throttle st)) eqn:Hr; simpl.
    + split; [apply sweep_post_refl | exact Hr].
    + intros c. apply all_runs_bind.
      eapply all_runs_mono;
        [| apply (complete_post dest st c (Ev (AioWait (cs_inflight st)) c) Hi);
           reflexivity].
      intros t1 [[st1 |] | h] H1; simpl.
      * eapply all_runs_mono; [| apply (IH st1 (sweep_post_ignore _ _ _ H1 Hi))].
        intros t2 [st2 | h2] H2.
        -- destruct H2 as [H2 Hready]. split; [| exact Hready].
           apply (sweep_post_trans st st1 st2 (_ :: t1) t2 H1 H2).
        -- destruct H2 as [Hh Hw2]. split; [exact Hh |].
           apply (writes_ok_app (_ :: t1) t2 (sweep_post_writes _ _ _ H1) Hw2).
      * destruct H1 as [_ ->]. split; [discriminate | apply writes_ok_skip; reflexivity].
      * destruct H1 as [-> ->]. split; [discriminate | apply writes_ok_skip; reflexivity].
Qed.

Lemma wait_for_ret_post dest st :
  m_ignore_enoent (cs_throttle st) = false ->
  all_runs (wait_for_ret dest st)
    (fun tr o =>
       match o with
       | Returned r => exists st', sweep_post st tr st' /\ r = m_ret (cs_throttle st')
       | Halted h => h <> HFuel /\ writes_ok tr
       end).
Proof.
  intros Hi. unfold wait_for_ret. apply all_runs_bind.
  eapply all_runs_mono; [| apply (wait_until_post drained dest _ st Hi)].
  intros t1 [st1 | h] H1; simpl; [| exact H1].
  exists st1. rewrite app_nil_r. split; [apply H1 | reflexivity].
Qed.

Local Opaque poll wait_until wait_for_ret.

Lemma carry_kept (m r : Z) : m < 0 -> carry m r = m.
Proof. intros Hm. unfold carry. destruct (Z.eqb_spec m 0); [lia | reflexivity]. Qed.

Lemma copy_loop_post fuel src dest src_size period st offset :
  m_ignore_enoent (cs_throttle st) = false ->
  all_runs (copy_loop fuel src dest src_size period st offset)
    (fun tr o =>
       writes_ok tr /\
       match o with
       | Returned r =>
           r = carry (m_ret (cs_throttle st)) (first_error (chunk_results tr)) /\
           (0 <= r -> last tr = Some (Ev (UpdateProgress src_size src_size) tt))
       | Halted h =>
           0 < period -> 0 <= offset -> src_size + period <= 2 ^ 64 ->
           src_size - offset <= (Z.of_nat fuel - 1) * period -> (0 < fuel)%nat ->
           h <> HFuel
       end).
Proof.
  revert st offset. induction fuel as [| fuel IH]; intros st offset Hi.
  - simpl. split; [apply writes_ok_nil |]. intros _ _ _ _ Hf. inversion Hf.
  - cbn [copy_loop]. destruct (offset <? src_size) eqn:Hlt.
    + apply all_runs_bind.
      eapply all_runs_mono; [| apply (poll_post dest _ st Hi)].
      intros t1 [st1 | h] H1; [| split; [apply H1 | intros; apply H1]].
      pose proof (sweep_post_ignore _ _ _ H1 Hi) as Hi1.
      destruct (pending_error (cs_throttle st1)) eqn:Hpe.
      * eapply all_runs_mono; [| apply (wait_for_ret_post dest st1 Hi1)].
        intros t2 [r | h] H2.
        -- destruct H2 as (st2 & H2 & ->).
           pose proof (sweep_post_trans _ _ _ _ _ H1 H2) as (Hr & _ & Hw).
           split; [exact Hw |]. split; [exact Hr |].
           intros Hpos. exfalso.
           destruct H2 as (Hr2 & _). unfold pending_error in Hpe. apply Z.ltb_lt in Hpe.
           rewrite (carry_kept _ _ Hpe) in Hr2. lia.
        -- split; [| intros; apply H2].
           apply (writes_ok_app t1 t2 (sweep_post_writes _ _ _ H1)). apply H2.
      * apply all_runs_bind.
        eapply all_runs_mono; [| apply (wait_until_post start_op_ready dest _ st1 Hi1)].
        intros t2 [st2 | h] H2.
        2: { split; [| intros; apply H2].
             apply (writes_ok_app t1 t2 (sweep_post_writes _ _ _ H1)). apply H2. }
        destruct H2 as [H2 _].
        pose proof (sweep_post_ignore _ _ _ H2 Hi1) as Hi2.
        pose proof (sweep_post_trans _ _ _ _ _ H1 H2) as (Hr & _ & Hw).
        cbn [bind call all_runs]. intros [] [].
        eapply all_runs_mono;
          [| apply (IH (mkCopyState (start_op (cs_throttle st2))
                          (cs_inflight st2 ++
                             [PRead offset (Z.min period (wrap64 (src_size - offset)))]))
                       (wrap64 (offset + period)) Hi2)].
        intros t3 o3 [Hw3 H3]. rewrite app_assoc.
        split.
        { apply writes_ok_app; [exact Hw |].
          apply (writes_ok_app [_; _] t3); [intros o b [] | exact Hw3]. }
        destruct o3 as [r | h].
        -- destruct H3 as (Hr3 & Hlast). cbn [cs_throttle start_op m_ret] in Hr3.
           split.
           ++ rewrite chunk_results_app.
              change (chunk_results (?a :: ?b :: t3)) with (chunk_results t3).
              rewrite first_error_app, <- carry_assoc, <- Hr. exact Hr3.
           ++ intros Hpos. rewrite last_app.
              change (?a :: ?b :: t3) with ([a; b] ++ t3).
              rewrite last_app, (Hlast Hpos). reflexivity.
        -- intros Hp Ho Hs Hf _. apply Z.ltb_lt in Hlt.
           assert (Hw64 : wrap64 (offset + period) = offset + period).
           { unfold wrap64. apply Z.mod_small. lia. }
           rewrite Hw64 in H3. apply H3; first [lia | nia].
    + apply all_runs_bind.
      eapply all_runs_mono; [| apply (wait_for_ret_post dest st Hi)].
      intros t1 [r | h] H1; [| split; [apply H1 | intros; apply H1]].
      destruct H1 as (st1 & (Hr & _ & Hw) & ->).
      destruct (m_ret (cs_throttle st1) >=? 0) eqn:Hge.
      * cbn [bind call all_runs]. intros [].
        split; [| split].
        -- apply writes_ok_app; [exact Hw | intros o b []].
        -- rewrite chunk_results_app. 
           change (chunk_results [_]) with (@nil Z). rewrite app_nil_r. exact Hr.
        -- intros _. rewrite last_app. reflexivity.
      * cbn [all_runs]. rewrite app_nil_r.
        split; [exact Hw |]. split; [exact Hr |].
        intros Hpos. exfalso. 
        destruct (Z.geb_spec (m_ret (cs_throttle st1)) 0); [discriminate Hge | lia].
Qed.

Local Opaque copy_loop.

Lemma copy_sweep_post fuel src dest src_size :
  all_runs (copy_sweep fuel src dest src_size)
    (fun tr o =>
       copy_post fuel src_size (ic_stripe_period src) tr o /\
       (forall r, o = Returned r -> r = first_error (chunk_results tr))).
Proof.
  unfold copy_sweep.
  eapply all_runs_mono; [| apply copy_loop_post; reflexivity].
  intros tr o [Hw Hpost]. unfold copy_post. destruct o as [r | h].
  - destruct Hpost as (Hr & Hlast). simpl in Hr.
    split; [| intros r0 E; injection E as <-; exact Hr].
    split; [exact Hw |].
    split; [intros r0 E _; injection E as <-; exact Hr |].
    split; [intros r0 E; injection E as <-; exact Hlast |].
    intros _ _ _ _ E. discriminate E.
  - split; [| intros r0 E; discriminate E].
    split; [exact Hw |].
    split; [intros r0 E; discriminate E |].
    split; [intros r0 E; discriminate E |].
    intros Hp Hs Hsum Hf E. injection E as ->.
    apply Hpost; try assumption; try reflexivity; first [lia | nia].
Qed.

Local Opaque copy_sweep.

Lemma copy_post_cons fuel src_size period (e : Event) tr o :
  completion_of e = None -> write_of e = None ->
  copy_post fuel src_size period tr o /\
  (forall r, o = Returned r -> r = first_error (chunk_results tr)) ->
  copy_post fuel src_size period (e :: tr) o /\
  (forall r, o = Returned r -> r = first_error (chunk_results (e :: tr))).
Proof.
  intros He Hw [(Hwr & Hfirst & Hlast & Hfuel) Hr].
  assert (Hc : chunk_results (e :: tr) = chunk_results tr).
  { unfold chunk_results, completions. simpl. rewrite He. reflexivity. }
  unfold copy_post. rewrite Hc.
  split; [| exact Hr].
  split; [apply (writes_ok_app [e] tr (writes_ok_skip e Hw) Hwr) |].
  split; [exact Hfirst |]. split; [| exact Hfuel].
  intros r Ho Hpos. rewrite last_cons, (Hlast r Ho Hpos). reflexivity.
Qed.

Lemma copy_post_failed fuel src_size period (tr : list Event) (r : Z) :
  r < 0 -> writes tr = [] -> chunk_results tr = [] ->
  copy_post fuel src_size period tr (Returned r).
Proof.
  intros Hr Hw Hc. unfold copy_post, writes_ok. rewrite Hw, Hc.
  split; [intros o b [] |].
  split; [intros r0 _ Hne; contradiction Hne; reflexivity |].
  split; [intros r0 E Hpos; injection E as <-; lia |].
  intros _ _ _ _ E. discriminate E.
Qed.

Lemma copy_runs fuel src dest :
  all_runs (copy fuel src dest)
    (fun tr o =>
       copy_post fuel (get_image_size src (ic_snap_id src)) (ic_stripe_period src) tr o).
Proof.
  unfold copy.
  destruct (get_image_size dest (ic_snap_id dest) <? get_image_size src (ic_snap_id src)).
  { apply copy_post_failed; [unfold EINVAL; lia | reflexivity | reflexivity]. }
  cbn [bind call all_runs]. intros [r pairs].
  destruct ((r <? 0) && negb (r =? - EOPNOTSUPP) && negb (r =? - EIO)) eqn:Hfail.
  { cbn [all_runs]. apply copy_post_failed; [| reflexivity | reflexivity].
    apply andb_true_iff in Hfail as [Hfail _]. apply andb_true_iff in Hfail as [Hfail _].
    apply Z.ltb_lt. exact Hfail. }
  destruct ((r =? 0) && negb (is_empty pairs)).
  - cbn [bind call all_runs]. intros r1. destruct (r1 <? 0) eqn:Er1.
    + cbn [all_runs]. apply copy_post_failed; [| reflexivity | reflexivity].
      apply Z.ltb_lt. exact Er1.
    + eapply all_runs_mono; [| apply copy_sweep_post].
      intros tr o Hpost. eapply proj1.
      apply copy_post_cons; [reflexivity | reflexivity |].
      apply copy_post_cons; [reflexivity | reflexivity |].
      exact Hpost.
  - eapply all_runs_mono; [| apply copy_sweep_post].
    intros tr o Hpost. eapply proj1.
    apply copy_post_cons; [reflexivity | reflexivity |].
    exact Hpost.
Qed.

(** *** The sweep returns *)

Lemma all_runs_any {R} (p : Prog R) (Q : list Event -> Outcome R -> Prop) :
  (forall tr o, Q tr o) -> all_runs p Q.
Proof.
  revert Q. induction p as [r | X op k IH | h]; intros Q HQ; simpl; auto.
Qed.

Lemma completions_left_delete (l : list Pending) (i : nat) (p : Pending) :
  l !! i = Some p ->
  completions_left l
  = (completions_left [p] + completions_left (delete i l))%nat.
Proof.
  revert i. induction l as [| q l IH]; intros i Hl; [discriminate Hl |].
  destruct i as [| i]; simpl in Hl.
  - injection Hl as ->. destruct p; reflexivity.
  - change (delete (S i) (q :: l)) with (q :: delete i l).
    simpl. rewrite (IH i Hl). destruct p, q; simpl; lia.
Qed.

Lemma completions_left_app (l1 l2 : list Pending) :
  completions_left (l1 ++ l2) = (completions_left l1 + completions_left l2)%nat.
Proof.
  induction l1 as [| q l1 IH]; simpl; [reflexivity |].
  destruct q; rewrite IH; reflexivity.
Qed.

Lemma completions_left_nil (l : list Pending) :
  completions_left l = O -> l = [].
Proof. destruct l as [| [] l]; simpl; [reflexivity | discriminate | discriminate]. Qed.

Local Transparent complete.

Lemma complete_returns dest st c p :
  throttle_inv st ->
  cs_inflight st !! c.1.1 = Some p ->
  reads_well p c.1.2 c.2 = true ->
  all_runs (complete dest st c)
    (fun tr o =>
       exists st', o = Returned (Some st') /\ throttle_inv st' /\
         (completions_left (cs_inflight st') < completions_left (cs_inflight st))%nat).
Proof.
  intros (Hcur & Hmax & Hle & Hbound) Hp Hwell. destruct c as [[i r] bl].
  cbn [fst snd] in *. unfold complete. rewrite Hp.
  pose proof (completions_left_delete _ _ _ Hp) as Hleft.
  assert (Hlen : length (delete i (cs_inflight st)) = (length (cs_inflight st) - 1)%nat).
  { apply length_delete. exists p. exact Hp. }
  assert (Hpos : (0 < length (cs_inflight st))%nat).
  { apply lookup_lt_Some in Hp. lia. }
  assert (Hend : forall r0,
    throttle_inv (mkCopyState (end_op (cs_throttle st) r0) (delete i (cs_inflight st)))).
  { intros r0. unfold throttle_inv. cbn [cs_throttle cs_inflight end_op m_current m_max].
    assert (Hw : wrap64 (m_current (cs_throttle st) - 1) = m_current (cs_throttle st) - 1).
    { unfold wrap64. apply Z.mod_small. lia. }
    rewrite Hw, Hlen. repeat split; lia. }
  destruct p as [offset len | offset wbl]; cbn [reads_well] in Hwell.
  - unfold C_CopyRead_finish. cbn [cs_throttle cs_inflight].
    destruct (r <? 0) eqn:Er.
    + cbn [bind all_runs]. eexists. split; [reflexivity |].
      split; [apply Hend |]. cbn [cs_inflight]. rewrite Hleft. simpl. lia.
    + simpl in Hwell. rewrite Hwell. cbn [negb].
      destruct (is_zero bl).
      * cbn [bind all_runs]. eexists. split; [reflexivity |].
        split; [apply Hend |]. cbn [cs_inflight]. rewrite Hleft. simpl. lia.
      * cbn [bind call all_runs]. intros []. eexists. split; [reflexivity |].
        split.
        -- unfold throttle_inv. cbn [cs_throttle cs_inflight].
           rewrite length_app, Hlen. simpl. repeat split; lia.
        -- cbn [cs_inflight]. rewrite completions_left_app, Hleft. simpl. lia.
  - cbn [all_runs]. eexists. split; [reflexivity |].
    unfold C_CopyWrite_finish. cbn [cs_throttle cs_inflight].
    split; [apply Hend |]. rewrite Hleft. simpl. lia.
Qed.

Local Opaque complete.

Local Transparent complete.

Lemma complete_none dest st c :
  cs_inflight st !! c.1.1 = None -> complete dest st c = Ret None.
Proof.
  destruct c as [[i r] bl]. cbn [fst snd]. intros Hp. unfold complete. rewrite Hp.
  reflexivity.
Qed.

Local Opaque complete.
Local Transparent poll wait_until wait_for_ret copy_loop.

Lemma poll_returns dest n st :
  throttle_inv st ->
  all_runs (poll dest n st)
    (fun tr o =>
       forallb delivers_well tr = true ->
       exists st', o = Returned st' /\ throttle_inv st').
Proof.
  revert st. induction n as [| n IH]; intros st Hinv; cbn [poll].
  - cbn [all_runs]. intros _. exists st. split; [reflexivity | exact Hinv].
  - cbn [bind call all_runs]. intros [c |].
    2: { cbn [all_runs]. intros _. exists st. split; [reflexivity | exact Hinv]. }
    destruct (cs_inflight st !! c.1.1) as [p |] eqn:Hp.
    + destruct (reads_well p c.1.2 c.2) eqn:Hwell.
      * apply all_runs_bind.
        eapply all_runs_mono; [| apply (complete_returns dest st c p Hinv Hp Hwell)].
        intros t1 o1 (st1 & -> & Hinv1 & _).
        eapply all_runs_mono; [| apply (IH st1 Hinv1)].
        intros t2 o2 H2 Hall. apply H2.
        cbn [forallb] in Hall. rewrite forallb_app in Hall.
        apply andb_true_iff in Hall as [_ Hall].
        apply andb_true_iff in Hall as [_ Hall]. exact Hall.
      * apply all_runs_any. intros tr o Hall. exfalso.
        cbn [forallb delivers_well] in Hall. rewrite Hp, Hwell in Hall.
        discriminate Hall.
    + rewrite (complete_none dest st c Hp). cbn [bind all_runs].
      intros _. exists st. split; [reflexivity | exact Hinv].
Qed.

Lemma wait_until_returns ready dest n st :
  throttle_inv st ->
  (forall t, m_current t = 0 -> 0 < m_max t -> ready t = true) ->
  (completions_left (cs_inflight st) <= n)%nat ->
  all_runs (wait_until ready dest n st)
    (fun tr o =>
       forallb delivers_well tr = true ->
       exists st', o = Returned st' /\ throttle_inv st' /\
                   ready (cs_throttle st') = true).
Proof.
  intros Hinv Hready. revert st Hinv.
  induction n as [| n IH]; intros st Hinv Hn; cbn [wait_until].
  - assert (Hr : ready (cs_throttle st) = true).
    { destruct Hinv as (Hcur & Hmax & _). apply Hready; [| exact Hmax].
      rewrite Hcur, (completions_left_nil (cs_inflight st)); [reflexivity | lia]. }
    rewrite Hr. cbn [all_runs]. intros _. exists st. auto.
  - destruct (ready (cs_throttle st)) eqn:Hr.
    { cbn [all_runs]. intros _. exists st. auto. }
    cbn [bind call all_runs]. intros c.
    destruct (cs_inflight st !! c.1.1) as [p |] eqn:Hp.
    + destruct (reads_well p c.1.2 c.2) eqn:Hwell.
      * apply all_runs_bind.
        eapply all_runs_mono; [| apply (complete_returns dest st c p Hinv Hp Hwell)].
        intros t1 o1 (st1 & -> & Hinv1 & Hless).
        eapply all_runs_mono; [| apply (IH st1 Hinv1); lia].
        intros t2 o2 H2 Hall. apply H2.
        cbn [forallb] in Hall. rewrite forallb_app in Hall.
        apply andb_true_iff in Hall as [_ Hall].
        apply andb_true_iff in Hall as [_ Hall]. exact Hall.
      * apply all_runs_any. intros tr o Hall. exfalso.
        cbn [forallb delivers_well] in Hall. rewrite Hp, Hwell in Hall.
        discriminate Hall.
    + apply all_runs_any. intros tr o Hall. exfalso.
      cbn [forallb delivers_well] in Hall. rewrite Hp in Hall. discriminate Hall.
Qed.

Lemma wait_for_ret_returns dest st :
  throttle_inv st ->
  all_runs (wait_for_ret dest st)
    (fun tr o => forallb delivers_well tr = true -> exists r, o = Returned r).
Proof.
  intros Hinv. unfold wait_for_ret. apply all_runs_bind.
  eapply all_runs_mono;
    [| apply (wait_until_returns drained dest _ st Hinv); [| apply Nat.le_refl]].
  - intros t1 o1 H1.
    destruct o1 as [st1 | h].
    + cbn [all_runs]. intros _. eexists. reflexivity.
    + intros Hall. destruct (H1 Hall) as (st' & E & _). discriminate E.
  - intros t Hcur _. unfold drained. rewrite Hcur. reflexivity.
Qed.

Local Opaque poll wait_until wait_for_ret.

Lemma copy_loop_returns fuel src dest src_size period st offset :
  throttle_inv st ->
  0 < period -> 0 <= offset -> src_size + period <= 2 ^ 64 ->
  src_size - offset <= (Z.of_nat fuel - 1) * period -> (0 < fuel)%nat ->
  all_runs (copy_loop fuel src dest src_size period st offset)
    (fun tr o => forallb delivers_well tr = true -> exists r, o = Returned r).
Proof.
  intros Hinv Hp. revert st offset Hinv.
  induction fuel as [| fuel IH]; intros st offset Hinv Ho Hs Hf Hfuel; [inversion Hfuel |].
  cbn [copy_loop]. destruct (offset <? src_size) eqn:Hlt.
  - apply Z.ltb_lt in Hlt. apply all_runs_bind.
    eapply all_runs_mono; [| apply (poll_returns dest _ st Hinv)].
    intros t1 o1 H1. destruct o1 as [st1 | h].
    2: { intros Hall. destruct (H1 Hall) as (st' & E & _). discriminate E. }
    destruct (forallb delivers_well t1) eqn:Hall1.
    2: { apply all_runs_any. intros tr o Hall. rewrite forallb_app, Hall1 in Hall.
         discriminate Hall. }
    destruct (H1 eq_refl) as (st1' & E & Hinv1). injection E as <-.
    destruct (pending_error (cs_throttle st1)).
    + eapply all_runs_mono; [| apply (wait_for_ret_returns dest st1 Hinv1)].
      intros t2 o2 H2 Hall. apply H2. rewrite forallb_app in Hall.
      apply andb_true_iff in Hall as [_ Hall]. exact Hall.
    + apply all_runs_bind.
      eapply all_runs_mono;
        [| apply (wait_until_returns start_op_ready dest _ st1 Hinv1);
           [| apply Nat.le_refl]].
      2: { intros t Hcur Hmax. unfold start_op_ready. rewrite Hcur.
           apply negb_true_iff. apply Z.eqb_neq. lia. }
      intros t2 o2 H2. destruct o2 as [st2 | h].
      2: { intros Hall. rewrite forallb_app in Hall.
           apply andb_true_iff in Hall as [_ Hall].
           destruct (H2 Hall) as (st' & E & _). discriminate E. }
      destruct (forallb delivers_well t2) eqn:Hall2.
      2: { apply all_runs_any. intros tr o Hall. rewrite !forallb_app, Hall2 in Hall.
           rewrite andb_false_r in Hall. discriminate Hall. }
      destruct (H2 eq_refl) as (st2' & E & Hinv2 & Hready). injection E as <-.
      cbn [bind call all_runs]. intros [] [].
      assert (Hw64 : wrap64 (offset + period) = offset + period).
      { unfold wrap64. apply Z.mod_small. lia. }
      rewrite Hw64.
      eapply all_runs_mono; [| apply IH].
      * intros t3 o3 H3 Hall. apply H3. rewrite !forallb_app in Hall.
        apply andb_true_iff in Hall as [_ Hall].
        apply andb_true_iff in Hall as [_ Hall]. exact Hall.
      * destruct Hinv2 as (Hcur & Hmax & Hle & Hbound).
        unfold start_op_ready in Hready. apply negb_true_iff, Z.eqb_neq in Hready.
        unfold throttle_inv. cbn [cs_throttle cs_inflight start_op m_current m_max].
        assert (Hw : wrap64 (m_current (cs_throttle st2) + 1)
                     = m_current (cs_throttle st2) + 1).
        { unfold wrap64. apply Z.mod_small. lia. }
        rewrite Hw, length_app. simpl. repeat split; lia.
      * lia.
      * exact Hs.
      * first [lia | nia].
      * first [lia | nia].
  - apply all_runs_bind.
    eapply all_runs_mono; [| apply (wait_for_ret_returns dest st Hinv)].
    intros t1 o1 H1. destruct o1 as [r | h].
    + destruct (r >=? 0).
      * cbn [bind call all_runs]. intros [] _. eexists. reflexivity.
      * cbn [all_runs]. intros _. eexists. reflexivity.
    + intros Hall. destruct (H1 Hall) as (r & E). discriminate E.
Qed.

Local Opaque copy_loop.
Local Transparent copy_sweep.

Lemma copy_returns fuel src dest :
  0 < ic_stripe_period src ->
  0 <= get_image_size src (ic_snap_id src) ->
  get_image_size src (ic_snap_id src) + ic_stripe_period src <= 2 ^ 64 ->
  get_image_size src (ic_snap_id src) <= (Z.of_nat fuel - 1) * ic_stripe_period src ->
  0 < ic_concurrent_management_ops src < 2 ^ 64 ->
  all_runs (copy fuel src dest)
    (fun tr o => forallb delivers_well tr = true -> exists r, o = Returned r).
Proof.
  intros Hp Hs Hsum Hf Hops.
  assert (Hsweep : all_runs (copy_sweep fuel src dest (get_image_size src (ic_snap_id src)))
            (fun tr o => forallb delivers_well tr = true -> exists r, o = Returned r)).
  { unfold copy_sweep. apply copy_loop_returns; try assumption; try lia.
    all: try (unfold throttle_inv, throttle_new; simpl; lia).
    all: nia. }
  unfold copy.
  destruct (get_image_size dest (ic_snap_id dest) <? get_image_size src (ic_snap_id src)).
  { cbn [all_runs]. intros _. eexists. reflexivity. }
  cbn [bind call all_runs]. intros [r pairs].
  destruct ((r <? 0) && negb (r =? - EOPNOTSUPP) && negb (r =? - EIO)).
  { cbn [all_runs]. intros _. eexists. reflexivity. }
  destruct ((r =? 0) && negb (is_empty pairs)).
  - cbn [bind call all_runs]. intros r1. destruct (r1 <? 0).
    + cbn [all_runs]. intros _. eexists. reflexivity.
    + eapply all_runs_mono; [| exact Hsweep].
      intros tr o H1 Hall. apply H1. exact Hall.
  - eapply all_runs_mono; [| exact Hsweep].
    intros tr o H1 Hall. apply H1. exact Hall.
Qed.

Local Opaque copy_sweep.

(** C6. In every run of [copy]: when the destination is smaller than the
    source the call returns [-EINVAL] and makes no call at all. Every
    write issued on the destination carries data that is not all zero and
    that the read of the same offset delivered; a read that delivered
    only zeros ends its chunk without a write, so that when every read
    delivers zeros no write is issued. When the call returns after chunk
    operations completed, it returns the first error among their results,
    in the order they completed, and 0 when there is none. When it
    returns a value that is not an error, its last call reports the
    progress [src_size] of [src_size]. And the call does return when the
    completions are delivered well and the throttle allows at least one
    operation, provided the fuel of the model covers the chunks. *)
Theorem copy_sweeps_chunks {W} (H : Handler W) (w : W) (fuel : nat)
  (src dest : ImageCtx) :
  let src_size := get_image_size src (ic_snap_id src) in
  let dest_size := get_image_size dest (ic_snap_id dest) in
  let period := ic_stripe_period src in
  let o := outcome H (copy fuel src dest) w in
  let tr := trace H (copy fuel src dest) w in
  (dest_size < src_size ->
     run H (copy fuel src dest) w = (Returned (- EINVAL), w, [])) /\
  (forall offset bl, In (offset, bl) (writes tr) ->
     is_zero bl = false /\
     exists len r, In (PRead offset len, r, bl) (completions tr)) /\
  (forall m_offset m_bl st r, is_zero m_bl = true ->
     C_CopyRead_finish dest m_offset m_bl st r
     = if (0 <=? r) && negb (Z.of_nat (length m_bl) =? r) then Stop HAssert
       else Ret (mkCopyState (end_op (cs_throttle st) r) (cs_inflight st))) /\
  ((forall p r bl, In (p, r, bl) (completions tr) -> is_zero bl = true) ->
     writes tr = []) /\
  (forall r, o = Returned r -> chunk_results tr <> [] ->
     r = first_error (chunk_results tr)) /\
  (forall r, o = Returned r -> 0 <= r ->
     last tr = Some (Ev (UpdateProgress src_size src_size) tt)) /\
  (0 < period -> 0 <= src_size -> src_size + period <= 2 ^ 64 ->
   src_size <= (Z.of_nat fuel - 1) * period ->
   o <> Halted HFuel /\
   (0 < ic_concurrent_management_ops src < 2 ^ 64 ->
    forallb delivers_well tr = true -> exists r, o = Returned r)).
Proof.
  intros src_size dest_size period o tr.
  pose proof (all_runs_sound _ _ (copy_runs fuel src dest) W H w)
    as (Hw & Hfirst & Hlast & Hfuel).
  fold src_size period o tr in Hw, Hfirst, Hlast, Hfuel.
  split; [| split; [exact Hw | split; [| split; [| split; [exact Hfirst |
    split; [exact Hlast |]]]]]].
  - intros Hsmall. unfold copy. fold src_size dest_size.
    apply Z.ltb_lt in Hsmall. rewrite Hsmall. reflexivity.
  - intros m_offset m_bl st r Hz. apply C_CopyRead_finish_zero. exact Hz.
  - intros Hzero. destruct (writes tr) as [| [offset bl] l] eqn:Hwr; [reflexivity |].
    exfalso. destruct (Hw offset bl) as (Hnz & len & r & Hin).
    { rewrite Hwr. left. reflexivity. }
    rewrite (Hzero _ _ _ Hin) in Hnz. discriminate Hnz.
  - intros Hp Hs Hsum Hf. split; [exact (Hfuel Hp Hs Hsum Hf) |].
    intros Hops.
    exact (all_runs_sound _ _ (copy_returns fuel src dest Hp Hs Hsum Hf Hops) W H w).
Qed.

Lemma copy_sweeps_chunks_witness :
  run streaming (copy 2 (plain_image "a" "1" 8) (plain_image "b" "2" 4)) tt
  = (Returned (- EINVAL), tt, []) /\
  writes (trace streaming (copy 2 (plain_image "a" "1" 8) (plain_image "b" "2" 8)) tt)
  = [(0, repeat 7 8%nat)] /\
  writes (trace streaming_zeros (copy 2 (plain_image "a" "1" 8) (plain_image "b" "2" 8)) tt)
  = [] /\
  last (trace streaming (copy 2 (plain_image "a" "1" 8) (plain_image "b" "2" 8)) tt)
  = Some (Ev (UpdateProgress 8 8) tt) /\
  exists r,
    outcome streaming (copy 2 (plain_image "a" "1" 8) (plain_image "b" "2" 8)) tt
    = Returned r.
Proof.
  split; [| split; [| split; [| split]]].
  - destruct (copy_sweeps_chunks streaming tt 2
                (plain_image "a" "1" 8) (plain_image "b" "2" 4)) as (Hsmall & _).
    apply Hsmall. vm_compute. reflexivity.
  - reflexivity.
  - destruct (copy_sweeps_chunks streaming_zeros tt 2
                (plain_image "a" "1" 8) (plain_image "b" "2" 8))
      as (_ & _ & _ & Hzero & _).
    apply Hzero. intros p r bl Hin. vm_compute in Hin.
    destruct Hin as [E | []]. injection E as _ _ <-. reflexivity.
  - destruct (copy_sweeps_chunks streaming tt 2
                (plain_image "a" "1" 8) (plain_image "b" "2" 8))
      as (_ & _ & _ & _ & _ & Hlast & _).
    apply (Hlast 0 eq_refl). lia.
  - destruct (copy_sweeps_chunks streaming tt 2
                (plain_image "a" "1" 8) (plain_image "b" "2" 8))
      as (_ & _ & _ & _ & _ & _ & Hret).
    destruct Hret as [_ Hret];
      [vm_compute; reflexivity | vm_compute; discriminate | vm_compute; discriminate
      | vm_compute; discriminate |].
    apply Hret; [vm_compute; split; reflexivity | reflexivity].
Defined.

(** * Further properties *)

(** ** Image options *)

Local Transparent image_options_get image_options_set image_options_is_set.

(** X1. An option that [image_options_set] accepted is read back by
    [image_options_get] with the value set, and [image_options_is_set]
    reports it; the other options keep their values. The same holds for
    the string overloads. A set that is refused leaves the map as it
    was. *)
Theorem image_options_set_get_round_trip (opts : image_options_t) (optname : Z) :
  (forall optval cur b,
     (image_options_set opts optname optval).1 = 0 ->
     let opts' := (image_options_set opts optname optval).2 in
     image_options_get opts' optname cur = Some (0, optval) /\
     image_options_is_set opts' optname b = (0, true) /\
     forall other, other <> optname -> opts' !! other = opts !! other) /\
  (forall optval cur b,
     (image_options_set_str opts optname optval).1 = 0 ->
     let opts' := (image_options_set_str opts optname optval).2 in
     image_options_get_str opts' optname cur = Some (0, optval) /\
     image_options_is_set opts' optname b = (0, true) /\
     forall other, other <> optname -> opts' !! other = opts !! other) /\
  (forall optval,
     (image_options_set opts optname optval).1 <> 0 ->
     image_options_set opts optname optval = (- EINVAL, opts)) /\
  (forall optval,
     (image_options_set_str opts optname optval).1 <> 0 ->
     image_options_set_str opts optname optval = (- EINVAL, opts)).
Proof.
  unfold image_options_set, image_options_set_str, image_options_get,
    image_options_get_str, image_options_is_set.
  destruct (IMAGE_OPTIONS_TYPE_MAPPING !! optname) as [[|] |] eqn:Ht; simpl;
    repeat split; intros; simpl in *;
    try discriminate; try contradiction; try reflexivity;
    try (rewrite ?Ht, ?lookup_insert_eq; reflexivity);
    try (apply lookup_insert_ne; congruence).
Qed.

Lemma image_options_set_get_round_trip_witness :
  image_options_get (image_options_set ∅ RBD_IMAGE_OPTION_ORDER 22).2
    RBD_IMAGE_OPTION_ORDER 0 = Some (0, 22) /\
  image_options_get_str
    (image_options_set_str ∅ RBD_IMAGE_OPTION_DATA_POOL "ssd").2
    RBD_IMAGE_OPTION_DATA_POOL "" = Some (0, "ssd"%string) /\
  image_options_set ∅ RBD_IMAGE_OPTION_DATA_POOL 1 = (- EINVAL, ∅).
Proof.
  destruct (image_options_set_get_round_trip ∅ RBD_IMAGE_OPTION_ORDER)
    as (Hint & _).
  destruct (image_options_set_get_round_trip ∅ RBD_IMAGE_OPTION_DATA_POOL)
    as (_ & Hstr & Hbad & _).
  split; [apply (Hint 22 0 false eq_refl) |].
  split; [apply (Hstr "ssd"%string ""%string false eq_refl) |].
  apply (Hbad 1). discriminate.
Defined.

Lemma options_typed_insert (opts : image_options_t) (k : Z) (v : image_option_value_t) :
  options_typed opts ->
  IMAGE_OPTIONS_TYPE_MAPPING !! k = Some (option_value_type v) ->
  options_typed (<[k := v]> opts).
Proof.
  intros Ht Hk k' v' Hl. destruct (decide (k = k')) as [<- | Hne].
  - rewrite lookup_insert_eq in Hl. injection Hl as <-. exact Hk.
  - rewrite lookup_insert_ne in Hl by exact Hne. exact (Ht k' v' Hl).
Qed.

(** X2. A map in which every value holds the alternative of its option
    stays so under both [image_options_set], [image_options_unset] and
    [image_options_clear]; on such a map no [image_options_get] throws
    [boost::bad_get] and the [assert] of [image_options_unset] holds. The
    empty map is such a map. *)
Theorem image_options_stay_typed (opts : image_options_t) :
  options_typed opts ->
  (forall k v, options_typed (image_options_set opts k v).2) /\
  (forall k s, options_typed (image_options_set_str opts k s).2) /\
  (forall k, exists r opts',
     image_options_unset opts k = Some (r, opts') /\ options_typed opts') /\
  options_typed (image_options_clear opts) /\
  (forall k cur, exists r v, image_options_get opts k cur = Some (r, v)) /\
  (forall k cur, exists r v, image_options_get_str opts k cur = Some (r, v)).
Proof.
  intros Ht. repeat split.
  - intros k v. unfold image_options_set.
    destruct (IMAGE_OPTIONS_TYPE_MAPPING !! k) as [[|] |] eqn:Hk; simpl; try exact Ht.
    apply options_typed_insert; assumption.
  - intros k s. unfold image_options_set_str.
    destruct (IMAGE_OPTIONS_TYPE_MAPPING !! k) as [[|] |] eqn:Hk; simpl; try exact Ht.
    apply options_typed_insert; assumption.
  - intros k. unfold image_options_unset.
    destruct (IMAGE_OPTIONS_TYPE_MAPPING !! k) as [t |] eqn:Hk;
      destruct (opts !! k) as [v |] eqn:Hv.
    + exists 0, (delete k opts). split; [reflexivity |].
      intros k' v' Hl. destruct (decide (k = k')) as [<- | Hne].
      * rewrite lookup_delete_eq in Hl. discriminate Hl.
      * rewrite lookup_delete_ne in Hl by exact Hne. exact (Ht k' v' Hl).
    + exists (- ENOENT), opts. split; [reflexivity | exact Ht].
    + rewrite (Ht k v Hv) in Hk. discriminate Hk.
    + exists (- EINVAL), opts. split; [reflexivity | exact Ht].
  - intros k v Hl. unfold image_options_clear in Hl. rewrite lookup_empty in Hl.
    discriminate Hl.
  - intros k cur. unfold image_options_get.
    destruct (IMAGE_OPTIONS_TYPE_MAPPING !! k) as [[|] |] eqn:Hk; try (eexists _, _; reflexivity).
    destruct (opts !! k) as [[s | n] |] eqn:Hv; try (eexists _, _; reflexivity).
    rewrite (Ht k _ Hv) in Hk. discriminate Hk.
  - intros k cur. unfold image_options_get_str.
    destruct (IMAGE_OPTIONS_TYPE_MAPPING !! k) as [[|] |] eqn:Hk; try (eexists _, _; reflexivity).
    destruct (opts !! k) as [[s | n] |] eqn:Hv; try (eexists _, _; reflexivity).
    rewrite (Ht k _ Hv) in Hk. discriminate Hk.
Qed.

Lemma image_options_stay_typed_witness :
  options_typed (image_options_set ∅ RBD_IMAGE_OPTION_ORDER 22).2 /\
  exists r v, image_options_get_str ∅ RBD_IMAGE_OPTION_ORDER "" = Some (r, v).
Proof.
  assert (Hempty : options_typed ∅).
  { intros k v Hl. rewrite lookup_empty in Hl. discriminate Hl. }
  destruct (image_options_stay_typed ∅ Hempty) as (Hset & _ & _ & _ & _ & Hget).
  split; [apply Hset | apply Hget].
Defined.

(** X3. [image_options_unset] removes exactly the option named: after an
    unset that returned 0 the option was set before and is not set any
    more, a further read of it does not return 0, a second unset returns
    [-ENOENT], and the other options keep their values. An unset that
    returns an error leaves the map as it was: [-ENOENT] for a known
    option that is not set, [-EINVAL] for an unknown option. *)
Theorem image_options_unset_removes (opts opts' : image_options_t) (optname r : Z) :
  image_options_unset opts optname = Some (r, opts') ->
  (r = 0 ->
     is_Some (opts !! optname) /\
     (forall b, image_options_is_set opts' optname b = (0, false)) /\
     (forall cur, exists e, image_options_get opts' optname cur = Some (e, cur) /\ e <> 0) /\
     image_options_unset opts' optname = Some (- ENOENT, opts') /\
     forall other, other <> optname -> opts' !! other = opts !! other) /\
  (r <> 0 ->
     opts' = opts /\ opts !! optname = None /\
     (r = - ENOENT /\ is_Some (IMAGE_OPTIONS_TYPE_MAPPING !! optname) \/
      r = - EINVAL /\ IMAGE_OPTIONS_TYPE_MAPPING !! optname = None)).
Proof.
  unfold image_options_unset, image_options_is_set, image_options_get.
  destruct (IMAGE_OPTIONS_TYPE_MAPPING !! optname) as [t |] eqn:Hk;
    destruct (opts !! optname) as [v |] eqn:Hv; intros E; try discriminate E;
    injection E as <- <-.
  - split; [intros _ | intros Hne; contradiction Hne; reflexivity].
    rewrite lookup_delete_eq.
    split; [exists v; reflexivity |].
    split; [reflexivity |].
    split; [| split; [reflexivity | intros other Hne; apply lookup_delete_ne; congruence]].
    intros cur. destruct t.
    + exists (- EINVAL). split; [reflexivity | discriminate].
    + exists (- ENOENT). split; [reflexivity | discriminate].
  - split; [intros E; discriminate E | intros _].
    split; [reflexivity |]. split; [reflexivity |].
    left. split; [reflexivity | exists t; reflexivity].
  - split; [intros E; discriminate E | intros _].
    split; [reflexivity |]. split; [reflexivity |].
    right. split; reflexivity.
Qed.

Lemma image_options_unset_removes_witness :
  image_options_is_set (delete RBD_IMAGE_OPTION_ORDER
                          (<[RBD_IMAGE_OPTION_ORDER := OptU64 22]> ∅))
    RBD_IMAGE_OPTION_ORDER true = (0, false).
Proof.
  assert (Hu : image_options_unset (<[RBD_IMAGE_OPTION_ORDER := OptU64 22]> ∅)
                 RBD_IMAGE_OPTION_ORDER
               = Some (0, delete RBD_IMAGE_OPTION_ORDER
                            (<[RBD_IMAGE_OPTION_ORDER := OptU64 22]> ∅))).
  { reflexivity. }
  destruct (image_options_unset_removes _ _ _ _ Hu) as (Hok & _).
  destruct (Hok eq_refl) as (_ & Hset & _).
  apply Hset.
Defined.

(** ** I/O clipping *)

(** X4. For a request whose end [off + *len] fits in 64 bits, a
    [clip_io] that returns 0 never enlarges the length, leaves a range
    that is empty or ends within the image, and clips to nothing more: a
    second [clip_io] of the clipped request changes nothing. *)
Theorem clip_io_within_image (ictx : ImageCtx) (off len len' : Z) :
  let image_size := get_image_size ictx (ic_snap_id ictx) in
  0 <= off -> 0 <= len -> off + len < 2 ^ 64 -> 0 <= image_size ->
  clip_io ictx off len = (0, len') ->
  0 <= len' <= len /\
  (len' = 0 \/ off + len' <= image_size) /\
  (len' < len -> off + len' = image_size) /\
  clip_io ictx off len' = (0, len').
Proof.
  intros image_size Hoff Hlen Hsum Hsize Hclip.
  destruct (clip_io_no_wrap ictx off len Hoff Hlen Hsum Hsize)
    as (Hgone & Hzero & Hpast & Hover & Hfit).
  fold image_size in Hpast, Hover, Hfit.
  destruct (ic_snap_exists ictx) eqn:Hex.
  2: { rewrite (Hgone eq_refl) in Hclip. discriminate Hclip. }
  destruct (Z.eq_dec len 0) as [-> | Hnz].
  { rewrite (Hzero eq_refl eq_refl) in Hclip. injection Hclip as <-.
    split; [lia |]. split; [left; reflexivity |]. split; [lia |].
    apply (Hzero eq_refl eq_refl). }
  destruct (Z_le_gt_dec image_size off) as [Hle | Hgt].
  { rewrite (Hpast eq_refl Hnz Hle) in Hclip. discriminate Hclip. }
  destruct (Z_lt_le_dec image_size (off + len)) as [Hlt | Hge].
  - rewrite (Hover eq_refl Hnz ltac:(lia) Hlt) in Hclip. injection Hclip as <-.
    split; [lia |]. split; [right; lia |]. split; [lia |].
    destruct (clip_io_no_wrap ictx off (image_size - off) Hoff ltac:(lia) ltac:(lia) Hsize)
      as (_ & _ & _ & _ & Hfit').
    fold image_size in Hfit'. apply (Hfit' Hex); lia.
  - rewrite (Hfit eq_refl Hnz ltac:(lia) Hge) in Hclip. injection Hclip as <-.
    split; [lia |]. split; [right; lia |]. split; [lia |].
    apply (Hfit eq_refl Hnz); lia.
Qed.

Lemma clip_io_within_image_witness :
  0 <= 6 <= 100 /\ (6 = 0 \/ 4 + 6 <= 10) /\ (6 < 100 -> 4 + 6 = 10) /\
  clip_io (plain_image "img" "1" 10) 4 6 = (0, 6).
Proof.
  apply (clip_io_within_image (plain_image "img" "1" 10) 4 100 6);
    [lia | lia | lia | vm_compute; discriminate | reflexivity].
Defined.

(** ** Clone creation: what a clone creates, deletes and links *)

Local Transparent clone_create.
Local Opaque image_options_get image_options_set image_options_is_set.

Lemma clone_create_owns p_imctx c_ioctx c_name c_opts npg pmu pspec size b :
  all_runs (clone_create p_imctx c_ioctx c_name c_opts npg pmu pspec size b)
    (fun tr o =>
       (removals tr = [] \/ removals tr = [(c_ioctx, c_name)]) /\
       (removals tr <> [] ->
          exists rc mid rd r,
            child_calls tr
            = Created c_ioctx c_name size rc :: mid ++ [Deleted c_ioctx c_name "" rd] /\
            0 <= rc /\
            forallb (fun c => negb (creates_or_deletes c)) mid = true /\
            return_value o = Some r /\ r < 0)).
Proof.
  unfold_create. unfold removals, child_calls.
  crunch; zbool;
    (split; [first [left; reflexivity | right; reflexivity] |]);
    intros Hne; try (contradiction Hne; reflexivity);
    eexists _, _, _, _;
    (split;
       [ match goal with
         | |- ?l = _ =>
             first
               [ exact (eq_refl : l = _ :: [_] ++ [_])
               | exact (eq_refl : l = _ :: [_; _; _] ++ [_])
               | exact (eq_refl : l = _ :: [_; _; _; _] ++ [_])
               | exact (eq_refl : l = _ :: [_; _; _; _; _; _] ++ [_]) ]
         end |]);
    (split; [assumption |]); (split; [reflexivity |]);
    (split; [reflexivity |]); try assumption; try (unfold EINVAL; lia).
Qed.

Local Opaque clone_create.

Lemma clone_owns p_imctx c_ioctx c_name c_opts npg pmu :
  all_runs (clone p_imctx c_ioctx c_name c_opts npg pmu)
    (fun tr o =>
       (removals tr = [] \/ removals tr = [(c_ioctx, c_name)]) /\
       (removals tr <> [] ->
          exists rc mid rd r,
            child_calls tr
            = Created c_ioctx c_name (get_image_size p_imctx (ic_snap_id p_imctx)) rc
              :: mid ++ [Deleted c_ioctx c_name "" rd] /\
            0 <= rc /\
            forallb (fun c => negb (creates_or_deletes c)) mid = true /\
            return_value o = Some r /\ r < 0)).
Proof.
  unfold_validation. unfold removals, child_calls.
  crunch;
    try (split; [left; reflexivity | intros Hne; contradiction Hne; reflexivity]);
    (eapply all_runs_mono; [| apply clone_create_owns]);
    intros tr o H; unfold removals, child_calls in H; exact H.
Qed.

(** X5. A failed clone deletes nothing but the image it created: in
    every run of [clone] at most one deletion is requested, of the image
    [c_name] in the pool [c_ioctx]. When it is requested, the first of
    the calls on images was the creation of that same image, in the same
    pool and under the same name, which succeeded; the deletion is the
    last of them; no other image is created or deleted in between; and
    the call returns an error. *)
Theorem clone_deletes_only_its_child {W} (H : Handler W) (w : W)
  (p_imctx : ImageCtx) (c_ioctx : IoCtx) (c_name : string)
  (c_opts : image_options_t) (npg pmu : string) :
  let tr := trace H (clone p_imctx c_ioctx c_name c_opts npg pmu) w in
  let o := outcome H (clone p_imctx c_ioctx c_name c_opts npg pmu) w in
  (removals tr = [] \/ removals tr = [(c_ioctx, c_name)]) /\
  (removals tr <> [] ->
     exists rc mid rd r,
       child_calls tr
       = Created c_ioctx c_name (get_image_size p_imctx (ic_snap_id p_imctx)) rc
         :: mid ++ [Deleted c_ioctx c_name "" rd] /\
       0 <= rc /\
       forallb (fun c => negb (creates_or_deletes c)) mid = true /\
       return_value o = Some r /\ r < 0).
Proof.
  exact (all_runs_sound _ _ (clone_owns p_imctx c_ioctx c_name c_opts npg pmu) W H w).
Qed.

Lemma clone_deletes_only_its_child_witness :
  removals (trace refresh_fails
              (clone (snap_image "a" "1" 8 Protected 4) (mkIoCtx 1) "b" ∅ "" "") tt)
  = [(mkIoCtx 1, "b"%string)] /\
  exists rc mid rd r,
    child_calls (trace refresh_fails
                   (clone (snap_image "a" "1" 8 Protected 4) (mkIoCtx 1) "b" ∅ "" "") tt)
    = Created (mkIoCtx 1) "b" 8 rc :: mid ++ [Deleted (mkIoCtx 1) "b" "" rd] /\
    0 <= rc /\
    forallb (fun c => negb (creates_or_deletes c)) mid = true /\
    return_value (outcome refresh_fails
                    (clone (snap_image "a" "1" 8 Protected 4) (mkIoCtx 1) "b" ∅ "" "") tt)
    = Some r /\ r < 0.
Proof.
  destruct (clone_deletes_only_its_child refresh_fails tt
              (snap_image "a" "1" 8 Protected 4) (mkIoCtx 1) "b" ∅ "" "")
    as (_ & Hdel).
  split; [vm_compute; reflexivity |].
  apply Hdel. vm_compute. discriminate.
Defined.

Local Transparent clone_create.

Lemma clone_create_no_stat p_imctx c_ioctx c_name c_opts npg pmu pspec size b :
  all_runs (clone_create p_imctx c_ioctx c_name c_opts npg pmu pspec size b)
    (fun tr o => keep stat_of tr = []).
Proof.
  unfold_create. crunch; reflexivity.
Qed.

Local Opaque clone_create.

Lemma clone_exists p_imctx c_ioctx c_name c_opts npg pmu :
  all_runs (clone p_imctx c_ioctx c_name c_opts npg pmu)
    (fun tr o => forall r, In r (keep stat_of tr) -> r <> - ENOENT ->
       return_value o = Some (- EEXIST) /\ creations tr = []).
Proof.
  unfold_validation. unfold creations.
  crunch; zbool; subst; try contradiction; try (split; reflexivity);
    try (unfold ENOENT in *; lia);
    (eapply all_runs_mono; [| apply clone_create_no_stat]);
    intros tr o Hs r0 Hin; rewrite Hs in Hin; simpl in Hin; crunch; contradiction.
Qed.

(** X6. [clone] takes any answer other than [-ENOENT] to the [stat] of a
    header object of the child as a sign that the child exists: it
    returns [-EEXIST], also when the [stat] failed with another error,
    and requests no creation. *)
Theorem clone_reports_existing_child {W} (H : Handler W) (w : W)
  (p_imctx : ImageCtx) (c_ioctx : IoCtx) (c_name : string)
  (c_opts : image_options_t) (npg pmu : string) (r : Z) :
  In r (keep stat_of (trace H (clone p_imctx c_ioctx c_name c_opts npg pmu) w)) ->
  r <> - ENOENT ->
  return_value (outcome H (clone p_imctx c_ioctx c_name c_opts npg pmu) w)
    = Some (- EEXIST) /\
  creations (trace H (clone p_imctx c_ioctx c_name c_opts npg pmu) w) = [].
Proof.
  exact (all_runs_sound _ _ (clone_exists p_imctx c_ioctx c_name c_opts npg pmu) W H w r).
Qed.

Lemma clone_reports_existing_child_witness :
  return_value (outcome stat_fails
                  (clone (snap_image "a" "1" 8 Protected 4) (mkIoCtx 1) "b" ∅ "" "") tt)
    = Some (- EEXIST) /\
  creations (trace stat_fails
               (clone (snap_image "a" "1" 8 Protected 4) (mkIoCtx 1) "b" ∅ "" "") tt)
    = [].
Proof.
  apply (clone_reports_existing_child stat_fails tt
           (snap_image "a" "1" 8 Protected 4) (mkIoCtx 1) "b" ∅ "" "" (- EIO)).
  - vm_compute. left. reflexivity.
  - discriminate.
Defined.

(** X7. A [clone] that returns a value that is not an error has made
    exactly these calls on images, in this order and each with success:
    it created the image [c_name] in the pool [c_ioctx] with the size of
    the parent's snapshot; opened that image; wrote into the header
    object of the handle it got the parent it was asked for (pool, image
    and snapshot of [p_imctx]) with that size as overlap; registered the
    identifier of that handle in the child index of [c_ioctx] under the
    same parent; refreshed the parent; and closed that handle, as its
    last call, the result of which is the value returned. It has
    unregistered and deleted nothing. *)
Theorem clone_success_links_child {W} (H : Handler W) (w : W)
  (p_imctx : ImageCtx) (c_ioctx : IoCtx) (c_name : string)
  (c_opts : image_options_t) (npg pmu : string) (ret : Z) :
  let tr := trace H (clone p_imctx c_ioctx c_name c_opts npg pmu) w in
  let pspec := parent_spec_of p_imctx in
  let size := get_image_size p_imctx (ic_snap_id p_imctx) in
  return_value (outcome H (clone p_imctx c_ioctx c_name c_opts npg pmu) w) = Some ret ->
  0 <= ret ->
  exists rc ro c r1 r2 r p' tr',
    child_calls tr
    = [Created c_ioctx c_name size rc; Opened c_ioctx c_name "" ro c;
       ParentSet c_ioctx (ic_header_oid c) pspec size r1;
       Registered c_ioctx pspec (ic_id c) r2;
       ParentRefreshed p_imctx r p'; Closed c ret] /\
    0 <= rc /\ 0 <= ro /\ 0 <= r1 /\ 0 <= r2 /\
    tr = tr' ++ [Ev (StateClose c) ret].
Proof.
  intros tr pspec size Hret Hpos.
  destruct (all_runs_sound _ _ (clone_protection p_imctx c_ioctx c_name c_opts npg pmu) W H w)
    as (_ & _ & Hs).
  destruct (Hs ret Hret Hpos)
    as (_ & rc & ro & c & r1 & r2 & r & p' & tr' & Hc & _ & H1 & H2 & H3 & H4 & _ & Htr).
  exists rc, ro, c, r1, r2, r, p', tr'.
  repeat (split; [assumption |]). exact Htr.
Qed.

Lemma clone_success_links_child_witness :
  exists rc ro c r1 r2 r p' tr',
    child_calls (trace quiet
                   (clone (snap_image "a" "1" 8 Protected 4) (mkIoCtx 1) "b" ∅ "" "") tt)
    = [Created (mkIoCtx 1) "b" 8 rc; Opened (mkIoCtx 1) "b" "" ro c;
       ParentSet (mkIoCtx 1) (ic_header_oid c) (mkParentSpec 1 "1" 4) 8 r1;
       Registered (mkIoCtx 1) (mkParentSpec 1 "1" 4) (ic_id c) r2;
       ParentRefreshed (snap_image "a" "1" 8 Protected 4) r p'; Closed c 0] /\
    0 <= rc /\ 0 <= ro /\ 0 <= r1 /\ 0 <= r2 /\
    trace quiet (clone (snap_image "a" "1" 8 Protected 4) (mkIoCtx 1) "b" ∅ "" "") tt
    = tr' ++ [Ev (StateClose c) 0].
Proof.
  apply (clone_success_links_child quiet tt
           (snap_image "a" "1" 8 Protected 4) (mkIoCtx 1) "b" ∅ "" "" 0).
  - vm_compute. reflexivity.
  - lia.
Defined.

(** ** Lock owners and lock breaks *)

(** X8. The owner [lock_get_owners] reports is the one [lock_break]
    accepts: when the store names the same locker to both, a
    [lock_get_owners] that succeeds reports the exclusive mode and one
    owner, and [lock_break] called with that mode and that owner does not
    refuse with [-EBUSY] or [-EOPNOTSUPP] but issues the break, whose
    error, or 0, it returns. A failed read of the locker leaves the mode
    and the owners of the caller as they were. *)
Theorem lock_get_owners_feeds_lock_break {W} (H : Handler W) (w w1 : W)
  (ictx : ImageCtx) (lock_mode : Z) (lock_owners : list string)
  (r : Z) (locker : Locker) :
  H _ (GetLockerRequest ictx) w = ((r, locker), w1) ->
  (r < 0 ->
     run H (lock_get_owners ictx lock_mode lock_owners) w
     = (Returned (r, lock_mode, lock_owners), w1,
        [Ev (GetLockerRequest ictx) (r, locker)])) /\
  (0 <= r ->
     exists mode owner,
       run H (lock_get_owners ictx lock_mode lock_owners) w
       = (Returned (0, mode, [owner]), w1, [Ev (GetLockerRequest ictx) (r, locker)]) /\
       forall r' w2 rb w3,
         H _ (GetLockerRequest ictx) w1 = ((r', locker), w2) -> 0 <= r' ->
         H _ (BreakRequest ictx locker (ic_blacklist_on_break_lock ictx) true) w2
           = (rb, w3) ->
         run H (lock_break ictx mode owner) w1
         = (Returned (if rb <? 0 then rb else 0), w3,
            [Ev (GetLockerRequest ictx) (r', locker);
             Ev (BreakRequest ictx locker (ic_blacklist_on_break_lock ictx) true) rb])).
Proof.
  intros Hread. unfold lock_get_owners. simpl. rewrite Hread. simpl. split.
  - intros Hneg. destruct (Z.eqb_spec r (- ENOENT)); [reflexivity |].
    apply Z.ltb_lt in Hneg. rewrite Hneg. reflexivity.
  - intros Hpos. exists RBD_LOCK_MODE_EXCLUSIVE, (lk_address locker).
    destruct (Z.eqb_spec r (- ENOENT)); [unfold ENOENT in *; lia |].
    apply Z.ltb_ge in Hpos. rewrite Hpos. split; [reflexivity |].
    intros r' w2 rb w3 Hread' Hpos' Hbreak. unfold lock_break. simpl.
    rewrite Hread'. simpl.
    destruct (Z.eqb_spec r' (- ENOENT)); [unfold ENOENT in *; lia |].
    apply Z.ltb_ge in Hpos'. rewrite Hpos', String.eqb_refl. simpl.
    rewrite Hbreak. simpl.
    destruct (Z.eqb_spec rb (- ENOENT)) as [-> | _]; [reflexivity |].
    destruct (rb <? 0); reflexivity.
Qed.

Lemma lock_get_owners_feeds_lock_break_witness :
  exists mode owner,
    run (locked_by "1.2.3.4:0/5") (lock_get_owners (plain_image "a" "1" 8) 7 []) tt
    = (Returned (0, mode, [owner]), tt,
       [Ev (GetLockerRequest (plain_image "a" "1" 8))
           (0, mkLocker "client.4125" "auto 1" "1.2.3.4:0/5" 1)]) /\
    outcome (locked_by "1.2.3.4:0/5") (lock_break (plain_image "a" "1" 8) mode owner) tt
    = Returned 0.
Proof.
  destruct (lock_get_owners_feeds_lock_break (locked_by "1.2.3.4:0/5") tt tt
              (plain_image "a" "1" 8) 7 [] 0
              (mkLocker "client.4125" "auto 1" "1.2.3.4:0/5" 1) eq_refl)
    as (_ & Hok).
  destruct (Hok ltac:(lia)) as (mode & owner & Hget & Hbreak).
  exists mode, owner. split; [exact Hget |].
  unfold outcome. rewrite (Hbreak 0 tt 0 tt eq_refl ltac:(lia) eq_refl). reflexivity.
Defined.




(** ** Mirroring of one image: what enables it, and the queries *)

Local Transparent mirror_image_enable mirror_image_disable.

Lemma mirror_image_enable_runs ictx relax :
  all_runs (mirror_image_enable ictx relax)
    (fun tr o =>
       (enable_requests tr <> [] ->
          exists rm i re,
            head (mode_reads tr) = Some (rm, MIRROR_MODE_IMAGE) /\ 0 <= rm /\
            enable_requests tr = [(i, re)] /\
            Z.land (ic_features i) RBD_FEATURE_JOURNALING <> 0 /\
            o = Returned (if re <? 0 then re else 0)) /\
       (forall x, In x (record_reads tr) -> x = - ENOENT ->
          o = Returned (- EINVAL) /\ enable_requests tr = []) /\
       (forall x r0 i, In x (record_reads tr) -> x <> - ENOENT ->
          head (keep refresh_if_required_of tr) = Some (r0, i) ->
          Z.land (ic_features i) RBD_FEATURE_JOURNALING <> 0 ->
          enable_requests tr <> [])).
Proof.
  unfold mirror_image_enable, mirror_image_enable_internal, enable_requests,
    record_reads, mode_reads.
  simpl. intros [r1 i1]. simpl. destruct (r1 <? 0) eqn:E1.
  { simpl. split; [intros Hn; contradiction Hn; reflexivity |].
    split; intros x; intros; contradiction. }
  simpl. intros [r2 mode]. simpl. destruct (r2 <? 0) eqn:E2.
  { simpl. split; [intros Hn; contradiction Hn; reflexivity |].
    split; intros x; intros; contradiction. }
  destruct (Z.eqb_spec mode MIRROR_MODE_IMAGE) as [-> | Hmode]; simpl.
  2: { split; [intros Hn; contradiction Hn; reflexivity |].
       split; intros x; intros; contradiction. }
  apply Z.ltb_ge in E2.
  destruct (ic_parent i1) as [parent |]; crunch; zbool; subst.
  all: split;
    [intros Hn;
     first
       [ exfalso; apply Hn; reflexivity
       | eexists _, _, _; split; [reflexivity |]; split; [assumption |];
         split; [reflexivity |]; split; [assumption |];
         first [reflexivity
               | match goal with
                 | Hr : ?x < 0 |- _ =>
                     apply Z.ltb_lt in Hr; rewrite Hr; reflexivity
                 | Hr : 0 <= ?x |- _ =>
                     apply Z.ltb_ge in Hr; rewrite Hr; reflexivity
                 end] ] |].
  all: split;
    [intros y Hin Hy; simpl in Hin; try contradiction;
     try (destruct Hin as [Hin | []]; subst; try contradiction;
          try (split; reflexivity); try (unfold ENOENT in *; lia))
    | intros y r0 i Hin Hy Hh Hj; simpl in Hin; try contradiction;
      try (destruct Hin as [Hin | []]; subst);
      try (injection Hh as <- <-);
      try contradiction; try discriminate; try congruence ].
Qed.

(** X10. [mirror_image_enable] sends the request to enable mirroring at
    most once, and only after it has read with success that the pool is
    in image mode, for an image that has the journaling feature; what it
    returns is then the error of the request, or 0. A parent looked up in
    the mirroring directory and not found makes it return [-EINVAL]
    without sending the request; but a lookup of the parent that fails
    with any other error is let through: the request is sent all the
    same when the image is journaled. *)
Theorem mirror_image_enable_gates {W} (H : Handler W) (w : W)
  (ictx : ImageCtx) (relax_same_pool_parent_check : bool) :
  let tr := trace H (mirror_image_enable ictx relax_same_pool_parent_check) w in
  let o := outcome H (mirror_image_enable ictx relax_same_pool_parent_check) w in
  (enable_requests tr <> [] ->
     exists rm i re,
       head (mode_reads tr) = Some (rm, MIRROR_MODE_IMAGE) /\ 0 <= rm /\
       enable_requests tr = [(i, re)] /\
       Z.land (ic_features i) RBD_FEATURE_JOURNALING <> 0 /\
       o = Returned (if re <? 0 then re else 0)) /\
  (forall x, In x (record_reads tr) -> x = - ENOENT ->
     o = Returned (- EINVAL) /\ enable_requests tr = []) /\
  (forall x r0 i, In x (record_reads tr) -> x <> - ENOENT ->
     head (keep refresh_if_required_of tr) = Some (r0, i) ->
     Z.land (ic_features i) RBD_FEATURE_JOURNALING <> 0 ->
     enable_requests tr <> []).
Proof.
  exact (all_runs_sound _ _
           (mirror_image_enable_runs ictx relax_same_pool_parent_check) W H w).
Qed.

Lemma mirror_image_enable_gates_witness :
  (exists rm i re,
     head (mode_reads (trace image_mode (mirror_image_enable (journaled_image "a" "1") false) tt))
     = Some (rm, MIRROR_MODE_IMAGE) /\ 0 <= rm /\
     enable_requests (trace image_mode (mirror_image_enable (journaled_image "a" "1") false) tt)
     = [(i, re)] /\
     Z.land (ic_features i) RBD_FEATURE_JOURNALING <> 0 /\
     outcome image_mode (mirror_image_enable (journaled_image "a" "1") false) tt
     = Returned (if re <? 0 then re else 0)) /\
  (outcome image_mode (mirror_image_enable (journaled_child "c" "2") false) tt
   = Returned (- EINVAL) /\
   enable_requests (trace image_mode (mirror_image_enable (journaled_child "c" "2") false) tt)
   = []) /\
  enable_requests
    (trace image_mode_unreadable (mirror_image_enable (journaled_child "c" "2") false) tt)
  <> [].
Proof.
  split; [| split].
  - destruct (mirror_image_enable_gates image_mode tt (journaled_image "a" "1") false)
      as (Hsent & _).
    apply Hsent. vm_compute. discriminate.
  - destruct (mirror_image_enable_gates image_mode tt (journaled_child "c" "2") false)
      as (_ & Habsent & _).
    apply (Habsent (- ENOENT)); [vm_compute; left; reflexivity | reflexivity].
  - destruct (mirror_image_enable_gates image_mode_unreadable tt
                (journaled_child "c" "2") false) as (_ & _ & Herr).
    apply (Herr (- EIO) 0 (journaled_child "c" "2"));
      [vm_compute; left; reflexivity | discriminate | reflexivity | vm_compute; discriminate].
Defined.

Lemma mirror_image_disable_absent ictx force :
  all_runs (mirror_image_disable ictx force)
    (fun tr o => forall x, head (record_reads tr) = Some x -> x < 0 ->
       mirror_sets tr = [] /\ teardowns tr = [] /\ opens tr = [] /\
       o = Returned (if x =? - ENOENT then 0 else x)).
Proof.
  unfold mirror_image_disable, record_reads, mirror_sets, teardowns, opens.
  simpl. intros [r1 i1]. simpl. destruct (r1 <? 0).
  { simpl. intros x E. discriminate E. }
  simpl. intros [r2 mode]. simpl. destruct (r2 <? 0).
  { simpl. intros x E. discriminate E. }
  destruct (negb (mode =? MIRROR_MODE_IMAGE)).
  { simpl. intros x E. discriminate E. }
  simpl. intros [r3 mi]. simpl.
  destruct (r3 =? - ENOENT) eqn:E3.
  { simpl. intros x E _. injection E as <-. rewrite E3. repeat split. }
  destruct (r3 =? - EOPNOTSUPP).
  { simpl. intros x E _. injection E as <-. rewrite E3. repeat split. }
  destruct (r3 <? 0) eqn:E4.
  { simpl. intros x E _. injection E as <-. rewrite E3. repeat split. }
  apply all_runs_any. intros tr o x E Hx. simpl in E. injection E as <-.
  apply Z.ltb_ge in E4. lia.
Qed.

(** X11. Disabling the mirroring of an image that has no mirror record
    is a successful no-op: when the lookup of the record of the image
    answers [-ENOENT], [mirror_image_disable] returns 0, and when it
    fails with another error it returns that error; in both cases no
    mirror record is written, no teardown is requested and no image is
    opened. *)
Theorem mirror_image_disable_absent_record {W} (H : Handler W) (w : W)
  (ictx : ImageCtx) (force : bool) (x : Z) :
  let tr := trace H (mirror_image_disable ictx force) w in
  head (record_reads tr) = Some x -> x < 0 ->
  mirror_sets tr = [] /\ teardowns tr = [] /\ opens tr = [] /\
  outcome H (mirror_image_disable ictx force) w
  = Returned (if x =? - ENOENT then 0 else x).
Proof.
  exact (all_runs_sound _ _ (mirror_image_disable_absent ictx force) W H w x).
Qed.

Lemma mirror_image_disable_absent_record_witness :
  mirror_sets (trace image_mode (mirror_image_disable (journaled_image "a" "1") true) tt) = [] /\
  teardowns (trace image_mode (mirror_image_disable (journaled_image "a" "1") true) tt) = [] /\
  opens (trace image_mode (mirror_image_disable (journaled_image "a" "1") true) tt) = [] /\
  outcome image_mode (mirror_image_disable (journaled_image "a" "1") true) tt = Returned 0.
Proof.
  apply (mirror_image_disable_absent_record image_mode tt (journaled_image "a" "1") true
           (- ENOENT)); [reflexivity | unfold ENOENT; lia].
Defined.

Lemma mirror_image_get_info_runs sizeof_info ictx info0 info_size :
  all_runs (mirror_image_get_info sizeof_info ictx info0 info_size)
    (fun tr o =>
       (info_size < sizeof_info -> o = Returned (- ERANGE, info0) /\ tr = []) /\
       (keep tag_owner_of tr <> [] ->
          exists r mi, records tr = [(r, mi)] /\ 0 <= r /\
                       mi_state mi = MIRROR_IMAGE_STATE_ENABLED) /\
       (forall r mi, records tr = [(r, mi)] -> r = - ENOENT ->
          o = Returned (0, mkMirrorImageInfo (global_image_id mi)
                             MIRROR_IMAGE_STATE_DISABLED false) /\
          keep tag_owner_of tr = []) /\
       (forall r mi, records tr = [(r, mi)] -> 0 <= r ->
          mi_state mi <> MIRROR_IMAGE_STATE_ENABLED ->
          o = Returned (0, mkMirrorImageInfo (global_image_id mi) (mi_state mi) false)) /\
       (forall r mi rt primary, records tr = [(r, mi)] -> 0 <= r ->
          mi_state mi = MIRROR_IMAGE_STATE_ENABLED ->
          keep tag_owner_of tr = [(rt, primary)] ->
          o = Returned (if rt <? 0 then rt else 0,
                        mkMirrorImageInfo (global_image_id mi)
                          MIRROR_IMAGE_STATE_ENABLED primary))).
Proof.
  unfold mirror_image_get_info, records.
  destruct (Z.ltb_spec info_size sizeof_info) as [Hsmall | Hfits].
  { simpl. split; [intros _; split; reflexivity |].
    split; [intros Hn; contradiction Hn; reflexivity |].
    repeat split; intros; congruence. }
  simpl. intros [r1 i1]. simpl. destruct (r1 <? 0).
  { simpl. split; [intros Hs; lia |].
    split; [intros Hn; contradiction Hn; reflexivity |].
    repeat split; intros; congruence. }
  simpl. intros [r2 mi2]. simpl.
  destruct ((r2 <? 0) && negb (r2 =? - ENOENT)) eqn:Efail.
  { simpl. zbool. split; [intros Hs; lia |].
    split; [intros Hn; contradiction Hn; reflexivity |].
    split; [intros r mi E Hr; injection E as E1 E2; subst; contradiction |].
    split; intros r mi; intros; match goal with
      | E : [_] = [_] |- _ => injection E as <- <-; lia end. }
  destruct (Z.eqb_spec r2 (- ENOENT)) as [-> | Hne].
  { simpl. split; [intros Hs; lia |].
    split; [intros Hn; contradiction Hn; reflexivity |].
    split; [intros r mi E _; injection E as <- <-; split; reflexivity |].
    split; intros r mi; intros; match goal with
      | E : [_] = [_] |- _ => injection E as <- <-; unfold ENOENT in *; lia end. }
  assert (Hpos : 0 <= r2).
  { destruct (Z.ltb_spec r2 0); [| assumption].
    destruct (Z.eqb_spec r2 (- ENOENT)); [contradiction | discriminate Efail]. }
  destruct (mi_state mi2) eqn:Hst; simpl.
  - split; [intros Hs; lia |].
    split; [intros Hn; contradiction Hn; reflexivity |].
    split; [intros r mi E Hr; injection E as E1 E2; subst; contradiction |].
    split; [intros r mi E _ _; injection E as <- <-; rewrite Hst; reflexivity |].
    intros r mi rt primary E _ He. injection E as <- <-. congruence.
  - intros [rt primary]. simpl. destruct (rt <? 0) eqn:Ert; simpl.
    all: split; [intros Hs; lia |].
    all: split; [intros _; exists r2, mi2; repeat split; assumption |].
    all: split; [intros r mi E Hr; injection E as E1 E2; subst; contradiction |].
    all: split; [intros r mi E _ Hn; injection E as <- <-; contradiction |].
    all: intros r mi rt' primary' E _ _ Et; injection E as <- <-; injection Et as <- <-.
    all: rewrite Ert; reflexivity.
  - split; [intros Hs; lia |].
    split; [intros Hn; contradiction Hn; reflexivity |].
    split; [intros r mi E Hr; injection E as E1 E2; subst; contradiction |].
    split; [intros r mi E _ _; injection E as <- <-; rewrite Hst; reflexivity |].
    intros r mi rt primary E _ He. injection E as <- <-. congruence.
Qed.

(** X12. [mirror_image_get_info] asks who owns the journal tag only for
    an image whose mirror record was read with success and is enabled,
    and reports the owner it is told. An image without a record is
    reported as disabled and not primary, with success; a record in
    another state is reported with its state and not primary; a buffer
    that is too small is refused with [-ERANGE] before any call. *)
Theorem mirror_image_get_info_reports {W} (H : Handler W) (w : W)
  (sizeof_info : Z) (ictx : ImageCtx) (info0 : mirror_image_info_t) (info_size : Z) :
  let tr := trace H (mirror_image_get_info sizeof_info ictx info0 info_size) w in
  let o := outcome H (mirror_image_get_info sizeof_info ictx info0 info_size) w in
  (info_size < sizeof_info -> o = Returned (- ERANGE, info0) /\ tr = []) /\
  (keep tag_owner_of tr <> [] ->
     exists r mi, records tr = [(r, mi)] /\ 0 <= r /\
                  mi_state mi = MIRROR_IMAGE_STATE_ENABLED) /\
  (forall r mi, records tr = [(r, mi)] -> r = - ENOENT ->
     o = Returned (0, mkMirrorImageInfo (global_image_id mi)
                        MIRROR_IMAGE_STATE_DISABLED false) /\
     keep tag_owner_of tr = []) /\
  (forall r mi, records tr = [(r, mi)] -> 0 <= r ->
     mi_state mi <> MIRROR_IMAGE_STATE_ENABLED ->
     o = Returned (0, mkMirrorImageInfo (global_image_id mi) (mi_state mi) false)) /\
  (forall r mi rt primary, records tr = [(r, mi)] -> 0 <= r ->
     mi_state mi = MIRROR_IMAGE_STATE_ENABLED ->
     keep tag_owner_of tr = [(rt, primary)] ->
     o = Returned (if rt <? 0 then rt else 0,
                   mkMirrorImageInfo (global_image_id mi)
                     MIRROR_IMAGE_STATE_ENABLED primary)).
Proof.
  exact (all_runs_sound _ _
           (mirror_image_get_info_runs sizeof_info ictx info0 info_size) W H w).
Qed.

Lemma mirror_image_get_info_reports_witness :
  outcome quiet (mirror_image_get_info 16 (journaled_image "a" "1")
                   (mkMirrorImageInfo "" MIRROR_IMAGE_STATE_DISABLING true) 16) tt
  = Returned (0, mkMirrorImageInfo "" MIRROR_IMAGE_STATE_DISABLED false) /\
  outcome mirrored_alone (mirror_image_get_info 16 (journaled_image "a" "1")
                   (mkMirrorImageInfo "" MIRROR_IMAGE_STATE_DISABLING false) 16) tt
  = Returned (0, mkMirrorImageInfo "g" MIRROR_IMAGE_STATE_ENABLED true) /\
  outcome quiet (mirror_image_get_info 16 (journaled_image "a" "1")
                   (mkMirrorImageInfo "" MIRROR_IMAGE_STATE_DISABLING true) 8) tt
  = Returned (- ERANGE, mkMirrorImageInfo "" MIRROR_IMAGE_STATE_DISABLING true).
Proof.
  split; [| split].
  - destruct (mirror_image_get_info_reports quiet tt 16 (journaled_image "a" "1")
                (mkMirrorImageInfo "" MIRROR_IMAGE_STATE_DISABLING true) 16)
      as (_ & _ & Habsent & _).
    apply (Habsent (- ENOENT) (mkMirrorImage "" MIRROR_IMAGE_STATE_DISABLING) eq_refl eq_refl).
  - destruct (mirror_image_get_info_reports mirrored_alone tt 16 (journaled_image "a" "1")
                (mkMirrorImageInfo "" MIRROR_IMAGE_STATE_DISABLING false) 16)
      as (_ & _ & _ & _ & Hen).
    apply (Hen 0 (mkMirrorImage "g" MIRROR_IMAGE_STATE_ENABLED) 0 true eq_refl
             ltac:(lia) eq_refl eq_refl).
  - destruct (mirror_image_get_info_reports quiet tt 16 (journaled_image "a" "1")
                (mkMirrorImageInfo "" MIRROR_IMAGE_STATE_DISABLING true) 8)
      as (Hsmall & _).
    apply Hsmall. lia.
Defined.

(** ** Pool mirror mode: the modes a change stores *)

Lemma mode_write_free_bind {A B} (m : Prog A) (f : A -> Prog B) :
  mode_write_free m -> (forall a, mode_write_free (f a)) -> mode_write_free (bind m f).
Proof.
  unfold mode_write_free. intros Hm Hf. apply all_runs_bind.
  eapply all_runs_mono; [| exact Hm].
  intros t1 [a | h] Ht; [| exact Ht].
  eapply all_runs_mono; [| exact (Hf a)].
  intros t2 o2 Ht2. unfold mode_writes in *. rewrite keep_app, Ht, Ht2. reflexivity.
Qed.

Lemma list_children_pools_mode_write_free parent_spec pools image_info :
  mode_write_free (list_children_pools parent_spec pools image_info).
Proof.
  unfold mode_write_free. revert image_info.
  induction pools as [| it pools IH]; intros image_info; simpl; [reflexivity |].
  crunch; try reflexivity; apply IH.
Qed.

Local Transparent list_children_info.

Lemma list_children_info_mode_write_free ictx parent_spec image_info :
  mode_write_free (list_children_info ictx parent_spec image_info).
Proof.
  unfold list_children_info, mode_write_free. simpl. intros [r ictx']. simpl.
  destruct (r <? 0); [reflexivity |].
  destruct (negb (test_features ictx' RBD_FEATURE_LAYERING)); [reflexivity |].
  simpl. intros [r' pools]. simpl.
  destruct (r' <? 0); [reflexivity |].
  apply (mode_write_free_bind (list_children_pools parent_spec pools [])).
  - apply list_children_pools_mode_write_free.
  - intros [r2 info]. reflexivity.
Qed.

Local Opaque list_children_info.

Lemma disable_check_ids_mode_write_free ioctx ids :
  mode_write_free (disable_check_ids ioctx ids).
Proof.
  unfold mode_write_free. induction ids as [| id_it ids IH]; simpl; [reflexivity |].
  crunch; try reflexivity. apply IH.
Qed.

Lemma disable_check_pools_mode_write_free image_info :
  mode_write_free (disable_check_pools image_info).
Proof.
  induction image_info as [| info image_info IH]; simpl; [reflexivity |].
  intros [r ioctx]. simpl. destruct (r <? 0); [reflexivity |].
  apply (mode_write_free_bind (disable_check_ids ioctx info.2)).
  - apply disable_check_ids_mode_write_free.
  - intros [r1 rb]. destruct rb; [reflexivity | exact IH].
Qed.

Local Transparent disable_check_snaps.

Lemma disable_check_snaps_mode_write_free ictx snap_info :
  mode_write_free (disable_check_snaps ictx snap_info).
Proof.
  revert ictx.
  induction snap_info as [| info snap_info IH]; intros ictx; simpl; [reflexivity |].
  apply mode_write_free_bind; [apply list_children_info_mode_write_free |].
  intros [[r image_info] ictx']. destruct (r <? 0); [reflexivity |].
  destruct (is_empty image_info); [apply IH |].
  apply mode_write_free_bind; [apply disable_check_pools_mode_write_free |].
  intros [r1 rb]. destruct rb; [reflexivity | apply IH].
Qed.

Local Opaque disable_check_snaps.
Local Transparent mirror_image_disable_guarded.

Lemma mirror_image_disable_guarded_mode_write_free ictx force :
  mode_write_free (mirror_image_disable_guarded ictx force).
Proof.
  unfold mirror_image_disable_guarded.
  apply mode_write_free_bind; [apply disable_check_snaps_mode_write_free |].
  intros [[r rb] i]. destruct rb; [reflexivity |].
  unfold mode_write_free. crunch; reflexivity.
Qed.

Local Opaque mirror_image_disable_guarded.

Lemma mirror_image_disable_mode_write_free ictx force :
  mode_write_free (mirror_image_disable ictx force).
Proof.
  unfold mirror_image_disable, mode_write_free. simpl. intros [r1 i1]. simpl.
  destruct (r1 <? 0); [reflexivity |]. simpl. intros [r2 mode]. simpl.
  destruct (r2 <? 0); [reflexivity |].
  destruct (negb (mode =? MIRROR_MODE_IMAGE)); [reflexivity |]. simpl.
  intros [r3 mi]. simpl.
  destruct (r3 =? - ENOENT); [reflexivity |].
  destruct (r3 =? - EOPNOTSUPP); [reflexivity |].
  destruct (r3 <? 0); [reflexivity |]. simpl.
  intros r4. destruct (r4 <? 0); [reflexivity |].
  apply (mode_write_free_bind (mirror_image_disable_guarded i1 force));
    [apply mirror_image_disable_guarded_mode_write_free |].
  intros [[r rb] i]. destruct rb; unfold mode_write_free; crunch; reflexivity.
Qed.

Lemma mirror_image_enable_mode_write_free ictx relax :
  mode_write_free (mirror_image_enable ictx relax).
Proof.
  unfold mirror_image_enable, mirror_image_enable_internal, mode_write_free.
  simpl. intros [r1 i1]. simpl. destruct (r1 <? 0); [reflexivity |].
  simpl. intros [r2 mode]. simpl. destruct (r2 <? 0); [reflexivity |].
  destruct (negb (mode =? MIRROR_MODE_IMAGE)); [reflexivity |].
  destruct (ic_parent i1) as [parent |]; crunch; reflexivity.
Qed.

Local Opaque mirror_image_enable mirror_image_disable.

Lemma list_images_v2_mode_write_free fuel io_ctx last_read images :
  mode_write_free (list_images_v2 fuel io_ctx last_read images).
Proof.
  unfold mode_write_free. revert last_read images.
  induction fuel as [| fuel IH]; intros last_read images; simpl; [reflexivity |].
  intros [r page]. simpl.
  destruct ((r <? 0) && negb (r =? - ENOENT)); [reflexivity |].
  destruct (r =? - ENOENT); [reflexivity |].
  destruct (Z.of_nat (length page) =? max_read); [apply IH | reflexivity].
Qed.

Lemma list_mirror_images_mode_write_free fuel io_ctx last_read ids :
  mode_write_free (list_mirror_images fuel io_ctx last_read ids).
Proof.
  unfold mode_write_free. revert last_read ids.
  induction fuel as [| fuel IH]; intros last_read ids; simpl; [reflexivity |].
  intros [r page]. simpl.
  destruct (r <? 0); [reflexivity |].
  destruct (Z.of_nat (length page) =? max_read); [apply IH | reflexivity].
Qed.

Lemma mirror_mode_enable_images_mode_write_free io_ctx images :
  mode_write_free (mirror_mode_enable_images io_ctx images).
Proof.
  induction images as [| img_pair images IH]; simpl; [reflexivity |].
  intros [r features]. simpl. destruct (r <? 0); [reflexivity |].
  destruct (negb (Z.land features RBD_FEATURE_JOURNALING =? 0)); [| exact IH].
  simpl. intros [r1 img_ctx]. simpl. destruct (r1 <? 0); [reflexivity |].
  apply (mode_write_free_bind (mirror_image_enable img_ctx true));
    [apply mirror_image_enable_mode_write_free |].
  intros r2. destruct (r2 <? 0); [reflexivity |]. simpl.
  intros r3. destruct (r3 <? 0); [reflexivity | exact IH].
Qed.

Lemma mirror_mode_disable_images_mode_write_free io_ctx current image_ids :
  mode_write_free (mirror_mode_disable_images io_ctx current image_ids).
Proof.
  induction image_ids as [| img_id image_ids IH]; simpl; [reflexivity |].
  destruct (current =? MIRROR_MODE_IMAGE); simpl.
  - intros [r mi]. simpl.
    destruct ((r <? 0) && negb (r =? - ENOENT)); [reflexivity |].
    destruct (mi_state mi); try exact IH. reflexivity.
  - intros [r1 img_ctx]. simpl. destruct (r1 <? 0); [reflexivity |].
    apply (mode_write_free_bind (mirror_image_disable img_ctx false));
      [apply mirror_image_disable_mode_write_free |].
    intros r2. destruct (r2 <? 0); [reflexivity |]. simpl.
    intros r3. destruct (r3 <? 0); [reflexivity | exact IH].
Qed.

Local Transparent mirror_mode_store mirror_mode_images mirror_mode_walk
  mirror_mode_transition.

Lemma mirror_mode_store_writes io_ctx next :
  all_runs (mirror_mode_store io_ctx next)
    (fun tr o => exists rw, mode_writes tr = [(next, rw)] /\
                   (rw < 0 -> o = Returned rw) /\ (0 <= rw -> o = Returned 0)).
Proof.
  unfold mirror_mode_store, mode_writes. simpl. intros rw.
  destruct (rw <? 0) eqn:E; simpl.
  - apply Z.ltb_lt in E. exists rw. split; [reflexivity |].
    split; [reflexivity | intros; lia].
  - apply Z.ltb_ge in E. intros r1. exists rw. split; [reflexivity |].
    split; [intros; lia | reflexivity].
Qed.

Local Opaque mirror_mode_store.

Lemma mirror_mode_images_writes fuel io_ctx current next :
  all_runs (mirror_mode_images fuel io_ctx current next)
    (fun tr o =>
       (next = MIRROR_MODE_IMAGE /\ mode_writes tr = [] /\ o = Returned 0) \/
       (next <> MIRROR_MODE_IMAGE /\
        ((mode_writes tr = [] /\ o <> Returned 0) \/
         exists rw, mode_writes tr = [(next, rw)] /\
           (rw < 0 -> o = Returned rw) /\ (0 <= rw -> o = Returned 0)))).
Proof.
  unfold mirror_mode_images.
  destruct (Z.eqb_spec next MIRROR_MODE_IMAGE) as [-> | Hn].
  { simpl. left. repeat split. }
  assert (Hstore : forall pre : list Event, mode_writes pre = [] ->
    all_runs (mirror_mode_store io_ctx next)
      (fun tr o =>
         (next = MIRROR_MODE_IMAGE /\ mode_writes (pre ++ tr) = [] /\ o = Returned 0) \/
         (next <> MIRROR_MODE_IMAGE /\
          ((mode_writes (pre ++ tr) = [] /\ o <> Returned 0) \/
           exists rw, mode_writes (pre ++ tr) = [(next, rw)] /\
             (rw < 0 -> o = Returned rw) /\ (0 <= rw -> o = Returned 0))))).
  { intros pre Hpre. eapply all_runs_mono; [| apply mirror_mode_store_writes].
    intros tr o (rw & Hw & Hneg & Hpos). right. split; [exact Hn |]. right.
    exists rw. unfold mode_writes in *. rewrite keep_app, Hpre, Hw.
    split; [reflexivity |]. split; assumption. }
  assert (Hfail : forall (pre : list Event) (r : Z), mode_writes pre = [] -> r < 0 ->
    (next = MIRROR_MODE_IMAGE /\ mode_writes pre = [] /\ Returned r = Returned 0) \/
    (next <> MIRROR_MODE_IMAGE /\
     ((mode_writes pre = [] /\ @Returned Z r <> Returned 0) \/
      exists rw, mode_writes pre = [(next, rw)] /\
        (rw < 0 -> Returned r = Returned rw) /\ (0 <= rw -> @Returned Z r = Returned 0)))).
  { intros pre r Hpre Hr. right. split; [exact Hn |]. left.
    split; [exact Hpre |]. intros E. injection E as ->. lia. }
  assert (Hhalt : forall (pre : list Event) (h : Halt), mode_writes pre = [] ->
    (next = MIRROR_MODE_IMAGE /\ mode_writes pre = [] /\ @Halted Z h = Returned 0) \/
    (next <> MIRROR_MODE_IMAGE /\
     ((mode_writes pre = [] /\ @Halted Z h <> Returned 0) \/
      exists rw, mode_writes pre = [(next, rw)] /\
        (rw < 0 -> Halted h = Returned rw) /\ (0 <= rw -> @Halted Z h = Returned 0)))).
  { intros pre h Hpre. right. split; [exact Hn |]. left.
    split; [exact Hpre | discriminate]. }
  destruct (next =? MIRROR_MODE_POOL).
  - apply all_runs_bind.
    eapply all_runs_mono; [| apply (list_images_v2_mode_write_free fuel io_ctx "" [])].
    intros t1 [[r images] | h] H1; [| apply Hhalt; exact H1].
    destruct (r <? 0) eqn:Er.
    { simpl. rewrite app_nil_r. apply Hfail; [exact H1 | apply Z.ltb_lt; exact Er]. }
    apply all_runs_bind.
    eapply all_runs_mono; [| apply (mirror_mode_enable_images_mode_write_free io_ctx images)].
    intros t2 [r2 | h] H2.
    2: { apply Hhalt. unfold mode_writes in *. rewrite keep_app, H1, H2. reflexivity. }
    assert (H12 : mode_writes (t1 ++ t2) = []).
    { unfold mode_writes in *. rewrite keep_app, H1, H2. reflexivity. }
    destruct (r2 <? 0) eqn:Er2.
    { simpl. rewrite app_nil_r. apply Hfail; [exact H12 | apply Z.ltb_lt; exact Er2]. }
    eapply all_runs_mono; [| apply (Hstore (t1 ++ t2) H12)].
    intros t3 o3 H3. cbv beta in H3. rewrite <- app_assoc in H3. exact H3.
  - destruct (next =? MIRROR_MODE_DISABLED).
    2: { eapply all_runs_mono; [| apply (Hstore [] eq_refl)].
         intros t3 o3 H3. exact H3. }
    apply all_runs_bind.
    eapply all_runs_mono; [| apply (list_mirror_images_mode_write_free fuel io_ctx "" [])].
    intros t1 [[r ids] | h] H1; [| apply Hhalt; exact H1].
    destruct (r <? 0) eqn:Er.
    { simpl. rewrite app_nil_r. apply Hfail; [exact H1 | apply Z.ltb_lt; exact Er]. }
    apply all_runs_bind.
    eapply all_runs_mono;
      [| apply (mirror_mode_disable_images_mode_write_free io_ctx current ids)].
    intros t2 [r2 | h] H2.
    2: { apply Hhalt. unfold mode_writes in *. rewrite keep_app, H1, H2. reflexivity. }
    assert (H12 : mode_writes (t1 ++ t2) = []).
    { unfold mode_writes in *. rewrite keep_app, H1, H2. reflexivity. }
    destruct (r2 <? 0) eqn:Er2.
    { simpl. rewrite app_nil_r. apply Hfail; [exact H12 | apply Z.ltb_lt; exact Er2]. }
    eapply all_runs_mono; [| apply (Hstore (t1 ++ t2) H12)].
    intros t3 o3 H3. cbv beta in H3. rewrite <- app_assoc in H3. exact H3.
Qed.

Local Opaque mirror_mode_images.

Lemma mode_change_after (current next : Z) (pre : list (Z * Z)) (tr suf : list Event)
  (o : Outcome Z) :
  (pre = [] /\ current = MIRROR_MODE_IMAGE \/
   exists r, pre = [(MIRROR_MODE_IMAGE, r)] /\ 0 <= r /\ current <> MIRROR_MODE_IMAGE) ->
  mode_writes tr = pre ++ mode_writes suf ->
  (next = MIRROR_MODE_IMAGE /\ mode_writes suf = [] /\ o = Returned 0) \/
  (next <> MIRROR_MODE_IMAGE /\
   ((mode_writes suf = [] /\ o <> Returned 0) \/
    exists rw, mode_writes suf = [(next, rw)] /\
      (rw < 0 -> o = Returned rw) /\ (0 <= rw -> o = Returned 0))) ->
  mode_change_post current next tr o.
Proof.
  intros Hpre Htr Hsuf. unfold mode_change_post, modes_stored. rewrite Htr.
  destruct Hpre as [[-> ->] | (r & -> & Hr & Hc)].
  - simpl.
    destruct Hsuf as [(-> & -> & ->) | (Hn & [[-> Ho] | (rw & -> & Hneg & Hpos)])].
    + simpl. split; [exists []; reflexivity |].
      split; [intros _; split; [reflexivity | constructor] | intros m rw []].
    + apply Z.eqb_neq in Hn. rewrite Hn. simpl.
      split; [exists [next]; reflexivity |].
      split; [intros E; contradiction | intros m rw []].
    + apply Z.eqb_neq in Hn. rewrite Hn. simpl.
      split; [exists []; reflexivity |].
      split.
      * intros E. split; [reflexivity |]. constructor; [| constructor]. simpl.
        destruct (Z_lt_le_dec rw 0) as [Hlt | Hle]; [| exact Hle].
        rewrite (Hneg Hlt) in E. injection E as ->. lia.
      * intros m rw' [E | []] Hlt. injection E as <- <-.
        split; [exact (Hneg Hlt) | reflexivity].
  - apply Z.eqb_neq in Hc. rewrite Hc. simpl.
    destruct Hsuf as [(-> & -> & ->) | (Hn & [[-> Ho] | (rw & -> & Hneg & Hpos)])].
    + simpl. split; [exists []; reflexivity |].
      split; [intros _; split; [reflexivity | constructor; [exact Hr | constructor]] |].
      intros m rw [E | []] Hlt. injection E as <- <-. lia.
    + apply Z.eqb_neq in Hn. rewrite Hn. simpl.
      split; [exists [next]; reflexivity |].
      split; [intros E; contradiction |].
      intros m rw [E | []] Hlt. injection E as <- <-. lia.
    + apply Z.eqb_neq in Hn. rewrite Hn. simpl.
      split; [exists []; reflexivity |].
      split.
      * intros E. split; [reflexivity |].
        constructor; [exact Hr |]. constructor; [| constructor]. simpl.
        destruct (Z_lt_le_dec rw 0) as [Hlt | Hle]; [| exact Hle].
        rewrite (Hneg Hlt) in E. injection E as ->. lia.
      * intros m rw' [E | [E | []]] Hlt; injection E as <- <-; [lia |].
        split; [exact (Hneg Hlt) | reflexivity].
Qed.

Lemma mirror_mode_walk_writes fuel io_ctx current next :
  all_runs (mirror_mode_walk fuel io_ctx current next)
    (mode_change_post current next).
Proof.
  unfold mirror_mode_walk.
  destruct (Z.eqb_spec current MIRROR_MODE_IMAGE) as [Hc | Hc]; simpl.
  - eapply all_runs_mono; [| apply mirror_mode_images_writes].
    intros tr o Hi. apply (mode_change_after current next [] tr tr o);
      [left; split; [reflexivity | exact Hc] | reflexivity | exact Hi].
  - intros r. destruct (r <? 0) eqn:Er; simpl.
    + apply Z.ltb_lt in Er. unfold mode_change_post, modes_stored, mode_writes. simpl.
      apply Z.eqb_neq in Hc. rewrite Hc. simpl.
      split; [eexists; reflexivity |].
      split; [intros E; injection E as ->; lia |].
      intros m rw [E | []] _. injection E as <- <-. split; reflexivity.
    + apply Z.ltb_ge in Er. intros r1.
      eapply all_runs_mono; [| apply mirror_mode_images_writes].
      intros tr o Hi.
      apply (mode_change_after current next [(MIRROR_MODE_IMAGE, r)] _ tr o);
        [right; exists r; repeat split; assumption | reflexivity | exact Hi].
Qed.

Local Opaque mirror_mode_walk.

Lemma mode_change_post_failed (current next : Z) (tr : list Event) (r : Z) :
  mode_writes tr = [] -> r < 0 -> mode_change_post current next tr (Returned r).
Proof.
  intros Hw Hr. unfold mode_change_post. rewrite Hw. simpl.
  split; [apply prefix_nil |].
  split; [intros E; injection E as ->; lia | intros m rw []].
Qed.

Lemma mirror_mode_transition_writes fuel io_ctx next :
  all_runs (mirror_mode_transition fuel io_ctx next)
    (fun tr o => forall r current, head (mode_reads tr) = Some (r, current) ->
       0 <= r -> current <> next -> mode_change_post current next tr o).
Proof.
  unfold mirror_mode_transition. simpl. intros [r current]. simpl.
  destruct (r <? 0) eqn:Er; simpl.
  { apply Z.ltb_lt in Er. intros r0 c0 E Hr0. injection E as <- <-. lia. }
  destruct (Z.eqb_spec current next) as [Hsame | Hdiff]; simpl.
  { intros r0 c0 E _ Hne. injection E as <- <-. contradiction. }
  destruct (current =? MIRROR_MODE_DISABLED); simpl.
  - intros uuid r'. destruct (r' <? 0) eqn:Er'; simpl.
    + intros r0 c0 E _ _. injection E as <- <-.
      apply mode_change_post_failed; [reflexivity | apply Z.ltb_lt; exact Er'].
    + eapply all_runs_mono; [| apply mirror_mode_walk_writes].
      intros tr o Hp r0 c0 E _ _. injection E as <- <-. exact Hp.
  - eapply all_runs_mono; [| apply mirror_mode_walk_writes].
    intros tr o Hp r0 c0 E _ _. injection E as <- <-. exact Hp.
Qed.

Lemma mirror_mode_transition_same fuel io_ctx next :
  all_runs (mirror_mode_transition fuel io_ctx next)
    (fun tr o => forall r current, head (mode_reads tr) = Some (r, current) ->
       (r < 0 -> o = Returned r /\ tr = [Ev (ClsMirrorModeGet io_ctx) (r, current)]) /\
       (0 <= r -> current = next ->
          o = Returned 0 /\ tr = [Ev (ClsMirrorModeGet io_ctx) (r, current)])).
Proof.
  unfold mirror_mode_transition. simpl. intros [r current]. simpl.
  destruct (r <? 0) eqn:Er; simpl.
  { apply Z.ltb_lt in Er. intros r0 c0 E. injection E as <- <-.
    split; [intros _; split; reflexivity | intros; lia]. }
  apply Z.ltb_ge in Er.
  destruct (Z.eqb_spec current next) as [Hsame | Hdiff]; simpl.
  { intros r0 c0 E. injection E as <- <-.
    split; [intros; lia | intros _ _; split; reflexivity]. }
  apply all_runs_any. intros tr o r0 c0 E. simpl in E. injection E as <- <-.
  split; [intros; lia | intros _ Hc; contradiction].
Qed.

Local Opaque mirror_mode_transition.

Lemma mirror_mode_set_writes fuel io_ctx mirror_mode :
  all_runs (mirror_mode_set fuel io_ctx mirror_mode)
    (fun tr o => forall r current, head (mode_reads tr) = Some (r, current) ->
       0 <= r -> current <> mirror_mode ->
       mode_change_post current mirror_mode tr o).
Proof.
  unfold mirror_mode_set.
  destruct ((mirror_mode =? RBD_MIRROR_MODE_DISABLED)
            || (mirror_mode =? RBD_MIRROR_MODE_IMAGE)
            || (mirror_mode =? RBD_MIRROR_MODE_POOL)); simpl.
  2: { intros r c E. discriminate E. }
  destruct (mirror_mode =? MIRROR_MODE_DISABLED); simpl.
  - intros [rp peers]. simpl.
    destruct ((rp <? 0) && negb (rp =? - ENOENT)); simpl.
    { intros r c E. discriminate E. }
    destruct (negb (is_empty peers)); simpl.
    { intros r c E. discriminate E. }
    eapply all_runs_mono; [| apply mirror_mode_transition_writes].
    intros tr o Hp r c E Hr Hc. unfold mode_reads in *. simpl in E.
    exact (Hp r c E Hr Hc).
  - eapply all_runs_mono; [| apply mirror_mode_transition_writes].
    intros tr o Hp. exact Hp.
Qed.

(** X13. A change of the mirror mode of a pool, once the current mode
    has been read and differs from the one asked for, stores the image
    mode first unless the pool is in it, and the mode asked for last
    unless it is the image mode, and nothing else. A call that returns 0
    has stored them all with success. A store that fails is the last and
    its error is returned; the modes stored before it are not undone, so
    a change that fails after its first store leaves the pool in image
    mode. *)
Theorem mirror_mode_set_stores_modes {W} (H : Handler W) (w : W)
  (fuel : nat) (io_ctx : IoCtx) (mirror_mode r current : Z) :
  let tr := trace H (mirror_mode_set fuel io_ctx mirror_mode) w in
  let o := outcome H (mirror_mode_set fuel io_ctx mirror_mode) w in
  head (mode_reads tr) = Some (r, current) -> 0 <= r -> current <> mirror_mode ->
  (map fst (mode_writes tr)) `prefix_of` (modes_stored current mirror_mode) /\
  (o = Returned 0 ->
     map fst (mode_writes tr) = modes_stored current mirror_mode /\
     Forall (fun w : Z * Z => 0 <= w.2) (mode_writes tr)) /\
  (forall m rw, In (m, rw) (mode_writes tr) -> rw < 0 ->
     o = Returned rw /\ last (mode_writes tr) = Some (m, rw)).
Proof.
  exact (all_runs_sound _ _ (mirror_mode_set_writes fuel io_ctx mirror_mode) W H w r current).
Qed.

Lemma mirror_mode_set_stores_modes_witness :
  map fst (mode_writes (trace quiet (mirror_mode_set 4 (mkIoCtx 1) RBD_MIRROR_MODE_POOL) tt))
  = [MIRROR_MODE_IMAGE; MIRROR_MODE_POOL] /\
  (map fst (mode_writes
              (trace enable_fails (mirror_mode_set 4 (mkIoCtx 1) RBD_MIRROR_MODE_POOL)
                 MIRROR_MODE_DISABLED)))
    `prefix_of` [MIRROR_MODE_IMAGE; MIRROR_MODE_POOL] /\
  (run enable_fails (mirror_mode_set 4 (mkIoCtx 1) RBD_MIRROR_MODE_POOL)
     MIRROR_MODE_DISABLED).1
  = (Returned (- EIO), MIRROR_MODE_IMAGE).
Proof.
  destruct (mirror_mode_set_stores_modes quiet tt 4 (mkIoCtx 1) RBD_MIRROR_MODE_POOL
              0 MIRROR_MODE_DISABLED eq_refl ltac:(lia) ltac:(discriminate))
    as (_ & Hok & _).
  destruct (mirror_mode_set_stores_modes enable_fails MIRROR_MODE_DISABLED 4 (mkIoCtx 1)
              RBD_MIRROR_MODE_POOL
              0 MIRROR_MODE_DISABLED eq_refl ltac:(lia) ltac:(discriminate))
    as (Hpre & _).
  split; [apply (Hok eq_refl) |].
  split; [exact Hpre | reflexivity].
Defined.

Lemma mirror_mode_set_guards_runs fuel io_ctx mirror_mode :
  all_runs (mirror_mode_set fuel io_ctx mirror_mode)
    (fun tr o =>
       (mirror_mode <> RBD_MIRROR_MODE_DISABLED -> mirror_mode <> RBD_MIRROR_MODE_IMAGE ->
        mirror_mode <> RBD_MIRROR_MODE_POOL -> tr = [] /\ o = Returned (- EINVAL)) /\
       (mirror_mode = RBD_MIRROR_MODE_DISABLED ->
        exists rp peers tr', tr = Ev (ClsMirrorPeerList io_ctx) (rp, peers) :: tr' /\
          (rp < 0 -> rp <> - ENOENT -> tr' = [] /\ o = Returned rp) /\
          ((0 <= rp \/ rp = - ENOENT) -> peers <> [] ->
             tr' = [] /\ o = Returned (- EBUSY))) /\
       (forall r current, head (mode_reads tr) = Some (r, current) ->
          (r < 0 -> o = Returned r /\ mode_writes tr = []) /\
          (0 <= r -> current = mirror_mode -> o = Returned 0 /\ mode_writes tr = []))).
Proof.
  unfold mirror_mode_set.
  destruct (Z.eqb_spec mirror_mode RBD_MIRROR_MODE_DISABLED) as [Hd | Hd]; simpl.
  - subst mirror_mode. simpl. intros [rp peers]. simpl.
    destruct (rp <? 0) eqn:Erp; simpl;
      [destruct (Z.eqb_spec rp (- ENOENT)) as [Hen | Hen]; simpl |];
      zbool.
    2: { split; [intros; congruence |]. split; [| intros r c E; discriminate E].
         intros _. exists rp, peers, []. split; [reflexivity |].
         split; [intros; split; reflexivity | intros [? | ?] ?; [lia | contradiction]]. }
    all: destruct peers as [| p peers]; simpl.
    all: try (split; [intros; congruence |];
              split; [| intros r c E; discriminate E];
              intros _; eexists _, _, []; split; [reflexivity |];
              split; [intros; first [lia | contradiction]
                     | intros; split; reflexivity]).
    all: eapply all_runs_mono; [| apply mirror_mode_transition_same].
    all: intros tr o Hp; split; [intros; congruence |]; split;
      [ intros _; eexists _, _, tr; split; [reflexivity |];
        split; [intros; first [lia | contradiction] | intros ? Hne; contradiction]
      | intros r c E; unfold mode_reads in E; simpl in E;
        destruct (Hp r c E) as [Hneg Hsame];
        split; [intros Hr; destruct (Hneg Hr) as [-> ->]; split; reflexivity
               | intros Hr Hc; destruct (Hsame Hr Hc) as [-> ->]; split; reflexivity] ].
  - destruct (Z.eqb_spec mirror_mode RBD_MIRROR_MODE_IMAGE) as [Hi | Hi]; simpl;
      [| destruct (Z.eqb_spec mirror_mode RBD_MIRROR_MODE_POOL) as [Hp | Hp]; simpl].
    3: { split; [intros; split; reflexivity |].
         split; [intros; contradiction | intros r c E; discriminate E]. }
    all: destruct (Z.eqb_spec mirror_mode MIRROR_MODE_DISABLED) as [Hd' | _];
      [exfalso; apply Hd; exact Hd' |].
    all: eapply all_runs_mono; [| apply mirror_mode_transition_same].
    all: intros tr o Hq; split; [intros; contradiction |]; split;
      [ intros; contradiction
      | intros r c E; destruct (Hq r c E) as [Hneg Hsame];
        split; [intros Hr; destruct (Hneg Hr) as [-> ->]; split; reflexivity
               | intros Hr Hc; destruct (Hsame Hr Hc) as [-> ->]; split; reflexivity] ].
Qed.

(** X14. The guards of a change of mirror mode. A mode that is none of
    disabled, image and pool is refused with [-EINVAL] before anything is
    called. Disabling lists the peers of the pool first: an error of the
    listing other than [-ENOENT] is returned, and a pool that still has a
    peer gives [-EBUSY], in both cases with nothing else called. When the
    current mode cannot be read its error is returned, and when it is
    the mode asked for already the call returns 0; neither stores a
    mode. *)
Theorem mirror_mode_set_guards {W} (H : Handler W) (w : W)
  (fuel : nat) (io_ctx : IoCtx) (mirror_mode : Z) :
  let tr := trace H (mirror_mode_set fuel io_ctx mirror_mode) w in
  let o := outcome H (mirror_mode_set fuel io_ctx mirror_mode) w in
  (mirror_mode <> RBD_MIRROR_MODE_DISABLED -> mirror_mode <> RBD_MIRROR_MODE_IMAGE ->
   mirror_mode <> RBD_MIRROR_MODE_POOL -> tr = [] /\ o = Returned (- EINVAL)) /\
  (mirror_mode = RBD_MIRROR_MODE_DISABLED ->
   exists rp peers, head (peer_lists tr) = Some (rp, peers) /\
     (rp < 0 -> rp <> - ENOENT -> length tr = 1%nat /\ o = Returned rp) /\
     ((0 <= rp \/ rp = - ENOENT) -> peers <> [] ->
        length tr = 1%nat /\ o = Returned (- EBUSY))) /\
  (forall r current, head (mode_reads tr) = Some (r, current) ->
     (r < 0 -> o = Returned r /\ mode_writes tr = []) /\
     (0 <= r -> current = mirror_mode -> o = Returned 0 /\ mode_writes tr = [])).
Proof.
  intros tr o.
  destruct (all_runs_sound _ _ (mirror_mode_set_guards_runs fuel io_ctx mirror_mode) W H w)
    as (Hinv & Hdis & Hread).
  fold tr in Hinv, Hdis, Hread. fold o in Hinv, Hdis, Hread.
  split; [exact Hinv |]. split; [| exact Hread].
  intros Hm. destruct (Hdis Hm) as (rp & peers & tr' & E & Herr & Hbusy).
  exists rp, peers. rewrite E. split; [reflexivity |].
  split.
  - intros H1 H2. destruct (Herr H1 H2) as [-> ->]. split; reflexivity.
  - intros H1 H2. destruct (Hbusy H1 H2) as [-> ->]. split; reflexivity.
Qed.

Lemma mirror_mode_set_guards_witness :
  (trace quiet (mirror_mode_set 4 (mkIoCtx 1) 7) tt = [] /\
   outcome quiet (mirror_mode_set 4 (mkIoCtx 1) 7) tt = Returned (- EINVAL)) /\
  (length (trace peers_registered (mirror_mode_set 4 (mkIoCtx 1) RBD_MIRROR_MODE_DISABLED) tt)
   = 1%nat /\
   outcome peers_registered (mirror_mode_set 4 (mkIoCtx 1) RBD_MIRROR_MODE_DISABLED) tt
   = Returned (- EBUSY)) /\
  (outcome peers_registered (mirror_mode_set 4 (mkIoCtx 1) RBD_MIRROR_MODE_IMAGE) tt
   = Returned 0 /\
   mode_writes (trace peers_registered (mirror_mode_set 4 (mkIoCtx 1) RBD_MIRROR_MODE_IMAGE) tt)
   = []).
Proof.
  split; [| split].
  - destruct (mirror_mode_set_guards quiet tt 4 (mkIoCtx 1) 7) as (Hinv & _).
    apply Hinv; discriminate.
  - destruct (mirror_mode_set_guards peers_registered tt 4 (mkIoCtx 1)
                RBD_MIRROR_MODE_DISABLED) as (_ & Hdis & _).
    destruct (Hdis eq_refl) as (rp & peers & E & _ & Hbusy).
    vm_compute in E. injection E as <- <-.
    apply Hbusy; [left; lia | discriminate].
  - destruct (mirror_mode_set_guards peers_registered tt 4 (mkIoCtx 1)
                RBD_MIRROR_MODE_IMAGE) as (_ & _ & Hread).
    destruct (Hread 0 MIRROR_MODE_IMAGE eq_refl) as (_ & Hsame).
    apply Hsame; [lia | reflexivity].
Defined.

(** ** The flags of a snapshot removal *)

Local Transparent snap_is_protected snap_remove_unprotect snap_remove_prepare.

Lemma snap_remove_unprotect_unflagged ictx snap_name flags :
  Z.land flags RBD_SNAP_REMOVE_UNPROTECT = 0 ->
  all_runs (snap_remove_unprotect ictx snap_name flags)
    (fun tr o => unprotect_results tr = [] /\ o <> Halted HAbort).
Proof.
  intros Hf. unfold snap_remove_unprotect, snap_remove_op, snap_is_protected,
    unprotect_results.
  rewrite Hf. simpl. crunch.
  all: try match goal with
           | Hb : _ && false = true |- _ => rewrite andb_false_r in Hb; discriminate Hb
           | Hb : false = true |- _ => discriminate Hb
           end.
  all: split; [reflexivity | discriminate].
Qed.

Lemma snap_remove_unflagged ictx snap_name flags :
  Z.land flags RBD_SNAP_REMOVE_UNPROTECT = 0 ->
  all_runs (snap_remove ictx snap_name flags)
    (fun tr o => unprotect_results tr = [] /\ o <> Halted HAbort).
Proof.
  intros Hf. unfold snap_remove. apply all_runs_bind.
  eapply all_runs_mono; [| apply snap_remove_prepare_untouched].
  intros t1 [[r ictx'] | h] [Ht Ho].
  - destruct (untouched_results t1 Ht) as [Hu1 _].
    destruct (r <? 0).
    + simpl. rewrite ?app_nil_r. split; [exact Hu1 | discriminate].
    + eapply all_runs_mono; [| apply (snap_remove_unprotect_unflagged _ _ _ Hf)].
      intros t2 o2 [Hu2 Ho2]. unfold unprotect_results in *.
      rewrite keep_app, Hu1, Hu2. split; [reflexivity | exact Ho2].
  - rewrite ?app_nil_r. split; [apply (untouched_results t1 Ht) |].
    intros E. apply Ho. injection E as ->. reflexivity.
Qed.

Lemma snap_remove_unprotect_removes ictx snap_name flags :
  all_runs (snap_remove_unprotect ictx snap_name flags)
    (fun tr o => (length (remove_results tr) <= 1)%nat /\
       forall v, return_value o = Some v -> 0 <= v -> remove_results tr = [v]).
Proof.
  unfold snap_remove_unprotect, snap_remove_op, snap_is_protected, remove_results.
  crunch.
  all: zbool.
  all: split; [simpl; lia |].
  all: intros v E Hv; simpl in E; try discriminate E; injection E as <-.
  all: try reflexivity. all: try lia.
  all: exfalso; revert Hv; unfold ENOENT; lia.
Qed.

Lemma snap_remove_removes ictx snap_name flags :
  all_runs (snap_remove ictx snap_name flags)
    (fun tr o => (length (remove_results tr) <= 1)%nat /\
       forall v, return_value o = Some v -> 0 <= v -> remove_results tr = [v]).
Proof.
  unfold snap_remove. apply all_runs_bind.
  eapply all_runs_mono; [| apply snap_remove_prepare_untouched].
  intros t1 [[r ictx'] | h] [Ht Ho].
  - destruct (untouched_results t1 Ht) as [_ Hr1].
    destruct (r <? 0) eqn:Er.
    + simpl. rewrite ?app_nil_r, Hr1. split; [simpl; lia |].
      intros v E Hv. injection E as <-. apply Z.ltb_lt in Er. lia.
    + eapply all_runs_mono; [| apply snap_remove_unprotect_removes].
      intros t2 o2 [Hl Hv]. unfold remove_results in *.
      rewrite keep_app, Hr1. simpl. split; [exact Hl | exact Hv].
  - rewrite ?app_nil_r. destruct (untouched_results t1 Ht) as [_ ->].
    split; [simpl; lia | intros v E; discriminate E].
Qed.

Lemma snap_remove_no_flatten ictx snap_name flags :
  Z.land flags RBD_SNAP_REMOVE_FLATTEN = 0 ->
  all_runs (snap_remove ictx snap_name flags)
    (fun tr o => existsb touches_children tr = false /\ o <> Halted HAssert).
Proof.
  intros Hf. unfold snap_remove, snap_remove_prepare, get_snap_namespace,
    snap_remove_unprotect, snap_remove_op, snap_is_protected.
  rewrite Hf. simpl. crunch.
  all: split; [reflexivity | discriminate].
Qed.

(** X15. The flags of [snap_remove]. Without the unprotect flag no
    unprotect is requested and the call does not abort; without the
    flatten flag no pool is listed and no child is opened, flattened,
    unlinked or closed, and no assertion can fail. Whatever the flags,
    the removal is requested at most once, and a value that is not
    negative is returned only as the result of that request. *)
Theorem snap_remove_flags {W} (H : Handler W) (w : W)
  (ictx : ImageCtx) (snap_name : string) (flags : Z) :
  let tr := trace H (snap_remove ictx snap_name flags) w in
  let o := outcome H (snap_remove ictx snap_name flags) w in
  (Z.land flags RBD_SNAP_REMOVE_UNPROTECT = 0 ->
     unprotect_results tr = [] /\ o <> Halted HAbort) /\
  (Z.land flags RBD_SNAP_REMOVE_FLATTEN = 0 ->
     existsb touches_children tr = false /\ o <> Halted HAssert) /\
  (length (remove_results tr) <= 1)%nat /\
  (forall v, return_value o = Some v -> 0 <= v -> remove_results tr = [v]).
Proof.
  intros tr o. split; [| split].
  - intros Hf. exact (all_runs_sound _ _ (snap_remove_unflagged ictx snap_name flags Hf) W H w).
  - intros Hf. exact (all_runs_sound _ _ (snap_remove_no_flatten ictx snap_name flags Hf) W H w).
  - exact (all_runs_sound _ _ (snap_remove_removes ictx snap_name flags) W H w).
Qed.

Lemma snap_remove_flags_witness :
  unprotect_results
    (trace quiet (snap_remove (snap_image "img" "1" 8 Protected CEPH_NOSNAP) "s1" 0) tt) = [] /\
  existsb touches_children
    (trace quiet (snap_remove (snap_image "img" "1" 8 Protected CEPH_NOSNAP) "s1" 0) tt)
  = false /\
  remove_results
    (trace quiet (snap_remove (snap_image "img" "1" 8 Protected CEPH_NOSNAP) "s1" 0) tt) = [0].
Proof.
  destruct (snap_remove_flags quiet tt (snap_image "img" "1" 8 Protected CEPH_NOSNAP) "s1" 0)
    as (Hu & Hf & _ & Hr).
  split; [apply (Hu eq_refl) |]. split; [apply (Hf eq_refl) |].
  apply Hr; [reflexivity | lia].
Defined.

Local Opaque snap_is_protected snap_remove_unprotect snap_remove_prepare.

(** ** Flattening the children of a snapshot *)

Lemma one_at_a_time_nil : one_at_a_time [].
Proof. exists 0%nat. reflexivity. Qed.


Lemma one_at_a_time_pair (l : list bool) :
  one_at_a_time l -> one_at_a_time (true :: false :: l).
Proof. intros [n ->]. exists (S n). reflexivity. Qed.


Local Transparent list_children_info.



Local Opaque list_children_info.








(** ** The search for the children of a snapshot *)

Lemma map_insert_keys {V} (k k0 : Z * string) (v : V) (m : list ((Z * string) * V)) :
  In k (map fst (map_insert pool_key_ltb pool_key_eqb k0 v m)) ->
  k = k0 \/ In k (map fst m).
Proof.
  induction m as [| [k' v'] m IH]; simpl.
  - intros [<- | []]. left. reflexivity.
  - destruct (pool_key_eqb k0 k'); [intros Hin; right; exact Hin |].
    destruct (pool_key_ltb k0 k'); simpl.
    + intros [<- | Hin]; [left; reflexivity | right; exact Hin].
    + intros [<- | Hin]; [right; left; reflexivity |].
      destruct (IH Hin) as [-> | Hin']; [left; reflexivity | right; right; exact Hin'].
Qed.

Lemma children_search_skip pools image_info it r base tr o :
  own_tier (it.1, (r, base)) = false ->
  children_search_post pools image_info tr o ->
  children_search_post (it :: pools) image_info
    (Ev (PoolGetBaseTier it.1) (r, base) :: tr) o.
Proof.
  intros Hown (Ha & Hp & Hi). unfold children_search_post, accessed, tier_checks in *.
  cbn [keep tier_check_of accessed_of filter map fst]. 
  rewrite filter_cons_False by (rewrite Hown; discriminate).
  split; [exact Ha |]. split; [apply prefix_cons; exact Hp | exact Hi].
Qed.

Lemma children_search_stop pools image_info tr r :
  accessed tr = map fst (filter (fun c => own_tier c = true) (tier_checks tr)) ->
  (map fst (tier_checks tr)) `prefix_of` (map fst pools) ->
  children_search_post pools image_info tr (Returned (r, image_info)).
Proof.
  intros Ha Hp. split; [exact Ha |]. split; [exact Hp |].
  intros r' info E. injection E as <- <-.
  apply Forall_forall. intros e He. right. apply in_map, list_elem_of_In. exact He.
Qed.

Lemma list_children_pools_search parent_spec pools image_info :
  all_runs (list_children_pools parent_spec pools image_info)
    (children_search_post pools image_info).
Proof.
  revert image_info. induction pools as [| it pools IH]; intros image_info; simpl.
  - apply children_search_stop; reflexivity.
  - intros [r base]. simpl.
    destruct (Z.eqb_spec r (- ENOENT)) as [Hen | Hen].
    { eapply all_runs_mono; [| apply IH]. intros tr o. apply children_search_skip.
      unfold own_tier. simpl. subst r. reflexivity. }
    destruct (r <? 0) eqn:Er; simpl.
    { apply children_search_stop.
      - unfold accessed, tier_checks. simpl.
        rewrite filter_cons_False; [reflexivity |].
        unfold own_tier. simpl. apply Z.ltb_lt in Er.
        destruct (0 <=? r) eqn:E0; [apply Z.leb_le in E0; lia | simpl; discriminate].
      - unfold tier_checks. simpl. apply prefix_cons, prefix_nil. }
    apply Z.ltb_ge in Er.
    destruct (Z.eqb_spec it.1 base) as [Hb | Hb]; simpl.
    2: { eapply all_runs_mono; [| apply IH]. intros tr o. apply children_search_skip.
         unfold own_tier. simpl. destruct (Z.eqb_spec it.1 base); [contradiction |].
         apply andb_false_r. }
    assert (Hown : own_tier (it.1, (r, base)) = true).
    { unfold own_tier. simpl. apply andb_true_iff.
      split; [apply Z.leb_le; exact Er | apply Z.eqb_eq; exact Hb]. }
    intros [r1 ioctx]. simpl.
    assert (Hstep : forall (tr : list Event) o image_info',
      (forall k, In k (map fst image_info') -> k = it \/ In k (map fst image_info)) ->
      children_search_post pools image_info' tr o ->
      children_search_post (it :: pools) image_info
        (Ev (PoolGetBaseTier it.1) (r, base) :: Ev (IoctxCreate2 it.1) (r1, ioctx) :: tr) o).
    { intros tr o image_info' Hk (Ha & Hp & Hi).
      unfold children_search_post, accessed, tier_checks in *.
      cbn [keep tier_check_of accessed_of filter map fst].
      rewrite filter_cons_True by exact Hown. cbn [map fst].
      split; [f_equal; exact Ha |]. split; [apply prefix_cons; exact Hp |].
      intros r' info E. eapply Forall_impl; [exact (Hi r' info E) |].
      intros e [Hin | Hin]; [left; right; exact Hin |].
      destruct (Hk _ Hin) as [-> | Hin']; [left; left; reflexivity | right; exact Hin']. }
    destruct (Z.eqb_spec r1 (- ENOENT)) as [Hen1 | Hen1].
    { eapply all_runs_mono; [| apply IH]. intros tr o. apply Hstep.
      intros k Hk. right. exact Hk. }
    destruct (r1 <? 0) eqn:Er1; simpl.
    { apply (Hstep [] _ image_info); [intros k Hk; right; exact Hk |].
      apply children_search_stop; [reflexivity | apply prefix_nil]. }
    intros [r2 image_ids]. simpl.
    assert (Hstep' : forall (tr : list Event) o image_info',
      (forall k, In k (map fst image_info') -> k = it \/ In k (map fst image_info)) ->
      children_search_post pools image_info' tr o ->
      children_search_post (it :: pools) image_info
        (Ev (PoolGetBaseTier it.1) (r, base) :: Ev (IoctxCreate2 it.1) (r1, ioctx)
           :: Ev (ClsGetChildren ioctx parent_spec) (r2, image_ids) :: tr) o).
    { intros tr o image_info' Hk Hpost.
      pose proof (Hstep tr o image_info' Hk Hpost) as (Ha & Hp & Hi).
      split; [exact Ha |]. split; [exact Hp | exact Hi]. }
    destruct ((r2 <? 0) && negb (r2 =? - ENOENT)); simpl.
    { apply (Hstep' [] _ image_info); [intros k Hk; right; exact Hk |].
      apply children_search_stop; [reflexivity | apply prefix_nil]. }
    eapply all_runs_mono; [| apply IH]. intros tr o. apply Hstep'.
    intros k Hk. apply (map_insert_keys k it image_ids image_info Hk).
Qed.

Local Transparent list_children_info.

Lemma list_children_info_search ictx parent_spec image_info :
  all_runs (list_children_info ictx parent_spec image_info)
    (fun tr o =>
       accessed tr = map fst (filter (fun c => own_tier c = true) (tier_checks tr)) /\
       (forall a, head (keep refresh_if_required_of tr) = Some a -> 0 <= a.1 ->
          test_features a.2 RBD_FEATURE_LAYERING = false ->
          o = Returned (0, image_info, a.2) /\ length tr = 1%nat) /\
       (forall r info i', o = Returned (r, info, i') -> 0 <= r ->
          test_features i' RBD_FEATURE_LAYERING = true ->
          Forall (fun e : (Z * string) * list string => In e.1.1 (accessed tr)) info)).
Proof.
  unfold list_children_info. simpl. intros [r ictx']. simpl.
  destruct (r <? 0) eqn:Er; simpl.
  { apply Z.ltb_lt in Er. split; [reflexivity |]. split.
    - intros a E Ha. injection E as <-. simpl in Ha. lia.
    - intros r' info i' E Hr'. injection E as <- <- <-. lia. }
  destruct (test_features ictx' RBD_FEATURE_LAYERING) eqn:Ef; simpl.
  2: { split; [reflexivity |]. split.
       - intros a E _ _. injection E as <-. split; reflexivity.
       - intros r' info i' E _ Hl. injection E as <- <- <-. congruence. }
  intros [rp pools]. simpl.
  destruct (rp <? 0) eqn:Erp; simpl.
  { split; [reflexivity |]. split.
    - intros a E _ Hl. injection E as <-. simpl in Hl. congruence.
    - intros r' info i' E _ _. injection E as <- <- <-. constructor. }
  apply (all_runs_bind (list_children_pools parent_spec pools [])).
  eapply all_runs_mono; [| apply list_children_pools_search].
  intros t1 [[r2 info] | h] (Ha & Hp & Hi); simpl.
  - rewrite app_nil_r. split; [exact Ha |]. split.
    + intros a E _ Hl. injection E as <-. simpl in Hl. congruence.
    + intros r' info' i' E _ _. injection E as <- <- <-.
      eapply Forall_impl; [exact (Hi r2 info eq_refl) |].
      intros e [Hin | []]. exact Hin.
  - split; [exact Ha |]. split.
    + intros a E _ Hl. injection E as <-. simpl in Hl. congruence.
    + intros r' info' i' E. discriminate E.
Qed.

Local Opaque list_children_info.

(** X17. The search for the children of a snapshot asks for the I/O
    context of exactly the pools whose base tier was read with success
    and is the pool itself: a pool that has vanished and a cache tier are
    passed over. For an image without layering the search returns 0 after
    the refresh alone and leaves the children info as it was given. For a
    layered image a search that succeeds reports children only under
    pools it has accessed. *)
Theorem list_children_info_skips_caches {W} (H : Handler W) (w : W)
  (ictx : ImageCtx) (parent_spec : parent_spec) (image_info : children_info) :
  let tr := trace H (list_children_info ictx parent_spec image_info) w in
  let o := outcome H (list_children_info ictx parent_spec image_info) w in
  accessed tr = map fst (filter (fun c => own_tier c = true) (tier_checks tr)) /\
  (forall a, head (keep refresh_if_required_of tr) = Some a -> 0 <= a.1 ->
     test_features a.2 RBD_FEATURE_LAYERING = false ->
     o = Returned (0, image_info, a.2) /\ length tr = 1%nat) /\
  (forall r info i', o = Returned (r, info, i') -> 0 <= r ->
     test_features i' RBD_FEATURE_LAYERING = true ->
     Forall (fun e : (Z * string) * list string => In e.1.1 (accessed tr)) info).
Proof.
  exact (all_runs_sound _ _ (list_children_info_search ictx parent_spec image_info) W H w).
Qed.

Lemma list_children_info_skips_caches_witness :
  tier_checks
    (trace cache_tier
       (list_children_info (snap_image "img" "1" 8 Protected CEPH_NOSNAP)
          (mkParentSpec 1 "1" 4) []) tt)
  = [(1, (0, 1)); (3, (0, 2)); (5, (- ENOENT, 0))] /\
  accessed
    (trace cache_tier
       (list_children_info (snap_image "img" "1" 8 Protected CEPH_NOSNAP)
          (mkParentSpec 1 "1" 4) []) tt)
  = [1] /\
  Forall (fun e : (Z * string) * list string =>
            In e.1.1
              (accessed
                 (trace cache_tier
                    (list_children_info (snap_image "img" "1" 8 Protected CEPH_NOSNAP)
                       (mkParentSpec 1 "1" 4) []) tt)))
    [((1, "rbd"%string), ["c1"%string])] /\
  outcome quiet
    (list_children_info (unlayered_image "img" "1" 8) (mkParentSpec 1 "1" 4)
       [((9, "old"%string), ["x"%string])]) tt
  = Returned (0, [((9, "old"%string), ["x"%string])], unlayered_image "img" "1" 8).
Proof.
  destruct (list_children_info_skips_caches cache_tier tt
              (snap_image "img" "1" 8 Protected CEPH_NOSNAP) (mkParentSpec 1 "1" 4) [])
    as (Ha & _ & Hi).
  destruct (list_children_info_skips_caches quiet tt
              (unlayered_image "img" "1" 8) (mkParentSpec 1 "1" 4)
              [((9, "old"%string), ["x"%string])])
    as (_ & Hn & _).
  split; [vm_compute; reflexivity |].
  split; [rewrite Ha; vm_compute; reflexivity |].
  split.
  - eapply Hi; [vm_compute; reflexivity | lia | vm_compute; reflexivity].
  - eapply proj1. apply (Hn (0, unlayered_image "img" "1" 8));
      [reflexivity | simpl; lia | reflexivity].
Defined.

(** ** The listing of a directory *)

Lemma map_insert_string_keys {V} (k k0 : string) (v : V) (m : list (string * V)) :
  In k (map fst (map_insert String.ltb String.eqb k0 v m)) <->
  k = k0 \/ In k (map fst m).
Proof.
  induction m as [| [k' v'] m IH]; simpl.
  - split; [intros [<- | []]; left; reflexivity | intros [-> | []]; left; reflexivity].
  - destruct (String.eqb_spec k0 k') as [<- | Hne]; simpl.
    + split; [intros Hin; right; exact Hin | intros [-> | Hin]; [left; reflexivity | exact Hin]].
    + destruct (String.ltb k0 k'); simpl; [split; intros Hin; intuition congruence |].
      rewrite IH. split; intros Hin; intuition congruence.
Qed.

Lemma insert_all_keys (page images : list (string * string)) (k : string) :
  In k (map fst (insert_all page images)) <->
  In k (map fst page) \/ In k (map fst images).
Proof.
  revert images. induction page as [| [k0 v0] page IH]; intros images; simpl.
  - split; [intros Hin; right; exact Hin | intros [[] | Hin]; exact Hin].
  - rewrite IH, map_insert_string_keys. split; intros Hin; intuition congruence.
Qed.

Lemma list_images_v2_pages fuel io_ctx last_read images :
  all_runs (list_images_v2 fuel io_ctx last_read images)
    (fun tr o =>
       paged last_read (dir_pages tr) /\
       (forall r imgs, o = Returned (r, imgs) ->
          r <= 0 /\ r <> - ENOENT /\
          pages_kept (map fst images) (dir_pages tr) (map fst imgs) /\
          exists p, last (dir_pages tr) = Some p /\
            (r < 0 -> p.2.1 = r) /\
            (r = 0 -> p.2.1 = - ENOENT \/
                      (0 <= p.2.1 /\ Z.of_nat (length p.2.2) <> max_read))) /\
       (forall h, o = Halted h -> length (dir_pages tr) = fuel)).
Proof.
  revert last_read images. induction fuel as [| fuel IH]; intros last_read images; simpl.
  - split; [exact I |]. split; [intros r imgs E; discriminate E | reflexivity].
  - intros [r page]. simpl.
    destruct (r <? 0) eqn:Er; simpl;
      [destruct (Z.eqb_spec r (- ENOENT)) as [Hen | Hen]; simpl |].
    + (* the directory does not exist *)
      split; [split; [reflexivity | split; [intros Hne; contradiction | exact I]] |].
      split; [| intros h E; discriminate E].
      intros r' imgs E. injection E as <- <-.
      split; [lia |]. split; [unfold ENOENT; lia |]. split.
      * split; [intros k Hk; exact Hk |].
        intros p kv [<- | []] Hp. simpl in Hp. apply Z.ltb_lt in Er. lia.
      * eexists. split; [reflexivity |]. simpl.
        split; [intros; lia | intros _; left; exact Hen].
    + (* the read fails *)
      apply Z.ltb_lt in Er.
      split; [split; [reflexivity | split; [intros Hne; contradiction | exact I]] |].
      split; [| intros h E; discriminate E].
      intros r' imgs E. injection E as <- <-.
      split; [lia |]. split; [exact Hen |]. split.
      * split; [intros k Hk; exact Hk |].
        intros p kv [<- | []] Hp. simpl in Hp. lia.
      * eexists. split; [reflexivity |]. simpl.
        split; [intros; reflexivity | intros; lia].
    + apply Z.ltb_ge in Er.
      destruct (Z.eqb_spec r (- ENOENT)) as [Hen | Hen];
        [exfalso; revert Er; rewrite Hen; unfold ENOENT; lia |].
      destruct (Z.eqb_spec (Z.of_nat (length page)) max_read) as [Hfull | Hshort].
      * eapply all_runs_mono; [| apply IH].
        intros tr o (Hp & Hret & Hhalt). unfold dir_pages in *.
        cbn [keep dir_page_of].
        split; [split; [reflexivity |]; split; [intros _; split; assumption | exact Hp] |].
        split; [| intros h E; simpl; f_equal; exact (Hhalt h E)].
        intros r' imgs E. destruct (Hret r' imgs E) as (Hle & Hne & [Hk0 Hkp] & p & Hl & Hlast).
        split; [exact Hle |]. split; [exact Hne |]. split.
        -- split.
           ++ intros k Hk. apply Hk0, insert_all_keys. right. exact Hk.
           ++ intros p' kv [<- | Hin] Hr' Hkv.
              ** simpl in Hkv. apply Hk0, insert_all_keys. left.
                 apply in_map. exact Hkv.
              ** exact (Hkp p' kv Hin Hr' Hkv).
        -- exists p. split; [| exact Hlast].
           destruct (keep dir_page_of tr) as [| q qs]; [discriminate Hl |].
           exact Hl.
      * simpl. split; [split; [reflexivity | split; [intros Hne; contradiction | exact I]] |].
        split; [| intros h E; discriminate E].
        intros r' imgs E. injection E as <- <-.
        split; [lia |]. split; [unfold ENOENT; lia |]. split.
        -- split.
           ++ intros k Hk. apply insert_all_keys. right. exact Hk.
           ++ intros p kv [<- | []] _ Hkv. simpl in Hkv.
              apply insert_all_keys. left. apply in_map. exact Hkv.
        -- eexists. split; [reflexivity |]. simpl.
           split; [intros; lia | intros _; right; split; assumption].
Qed.

(** X18. [list_images_v2] reads the directory page by page: the first
    page from the empty key, each later page from the last key of the
    page before it, and it reads on only after a full page. A directory
    that does not exist ends the listing with 0; any other failure of a
    read is returned. Whatever is returned, the images handed back hold
    the entries the caller passed in and the key of every entry of every
    page read with success. *)
Theorem list_images_v2_pages_through {W} (H : Handler W) (w : W)
  (fuel : nat) (io_ctx : IoCtx) (images : list (string * string)) :
  let tr := trace H (list_images_v2 fuel io_ctx "" images) w in
  let o := outcome H (list_images_v2 fuel io_ctx "" images) w in
  paged "" (dir_pages tr) /\
  (forall r imgs, o = Returned (r, imgs) ->
     r <= 0 /\ r <> - ENOENT /\
     pages_kept (map fst images) (dir_pages tr) (map fst imgs) /\
     exists p, last (dir_pages tr) = Some p /\
       (r < 0 -> p.2.1 = r) /\
       (r = 0 -> p.2.1 = - ENOENT \/
                 (0 <= p.2.1 /\ Z.of_nat (length p.2.2) <> max_read))) /\
  (forall h, o = Halted h -> length (dir_pages tr) = fuel).
Proof.
  exact (all_runs_sound _ _ (list_images_v2_pages fuel io_ctx "" images) W H w).
Qed.

Lemma list_images_v2_pages_through_witness :
  map fst (dir_pages (trace big_directory (list_images_v2 3 (mkIoCtx 1) "" []) tt))
  = [""%string; "a"%string] /\
  outcome big_directory (list_images_v2 3 (mkIoCtx 1) "" []) tt
  = Returned (0, [("a"%string, "1"%string); ("b"%string, "2"%string)]) /\
  pages_kept []
    (dir_pages (trace big_directory (list_images_v2 3 (mkIoCtx 1) "" []) tt))
    ["a"%string; "b"%string].
Proof.
  destruct (list_images_v2_pages_through big_directory tt 3 (mkIoCtx 1) [])
    as (_ & Hret & _).
  assert (E : outcome big_directory (list_images_v2 3 (mkIoCtx 1) "" []) tt
              = Returned (0, [("a"%string, "1"%string); ("b"%string, "2"%string)])).
  { vm_compute. reflexivity. }
  split; [vm_compute; reflexivity |]. split; [exact E |].
  destruct (Hret _ _ E) as (_ & _ & Hk & _). exact Hk.
Defined.

Lemma set_insert_keys (k k0 : string) (s : list string) :
  In k (set_insert k0 s) <-> k = k0 \/ In k s.
Proof.
  induction s as [| k' s IH]; simpl.
  - split; [intros [<- | []]; left; reflexivity | intros [-> | []]; left; reflexivity].
  - destruct (String.eqb_spec k0 k') as [<- | Hne]; simpl.
    + split; [intros Hin; right; exact Hin | intros [-> | Hin]; [left; reflexivity | exact Hin]].
    + destruct (String.ltb k0 k'); simpl; [split; intros Hin; intuition congruence |].
      rewrite IH. split; intros Hin; intuition congruence.
Qed.

Lemma insert_ids_keys (page : list (string * string)) (ids : list string) (k : string) :
  In k (insert_ids page ids) <-> In k (map fst page) \/ In k ids.
Proof.
  revert ids. induction page as [| [k0 v0] page IH]; intros ids; simpl.
  - split; [intros Hin; right; exact Hin | intros [[] | Hin]; exact Hin].
  - rewrite IH, set_insert_keys. simpl. split; intros Hin; intuition congruence.
Qed.

Lemma list_mirror_images_pages fuel io_ctx last_read ids :
  all_runs (list_mirror_images fuel io_ctx last_read ids)
    (fun tr o =>
       paged last_read (mirror_pages tr) /\
       (forall r ids', o = Returned (r, ids') ->
          r <= 0 /\
          pages_kept ids (mirror_pages tr) ids' /\
          exists p, last (mirror_pages tr) = Some p /\
            (r < 0 -> p.2.1 = r) /\
            (r = 0 -> 0 <= p.2.1 /\ Z.of_nat (length p.2.2) <> max_read)) /\
       (forall h, o = Halted h -> length (mirror_pages tr) = fuel)).
Proof.
  revert last_read ids. induction fuel as [| fuel IH]; intros last_read ids; simpl.
  - split; [exact I |]. split; [intros r ids' E; discriminate E | reflexivity].
  - intros [r page]. simpl.
    destruct (r <? 0) eqn:Er; simpl.
    + (* the read fails *)
      apply Z.ltb_lt in Er.
      split; [split; [reflexivity | split; [intros Hne; contradiction | exact I]] |].
      split; [| intros h E; discriminate E].
      intros r' ids' E. injection E as <- <-.
      split; [lia |]. split.
      * split; [intros k Hk; exact Hk |].
        intros p kv [<- | []] Hp. simpl in Hp. lia.
      * eexists. split; [reflexivity |]. simpl.
        split; [intros; reflexivity | intros; lia].
    + apply Z.ltb_ge in Er.
      destruct (Z.eqb_spec (Z.of_nat (length page)) max_read) as [Hfull | Hshort].
      * eapply all_runs_mono; [| apply IH].
        intros tr o (Hp & Hret & Hhalt). unfold mirror_pages in *.
        cbn [keep mirror_page_of].
        split; [split; [reflexivity |]; split; [intros _; split; assumption | exact Hp] |].
        split; [| intros h E; simpl; f_equal; exact (Hhalt h E)].
        intros r' ids' E. destruct (Hret r' ids' E) as (Hle & [Hk0 Hkp] & p & Hl & Hlast).
        split; [exact Hle |]. split.
        -- split.
           ++ intros k Hk. apply Hk0, insert_ids_keys. right. exact Hk.
           ++ intros p' kv [<- | Hin] Hr' Hkv.
              ** simpl in Hkv. apply Hk0, insert_ids_keys. left.
                 apply in_map. exact Hkv.
              ** exact (Hkp p' kv Hin Hr' Hkv).
        -- exists p. split; [| exact Hlast].
           destruct (keep mirror_page_of tr) as [| q qs]; [discriminate Hl |].
           exact Hl.
      * simpl.
        split; [split; [reflexivity | split; [intros Hne; contradiction | exact I]] |].
        split; [| intros h E; discriminate E].
        intros r' ids' E. injection E as <- <-.
        split; [lia |]. split.
        -- split.
           ++ intros k Hk. apply insert_ids_keys. right. exact Hk.
           ++ intros p kv [<- | []] _ Hkv. simpl in Hkv.
              apply insert_ids_keys. left. apply in_map. exact Hkv.
        -- eexists. split; [reflexivity |]. simpl.
           split; [intros; lia | intros _; split; assumption].
Qed.

(** X19. [list_mirror_images] pages through the mirroring directory as
    [list_images_v2] does through the image directory, except that every
    failure of a read is returned, a directory that does not exist
    included. The identifiers handed back hold those passed in and the
    key of every entry of every page read with success. *)
Theorem list_mirror_images_pages_through {W} (H : Handler W) (w : W)
  (fuel : nat) (io_ctx : IoCtx) (mirror_image_ids : list string) :
  let tr := trace H (list_mirror_images fuel io_ctx "" mirror_image_ids) w in
  let o := outcome H (list_mirror_images fuel io_ctx "" mirror_image_ids) w in
  paged "" (mirror_pages tr) /\
  (forall r ids', o = Returned (r, ids') ->
     r <= 0 /\
     pages_kept mirror_image_ids (mirror_pages tr) ids' /\
     exists p, last (mirror_pages tr) = Some p /\
       (r < 0 -> p.2.1 = r) /\
       (r = 0 -> 0 <= p.2.1 /\ Z.of_nat (length p.2.2) <> max_read)) /\
  (forall h, o = Halted h -> length (mirror_pages tr) = fuel).
Proof.
  exact (all_runs_sound _ _ (list_mirror_images_pages fuel io_ctx "" mirror_image_ids) W H w).
Qed.

Lemma list_mirror_images_pages_through_witness :
  outcome no_mirror_directory (list_mirror_images 3 (mkIoCtx 1) "" ["m"%string]) tt
  = Returned (- ENOENT, ["m"%string]) /\
  exists p,
    last (mirror_pages
            (trace no_mirror_directory (list_mirror_images 3 (mkIoCtx 1) "" ["m"%string]) tt))
    = Some p /\ p.2.1 = - ENOENT.
Proof.
  destruct (list_mirror_images_pages_through no_mirror_directory tt 3 (mkIoCtx 1)
              ["m"%string]) as (_ & Hret & _).
  split; [reflexivity |].
  destruct (Hret (- ENOENT) ["m"%string] eq_refl) as (_ & _ & p & Hl & Hneg & _).
  exists p. split; [exact Hl | apply Hneg; unfold ENOENT; lia].
Defined.

(** ** Pool mirror mode: the images a change opens *)

Local Transparent mirror_image_enable mirror_image_disable.

Lemma handle_free_bind {A B} (m : Prog A) (f : A -> Prog B) :
  handle_free m -> (forall a, handle_free (f a)) -> handle_free (bind m f).
Proof.
  unfold handle_free. intros Hm Hf. apply all_runs_bind.
  eapply all_runs_mono; [| exact Hm].
  intros t1 [a | h] Ht; [| exact Ht].
  eapply all_runs_mono; [| exact (Hf a)].
  intros t2 o2 Ht2. unfold open_closes in *. rewrite keep_app, Ht, Ht2. reflexivity.
Qed.

Lemma list_children_pools_handle_free parent_spec pools image_info :
  handle_free (list_children_pools parent_spec pools image_info).
Proof.
  unfold handle_free. revert image_info.
  induction pools as [| it pools IH]; intros image_info; simpl; [reflexivity |].
  crunch; try reflexivity; apply IH.
Qed.

Local Transparent list_children_info.

Lemma list_children_info_handle_free ictx parent_spec image_info :
  handle_free (list_children_info ictx parent_spec image_info).
Proof.
  unfold list_children_info, handle_free. simpl. intros [r ictx']. simpl.
  destruct (r <? 0); [reflexivity |].
  destruct (negb (test_features ictx' RBD_FEATURE_LAYERING)); [reflexivity |].
  simpl. intros [r' pools]. simpl.
  destruct (r' <? 0); [reflexivity |].
  apply (handle_free_bind (list_children_pools parent_spec pools [])).
  - apply list_children_pools_handle_free.
  - intros [r2 info]. reflexivity.
Qed.

Local Opaque list_children_info.

Lemma disable_check_ids_handle_free ioctx ids :
  handle_free (disable_check_ids ioctx ids).
Proof.
  unfold handle_free. induction ids as [| id_it ids IH]; simpl; [reflexivity |].
  crunch; try reflexivity. apply IH.
Qed.

Lemma disable_check_pools_handle_free image_info :
  handle_free (disable_check_pools image_info).
Proof.
  induction image_info as [| info image_info IH]; simpl; [reflexivity |].
  intros [r ioctx]. simpl. destruct (r <? 0); [reflexivity |].
  apply (handle_free_bind (disable_check_ids ioctx info.2)).
  - apply disable_check_ids_handle_free.
  - intros [r1 rb]. destruct rb; [reflexivity | exact IH].
Qed.

Local Transparent disable_check_snaps.

Lemma disable_check_snaps_handle_free ictx snap_info :
  handle_free (disable_check_snaps ictx snap_info).
Proof.
  revert ictx.
  induction snap_info as [| info snap_info IH]; intros ictx; simpl; [reflexivity |].
  apply handle_free_bind; [apply list_children_info_handle_free |].
  intros [[r image_info] ictx']. destruct (r <? 0); [reflexivity |].
  destruct (is_empty image_info); [apply IH |].
  apply handle_free_bind; [apply disable_check_pools_handle_free |].
  intros [r1 rb]. destruct rb; [reflexivity | apply IH].
Qed.

Local Opaque disable_check_snaps.
Local Transparent mirror_image_disable_guarded.

Lemma mirror_image_disable_guarded_handle_free ictx force :
  handle_free (mirror_image_disable_guarded ictx force).
Proof.
  unfold mirror_image_disable_guarded.
  apply handle_free_bind; [apply disable_check_snaps_handle_free |].
  intros [[r rb] i]. destruct rb; [reflexivity |].
  unfold handle_free. crunch; reflexivity.
Qed.

Local Opaque mirror_image_disable_guarded.

Lemma mirror_image_disable_handle_free ictx force :
  handle_free (mirror_image_disable ictx force).
Proof.
  unfold mirror_image_disable, handle_free. simpl. intros [r1 i1]. simpl.
  destruct (r1 <? 0); [reflexivity |]. simpl. intros [r2 mode]. simpl.
  destruct (r2 <? 0); [reflexivity |].
  destruct (negb (mode =? MIRROR_MODE_IMAGE)); [reflexivity |]. simpl.
  intros [r3 mi]. simpl.
  destruct (r3 =? - ENOENT); [reflexivity |].
  destruct (r3 =? - EOPNOTSUPP); [reflexivity |].
  destruct (r3 <? 0); [reflexivity |]. simpl.
  intros r4. destruct (r4 <? 0); [reflexivity |].
  apply (handle_free_bind (mirror_image_disable_guarded i1 force));
    [apply mirror_image_disable_guarded_handle_free |].
  intros [[r rb] i]. destruct rb; unfold handle_free; crunch; reflexivity.
Qed.

Lemma mirror_image_enable_handle_free ictx relax :
  handle_free (mirror_image_enable ictx relax).
Proof.
  unfold mirror_image_enable, mirror_image_enable_internal, handle_free.
  simpl. intros [r1 i1]. simpl. destruct (r1 <? 0); [reflexivity |].
  simpl. intros [r2 mode]. simpl. destruct (r2 <? 0); [reflexivity |].
  destruct (negb (mode =? MIRROR_MODE_IMAGE)); [reflexivity |].
  destruct (ic_parent i1) as [parent |]; crunch; reflexivity.
Qed.

Local Opaque mirror_image_enable mirror_image_disable.

Lemma list_images_v2_handle_free fuel io_ctx last_read images :
  handle_free (list_images_v2 fuel io_ctx last_read images).
Proof.
  unfold handle_free. revert last_read images.
  induction fuel as [| fuel IH]; intros last_read images; simpl; [reflexivity |].
  intros [r page]. simpl.
  destruct ((r <? 0) && negb (r =? - ENOENT)); [reflexivity |].
  destruct (r =? - ENOENT); [reflexivity |].
  destruct (Z.of_nat (length page) =? max_read); [apply IH | reflexivity].
Qed.

Lemma list_mirror_images_handle_free fuel io_ctx last_read ids :
  handle_free (list_mirror_images fuel io_ctx last_read ids).
Proof.
  unfold handle_free. revert last_read ids.
  induction fuel as [| fuel IH]; intros last_read ids; simpl; [reflexivity |].
  intros [r page]. simpl.
  destruct (r <? 0); [reflexivity |].
  destruct (Z.of_nat (length page) =? max_read); [apply IH | reflexivity].
Qed.

Lemma left_open_pair (l : list bool) : left_open l -> left_open (true :: false :: l).
Proof. intros [n ->]. exists (S n). reflexivity. Qed.

Lemma handles_post_closed (tr : list Event) (o : Outcome Z) :
  open_closes tr = [] -> handles_post tr o.
Proof. intros E. left. rewrite E. apply one_at_a_time_nil. Qed.

(** One round of a loop: the image is opened, [t1] neither opens nor
    closes, the image is closed and the loop goes on with [t2]. *)
Lemma handles_post_round (e1 e2 : Event) (t1 t2 : list Event) (o : Outcome Z) :
  open_close_of e1 = Some true -> open_close_of e2 = Some false ->
  open_closes t1 = [] -> handles_post t2 o ->
  handles_post (e1 :: t1 ++ e2 :: t2) o.
Proof.
  intros E1 E2 Ht1 Hpost. unfold handles_post, open_closes in *.
  cbn [keep]. rewrite E1, keep_app, Ht1. cbn [keep app]. rewrite E2.
  destruct Hpost as [Hb | [Hl Hr]].
  - left. apply one_at_a_time_pair. exact Hb.
  - right. split; [apply left_open_pair; exact Hl | exact Hr].
Qed.

(** The round that fails between the opening and the close. *)
Lemma handles_post_leak (e1 : Event) (t1 : list Event) (o : Outcome Z) :
  open_close_of e1 = Some true -> open_closes t1 = [] ->
  (forall r, o = Returned r -> r < 0) ->
  handles_post (e1 :: t1) o.
Proof.
  intros E1 Ht1 Hr. right. unfold open_closes in *. cbn [keep]. rewrite E1, Ht1.
  split; [exists 0%nat; reflexivity | exact Hr].
Qed.

Lemma handles_post_skip (e : Event) (tr : list Event) (o : Outcome Z) :
  open_close_of e = None -> handles_post tr o -> handles_post (e :: tr) o.
Proof.
  intros E Hpost. unfold handles_post, open_closes in *. cbn [keep]. rewrite E.
  exact Hpost.
Qed.

Lemma mirror_mode_enable_images_handles io_ctx images :
  all_runs (mirror_mode_enable_images io_ctx images) handles_post.
Proof.
  induction images as [| img_pair images IH]; simpl.
  - apply handles_post_closed. reflexivity.
  - intros [r features]. simpl. destruct (r <? 0); [apply handles_post_closed; reflexivity |].
    destruct (negb (Z.land features RBD_FEATURE_JOURNALING =? 0)).
    2: { eapply all_runs_mono; [| exact IH]. intros tr o.
         apply handles_post_skip. reflexivity. }
    simpl. intros [r1 img_ctx]. simpl. destruct (r1 <? 0) eqn:Er1.
    { apply handles_post_closed. unfold open_closes. simpl. rewrite Er1. reflexivity. }
    apply (all_runs_bind (mirror_image_enable img_ctx true)).
    eapply all_runs_mono; [| apply mirror_image_enable_handle_free].
    intros t1 [r2 | h] Ht1.
    2: { apply handles_post_skip; [reflexivity |]. apply handles_post_leak;
           [simpl; rewrite Er1; reflexivity | exact Ht1 | intros r0 E; discriminate E]. }
    destruct (r2 <? 0) eqn:Er2.
    { simpl. rewrite app_nil_r. apply handles_post_skip; [reflexivity |].
      apply handles_post_leak; [simpl; rewrite Er1; reflexivity | exact Ht1 |].
      intros r0 E. injection E as <-. apply Z.ltb_lt. exact Er2. }
    simpl. intros r3. destruct (r3 <? 0).
    { simpl. apply handles_post_skip; [reflexivity |].
      apply handles_post_round;
        [simpl; rewrite Er1; reflexivity | reflexivity | exact Ht1 |].
      apply handles_post_closed. reflexivity. }
    eapply all_runs_mono; [| exact IH]. intros t2 o Hpost.
    apply handles_post_skip; [reflexivity |].
    apply handles_post_round;
      [simpl; rewrite Er1; reflexivity | reflexivity | exact Ht1 | exact Hpost].
Qed.

Lemma mirror_mode_disable_images_handles io_ctx current image_ids :
  all_runs (mirror_mode_disable_images io_ctx current image_ids) handles_post.
Proof.
  induction image_ids as [| img_id image_ids IH]; simpl.
  - apply handles_post_closed. reflexivity.
  - destruct (current =? MIRROR_MODE_IMAGE); simpl.
    + intros [r mi]. simpl.
      destruct ((r <? 0) && negb (r =? - ENOENT)); [apply handles_post_closed; reflexivity |].
      destruct (mi_state mi);
        try (eapply all_runs_mono; [| exact IH]; intros tr o;
             apply handles_post_skip; reflexivity).
      apply handles_post_closed. reflexivity.
    + intros [r1 img_ctx]. simpl. destruct (r1 <? 0) eqn:Er1.
      { apply handles_post_closed. unfold open_closes. simpl. rewrite Er1. reflexivity. }
      apply (all_runs_bind (mirror_image_disable img_ctx false)).
      eapply all_runs_mono; [| apply mirror_image_disable_handle_free].
      intros t1 [r2 | h] Ht1.
      2: { apply handles_post_leak;
             [simpl; rewrite Er1; reflexivity | exact Ht1 | intros r0 E; discriminate E]. }
      destruct (r2 <? 0) eqn:Er2.
      { simpl. rewrite app_nil_r.
        apply handles_post_leak; [simpl; rewrite Er1; reflexivity | exact Ht1 |].
        intros r0 E. injection E as <-. apply Z.ltb_lt. exact Er2. }
      simpl. intros r3. destruct (r3 <? 0).
      { simpl. apply handles_post_round;
          [simpl; rewrite Er1; reflexivity | reflexivity | exact Ht1 |].
        apply handles_post_closed. reflexivity. }
      eapply all_runs_mono; [| exact IH]. intros t2 o Hpost.
      apply handles_post_round;
        [simpl; rewrite Er1; reflexivity | reflexivity | exact Ht1 | exact Hpost].
Qed.

Lemma handles_post_before (t1 t2 : list Event) (o : Outcome Z) :
  open_closes t1 = [] -> handles_post t2 o -> handles_post (t1 ++ t2) o.
Proof.
  intros E Hpost. unfold handles_post, open_closes in *. rewrite keep_app, E. exact Hpost.
Qed.

Lemma handles_post_after (t1 t2 : list Event) (r : Z) (o : Outcome Z) :
  handles_post t1 (Returned r) -> 0 <= r -> open_closes t2 = [] ->
  handles_post (t1 ++ t2) o.
Proof.
  intros [Hb | [_ Hr]] Hpos E.
  - left. unfold open_closes in *. rewrite keep_app, E, app_nil_r. exact Hb.
  - specialize (Hr r eq_refl). lia.
Qed.

Local Transparent mirror_mode_store mirror_mode_images mirror_mode_walk
  mirror_mode_transition.

Lemma mirror_mode_store_handle_free io_ctx next :
  handle_free (mirror_mode_store io_ctx next).
Proof. unfold mirror_mode_store, handle_free. crunch; reflexivity. Qed.

Local Opaque mirror_mode_store.

Lemma mirror_mode_images_handles fuel io_ctx current next :
  all_runs (mirror_mode_images fuel io_ctx current next) handles_post.
Proof.
  unfold mirror_mode_images.
  destruct (next =? MIRROR_MODE_IMAGE); [apply handles_post_closed; reflexivity |].
  destruct (next =? MIRROR_MODE_POOL); [| destruct (next =? MIRROR_MODE_DISABLED)].
  - apply all_runs_bind.
    eapply all_runs_mono; [| apply list_images_v2_handle_free].
    intros t1 [[r images] | h] Ht1; [| apply handles_post_closed; exact Ht1].
    destruct (r <? 0).
    { simpl. rewrite app_nil_r. apply handles_post_closed. exact Ht1. }
    apply all_runs_bind.
    eapply all_runs_mono; [| apply mirror_mode_enable_images_handles].
    intros t2 [r2 | h] Hpost; [| apply handles_post_before; assumption].
    destruct (r2 <? 0) eqn:Er2.
    { simpl. rewrite app_nil_r. apply handles_post_before; assumption. }
    eapply all_runs_mono; [| apply mirror_mode_store_handle_free].
    intros t3 o Ht3. apply handles_post_before; [exact Ht1 |].
    apply (handles_post_after t2 t3 r2 o Hpost); [apply Z.ltb_ge; exact Er2 | exact Ht3].
  - apply all_runs_bind.
    eapply all_runs_mono; [| apply list_mirror_images_handle_free].
    intros t1 [[r ids] | h] Ht1; [| apply handles_post_closed; exact Ht1].
    destruct (r <? 0).
    { simpl. rewrite app_nil_r. apply handles_post_closed. exact Ht1. }
    apply all_runs_bind.
    eapply all_runs_mono; [| apply mirror_mode_disable_images_handles].
    intros t2 [r2 | h] Hpost; [| apply handles_post_before; assumption].
    destruct (r2 <? 0) eqn:Er2.
    { simpl. rewrite app_nil_r. apply handles_post_before; assumption. }
    eapply all_runs_mono; [| apply mirror_mode_store_handle_free].
    intros t3 o Ht3. apply handles_post_before; [exact Ht1 |].
    apply (handles_post_after t2 t3 r2 o Hpost); [apply Z.ltb_ge; exact Er2 | exact Ht3].
  - eapply all_runs_mono; [| apply mirror_mode_store_handle_free].
    intros t o Ht. apply handles_post_closed. exact Ht.
Qed.

Local Opaque mirror_mode_images.

Lemma mirror_mode_set_handles fuel io_ctx mirror_mode :
  all_runs (mirror_mode_set fuel io_ctx mirror_mode) handles_post.
Proof.
  unfold mirror_mode_set, mirror_mode_transition, mirror_mode_walk.
  crunch.
  all: try (apply handles_post_closed; reflexivity).
  all: eapply all_runs_mono; [| apply mirror_mode_images_handles].
  all: intros tr o Hpost.
  all: repeat (apply handles_post_skip; [reflexivity |]).
  all: exact Hpost.
Qed.

Local Opaque mirror_mode_walk mirror_mode_transition.

(** X20. The images a change of mirror mode opens. They are open one at
    a time, and a change that returns 0 has closed every image it
    opened. At most the image opened last is left open, and only by a
    change that returns an error or does not return: the loops over the
    images return the error of enabling or disabling the mirroring of an
    image without closing the image. *)
Theorem mirror_mode_set_closes_images {W} (H : Handler W) (w : W)
  (fuel : nat) (io_ctx : IoCtx) (mirror_mode : Z) :
  let tr := trace H (mirror_mode_set fuel io_ctx mirror_mode) w in
  let o := outcome H (mirror_mode_set fuel io_ctx mirror_mode) w in
  (one_at_a_time (open_closes tr) \/
   (left_open (open_closes tr) /\ forall r, o = Returned r -> r < 0)) /\
  (o = Returned 0 -> one_at_a_time (open_closes tr)).
Proof.
  intros tr o.
  pose proof (all_runs_sound _ _ (mirror_mode_set_handles fuel io_ctx mirror_mode) W H w)
    as Hpost.
  fold tr in Hpost. fold o in Hpost. split; [exact Hpost |].
  intros E. destruct Hpost as [Hb | [_ Hr]]; [exact Hb |].
  specialize (Hr 0 E). lia.
Qed.

Lemma mirror_mode_set_closes_images_witness :
  open_closes (trace enable_fails (mirror_mode_set 4 (mkIoCtx 1) RBD_MIRROR_MODE_POOL)
                 MIRROR_MODE_DISABLED) = [true] /\
  left_open
    (open_closes (trace enable_fails (mirror_mode_set 4 (mkIoCtx 1) RBD_MIRROR_MODE_POOL)
                    MIRROR_MODE_DISABLED)) /\
  one_at_a_time
    (open_closes (trace two_pools (mirror_mode_set 4 (mkIoCtx 1) RBD_MIRROR_MODE_POOL) tt)).
Proof.
  split; [vm_compute; reflexivity |]. split.
  - destruct (mirror_mode_set_closes_images enable_fails MIRROR_MODE_DISABLED 4 (mkIoCtx 1)
                RBD_MIRROR_MODE_POOL) as [[Hb | [Hl _]] _]; [| exact Hl].
    destruct Hb as [[| n] Hn]; vm_compute in Hn; discriminate Hn.
  - apply (mirror_mode_set_closes_images two_pools tt 4 (mkIoCtx 1) RBD_MIRROR_MODE_POOL).
    vm_compute. reflexivity.
Defined.

(** ** The reads of a copy *)

Local Transparent complete poll wait_until wait_for_ret copy_loop copy_sweep.

Lemma complete_quiet dest st c : sweep_quiet (complete dest st c).
Proof.
  unfold sweep_quiet, complete, C_CopyRead_finish, reads, progress.
  destruct c as [[i r] bl]. destruct (cs_inflight st !! i) as [[offset len | offset wbl] |];
    crunch; split; reflexivity.
Qed.

Local Opaque complete.

Lemma sweep_quiet_bind {A B} (m : Prog A) (f : A -> Prog B) :
  sweep_quiet m -> (forall a, sweep_quiet (f a)) -> sweep_quiet (bind m f).
Proof.
  unfold sweep_quiet. intros Hm Hf. apply all_runs_bind.
  eapply all_runs_mono; [| exact Hm].
  intros t1 [a | h] [Hr Hp]; [| split; assumption].
  eapply all_runs_mono; [| exact (Hf a)].
  intros t2 o2 [Hr2 Hp2]. unfold reads, progress in *.
  rewrite !keep_app, Hr, Hp, Hr2, Hp2. split; reflexivity.
Qed.

Lemma sweep_quiet_ret {R} (r : R) : sweep_quiet (Ret r).
Proof. split; reflexivity. Qed.

Lemma sweep_quiet_stop {R} (h : Halt) : sweep_quiet (@Stop R h).
Proof. split; reflexivity. Qed.

Lemma sweep_quiet_cons {R} (e : Event) (p : Prog R) :
  read_of e = None -> progress_of e = None -> sweep_quiet p ->
  all_runs p (fun tr _ => reads (e :: tr) = [] /\ progress (e :: tr) = []).
Proof.
  intros Hr Hp Hq. eapply all_runs_mono; [| exact Hq].
  intros tr o [E1 E2]. unfold reads, progress in *. cbn [keep]. rewrite Hr, Hp.
  split; assumption.
Qed.

Lemma poll_quiet dest n st : sweep_quiet (poll dest n st).
Proof.
  revert st. induction n as [| n IH]; intros st; simpl; [apply sweep_quiet_ret |].
  intros [c |]; [| split; reflexivity].
  apply sweep_quiet_cons; [reflexivity | reflexivity |].
  apply sweep_quiet_bind; [apply complete_quiet |].
  intros [st' |]; [apply IH | apply sweep_quiet_ret].
Qed.

Lemma wait_until_quiet ready dest n st : sweep_quiet (wait_until ready dest n st).
Proof.
  revert st. induction n as [| n IH]; intros st; simpl.
  - destruct (ready (cs_throttle st)); [apply sweep_quiet_ret | apply sweep_quiet_stop].
  - destruct (ready (cs_throttle st)); [apply sweep_quiet_ret |].
    intros c. apply sweep_quiet_cons; [reflexivity | reflexivity |].
    apply sweep_quiet_bind; [apply complete_quiet |].
    intros [st' |]; [apply IH | apply sweep_quiet_stop].
Qed.

Lemma wait_for_ret_quiet dest st : sweep_quiet (wait_for_ret dest st).
Proof.
  unfold wait_for_ret. apply sweep_quiet_bind; [apply wait_until_quiet |].
  intros st'. apply sweep_quiet_ret.
Qed.

Local Opaque poll wait_until wait_for_ret.

Lemma copy_reads_post_quiet (period size offset : Z) (t1 t2 : list Event) (o : Outcome Z) :
  reads t1 = [] -> progress t1 = [] ->
  copy_reads_post period size offset t2 o ->
  copy_reads_post period size offset (t1 ++ t2) o.
Proof.
  intros Hr Hp Hpost. unfold copy_reads_post, reads, progress in *.
  rewrite !keep_app, Hr, Hp. exact Hpost.
Qed.

Lemma copy_reads_post_quiet_all (period size offset : Z) (t1 : list Event) (p : Prog Z) :
  reads t1 = [] -> progress t1 = [] ->
  all_runs p (copy_reads_post period size offset) ->
  all_runs p (fun t2 o => copy_reads_post period size offset (t1 ++ t2) o).
Proof.
  intros Hr Hp Hpost. eapply all_runs_mono; [| exact Hpost].
  intros t2 o. apply copy_reads_post_quiet; assumption.
Qed.

Lemma copy_reads_post_stop (period size offset : Z) (tr : list Event) (o : Outcome Z) :
  reads tr = [] -> progress tr = [] ->
  (forall r, o = Returned r -> r < 0) ->
  copy_reads_post period size offset tr o.
Proof.
  intros Hr Hp Ho. unfold copy_reads_post. rewrite Hr, Hp.
  split; [exact I |]. split; [reflexivity |]. split.
  - destruct o as [r | h]; [| reflexivity].
    specialize (Ho r eq_refl). destruct (Z.leb_spec 0 r); [lia | reflexivity].
  - intros r E Hpos. specialize (Ho r E). lia.
Qed.

Lemma copy_reads_post_step (src : ImageCtx) (period size offset : Z)
  (tr : list Event) (o : Outcome Z) :
  0 < period -> offset < size ->
  copy_reads_post period size (offset + period) tr o ->
  copy_reads_post period size offset
    (Ev (AioRead src offset (Z.min period (size - offset))) tt
       :: Ev (UpdateProgress offset size) tt :: tr) o.
Proof.
  intros Hp Hlt (Hch & Hend & Hprog & Hsum).
  unfold copy_reads_post, reads, progress in *. cbn [keep read_of progress_of map fst snd].
  split; [| split; [intros Hle; lia | split]].
  - cbn [chunked fst snd]. split; [reflexivity |]. split; [lia |]. split; [lia |].
    destruct (Z.le_gt_cases period (size - offset)) as [Hfull | Hshort].
    + rewrite Z.min_l by exact Hfull. exact Hch.
    + rewrite Hend by lia. exact I.
  - cbn [app]. f_equal. exact Hprog.
  - intros r E Hpos. unfold chunk_bytes in *. cbn [map foldr snd].
    rewrite (Hsum r E Hpos). lia.
Qed.

Local Transparent copy_loop.

Lemma copy_loop_reads fuel src dest src_size period st offset :
  m_ignore_enoent (cs_throttle st) = false ->
  0 < period -> 0 <= offset -> src_size + period <= 2 ^ 64 ->
  all_runs (copy_loop fuel src dest src_size period st offset)
    (copy_reads_post period src_size offset).
Proof.
  intros Hi Hp. revert st offset Hi.
  induction fuel as [| fuel IH]; intros st offset Hi Ho Hs.
  - simpl. apply copy_reads_post_stop; [reflexivity | reflexivity |].
    intros r E. discriminate E.
  - cbn [copy_loop]. destruct (offset <? src_size) eqn:Hlt.
    + apply Z.ltb_lt in Hlt. apply all_runs_bind.
      eapply all_runs_mono;
        [| apply all_runs_conj; [apply (poll_post dest _ st Hi) | apply poll_quiet]].
      intros t1 [st1 | h] [H1 [Hr1 Hp1]].
      2: { apply copy_reads_post_stop; [exact Hr1 | exact Hp1 |].
           intros r E. discriminate E. }
      pose proof (sweep_post_ignore _ _ _ H1 Hi) as Hi1.
      apply copy_reads_post_quiet_all; [exact Hr1 | exact Hp1 |].
      destruct (pending_error (cs_throttle st1)) eqn:Hpe.
      * eapply all_runs_mono;
          [| apply all_runs_conj;
             [apply (wait_for_ret_post dest st1 Hi1) | apply wait_for_ret_quiet]].
        intros t2 o2 [H2 [Hr2 Hp2]].
        apply copy_reads_post_stop; [exact Hr2 | exact Hp2 |].
        intros r E. subst o2. destruct H2 as (st2 & (Hret & _) & ->).
        unfold pending_error in Hpe. apply Z.ltb_lt in Hpe.
        rewrite (carry_kept _ _ Hpe) in Hret. lia.
      * apply all_runs_bind.
        eapply all_runs_mono;
          [| apply all_runs_conj;
             [apply (wait_until_post start_op_ready dest _ st1 Hi1)
             | apply wait_until_quiet]].
        intros t2 [st2 | h] [H2 [Hr2 Hp2]].
        2: { apply copy_reads_post_stop; [exact Hr2 | exact Hp2 |].
             intros r E. discriminate E. }
        destruct H2 as [H2 _].
        pose proof (sweep_post_ignore _ _ _ H2 Hi1) as Hi2.
        apply copy_reads_post_quiet_all; [exact Hr2 | exact Hp2 |].
        cbn [bind call all_runs]. intros [] [].
        assert (Hw1 : wrap64 (src_size - offset) = src_size - offset).
        { unfold wrap64. apply Z.mod_small. lia. }
        assert (Hw2 : wrap64 (offset + period) = offset + period).
        { unfold wrap64. apply Z.mod_small. lia. }
        rewrite Hw1, Hw2.
        eapply all_runs_mono; [| apply IH; [exact Hi2 | lia | exact Hs]].
        intros t3 o3 H3. apply copy_reads_post_step; assumption.
    + apply Z.ltb_ge in Hlt. apply all_runs_bind.
      eapply all_runs_mono;
        [| apply all_runs_conj;
           [apply (wait_for_ret_post dest st Hi) | apply wait_for_ret_quiet]].
      intros t1 [r | h] [H1 [Hr1 Hp1]].
      2: { apply copy_reads_post_stop; [exact Hr1 | exact Hp1 |].
           intros r E. discriminate E. }
      destruct (Z.geb_spec r 0) as [Hge | Hneg].
      * cbn [bind call all_runs]. intros [].
        unfold copy_reads_post, reads, progress in *.
        rewrite !keep_app, Hr1, Hp1. cbn [keep read_of progress_of app map].
        split; [exact I |]. split; [reflexivity |]. split.
        -- destruct (Z.leb_spec 0 r); [reflexivity | lia].
        -- intros r0 _ _. unfold chunk_bytes. simpl. lia.
      * cbn [all_runs]. rewrite app_nil_r.
        apply copy_reads_post_stop; [exact Hr1 | exact Hp1 |].
        intros r0 E. injection E as <-. exact Hneg.
Qed.

Local Opaque copy_loop.

Lemma copy_reads fuel src dest :
  0 < ic_stripe_period src ->
  get_image_size src (ic_snap_id src) + ic_stripe_period src <= 2 ^ 64 ->
  all_runs (copy fuel src dest)
    (copy_reads_post (ic_stripe_period src) (get_image_size src (ic_snap_id src)) 0).
Proof.
  intros Hp Hs. unfold copy.
  assert (Hsweep : all_runs (copy_sweep fuel src dest (get_image_size src (ic_snap_id src)))
            (copy_reads_post (ic_stripe_period src)
               (get_image_size src (ic_snap_id src)) 0)).
  { unfold copy_sweep. apply copy_loop_reads; [reflexivity | exact Hp | lia | exact Hs]. }
  destruct (get_image_size dest (ic_snap_id dest) <? get_image_size src (ic_snap_id src)).
  { apply copy_reads_post_stop; [reflexivity | reflexivity |].
    intros r E. injection E as <-. unfold EINVAL. lia. }
  cbn [bind call all_runs]. intros [r pairs].
  destruct ((r <? 0) && negb (r =? - EOPNOTSUPP) && negb (r =? - EIO)) eqn:Hfail.
  { cbn [all_runs]. apply copy_reads_post_stop; [reflexivity | reflexivity |].
    intros r0 E. injection E as <-.
    apply andb_true_iff in Hfail as [Hfail _]. apply andb_true_iff in Hfail as [Hfail _].
    apply Z.ltb_lt. exact Hfail. }
  destruct ((r =? 0) && negb (is_empty pairs)).
  - cbn [bind call all_runs]. intros r1. destruct (r1 <? 0) eqn:Er1.
    + cbn [all_runs]. apply copy_reads_post_stop; [reflexivity | reflexivity |].
      intros r0 E. injection E as <-. apply Z.ltb_lt. exact Er1.
    + apply (copy_reads_post_quiet_all _ _ _ [_; _]); [reflexivity | reflexivity |].
      exact Hsweep.
  - apply (copy_reads_post_quiet_all _ _ _ [_]); [reflexivity | reflexivity |].
    exact Hsweep.
Qed.

Local Opaque copy_sweep.

(** X21. A copy reads its source in chunks that follow one another from
    offset 0, none empty, none longer than the stripe period of the
    source and none past its end, and it reports the progress at the
    offset of each read as it is issued. A copy that does not return an
    error has read the whole source and reports the full progress last;
    a copy that fails or stops early reports no full progress. The
    stripe period is taken positive and the size of the source with one
    more period within 64 bits. *)
Theorem copy_reads_whole_source {W} (H : Handler W) (w : W) (fuel : nat)
  (src dest : ImageCtx) :
  let src_size := get_image_size src (ic_snap_id src) in
  let period := ic_stripe_period src in
  let o := outcome H (copy fuel src dest) w in
  let tr := trace H (copy fuel src dest) w in
  0 < period -> src_size + period <= 2 ^ 64 ->
  chunked period src_size 0 (reads tr) /\
  progress tr
    = map (fun c : Z * Z => (c.1, src_size)) (reads tr)
      ++ match o with
         | Returned r => if 0 <=? r then [(src_size, src_size)] else []
         | Halted _ => []
         end /\
  (forall r, o = Returned r -> 0 <= r -> chunk_bytes (reads tr) = Z.max 0 src_size).
Proof.
  intros src_size period o tr Hp Hs.
  destruct (all_runs_sound _ _ (copy_reads fuel src dest Hp Hs) W H w)
    as (Hch & _ & Hprog & Hsum).
  split; [exact Hch |]. split; [exact Hprog |].
  intros r E Hpos. etransitivity; [exact (Hsum r E Hpos) |]. f_equal. lia.
Qed.

Lemma copy_reads_whole_source_witness :
  reads (trace streaming (copy 5 (striped_image "a" "1") (striped_image "b" "2")) tt)
  = [(0, 4); (4, 4); (8, 2)] /\
  chunked 4 10 0
    (reads (trace streaming (copy 5 (striped_image "a" "1") (striped_image "b" "2")) tt)) /\
  chunk_bytes
    (reads (trace streaming (copy 5 (striped_image "a" "1") (striped_image "b" "2")) tt))
  = 10 /\
  progress (trace streaming (copy 5 (striped_image "a" "1") (striped_image "b" "2")) tt)
  = [(0, 10); (4, 10); (8, 10); (10, 10)].
Proof.
  destruct (copy_reads_whole_source streaming tt 5 (striped_image "a" "1")
              (striped_image "b" "2")) as (Hch & Hprog & Hsum);
    [vm_compute; reflexivity | vm_compute; discriminate |].
  split; [vm_compute; reflexivity |]. split; [exact Hch |].
  split; [apply (Hsum 0); [vm_compute; reflexivity | lia] |].
  rewrite Hprog. vm_compute. reflexivity.
Defined.

(** ** Pool mirror mode: the mode a change leaves *)

Lemma run_call {W R X} (H : Handler W) (op : Op X) (k : X -> Prog R) (w : W) :
  run H (Call op k) w
  = (outcome H (k (H X op w).1) (H X op w).2,
     final_state H (k (H X op w).1) (H X op w).2,
     Ev op (H X op w).1 :: trace H (k (H X op w).1) (H X op w).2).
Proof.
  unfold outcome, final_state, trace. simpl.
  destruct (H X op w) as [x w1]. simpl.
  destruct (run H (k x) w1) as [[o w2] tr]. reflexivity.
Qed.

Lemma final_state_replay {W R} (H : Handler W) (mode : W -> Z) (p : Prog R) (w : W) :
  keeps_mode H mode ->
  mode (final_state H p w) = replay (mode w) (trace H p w).
Proof.
  intros Hk. revert w. induction p as [r | X op k IH | h]; intros w.
  - reflexivity.
  - unfold final_state, trace. rewrite run_call. cbn [fst snd]. unfold replay.
    cbn [fold_left]. rewrite <- (proj1 (Hk X op w)). apply IH.
  - reflexivity.
Qed.

Lemma first_read_current {W R} (H : Handler W) (mode : W -> Z) (p : Prog R) (w : W)
  (pre post : list Event) (e : Event) (a : Z * Z) :
  keeps_mode H mode ->
  trace H p w = pre ++ e :: post -> mode_writes pre = [] ->
  mode_read_of e = Some a -> a = (0, mode w).
Proof.
  intros Hk. revert w pre. induction p as [r | X op k IH | h]; intros w pre Ht Hpre Ha.
  - destruct pre; discriminate Ht.
  - unfold trace in Ht. rewrite run_call in Ht. cbn [snd] in Ht.
    destruct pre as [| e0 pre].
    + injection Ht as <- _. exact (proj2 (Hk X op w) a Ha).
    + simpl in Ht. injection Ht as <- Ht.
      assert (Hnone : mode_write_of (Ev op (H X op w).1) = None).
      { unfold mode_writes in Hpre. cbn [keep] in Hpre.
        destruct (mode_write_of (Ev op (H X op w).1)); [discriminate Hpre | reflexivity]. }
      assert (Hrest : mode_writes pre = []).
      { unfold mode_writes in *. cbn [keep] in Hpre. rewrite Hnone in Hpre. exact Hpre. }
      pose proof (IH _ _ pre Ht Hrest Ha) as E. rewrite E. f_equal.
      rewrite (proj1 (Hk X op w)). unfold mode_step. rewrite Hnone. reflexivity.
  - destruct pre; discriminate Ht.
Qed.

Lemma replay_writes (m : Z) (tr : list Event) :
  replay m tr
  = fold_left (fun m (w : Z * Z) => if w.2 <? 0 then m else w.1) (mode_writes tr) m.
Proof.
  unfold replay, mode_writes. revert m. induction tr as [| e tr IH]; intros m; [reflexivity |].
  cbn [fold_left keep]. rewrite IH. unfold mode_step.
  destruct (mode_write_of e) as [[m' r] |]; reflexivity.
Qed.

Lemma replay_stored (m : Z) (ws : list (Z * Z)) (l : list Z) (x : Z) :
  map fst ws = l ++ [x] -> Forall (fun w : Z * Z => 0 <= w.2) ws ->
  fold_left (fun m (w : Z * Z) => if w.2 <? 0 then m else w.1) ws m = x.
Proof.
  revert m l. induction ws as [| [m' r] ws IH]; intros m l Hm Hf.
  - destruct l; discriminate Hm.
  - cbn [fold_left fst snd]. apply Forall_cons in Hf as [Hr Hf]. simpl in Hr.
    destruct (Z.ltb_spec r 0); [lia |].
    destruct l as [| y l]; simpl in Hm.
    + injection Hm as -> Hws. destruct ws; [reflexivity | discriminate Hws].
    + injection Hm as _ Hws. apply (IH _ l Hws Hf).
Qed.

Local Transparent mirror_mode_transition.

Lemma mirror_mode_set_reads_first fuel io_ctx mirror_mode :
  all_runs (mirror_mode_set fuel io_ctx mirror_mode)
    (fun tr o => o = Returned 0 ->
       ((mirror_mode = RBD_MIRROR_MODE_DISABLED \/ mirror_mode = RBD_MIRROR_MODE_IMAGE)
        \/ mirror_mode = RBD_MIRROR_MODE_POOL) /\
       exists pre a post, tr = pre ++ Ev (ClsMirrorModeGet io_ctx) a :: post /\
         mode_writes pre = [] /\ mode_reads pre = [] /\ 0 <= a.1).
Proof.
  unfold mirror_mode_set, mirror_mode_transition.
  destruct (Z.eqb_spec mirror_mode RBD_MIRROR_MODE_DISABLED) as [Hd | Hd];
    [| destruct (Z.eqb_spec mirror_mode RBD_MIRROR_MODE_IMAGE) as [Hi | Hi];
       [| destruct (Z.eqb_spec mirror_mode RBD_MIRROR_MODE_POOL) as [Hp | Hp]]];
    cbn [orb].
  4: { simpl. intros E. discriminate E. }
  all: destruct (mirror_mode =? MIRROR_MODE_DISABLED).
  all: cbn [bind call all_runs].
  all: try (intros [rp peers]; cbn [bind all_runs];
            destruct (rp <? 0) eqn:Erp; cbn [andb];
            [ destruct (Z.eqb_spec rp (- ENOENT)) as [Hen | Hen]; cbn [negb] | ];
            [ | cbn [all_runs]; intros E; injection E as ->; discriminate Erp | ];
            (destruct (negb (is_empty peers));
             [cbn [all_runs]; intros E; discriminate E |]);
            cbn [bind call all_runs]).
  all: intros [r current]; cbn [bind all_runs].
  all: destruct (r <? 0) eqn:Er;
    [cbn [all_runs]; intros E; injection E as ->; discriminate Er |].
  all: apply all_runs_any; intros tr o _; split; [tauto |].
  all: apply Z.ltb_ge in Er.
  all: first
    [ exists [], (r, current), tr; split; [reflexivity |];
      split; [reflexivity |]; split; [reflexivity | exact Er]
    | eexists [_], (r, current), tr; split; [reflexivity |];
      split; [reflexivity |]; split; [reflexivity | exact Er] ].
Qed.

Local Opaque mirror_mode_transition.

Lemma modes_stored_last (current next : Z) :
  current <> next -> exists l, modes_stored current next = l ++ [next].
Proof.
  intros Hne. unfold modes_stored.
  destruct (Z.eqb_spec next MIRROR_MODE_IMAGE) as [-> | Hn].
  - destruct (Z.eqb_spec current MIRROR_MODE_IMAGE) as [-> | Hc]; [contradiction |].
    exists []. reflexivity.
  - eexists. reflexivity.
Qed.

(** X22. On a store that keeps the mirror mode of its pool, a change of
    mode that returns 0 leaves the pool in the mode asked for, whatever
    mode it was in, and [mirror_mode_get] then returns that mode. *)
Theorem mirror_mode_set_then_get {W} (H : Handler W) (mode : W -> Z) (w : W)
  (fuel : nat) (io_ctx : IoCtx) (mirror_mode out : Z) :
  keeps_mode H mode ->
  outcome H (mirror_mode_set fuel io_ctx mirror_mode) w = Returned 0 ->
  let w' := final_state H (mirror_mode_set fuel io_ctx mirror_mode) w in
  mode w' = mirror_mode /\
  outcome H (mirror_mode_get io_ctx out) w' = Returned (0, mirror_mode).
Proof.
  intros Hk Hok w'.
  destruct (all_runs_sound _ _ (mirror_mode_set_reads_first fuel io_ctx mirror_mode) W H w Hok)
    as (Hvalid & pre & a & post & Htr & Hwpre & Hrpre & Ha).
  assert (Hcur : a = (0, mode w)).
  { apply (first_read_current H mode _ w pre post _ a Hk Htr Hwpre). reflexivity. }
  assert (Hhead : head (mode_reads (trace H (mirror_mode_set fuel io_ctx mirror_mode) w))
                  = Some (0, mode w)).
  { rewrite Htr. unfold mode_reads in *. rewrite keep_app, Hrpre, Hcur. reflexivity. }
  assert (Hmode : mode w' = mirror_mode).
  { unfold w'. rewrite (final_state_replay H mode _ w Hk), replay_writes.
    destruct (Z.eq_dec (mode w) mirror_mode) as [Hsame | Hdiff].
    - destruct (all_runs_sound _ _ (mirror_mode_set_guards_runs fuel io_ctx mirror_mode) W H w)
        as (_ & _ & Hread).
      destruct (Hread 0 (mode w) Hhead) as [_ Hnone].
      destruct (Hnone ltac:(lia) Hsame) as [_ ->]. exact Hsame.
    - destruct (all_runs_sound _ _ (mirror_mode_set_writes fuel io_ctx mirror_mode) W H w
                  0 (mode w) Hhead ltac:(lia) Hdiff) as (_ & Hstored & _).
      destruct (Hstored Hok) as [Hmap Hall].
      destruct (modes_stored_last _ _ Hdiff) as [l Hl]. rewrite Hl in Hmap.
      apply (replay_stored _ _ l _ Hmap Hall). }
  split; [exact Hmode |].
  unfold mirror_mode_get, outcome. cbn [bind call]. rewrite run_call. cbn [fst].
  pose proof (proj2 (Hk _ (ClsMirrorModeGet io_ctx) w') _ eq_refl) as Hget.
  rewrite Hget. cbn [bind fst snd]. rewrite Hmode. unfold outcome. simpl.
  destruct Hvalid as [[-> | ->] | ->]; reflexivity.
Qed.

Lemma mode_store_keeps_mode : keeps_mode mode_store (fun w => w).
Proof.
  intros X op w. destruct op; split; try reflexivity; intros a E; try discriminate E.
  injection E as <-. reflexivity.
Qed.

Lemma mirror_mode_set_then_get_witness :
  final_state mode_store (mirror_mode_set 4 (mkIoCtx 1) RBD_MIRROR_MODE_POOL)
    MIRROR_MODE_DISABLED = RBD_MIRROR_MODE_POOL /\
  outcome mode_store (mirror_mode_get (mkIoCtx 1) 7)
    (final_state mode_store (mirror_mode_set 4 (mkIoCtx 1) RBD_MIRROR_MODE_POOL)
       MIRROR_MODE_DISABLED)
  = Returned (0, RBD_MIRROR_MODE_POOL).
Proof.
  apply (mirror_mode_set_then_get mode_store (fun w => w) MIRROR_MODE_DISABLED 4
           (mkIoCtx 1) RBD_MIRROR_MODE_POOL 7 mode_store_keeps_mode).
  vm_compute. reflexivity.
Defined.

(** ** Pool mirror mode: the images the pool mode enables *)

Lemma opens_journaled_skip (e : Event) (tr : list Event) :
  open_of e = None -> feature_check_of e = None ->
  opens_journaled tr -> opens_journaled (e :: tr).
Proof.
  intros Ho Hf Hj. unfold opens_journaled, opens, feature_checks in *.
  cbn [keep]. rewrite Ho, Hf. exact Hj.
Qed.

Lemma opens_journaled_free (t1 t2 : list Event) :
  opens t1 = [] -> feature_checks t1 = [] ->
  opens_journaled t2 -> opens_journaled (t1 ++ t2).
Proof.
  intros Ho Hf Hj. unfold opens_journaled, opens, feature_checks in *.
  rewrite !keep_app, Ho, Hf. exact Hj.
Qed.

Lemma opens_journaled_nil (tr : list Event) :
  opens tr = [] -> feature_checks tr = [] -> opens_journaled tr.
Proof. intros Ho Hf. unfold opens_journaled. rewrite Ho, Hf. reflexivity. Qed.

Lemma features_free_bind {A B} (m : Prog A) (f : A -> Prog B) :
  features_free m -> (forall a, features_free (f a)) -> features_free (bind m f).
Proof.
  unfold features_free. intros Hm Hf. apply all_runs_bind.
  eapply all_runs_mono; [| exact Hm].
  intros t1 [a | h] [Ho Hc]; [| split; assumption].
  eapply all_runs_mono; [| exact (Hf a)].
  intros t2 o2 [Ho2 Hc2]. unfold opens, feature_checks in *.
  rewrite !keep_app, Ho, Hc, Ho2, Hc2. split; reflexivity.
Qed.

Local Transparent mirror_image_enable.

Lemma mirror_image_enable_features_free ictx relax :
  features_free (mirror_image_enable ictx relax).
Proof.
  unfold mirror_image_enable, mirror_image_enable_internal, features_free.
  simpl. intros [r1 i1]. simpl. destruct (r1 <? 0); [split; reflexivity |].
  simpl. intros [r2 mode]. simpl. destruct (r2 <? 0); [split; reflexivity |].
  destruct (negb (mode =? MIRROR_MODE_IMAGE)); [split; reflexivity |].
  destruct (ic_parent i1) as [parent |]; crunch; split; reflexivity.
Qed.

Local Opaque mirror_image_enable.

Lemma list_images_v2_features_free fuel io_ctx last_read images :
  features_free (list_images_v2 fuel io_ctx last_read images).
Proof.
  unfold features_free. revert last_read images.
  induction fuel as [| fuel IH]; intros last_read images; simpl; [split; reflexivity |].
  intros [r page]. simpl.
  destruct ((r <? 0) && negb (r =? - ENOENT)); [split; reflexivity |].
  destruct (r =? - ENOENT); [split; reflexivity |].
  destruct (Z.of_nat (length page) =? max_read); [apply IH | split; reflexivity].
Qed.

Lemma mirror_mode_enable_images_journaled io_ctx images :
  all_runs (mirror_mode_enable_images io_ctx images) (fun tr _ => opens_journaled tr).
Proof.
  induction images as [| img_pair images IH]; simpl; [reflexivity |].
  intros [r features]. simpl.
  assert (Hstep : forall (tr : list Event),
    journaled (header_name img_pair.2, (r, features)) = false ->
    opens_journaled tr ->
    opens_journaled
      (Ev (ClsGetFeatures io_ctx (header_name img_pair.2) CEPH_NOSNAP) (r, features) :: tr)).
  { intros tr Hj Htr. unfold opens_journaled, opens, feature_checks in *.
    cbn [keep open_of feature_check_of].
    rewrite filter_cons_False by (rewrite Hj; discriminate). exact Htr. }
  assert (Hopen : forall (x : Z * ImageCtx) (tr : list Event),
    journaled (header_name img_pair.2, (r, features)) = true ->
    opens_journaled tr ->
    opens_journaled
      (Ev (ClsGetFeatures io_ctx (header_name img_pair.2) CEPH_NOSNAP) (r, features)
         :: Ev (StateOpen io_ctx "" img_pair.2) x :: tr)).
  { intros x tr Hj Htr. unfold opens_journaled, opens, feature_checks in *.
    cbn [keep open_of feature_check_of].
    rewrite filter_cons_True by exact Hj. cbn [map fst]. f_equal. exact Htr. }
  destruct (r <? 0) eqn:Er; simpl.
  { apply Hstep; [| reflexivity]. unfold journaled. simpl.
    apply Z.ltb_lt in Er. destruct (Z.leb_spec 0 r); [lia | reflexivity]. }
  apply Z.ltb_ge in Er.
  destruct (Z.land features RBD_FEATURE_JOURNALING =? 0) eqn:Ej; simpl.
  { eapply all_runs_mono; [| exact IH]. intros tr o. apply Hstep.
    unfold journaled. cbn [fst snd]. rewrite Ej. apply andb_false_r. }
  assert (Hj : journaled (header_name img_pair.2, (r, features)) = true).
  { unfold journaled. cbn [fst snd]. rewrite Ej.
    destruct (Z.leb_spec 0 r); [reflexivity | lia]. }
  intros [r1 img_ctx]. simpl. destruct (r1 <? 0).
  { simpl. apply Hopen; [exact Hj | reflexivity]. }
  apply (all_runs_bind (mirror_image_enable img_ctx true)).
  eapply all_runs_mono; [| apply mirror_image_enable_features_free].
  intros t1 [r2 | h] [Ho1 Hc1].
  2: { apply Hopen; [exact Hj |]. apply opens_journaled_nil; assumption. }
  destruct (r2 <? 0).
  { simpl. rewrite app_nil_r. apply Hopen; [exact Hj |].
    apply opens_journaled_nil; assumption. }
  simpl. intros r3. destruct (r3 <? 0).
  { simpl. apply Hopen; [exact Hj |]. apply opens_journaled_free; [assumption .. |].
    reflexivity. }
  eapply all_runs_mono; [| exact IH]. intros t2 o Hpost.
  apply Hopen; [exact Hj |]. apply opens_journaled_free; [assumption .. |].
  apply opens_journaled_skip; [reflexivity | reflexivity | exact Hpost].
Qed.

Lemma opens_journaled_then_free (t1 t2 : list Event) :
  opens_journaled t1 -> opens t2 = [] -> feature_checks t2 = [] ->
  opens_journaled (t1 ++ t2).
Proof.
  intros Hj Ho Hf. unfold opens_journaled, opens, feature_checks in *.
  rewrite !keep_app, Ho, Hf, !app_nil_r. exact Hj.
Qed.

Local Transparent mirror_mode_store mirror_mode_images mirror_mode_walk
  mirror_mode_transition.

Lemma mirror_mode_store_features_free io_ctx next :
  features_free (mirror_mode_store io_ctx next).
Proof. unfold mirror_mode_store, features_free. crunch; split; reflexivity. Qed.

Local Opaque mirror_mode_store.

Lemma mirror_mode_images_journaled fuel io_ctx current :
  all_runs (mirror_mode_images fuel io_ctx current MIRROR_MODE_POOL)
    (fun tr _ => opens_journaled tr).
Proof.
  unfold mirror_mode_images. simpl.
  apply all_runs_bind.
  eapply all_runs_mono; [| apply list_images_v2_features_free].
  intros t1 [[r images] | h] [Ho1 Hf1]; [| apply opens_journaled_nil; assumption].
  destruct (r <? 0).
  { simpl. rewrite app_nil_r. apply opens_journaled_nil; assumption. }
  apply all_runs_bind.
  eapply all_runs_mono; [| apply mirror_mode_enable_images_journaled].
  intros t2 [r2 | h] Hj; [| apply opens_journaled_free; assumption].
  destruct (r2 <? 0).
  { simpl. rewrite app_nil_r. apply opens_journaled_free; assumption. }
  eapply all_runs_mono; [| apply mirror_mode_store_features_free].
  intros t3 o [Ho3 Hf3]. apply opens_journaled_free; [assumption .. |].
  apply opens_journaled_then_free; assumption.
Qed.

Local Opaque mirror_mode_images.

Lemma mirror_mode_set_pool_journaled fuel io_ctx :
  all_runs (mirror_mode_set fuel io_ctx RBD_MIRROR_MODE_POOL)
    (fun tr _ => opens_journaled tr).
Proof.
  unfold mirror_mode_set, mirror_mode_transition, mirror_mode_walk.
  change RBD_MIRROR_MODE_POOL with MIRROR_MODE_POOL. simpl.
  crunch.
  all: try reflexivity.
  all: eapply all_runs_mono; [| apply mirror_mode_images_journaled].
  all: intros tr o Hpost.
  all: repeat (apply opens_journaled_skip; [reflexivity | reflexivity |]).
  all: exact Hpost.
Qed.

Local Opaque mirror_mode_walk mirror_mode_transition.

(** X23. A change to the pool mode opens the images whose header it
    read with success and found to have the journaling feature, in the
    order it read them, and no other image. *)
Theorem mirror_mode_set_pool_opens_journaled {W} (H : Handler W) (w : W)
  (fuel : nat) (io_ctx : IoCtx) :
  let tr := trace H (mirror_mode_set fuel io_ctx RBD_MIRROR_MODE_POOL) w in
  map header_name (opens tr)
  = map fst (filter (fun c => journaled c = true) (feature_checks tr)).
Proof.
  exact (all_runs_sound _ _ (mirror_mode_set_pool_journaled fuel io_ctx) W H w).
Qed.

Lemma mirror_mode_set_pool_opens_journaled_witness :
  map fst (feature_checks
             (trace mixed_pool (mirror_mode_set 4 (mkIoCtx 1) RBD_MIRROR_MODE_POOL)
                MIRROR_MODE_DISABLED))
  = [header_name "1"; header_name "2"] /\
  map header_name
    (opens (trace mixed_pool (mirror_mode_set 4 (mkIoCtx 1) RBD_MIRROR_MODE_POOL)
              MIRROR_MODE_DISABLED))
  = [header_name "2"].
Proof.
  split; [vm_compute; reflexivity |].
  rewrite (mirror_mode_set_pool_opens_journaled mixed_pool MIRROR_MODE_DISABLED 4 (mkIoCtx 1)).
  vm_compute. reflexivity.
Defined.

(** ** Pool mirror mode: disabling in image mode *)

Lemma disable_checked_post_quiet (t1 t2 : list Event) (o : Outcome Z) :
  opens t1 = [] -> records t1 = [] -> mode_writes t1 = [] ->
  disable_checked_post t2 o -> disable_checked_post (t1 ++ t2) o.
Proof.
  intros Ho Hr Hw Hpost. unfold disable_checked_post, opens, records, mode_writes in *.
  rewrite !keep_app, Ho, Hr, Hw. exact Hpost.
Qed.

Lemma disable_checked_post_nil (tr : list Event) (o : Outcome Z) :
  opens tr = [] -> records tr = [] -> disable_checked_post tr o.
Proof.
  intros Ho Hr. unfold disable_checked_post. rewrite Ho, Hr.
  split; [reflexivity |]. split; [intros r _ _; constructor |].
  intros Hex. inversion Hex.
Qed.

Lemma mirror_mode_disable_images_checked io_ctx image_ids :
  all_runs (mirror_mode_disable_images io_ctx MIRROR_MODE_IMAGE image_ids)
    (fun tr o => disable_checked_post tr o /\ mode_writes tr = [] /\
                 exists v, o = Returned v).
Proof.
  induction image_ids as [| img_id image_ids IH]; simpl.
  - split; [apply disable_checked_post_nil; reflexivity |]. split; [reflexivity | eauto].
  - intros [r mi]. simpl.
    destruct ((r <? 0) && negb (r =? - ENOENT)) eqn:Efail; simpl.
    { split; [| split; [reflexivity | eauto]].
      split; [reflexivity |]. split.
      - intros r0 E Hpos. injection E as <-.
        apply andb_true_iff in Efail as [Hneg _]. apply Z.ltb_lt in Hneg. lia.
      - intros _. split; [reflexivity |]. exists r. split; [reflexivity |].
        apply andb_true_iff in Efail as [Hneg _]. apply Z.ltb_lt. exact Hneg. }
    destruct (mi_state mi) eqn:Est.
    2: { simpl. split; [| split; [reflexivity | eauto]].
         split; [reflexivity |].
         split; [intros r0 E Hpos; injection E as <-; revert Hpos; unfold EINVAL; lia |].
         intros _. split; [reflexivity |]. exists (- EINVAL).
         split; [reflexivity | unfold EINVAL; lia]. }
    all: eapply all_runs_mono; [| exact IH].
    all: intros tr o ((Ho & Hok & Hex) & Hw & Hv).
    all: split; [| split; [exact Hw | exact Hv]].
    all: unfold disable_checked_post, opens, records in *; cbn [keep open_of record_of].
    all: split; [exact Ho |]; split.
    all: try (intros r0 E Hpos; constructor;
              [unfold enabled_record; simpl; congruence | exact (Hok r0 E Hpos)]).
    all: intros Hex'; apply Exists_cons in Hex' as [Hbad | Hex'];
      [unfold enabled_record in Hbad; simpl in Hbad; congruence | exact (Hex Hex')].
Qed.

Lemma list_mirror_images_check_free fuel io_ctx last_read ids :
  all_runs (list_mirror_images fuel io_ctx last_read ids)
    (fun tr _ => opens tr = [] /\ records tr = [] /\ mode_writes tr = []).
Proof.
  revert last_read ids.
  induction fuel as [| fuel IH]; intros last_read ids; simpl; [repeat split |].
  intros [r page]. simpl.
  destruct (r <? 0); [repeat split |].
  destruct (Z.of_nat (length page) =? max_read); [apply IH | repeat split].
Qed.

Local Transparent mirror_mode_store mirror_mode_images mirror_mode_walk
  mirror_mode_transition.

Lemma mirror_mode_store_check_free io_ctx next :
  all_runs (mirror_mode_store io_ctx next)
    (fun tr _ => opens tr = [] /\ records tr = []).
Proof. unfold mirror_mode_store. crunch; split; reflexivity. Qed.

Local Opaque mirror_mode_store.

Lemma mirror_mode_images_checked fuel io_ctx :
  all_runs (mirror_mode_images fuel io_ctx MIRROR_MODE_IMAGE MIRROR_MODE_DISABLED)
    disable_checked_post.
Proof.
  unfold mirror_mode_images. simpl.
  apply all_runs_bind.
  eapply all_runs_mono; [| apply list_mirror_images_check_free].
  intros t1 [[r ids] | h] (Ho1 & Hr1 & Hw1);
    [| apply disable_checked_post_nil; assumption].
  destruct (r <? 0).
  { simpl. rewrite app_nil_r. apply disable_checked_post_nil; assumption. }
  apply all_runs_bind.
  eapply all_runs_mono; [| apply mirror_mode_disable_images_checked].
  intros t2 [r2 | h] (Hpost & Hw2 & v & Hv); [| discriminate Hv].
  eapply all_runs_mono;
    [intros t3 o Hq;
     apply (disable_checked_post_quiet t1 (t2 ++ t3) o Ho1 Hr1 Hw1); exact Hq |].
  destruct (r2 <? 0) eqn:Er2.
  { simpl. rewrite app_nil_r. exact Hpost. }
  apply Z.ltb_ge in Er2.
  eapply all_runs_mono; [| apply mirror_mode_store_check_free].
  intros t3 o [Ho3 Hr3]. destruct Hpost as (Ho2 & Hok & Hex).
  unfold disable_checked_post, opens, records in *.
  rewrite !keep_app, Ho2, Ho3, Hr3, !app_nil_r.
  split; [reflexivity |]. split.
  - intros r0 _ _. exact (Hok r2 eq_refl Er2).
  - intros Hbad. destruct (Hex Hbad) as (_ & r0 & E & Hneg). injection E as <-. lia.
Qed.

Local Opaque mirror_mode_images.

Lemma mirror_mode_set_disable_checked fuel io_ctx :
  all_runs (mirror_mode_set fuel io_ctx RBD_MIRROR_MODE_DISABLED)
    (fun tr o => forall r, head (mode_reads tr) = Some (r, MIRROR_MODE_IMAGE) -> 0 <= r ->
       disable_checked_post tr o).
Proof.
  unfold mirror_mode_set, mirror_mode_transition, mirror_mode_walk.
  change RBD_MIRROR_MODE_DISABLED with MIRROR_MODE_DISABLED. simpl.
  intros [rp peers]. simpl.
  destruct ((rp <? 0) && negb (rp =? - ENOENT)); simpl; [intros r E; discriminate E |].
  destruct (negb (is_empty peers)); simpl; [intros r E; discriminate E |].
  intros [r current]. simpl.
  destruct (r <? 0) eqn:Er; simpl.
  { intros r0 E Hpos. injection E as <- _. apply Z.ltb_lt in Er. lia. }
  destruct (Z.eq_dec current MIRROR_MODE_IMAGE) as [-> | Hne].
  2: { apply all_runs_any. intros tr o r0 E. simpl in E. injection E as _ E'.
       contradiction. }
  simpl.
  eapply all_runs_mono; [| apply mirror_mode_images_checked].
  intros tr o Hpost r0 _ _.
  apply (disable_checked_post_quiet [_; _] tr o); [reflexivity .. | exact Hpost].
Qed.

Local Opaque mirror_mode_walk mirror_mode_transition.

(** X24. Disabling the mirroring of a pool that is in image mode only
    checks the images: none is opened. A call that returns no error has
    read no mirror record that is enabled; once a record is read as
    enabled the call returns an error and stores no mode, so the pool
    stays in image mode. *)
Theorem mirror_mode_set_disable_checks_images {W} (H : Handler W) (w : W)
  (fuel : nat) (io_ctx : IoCtx) (r : Z) :
  let tr := trace H (mirror_mode_set fuel io_ctx RBD_MIRROR_MODE_DISABLED) w in
  let o := outcome H (mirror_mode_set fuel io_ctx RBD_MIRROR_MODE_DISABLED) w in
  head (mode_reads tr) = Some (r, MIRROR_MODE_IMAGE) -> 0 <= r ->
  opens tr = [] /\
  (forall r', o = Returned r' -> 0 <= r' ->
     Forall (fun rec => ~ enabled_record rec) (records tr)) /\
  (Exists enabled_record (records tr) ->
     mode_writes tr = [] /\ exists r', o = Returned r' /\ r' < 0).
Proof.
  exact (all_runs_sound _ _ (mirror_mode_set_disable_checked fuel io_ctx) W H w r).
Qed.

Lemma mirror_mode_set_disable_checks_images_witness :
  opens (trace image_still_enabled
           (mirror_mode_set 4 (mkIoCtx 1) RBD_MIRROR_MODE_DISABLED) tt) = [] /\
  mode_writes (trace image_still_enabled
                 (mirror_mode_set 4 (mkIoCtx 1) RBD_MIRROR_MODE_DISABLED) tt) = [] /\
  outcome image_still_enabled (mirror_mode_set 4 (mkIoCtx 1) RBD_MIRROR_MODE_DISABLED) tt
  = Returned (- EINVAL).
Proof.
  destruct (mirror_mode_set_disable_checks_images image_still_enabled tt 4 (mkIoCtx 1) 0
              eq_refl ltac:(lia)) as (Ho & _ & Hex).
  split; [exact Ho |].
  destruct Hex as [Hw _].
  { vm_compute. left. reflexivity. }
  split; [exact Hw | reflexivity].
Defined.
